(** * Log chunk codec of pkg/chunkenc/memchunk.go: a shallow embedding

    The development follows the layout of the Go package.  Conventions:

    - a Go [byte] is a [Z] in [0, 256); a [[]byte] or [string] is a list of
      bytes ([bytes]);
    - [uint32], [uint64] and [int64] values are [Z] with the wrap-around
      written out ([uint32], [uint64], [int64] below); a Go [int] that counts
      bytes or entries held in memory is a plain [Z];
    - a [time.Time] is its [UnixNano()] value, a [Z] of nanoseconds;
    - a pull iterator is the list of entries it emits, in emission order;
    - a function that may fail returns a [result]; a run-time panic of the Go
      code (a slice expression out of range) is the outcome [Panic]. *)

From Stdlib Require Import ZArith List Lia Bool Sorted Permutation.
Import ListNotations.
Local Open Scope Z_scope.

Set Implicit Arguments.

(** ** Bytes, fixed-width integers and slices *)

Definition byte := Z.
Definition bytes := list byte.

Definition len {A : Type} (l : list A) : Z := Z.of_nat (length l).

Definition to_byte (x : Z) : byte := x mod 256.
Definition uint32 (x : Z) : Z := x mod 2 ^ 32.
Definition uint64 (x : Z) : Z := x mod 2 ^ 64.
Definition int64 (x : Z) : Z :=
  let u := x mod 2 ^ 64 in if u <? 2 ^ 63 then u else u - 2 ^ 64.

(** [int] is 64 bits wide on the platforms the package is built for. *)
Definition int (x : Z) : Z := int64 x.

Definition in_int64 (x : Z) : Prop := - 2 ^ 63 <= x < 2 ^ 63.

(** The slice expression [b[lo:hi]]; [None] is the run-time panic.  The
    capacity of a slice is taken to be its length. *)
Definition slice {A : Type} (b : list A) (lo hi : Z) : option (list A) :=
  if (0 <=? lo) && (lo <=? hi) && (hi <=? len b)
  then Some (firstn (Z.to_nat (hi - lo)) (skipn (Z.to_nat lo) b))
  else None.

(** [b[lo:]] *)
Definition slice_from {A : Type} (b : list A) (lo : Z) : option (list A) :=
  slice b lo (len b).

(** ** Errors and outcomes *)

Inductive error : Type :=
| ErrOutOfOrder
| ErrInvalidChecksum
| ErrInvalidSize
| ErrSliceNoDataInRange
| ErrInvalidMagic (m : Z)        (* "invalid magic number %x" *)
| ErrInvalidVersion (v : Z)      (* "invalid version %d" *)
| ErrInvalidData                 (* "invalid data in chunk" *)
| ErrLineTooLong (n : Z)         (* "line too long %d, maximum %d" *)
| ErrEOF                         (* io.EOF *)
| ErrReader                      (* an error of the decompressing reader *)
| ErrSymbols                     (* an error of symbolizerFromEnc *)
| ErrWrap (msg : nat) (e : error). (* errors.Wrap(e, msg) *)

Inductive result (A : Type) : Type :=
| Ok (a : A)
| Err (e : error)
| Panic
| OutOfFuel.

Arguments Ok {A} a.
Arguments Err {A} e.
Arguments Panic {A}.
Arguments OutOfFuel {A}.

Definition bind {A B : Type} (r : result A) (k : A -> result B) : result B :=
  match r with
  | Ok a => k a
  | Err e => Err e
  | Panic => Panic
  | OutOfFuel => OutOfFuel
  end.

Definition of_slice {A : Type} (o : option A) : result A :=
  match o with Some a => Ok a | None => Panic end.

Declare Scope result_scope.
Delimit Scope result_scope with result.
Notation "x <- r ;; k" := (bind r (fun x => k))
  (at level 61, r at next level, right associativity) : result_scope.
Notation "' p <- r ;; k" := (bind r (fun x => let p := x in k))
  (at level 61, p pattern, r at next level, right associativity) : result_scope.

(** ** encoding/binary *)

Module Binary.

Definition MaxVarintLen64 : Z := 10.

(** [PutUvarint]: the loop [for x >= 0x80 { buf[i] = byte(x) | 0x80; x >>= 7 }]
    runs at most nine times on a [uint64]. *)
Fixpoint putUvarintLoop (fuel : nat) (x : Z) : bytes :=
  match fuel with
  | O => [to_byte x]
  | S fuel' =>
      if 128 <=? x
      then Z.lor (to_byte x) 128 :: putUvarintLoop fuel' (Z.shiftr x 7)
      else [to_byte x]
  end.

Definition PutUvarint (x : Z) : bytes := putUvarintLoop 9 (uint64 x).

(** [Uvarint]: returns the value and the number of bytes read; the number
    is 0 when the buffer is too small and [-(i+1)] on overflow. *)
Fixpoint uvarintLoop (buf : bytes) (i x s : Z) : Z * Z :=
  match buf with
  | [] => (0, 0)
  | b :: rest =>
      if i =? MaxVarintLen64 then (0, - (i + 1))
      else if b <? 128 then
        if (i =? MaxVarintLen64 - 1) && (1 <? b) then (0, - (i + 1))
        else (Z.lor x (uint64 (Z.shiftl b s)), i + 1)
      else uvarintLoop rest (i + 1)
             (Z.lor x (uint64 (Z.shiftl (Z.land b 127) s))) (s + 7)
  end.

Definition Uvarint (buf : bytes) : Z * Z := uvarintLoop buf 0 0 0.

(** [PutVarint]: zig-zag, then [PutUvarint]. *)
Definition PutVarint (x : Z) : bytes :=
  let ux := uint64 (Z.shiftl (uint64 x) 1) in
  let ux := if x <? 0 then uint64 (Z.lnot ux) else ux in
  PutUvarint ux.

Definition Varint (buf : bytes) : Z * Z :=
  let (ux, n) := Uvarint buf in
  let x := int64 (Z.shiftr ux 1) in
  let x := if Z.land ux 1 =? 0 then x else int64 (Z.lnot x) in
  (x, n).

(** [BigEndian.PutUint32], [BigEndian.Uint32] and the 64-bit versions;
    reading from a buffer that is too short panics. *)
Definition PutUint32 (v : Z) : bytes :=
  [to_byte (Z.shiftr v 24); to_byte (Z.shiftr v 16);
   to_byte (Z.shiftr v 8); to_byte v].

Definition Uint32 (b : bytes) : option Z :=
  match b with
  | b0 :: b1 :: b2 :: b3 :: _ =>
      Some (Z.lor (Z.lor (Z.lor b3 (Z.shiftl b2 8)) (Z.shiftl b1 16))
              (Z.shiftl b0 24))
  | _ => None
  end.

Definition PutUint64 (v : Z) : bytes :=
  PutUint32 (Z.shiftr v 32) ++ PutUint32 v.

Definition Uint64 (b : bytes) : option Z :=
  match Uint32 b, Uint32 (skipn 4 b) with
  | Some hi, Some lo => Some (Z.lor lo (Z.shiftl hi 32))
  | _, _ => None
  end.

End Binary.

(** ** hash/crc32 with the Castagnoli polynomial *)

Module Crc32.

Definition Castagnoli : Z := 0x82f63b78.

Definition shift1 (crc : Z) : Z :=
  if Z.odd crc then Z.lxor (Z.shiftr crc 1) Castagnoli else Z.shiftr crc 1.

Definition update1 (crc : Z) (b : byte) : Z :=
  Nat.iter 8 shift1 (Z.lxor crc (to_byte b)).

Definition Update (crc : Z) (p : bytes) : Z :=
  uint32 (Z.lxor (fold_left update1 p (Z.lxor (uint32 crc) 0xffffffff))
            0xffffffff).

Definition Checksum (p : bytes) : Z := Update 0 p.

End Crc32.

(** ** encbuf and decbuf *)

(** Modelled from the spec: the encode and decode buffers
    (encoding_helpers.go) are not among the sources.  Per the spec they are
    the varint/uvarint encoders, big-endian integers and CRC32-Castagnoli
    hashing over a byte buffer; a [decbuf] keeps the first error it meets
    and from then on returns zero values. *)
Definition encbuf := bytes.

Definition putByte (eb : encbuf) (c : byte) : encbuf := eb ++ [c].
Definition putBE32 (eb : encbuf) (x : Z) : encbuf := eb ++ Binary.PutUint32 x.
Definition putBE64int (eb : encbuf) (x : Z) : encbuf := eb ++ Binary.PutUint64 (uint64 x).
Definition putUvarint (eb : encbuf) (x : Z) : encbuf := eb ++ Binary.PutUvarint (uint64 x).
Definition putVarint64 (eb : encbuf) (x : Z) : encbuf := eb ++ Binary.PutVarint x.
(** [putHash h]: [h.Reset(); h.Write(e.b); e.b = h.Sum(e.b)] *)
Definition putHash (eb : encbuf) : encbuf := eb ++ Binary.PutUint32 (Crc32.Checksum eb).

Record decbuf : Type := { db_b : bytes; db_e : option error }.

Definition mkdecbuf (b : bytes) : decbuf := {| db_b := b; db_e := None |}.
Definition db_fail (d : decbuf) : decbuf := {| db_b := db_b d; db_e := Some ErrInvalidSize |}.
Definition db_err (d : decbuf) : option error := db_e d.

Definition db_be32 (d : decbuf) : Z * decbuf :=
  match db_e d with
  | Some _ => (0, d)
  | None =>
      match Binary.Uint32 (db_b d) with
      | Some x => (x, {| db_b := skipn 4 (db_b d); db_e := None |})
      | None => (0, db_fail d)
      end
  end.

Definition db_byte (d : decbuf) : Z * decbuf :=
  match db_e d with
  | Some _ => (0, d)
  | None =>
      match db_b d with
      | x :: rest => (x, {| db_b := rest; db_e := None |})
      | [] => (0, db_fail d)
      end
  end.

Definition db_uvarint64 (d : decbuf) : Z * decbuf :=
  match db_e d with
  | Some _ => (0, d)
  | None =>
      let (x, n) := Binary.Uvarint (db_b d) in
      if n <? 1 then (0, db_fail d)
      else (x, {| db_b := skipn (Z.to_nat n) (db_b d); db_e := None |})
  end.

Definition db_uvarint (d : decbuf) : Z * decbuf :=
  let (x, d') := db_uvarint64 d in (int x, d').

Definition db_varint64 (d : decbuf) : Z * decbuf :=
  match db_e d with
  | Some _ => (0, d)
  | None =>
      let (x, n) := Binary.Varint (db_b d) in
      if n <? 1 then (0, db_fail d)
      else (x, {| db_b := skipn (Z.to_nat n) (db_b d); db_e := None |})
  end.

Definition db_crc32 (d : decbuf) : Z := Crc32.Checksum (db_b d).

(** Modelled from the spec: [decbuf.bytes(n)] of the decode buffer
    (encoding_helpers.go, not among the sources) takes the next [n] bytes, as
    the other readings take their bytes; it fails with [ErrInvalidSize] when
    fewer are left, and the slice expression [d.b[:n]] panics on a negative
    [n] ([None]). *)
Definition db_bytes (d : decbuf) (n : Z) : option (bytes * decbuf) :=
  match db_e d with
  | Some _ => Some ([], d)
  | None =>
      if len (db_b d) <? n then Some ([], db_fail d)
      else
        match slice (db_b d) 0 n with
        | Some x => Some (x, {| db_b := skipn (Z.to_nat n) (db_b d); db_e := None |})
        | None => None
        end
  end.

(** ** Constants of the package *)

Definition chunkFormatV1 : Z := 1.
Definition chunkFormatV2 : Z := 2.
Definition chunkFormatV3 : Z := 3.
Definition chunkFormatV4 : Z := 4.
Definition DefaultChunkFormat : Z := chunkFormatV3.

Definition blocksPerChunk : Z := 10.
Definition maxLineLength : Z := 1024 * 1024 * 1024.
Definition defaultBlockSize : Z := 256 * 1024.

Definition chunkMetasSectionIdx : Z := 1.
Definition chunkNonIndexedLabelsSectionIdx : Z := 2.

Definition OrderedHeadBlockFmt : Z := 3.
Definition UnorderedHeadBlockFmt : Z := 4.
Definition UnorderedWithNonIndexedLabelsHeadBlockFmt : Z := 5.
Definition DefaultHeadBlockFmt : Z := UnorderedHeadBlockFmt.

Definition magicNumber : Z := 0x12EE56A.

(** The codecs ([Encoding]) are the bytes the spec enumerates. *)
Definition Encoding := Z.
Definition EncNone : Encoding := 0.
Definition EncGZIP : Encoding := 1.

Definition Millisecond : Z := 1000000.

Inductive Direction : Type := FORWARD | BACKWARD.

(** ** Entries, labels and the symbol table *)

Definition label : Type := (bytes * bytes)%type.
Definition labels : Type := list label.

(** [logproto.Entry] *)
Record Entry : Type :=
  { Timestamp : Z; Line : bytes; NonIndexedLabels : labels }.

(** [entry] of a head block *)
Record entry : Type :=
  { e_t : Z; e_s : bytes; e_nonIndexedLabels : labels }.

Record symbol : Type := { Name : Z; Value : Z }.

(** Modelled from the spec: the symbol table (symbolizer) is not among the
    sources.  Per the spec it interns the strings of [(name, value)] pairs
    into [u32] indices assigned in insertion order, [Add] returning a pair
    of indices per label and [Lookup] resolving them. *)
Record symbolizer : Type := { sym_labels : list bytes }.

Definition newSymbolizer : symbolizer := {| sym_labels := [] |}.

Definition bytes_eqb (a b : bytes) : bool :=
  (length a =? length b)%nat && forallb (fun p => fst p =? snd p) (combine a b).

Fixpoint index_of (x : bytes) (l : list bytes) (i : Z) : option Z :=
  match l with
  | [] => None
  | y :: l' => if bytes_eqb x y then Some i else index_of x l' (i + 1)
  end.

Definition sym_add (sy : symbolizer) (lbl : bytes) : symbolizer * Z :=
  match index_of lbl (sym_labels sy) 0 with
  | Some i => (sy, i)
  | None => ({| sym_labels := sym_labels sy ++ [lbl] |}, len (sym_labels sy))
  end.

Fixpoint sym_Add (sy : symbolizer) (lbls : labels) : symbolizer * list symbol :=
  match lbls with
  | [] => (sy, [])
  | (n, v) :: rest =>
      let (sy1, ni) := sym_add sy n in
      let (sy2, vi) := sym_add sy1 v in
      let (sy3, syms) := sym_Add sy2 rest in
      (sy3, {| Name := ni; Value := vi |} :: syms)
  end.

Definition sym_lookup (sy : symbolizer) (i : Z) : bytes :=
  if i <? 0 then [] else nth (Z.to_nat i) (sym_labels sy) [].

Definition sym_Lookup (sy : symbolizer) (syms : list symbol) : labels :=
  map (fun sm => (sym_lookup sy (Name sm), sym_lookup sy (Value sm))) syms.

Definition sym_UncompressedSize (sy : symbolizer) : Z :=
  fold_left (fun acc l => acc + len l) (sym_labels sy) 0.

(** [log.LabelsResult], taken by the string that its [String()] and its
    [Labels().String()] give. *)
Definition LabelsResult : Type := bytes.

(** ** External collaborators

    The compression pools, the wire form of the symbol table and the size
    function for structured labels are referenced by contract only; so is
    the order in which [range] visits a map. *)

Class Pools : Type :=
  { (** [getWriterPool(enc)]: [GetWriter], [Write], [Close] over a buffer *)
    compress : Encoding -> bytes -> bytes;
    (** [getReaderPool(enc)]: the decompressed stream, or an error *)
    decompress : Encoding -> bytes -> option bytes;
    (** [symbolizer.SerializeTo]: the bytes of the symbol-table section *)
    symSerialize : Encoding -> symbolizer -> bytes;
    (** [symbolizerFromEnc] *)
    symFromEnc : Encoding -> bytes -> option symbolizer;
    (** [symbolizer.CheckpointTo] and [symbolizerFromCheckpoint] *)
    symCheckpoint : symbolizer -> bytes;
    symFromCheckpoint : bytes -> symbolizer;
    (** [metaLabelsLen]: the encoded size of an entry's structured labels *)
    metaLabelsLen : labels -> Z;
    (** [range] over the streams of a head iterator, a map keyed by the
        string of the labels: the language leaves the order open, the
        streams are visited by increasing rank of their keys, and every
        order of distinct keys is that of some rank *)
    streamRank : LabelsResult -> Z }.

(** [log.StreamPipeline] restricted to what the chunk consumes,
    [Process] and [ProcessString]: the rewritten line and the labels result
    when the entry matches, [None] when it is dropped. *)
Definition Pipeline : Type := Z -> bytes -> labels -> option (bytes * LabelsResult).

(** [log.NewNoopPipeline().ForStream(labels.Labels{})]: every line as it
    is, under the labels of the stream, the empty set, whose string is
    the two braces. *)
Definition NoopPipeline : Pipeline := fun _ line _ => Some (line, [123; 125]).

(** [filter.Func] *)
Definition Filter : Type := Z -> bytes -> bool.

(** ** The iterators of pkg/iter *)

(** Modelled from the spec: the iterator combinators are not among the
    sources.  Per the spec the non-overlapping iterator is the
    concatenation of its inputs, the sort iterator is a heap merge by
    timestamp (ascending or descending), the reversed iterator buffers and
    reverses its input, and the time-ranged iterator passes over the entries
    before [from] and halts at the first entry with [t >= to]. *)
Definition NewNonOverlappingIterator (its : list (list Entry)) : list Entry := concat its.

(** The best head among the inputs, and the inputs without it. *)
Fixpoint popBest (before : Z -> Z -> bool) (its : list (list Entry))
  : option (Entry * list (list Entry)) :=
  match its with
  | [] => None
  | [] :: rest =>
      match popBest before rest with
      | Some (e, rest') => Some (e, [] :: rest')
      | None => None
      end
  | (e :: es) :: rest =>
      match popBest before rest with
      | Some (e', rest') =>
          if before (Timestamp e') (Timestamp e) then Some (e', (e :: es) :: rest')
          else Some (e, es :: rest)
      | None => Some (e, es :: rest)
      end
  end.

Fixpoint sortMerge (fuel : nat) (before : Z -> Z -> bool) (its : list (list Entry))
  : list Entry :=
  match fuel with
  | O => []
  | S fuel' =>
      match popBest before its with
      | Some (e, its') => e :: sortMerge fuel' before its'
      | None => []
      end
  end.

Definition NewSortEntryIterator (its : list (list Entry)) (direction : Direction)
  : list Entry :=
  sortMerge (length (concat its))
    (match direction with FORWARD => Z.ltb | BACKWARD => Z.gtb end) its.

Fixpoint takeWhile {A : Type} (f : A -> bool) (l : list A) : list A :=
  match l with
  | [] => []
  | x :: l' => if f x then x :: takeWhile f l' else []
  end.

Definition NewTimeRangedIterator (it : list Entry) (mint maxt : Z) : list Entry :=
  takeWhile (fun e => Timestamp e <? maxt) (filter (fun e => mint <=? Timestamp e) it).

Definition NewEntryReversedIter (it : list Entry) : list Entry := rev it.

(** [logproto.Stream], without its hash: the streams of one head iterator
    all carry the hash of the base labels of the pipeline. *)
Record Stream : Type := { Labels : LabelsResult; Entries : list Entry }.

(** Modelled from the spec: [iter.NewStreamsIterator] is not among the
    sources; it is the sort iterator, the heap merge by timestamp of the
    spec, over one iterator per stream. *)
Definition NewStreamsIterator (streams : list Stream) (direction : Direction)
  : list Entry :=
  NewSortEntryIterator (map Entries streams) direction.

Fixpoint collect {A : Type} (l : list (result A)) : result (list A) :=
  match l with
  | [] => Ok []
  | r :: l' =>
      match r with
      | Ok a =>
          match collect l' with
          | Ok l'' => Ok (a :: l'')
          | Err e => Err e
          | Panic => Panic
          | OutOfFuel => OutOfFuel
          end
      | Err e => Err e
      | Panic => Panic
      | OutOfFuel => OutOfFuel
      end
  end.

(** ** Head blocks *)

Record headBlock : Type :=
  { entries : list entry;   (* the list of raw entries *)
    size : Z;               (* size of uncompressed bytes *)
    hb_mint : Z;
    hb_maxt : Z }.

Definition headBlock_empty : headBlock :=
  {| entries := []; size := 0; hb_mint := 0; hb_maxt := 0 |}.

Definition headBlock_IsEmpty (hb : headBlock) : bool := len (entries hb) =? 0.
Definition headBlock_Entries (hb : headBlock) : Z := len (entries hb).
Definition headBlock_UncompressedSize (hb : headBlock) : Z := size hb.
Definition headBlock_Bounds (hb : headBlock) : Z * Z := (hb_mint hb, hb_maxt hb).

Definition headBlock_Reset (hb : headBlock) : headBlock :=
  {| entries := []; size := 0; hb_mint := 0; hb_maxt := 0 |}.

Definition headBlock_Append (hb : headBlock) (ts : Z) (line : bytes) (_ : labels)
  : option error * headBlock :=
  if negb (headBlock_IsEmpty hb) && (ts <? hb_maxt hb) then (Some ErrOutOfOrder, hb)
  else
    (None,
     {| entries := entries hb ++ [{| e_t := ts; e_s := line; e_nonIndexedLabels := [] |}];
        size := size hb + len line;
        hb_mint := if (hb_mint hb =? 0) || (ts <? hb_mint hb) then ts else hb_mint hb;
        hb_maxt := ts |}).

(** The uncompressed form of one entry in formats below v4. *)
Definition encodeEntry (e : entry) : bytes :=
  Binary.PutVarint (e_t e) ++ Binary.PutUvarint (len (e_s e)) ++ e_s e.

(** The entry iterators of a head emit [logproto.Entry] values. *)
Definition toEntry (line : bytes) (e : entry) : Entry :=
  {| Timestamp := e_t e; Line := line; NonIndexedLabels := e_nonIndexedLabels e |}.

(** [streams[labels]] of [headBlock.Iterator], the map from the string of
    the labels to the stream, as the list of its streams in the order they
    were made: the entry goes to the end of the stream of its labels, and
    labels not seen before get a new stream. *)
Fixpoint addEntry (streams : list Stream) (labels' : LabelsResult) (e : Entry)
  : list Stream :=
  match streams with
  | [] => [{| Labels := labels'; Entries := [e] |}]
  | stream :: rest =>
      if bytes_eqb (Labels stream) labels'
      then {| Labels := Labels stream; Entries := Entries stream ++ [e] |} :: rest
      else stream :: addEntry rest labels' e
  end.

(** [process] of [headBlock.Iterator]: the time filter, then the pipeline,
    then the entry joins the stream of the labels the pipeline gave. *)
Definition process (mint maxt : Z) (p : Pipeline) (streams : list Stream) (e : entry)
  : list Stream :=
  if (e_t e <? mint) || (maxt <=? e_t e) then streams
  else match p (e_t e) (e_s e) (e_nonIndexedLabels e) with
       | Some (newLine, parsedLbs) => addEntry streams parsedLbs (toEntry newLine e)
       | None => streams
       end.

Fixpoint insertByRank (rank : LabelsResult -> Z) (s : Stream) (l : list Stream)
  : list Stream :=
  match l with
  | [] => [s]
  | x :: l' => if rank (Labels s) <? rank (Labels x) then s :: l
               else x :: insertByRank rank s l'
  end.

(** [for _, stream := range streams]: the streams by increasing rank. *)
Definition rangeStreams (rank : LabelsResult -> Z) (streams : list Stream) : list Stream :=
  fold_left (fun acc s => insertByRank rank s acc) streams [].

(** The end of [headBlock.Iterator]: no iterator when no entry was kept,
    else the streams iterator over the streams as [range] visits them. *)
Definition streamsIterator (rank : LabelsResult -> Z) (streams : list Stream)
    (direction : Direction) : list Entry :=
  if len streams =? 0 then []
  else NewStreamsIterator (rangeStreams rank streams) direction.

Definition headBlock_Iterator (rank : LabelsResult -> Z) (hb : headBlock)
    (direction : Direction) (mint maxt : Z) (p : Pipeline) : list Entry :=
  if headBlock_IsEmpty hb || ((maxt <? hb_mint hb) || (hb_maxt hb <? mint)) then []
  else
    let streams :=
      match direction with
      | FORWARD => fold_left (process mint maxt p) (entries hb) []
      | BACKWARD => fold_left (process mint maxt p) (rev (entries hb)) []
      end in
    streamsIterator rank streams direction.

(** [headBlock.CheckpointTo] into a buffer, which is [CheckpointBytes]: the
    format byte, the metadata, then every entry.  Writes to a buffer do not
    fail. *)
Definition headBlock_CheckpointBytes (hb : headBlock) : bytes :=
  let w := putByte [] (to_byte OrderedHeadBlockFmt) in
  let eb := putUvarint [] (len (entries hb)) in
  let eb := putUvarint eb (size hb) in
  let eb := putVarint64 eb (hb_mint hb) in
  let eb := putVarint64 eb (hb_maxt hb) in
  let w := w ++ eb in
  fold_left
    (fun w e =>
       let eb := putVarint64 [] (e_t e) in
       let eb := putUvarint eb (len (e_s e)) in
       (w ++ eb) ++ e_s e)
    (entries hb) w.

Definition MaxVarintLen32 : Z := 5.

(** [headBlock.CheckpointSize] *)
Definition headBlock_CheckpointSize (hb : headBlock) : Z :=
  let size0 := 1 in
  let size1 := size0 + MaxVarintLen32 * 2 in
  let size2 := size1 + Binary.MaxVarintLen64 * 2 in
  let size3 := size2 + (Binary.MaxVarintLen64 + MaxVarintLen32) * len (entries hb) in
  fold_left (fun sz e => sz + len (e_s e)) (entries hb) size3.

(** The loop of [LoadBytes] over [hb.entries = make([]entry, ln)]: it stops
    at the first error of the buffer and leaves the entries it did not
    reach at their zero value. *)
Fixpoint loadEntries (n : nat) (d : decbuf) : result (list entry * decbuf) :=
  match n with
  | O => Ok ([], d)
  | S n' =>
      match db_err d with
      | Some _ =>
          Ok (repeat {| e_t := 0; e_s := []; e_nonIndexedLabels := [] |} n, d)
      | None =>
          let (t, d1) := db_varint64 d in
          let (lineLn, d2) := db_uvarint d1 in
          match db_bytes d2 lineLn with
          | None => Panic
          | Some (s, d3) =>
              match loadEntries n' d3 with
              | Ok (es, d') =>
                  Ok ({| e_t := t; e_s := s; e_nonIndexedLabels := [] |} :: es, d')
              | Err e => Err e
              | Panic => Panic
              | OutOfFuel => OutOfFuel
              end
          end
      end
  end.

(** [headBlock.LoadBytes]: the error returned and the head afterwards (the
    fields are assigned as they are read); [make] panics on a negative
    length. *)
Definition headBlock_LoadBytes (hb : headBlock) (b : bytes)
  : result (option error * headBlock) :=
  if len b <? 1 then Ok (None, hb)
  else
    let (version, d) := db_byte (mkdecbuf b) in
    match db_err d with
    | Some e => Ok (Some (ErrWrap 10 e), hb)        (* "verifying headblock header" *)
    | None =>
        if (version =? chunkFormatV1) || (version =? chunkFormatV2)
           || (version =? chunkFormatV3) || (version =? chunkFormatV4)
        then
          let (ln, d) := db_uvarint d in
          let (size', d) := db_uvarint d in
          let (mint, d) := db_varint64 d in
          let (maxt, d) := db_varint64 d in
          let hb1 := {| entries := entries hb; size := size';
                        hb_mint := mint; hb_maxt := maxt |} in
          match db_err d with
          | Some e => Ok (Some (ErrWrap 11 e), hb1) (* "verifying headblock metadata" *)
          | None =>
              if ln <? 0 then Panic
              else
                match loadEntries (Z.to_nat ln) d with
                | Ok (es, d') =>
                    let hb2 := {| entries := es; size := size';
                                  hb_mint := mint; hb_maxt := maxt |} in
                    match db_err d' with
                    | Some e => Ok (Some (ErrWrap 12 e), hb2)   (* "decoding entries" *)
                    | None => Ok (None, hb2)
                    end
                | Err e => Err e
                | Panic => Panic
                | OutOfFuel => OutOfFuel
                end
          end
        else
          (* "incompatible headBlock version (%v), ..." *)
          Ok (Some (ErrWrap 13 (ErrInvalidVersion version)), hb)
    end.

(** Modelled from the spec: the unordered head blocks are not among the
    sources.  Per the spec they accept any timestamp, track the size as the
    sum of the raw line bytes, iterate in timestamp order (entries sharing a
    timestamp in append order ascending, in reverse append order
    descending; what the pipeline keeps goes through the streams of its
    labels, as in the ordered head) and serialise the entries in the order
    they were appended;
    the variant with structured labels keeps each entry's labels through
    the symbol table and writes the v4 entry layout. *)
Record unorderedHeadBlock : Type :=
  { u_format : Z;
    u_entries : list entry;
    u_size : Z;
    u_mint : Z;
    u_maxt : Z }.

Definition newUnorderedHeadBlock (f : Z) : unorderedHeadBlock :=
  {| u_format := f; u_entries := []; u_size := 0; u_mint := 0; u_maxt := 0 |}.

Definition unordered_IsEmpty (u : unorderedHeadBlock) : bool := len (u_entries u) =? 0.

Definition unordered_Reset (u : unorderedHeadBlock) : unorderedHeadBlock :=
  newUnorderedHeadBlock (u_format u).

Definition unordered_Append (u : unorderedHeadBlock) (sy : symbolizer)
    (ts : Z) (line : bytes) (lbls : labels) : unorderedHeadBlock * symbolizer :=
  let withLabels := u_format u =? UnorderedWithNonIndexedLabelsHeadBlockFmt in
  let kept := if withLabels then lbls else [] in
  ({| u_format := u_format u;
      u_entries := u_entries u ++ [{| e_t := ts; e_s := line; e_nonIndexedLabels := kept |}];
      u_size := u_size u + len line;
      u_mint := if unordered_IsEmpty u then ts else Z.min (u_mint u) ts;
      u_maxt := if unordered_IsEmpty u then ts else Z.max (u_maxt u) ts |},
   if withLabels then fst (sym_Add sy lbls) else sy).

Definition encodeSymbol (sm : symbol) : bytes :=
  Binary.PutUvarint (Name sm) ++ Binary.PutUvarint (Value sm).

(** The uncompressed form of one entry in format v4. *)
Definition encodeEntryV4 (sy : symbolizer) (e : entry) : bytes :=
  let syms := snd (sym_Add sy (e_nonIndexedLabels e)) in
  let pairs := flat_map encodeSymbol syms in
  encodeEntry e ++ Binary.PutUvarint (len pairs) ++ Binary.PutUvarint (len syms) ++ pairs.

Fixpoint insertByTime (e : entry) (l : list entry) : list entry :=
  match l with
  | [] => [e]
  | x :: l' => if e_t e <? e_t x then e :: l else x :: insertByTime e l'
  end.

(** A stable sort by timestamp. *)
Definition sortByTime (l : list entry) : list entry :=
  fold_left (fun acc e => insertByTime e acc) l [].

(** The entries are visited in timestamp order, then handed on as the
    ordered head hands its entries on. *)
Definition unordered_Iterator (rank : LabelsResult -> Z) (u : unorderedHeadBlock)
    (direction : Direction) (mint maxt : Z) (p : Pipeline) : list Entry :=
  let asc := sortByTime (u_entries u) in
  let streams :=
    match direction with
    | FORWARD => fold_left (process mint maxt p) asc []
    | BACKWARD => fold_left (process mint maxt p) (rev asc) []
    end in
  streamsIterator rank streams direction.

(** The [HeadBlock] interface, as the tagged union of its implementations. *)
Inductive HeadBlock : Type :=
| OrderedHead (hb : headBlock)
| UnorderedHead (u : unorderedHeadBlock).

Definition HeadBlock_IsEmpty (h : HeadBlock) : bool :=
  match h with
  | OrderedHead hb => headBlock_IsEmpty hb
  | UnorderedHead u => unordered_IsEmpty u
  end.

Definition HeadBlock_Entries (h : HeadBlock) : Z :=
  match h with
  | OrderedHead hb => headBlock_Entries hb
  | UnorderedHead u => len (u_entries u)
  end.

Definition HeadBlock_UncompressedSize (h : HeadBlock) : Z :=
  match h with
  | OrderedHead hb => headBlock_UncompressedSize hb
  | UnorderedHead u => u_size u
  end.

Definition HeadBlock_Bounds (h : HeadBlock) : Z * Z :=
  match h with
  | OrderedHead hb => headBlock_Bounds hb
  | UnorderedHead u => (u_mint u, u_maxt u)
  end.

Definition HeadBlock_Reset (h : HeadBlock) : HeadBlock :=
  match h with
  | OrderedHead hb => OrderedHead (headBlock_Reset hb)
  | UnorderedHead u => UnorderedHead (unordered_Reset u)
  end.

Definition HeadBlock_Format (h : HeadBlock) : Z :=
  match h with
  | OrderedHead _ => OrderedHeadBlockFmt
  | UnorderedHead u => u_format u
  end.

(** [Append] of the interface; the head shares the chunk's symbol table. *)
Definition HeadBlock_Append (h : HeadBlock) (sy : symbolizer) (ts : Z) (line : bytes)
    (lbls : labels) : option error * HeadBlock * symbolizer :=
  match h with
  | OrderedHead hb =>
      let (err, hb') := headBlock_Append hb ts line lbls in (err, OrderedHead hb', sy)
  | UnorderedHead u =>
      let (u', sy') := unordered_Append u sy ts line lbls in (None, UnorderedHead u', sy')
  end.

Definition HeadBlock_Iterator (rank : LabelsResult -> Z) (h : HeadBlock)
    (direction : Direction) (mint maxt : Z) (p : Pipeline) : list Entry :=
  match h with
  | OrderedHead hb => headBlock_Iterator rank hb direction mint maxt p
  | UnorderedHead u => unordered_Iterator rank u direction mint maxt p
  end.

(** [HeadBlockFmt.NewBlock] *)
Definition NewBlock (f : Z) : HeadBlock :=
  if f <? UnorderedHeadBlockFmt then OrderedHead headBlock_empty
  else UnorderedHead (newUnorderedHeadBlock f).

(** ** Blocks and chunks *)

Record block : Type :=
  { b_b : bytes;            (* compressed bytes *)
    numEntries : Z;
    b_mint : Z;
    b_maxt : Z;
    offset : Z;             (* the offset of the block in the chunk *)
    uncompressedSize : Z }.

Record MemChunk : Type :=
  { blockSize : Z;
    targetSize : Z;
    c_symbolizer : symbolizer;
    blocks : list block;
    cutBlockSize : Z;
    head : HeadBlock;
    format : Z;
    encoding : Encoding;
    headFmt : Z;
    compressedSize : Z }.

Definition newMemChunkWithFormat (fmt : Z) (enc : Encoding) (hd : Z)
    (blockSize' targetSize' : Z) : MemChunk :=
  {| blockSize := blockSize';
     targetSize := targetSize';
     c_symbolizer := newSymbolizer;
     blocks := [];
     cutBlockSize := 0;
     head := NewBlock hd;
     format := fmt;
     encoding := enc;
     headFmt := hd;
     compressedSize := 0 |}.

Definition NewMemChunk (enc : Encoding) (hd : Z) (blockSize' targetSize' : Z) : MemChunk :=
  newMemChunkWithFormat DefaultChunkFormat enc hd blockSize' targetSize'.

Definition set_offset (b : block) (o : Z) : block :=
  {| b_b := b_b b; numEntries := numEntries b; b_mint := b_mint b; b_maxt := b_maxt b;
     offset := o; uncompressedSize := uncompressedSize b |}.

(** ** The streaming block iterator ([bufferedIterator]) *)

(** The reader a pool hands out, as a [bytes.Buffer] over the decompressed
    stream: [Read(p)] with [len(p) = n] copies what is left, and returns
    [io.EOF] on an empty buffer unless [n = 0]. *)
Definition Read (rd : bytes) (n : Z) : bytes * bytes * bool :=
  match rd with
  | [] => ([], [], negb (n =? 0))
  | _ => (firstn (Z.to_nat n) rd, skipn (Z.to_nat n) rd, false)
  end.

(** [readBuf] holds the valid prefix [readBuf[:readBufValid]] of the
    20-byte array. *)
Record bufState : Type := { rd : bytes; readBuf : bytes }.

Definition readBufLen : Z := 20.

Inductive loopOut (A : Type) : Type :=
| LoopOk (a : A) (st : bufState)
| LoopStop (err : option error)   (* return ..., false with [si.err] *)
| LoopPanic
| LoopFuel.

Arguments LoopOk {A} a st.
Arguments LoopStop {A} err.
Arguments LoopPanic {A}.
Arguments LoopFuel {A}.

(** The shape shared by the three read loops of [moveNext]: read into the
    free part of [readBuf], handle the error, try to parse two varints with
    [parse], go round again while the width of the second one is 0. *)
Fixpoint readTwo (parse : bytes -> Z * Z) (fuel : nat) (st : bufState) (lastAttempt : Z)
  : loopOut (Z * Z * Z * Z) :=
  match fuel with
  | O => LoopFuel
  | S fuel' =>
      let '(got, rd', eof) := Read (rd st) (readBufLen - len (readBuf st)) in
      let buf := readBuf st ++ got in
      let valid := len buf in
      if eof && (valid =? 0) then LoopStop None
      else if eof && (valid =? lastAttempt) then LoopStop (Some ErrInvalidData)
      else
        let (v1, w1) := parse buf in
        match slice buf w1 valid with
        | None => LoopPanic
        | Some rest =>
            let (v2, w2) := Binary.Uvarint rest in
            if w2 =? 0 then readTwo parse fuel' {| rd := rd'; readBuf := buf |} valid
            else LoopOk (v1, w1, v2, w2) {| rd := rd'; readBuf := buf |}
        end
  end.

(** [for n < lineSize { r, err := si.reader.Read(si.buf[n:lineSize]) ... }] *)
Fixpoint readLine (fuel : nat) (r : bytes) (line : bytes) (lineSize : Z)
  : loopOut (bytes * bytes) :=
  match fuel with
  | O => LoopFuel
  | S fuel' =>
      if len line <? lineSize then
        let '(got, r', eof) := Read r (lineSize - len line) in
        if eof then
          if negb (len got =? 0) then readLine fuel' r' (line ++ got) lineSize
          else LoopStop (Some ErrEOF)
        else readLine fuel' r' (line ++ got) lineSize
      else LoopOk (line, r) {| rd := r; readBuf := [] |}
  end.

(** [for i := 0; i < nSymbols; i++ { ... }] *)
Fixpoint readSymbols (loopFuel : nat) (n : nat) (st : bufState) (acc : list symbol)
  : loopOut (list symbol) :=
  match n with
  | O => LoopOk acc st
  | S n' =>
      match readTwo Binary.Uvarint loopFuel st 0 with
      | LoopOk (sName, nWidth, sValue, vWidth) st1 =>
          match slice (readBuf st1) (nWidth + vWidth) (len (readBuf st1)) with
          | None => LoopPanic
          | Some kept =>
              readSymbols loopFuel n' {| rd := rd st1; readBuf := kept |}
                (acc ++ [{| Name := uint32 sName; Value := uint32 sValue |}])
          end
      | LoopStop e => LoopStop e
      | LoopPanic => LoopPanic
      | LoopFuel => LoopFuel
      end
  end.

(** [moveNext]: the next entry [(ts, line, labels)] and the state after it. *)
Definition moveNext (loopFuel : nat) (fmt : Z) (sy : symbolizer) (st : bufState)
  : loopOut (Z * bytes * labels) :=
  match readTwo Binary.Varint loopFuel st 0 with
  | LoopOk (ts, tWidth, l, lWidth) st1 =>
      let lineSize := int l in
      let buf := readBuf st1 in
      if maxLineLength <=? lineSize then LoopStop (Some (ErrLineTooLong lineSize))
      else if lineSize <? 0 then LoopPanic      (* si.buf[:lineSize] *)
      else
        match slice buf (tWidth + lWidth) (len buf) with
        | None => LoopPanic
        | Some avail =>
            (* n := copy(si.buf, si.readBuf[tWidth+lWidth:si.readBufValid]) *)
            let line0 := firstn (Z.to_nat lineSize) avail in
            let kept := skipn (Z.to_nat lineSize) avail in
            match readLine (S (S (length (rd st1)))) (rd st1) line0 lineSize with
            | LoopOk (line, r2) _ =>
                let st2 := {| rd := r2; readBuf := kept |} in
                if fmt <? chunkFormatV4 then LoopOk (ts, line, []) st2
                else
                  match readTwo Binary.Uvarint loopFuel st2 0 with
                  | LoopOk (_, symbolsSectionLengthWidth, l', nSymbolsWidth) st3 =>
                      let nSymbols := int l' in
                      match slice (readBuf st3) (symbolsSectionLengthWidth + nSymbolsWidth)
                              (len (readBuf st3)) with
                      | None => LoopPanic
                      | Some kept3 =>
                          if nSymbols <? 0 then LoopPanic   (* si.symbolsBuf[:nSymbols] *)
                          else
                            match readSymbols loopFuel (Z.to_nat nSymbols)
                                    {| rd := rd st3; readBuf := kept3 |} [] with
                            | LoopOk syms st4 => LoopOk (ts, line, sym_Lookup sy syms) st4
                            | LoopStop e => LoopStop e
                            | LoopPanic => LoopPanic
                            | LoopFuel => LoopFuel
                            end
                      end
                  | LoopStop e => LoopStop e
                  | LoopPanic => LoopPanic
                  | LoopFuel => LoopFuel
                  end
            | LoopStop e => LoopStop e
            | LoopPanic => LoopPanic
            | LoopFuel => LoopFuel
            end
        end
  | LoopStop e => LoopStop e
  | LoopPanic => LoopPanic
  | LoopFuel => LoopFuel
  end.

(** A read loop that makes progress fills the 20-byte buffer in at most
    twenty rounds. *)
Definition loopFuel : nat := 22.

(** [Next] called until it returns false: the entries read and [Error()]. *)
Fixpoint drain (fuel : nat) (fmt : Z) (sy : symbolizer) (st : bufState)
  : result (list (Z * bytes * labels) * option error) :=
  match fuel with
  | O => OutOfFuel
  | S fuel' =>
      match moveNext loopFuel fmt sy st with
      | LoopOk e st' =>
          match drain fuel' fmt sy st' with
          | Ok (es, err) => Ok (e :: es, err)
          | r => r
          end
      | LoopStop err => Ok ([], err)
      | LoopPanic => Panic
      | LoopFuel => OutOfFuel
      end
  end.

(** An entry that is read takes at least one byte off the stream, or leaves
    the iterator where it was. *)
Definition drainFuel (stream : bytes) : nat := S (S (length stream)).

(** ** MemChunk *)

Section Chunk.

Context {P : Pools}.

Definition headBlock_Serialise (enc : Encoding) (hb : headBlock) : bytes :=
  compress enc (flat_map encodeEntry (entries hb)).

Definition unordered_Serialise (enc : Encoding) (sy : symbolizer)
    (u : unorderedHeadBlock) : bytes :=
  compress enc
    (flat_map (if u_format u =? UnorderedWithNonIndexedLabelsHeadBlockFmt
               then encodeEntryV4 sy else encodeEntry) (u_entries u)).

Definition HeadBlock_Serialise (enc : Encoding) (sy : symbolizer) (h : HeadBlock) : bytes :=
  match h with
  | OrderedHead hb => headBlock_Serialise enc hb
  | UnorderedHead u => unordered_Serialise enc sy u
  end.

(** [bufferedIterator.Next] until it returns false, over the block [b]. *)
Definition blockEntries (enc : Encoding) (fmt : Z) (sy : symbolizer) (b : bytes)
  : result (list (Z * bytes * labels) * option error) :=
  match decompress enc b with
  | None => Ok ([], Some ErrReader)
  | Some stream => drain (drainFuel stream) fmt sy {| rd := stream; readBuf := [] |}
  end.

(** The body of [entryBufferedIterator.Next]: the entry that [Entry()] gives
    afterwards; the labels result of the pipeline is what [Labels()] gives
    and is no part of the entry. *)
Definition pipeEntry (p : Pipeline) (keep : bool) (x : Z * bytes * labels) : list Entry :=
  let '(ts, line, lbls) := x in
  match p ts line lbls with
  | Some (newLine, _) =>
      [{| Timestamp := ts; Line := newLine;
          NonIndexedLabels := if keep then lbls else [] |}]
  | None => []
  end.

(** [encBlock.Iterator]; [keep] is the option [KeepNonIndexedLabels]. *)
Definition encBlock_Iterator (enc : Encoding) (fmt : Z) (sy : symbolizer) (b : block)
    (p : Pipeline) (keep : bool) : result (list Entry) :=
  if len (b_b b) =? 0 then Ok []
  else
    match blockEntries enc fmt sy (b_b b) with
    | Ok (es, _) => Ok (flat_map (pipeEntry p keep) es)
    | Err e => Err e
    | Panic => Panic
    | OutOfFuel => OutOfFuel
    end.

Definition Encoding_of (c : MemChunk) : Encoding := encoding c.

Definition Size (c : MemChunk) : Z :=
  fold_left (fun ne blk => ne + numEntries blk) (blocks c) 0
  + HeadBlock_Entries (head c).

Definition BlockCount (c : MemChunk) : Z := len (blocks c).

Definition SpaceFor (c : MemChunk) (e : Entry) : bool :=
  if 0 <? targetSize c then
    let newHBSize := HeadBlock_UncompressedSize (head c) + len (Line e) in
    let newHBSize' :=
      if chunkFormatV4 <=? format c
      then newHBSize + metaLabelsLen (NonIndexedLabels e) else newHBSize in
    let nonIndexedLabelsSize :=
      if chunkFormatV4 <=? format c then sym_UncompressedSize (c_symbolizer c) else 0 in
    nonIndexedLabelsSize + cutBlockSize c + newHBSize' <? targetSize c
  else len (blocks c) <? blocksPerChunk.

Definition UncompressedSize (c : MemChunk) : Z :=
  let size0 := HeadBlock_UncompressedSize (head c) in
  let size1 := fold_left (fun sz b => sz + uncompressedSize b) (blocks c) size0 in
  if chunkFormatV4 <=? format c then size1 + sym_UncompressedSize (c_symbolizer c)
  else size1.

Definition CompressedSize (c : MemChunk) : Z :=
  if negb (compressedSize c =? 0) then compressedSize c
  else
    let size0 := HeadBlock_UncompressedSize (head c) in
    let size1 :=
      if chunkFormatV4 <=? format c then size0 + sym_UncompressedSize (c_symbolizer c)
      else size0 in
    size1 + cutBlockSize c.

(** [cut]: the only error of the Go function is that of the compressing
    writer, which writes to memory. *)
Definition cut (c : MemChunk) : MemChunk :=
  if HeadBlock_IsEmpty (head c) then c
  else
    let b := HeadBlock_Serialise (encoding c) (c_symbolizer c) (head c) in
    let (mint, maxt) := HeadBlock_Bounds (head c) in
    {| blockSize := blockSize c;
       targetSize := targetSize c;
       c_symbolizer := c_symbolizer c;
       blocks := blocks c ++
                   [{| b_b := b;
                       numEntries := HeadBlock_Entries (head c);
                       b_mint := mint;
                       b_maxt := maxt;
                       offset := 0;
                       uncompressedSize := HeadBlock_UncompressedSize (head c) |}];
       cutBlockSize := cutBlockSize c + len b;
       head := HeadBlock_Reset (head c);
       format := format c;
       encoding := encoding c;
       headFmt := headFmt c;
       compressedSize := compressedSize c |}.

Definition dropLabels (e : Entry) : Entry :=
  {| Timestamp := Timestamp e; Line := Line e; NonIndexedLabels := [] |}.

Definition lastMaxt (bs : list block) : Z :=
  match rev bs with
  | b :: _ => b_maxt b
  | [] => 0
  end.

Definition with_head (c : MemChunk) (h : HeadBlock) (sy : symbolizer) : MemChunk :=
  {| blockSize := blockSize c;
     targetSize := targetSize c;
     c_symbolizer := sy;
     blocks := blocks c;
     cutBlockSize := cutBlockSize c;
     head := h;
     format := format c;
     encoding := encoding c;
     headFmt := headFmt c;
     compressedSize := compressedSize c |}.

(** [Append]: the error returned, the chunk afterwards and the caller's
    entry afterwards (the function receives a pointer to it). *)
Definition Append (c : MemChunk) (e : Entry) : option error * MemChunk * Entry :=
  let entryTimestamp := Timestamp e in
  if (headFmt c <? UnorderedHeadBlockFmt) && HeadBlock_IsEmpty (head c)
     && (0 <? len (blocks c)) && (entryTimestamp <? lastMaxt (blocks c))
  then (Some ErrOutOfOrder, c, e)
  else
    let e' := if format c <? chunkFormatV4 then dropLabels e else e in
    match HeadBlock_Append (head c) (c_symbolizer c) entryTimestamp (Line e')
            (NonIndexedLabels e') with
    | (Some err, h', sy') => (Some err, with_head c h' sy', e')
    | (None, h', sy') =>
        let c' := with_head c h' sy' in
        if blockSize c' <=? HeadBlock_UncompressedSize (head c')
        then (None, cut c', e')
        else (None, c', e')
    end.

Definition Bounds (c : MemChunk) : Z * Z :=
  fold_left
    (fun (ft : Z * Z) b =>
       let (from, to) := ft in
       (if (from =? 0) || (b_mint b <? from) then b_mint b else from,
        if to <? b_maxt b then b_maxt b else to))
    (blocks c) (HeadBlock_Bounds (head c)).

(** The block loop of [Iterator]: the blocks that overlap the range, the
    last [maxt] seen and whether the blocks came in order. *)
Fixpoint selectBlocks (mint maxt : Z) (bs : list block) (lastMax : Z) (ordered : bool)
  : list block * Z * bool :=
  match bs with
  | [] => ([], lastMax, ordered)
  | b :: bs' =>
      if (maxt <? b_mint b) || (b_maxt b <? mint)
      then selectBlocks mint maxt bs' lastMax ordered
      else
        let '(sel, lm, ord) :=
          selectBlocks mint maxt bs' (b_maxt b) (ordered && negb (b_mint b <? lastMax)) in
        (b :: sel, lm, ord)
  end.

Definition Iterator (c : MemChunk) (mint maxt : Z) (direction : Direction)
    (p : Pipeline) (keep : bool) : result (list Entry) :=
  let '(sel, lastMax, ordered) := selectBlocks mint maxt (blocks c) 0 true in
  match collect (map (fun b => encBlock_Iterator (encoding c) (format c)
                                 (c_symbolizer c) b p keep) sel) with
  | Ok blockItrs =>
      let headIterator :=
        if negb (HeadBlock_IsEmpty (head c))
        then [HeadBlock_Iterator streamRank (head c) direction mint maxt p] else [] in
      let ordered' :=
        if negb (HeadBlock_IsEmpty (head c))
        then ordered && negb (fst (HeadBlock_Bounds (head c)) <? lastMax) else ordered in
      match direction with
      | FORWARD =>
          let its := blockItrs ++ headIterator in
          let it := if ordered' then NewNonOverlappingIterator its
                    else NewSortEntryIterator its FORWARD in
          Ok (NewTimeRangedIterator it mint maxt)
      | BACKWARD =>
          let its :=
            map (fun it => NewEntryReversedIter (NewTimeRangedIterator it mint maxt))
              blockItrs in
          let its' := rev (its ++ headIterator) in
          Ok (if ordered' then NewNonOverlappingIterator its'
              else NewSortEntryIterator its' BACKWARD)
      end
  | Err e => Err e
  | Panic => Panic
  | OutOfFuel => OutOfFuel
  end.

(** The order check of [reorder]. *)
Fixpoint blocksOrdered (bs : list block) (lastMax : Z) : bool :=
  match bs with
  | [] => true
  | b :: bs' => negb (b_mint b <? lastMax) && blocksOrdered bs' (b_maxt b)
  end.

Definition reorderWith (rebound : MemChunk -> Z -> Z -> option Filter -> result MemChunk)
    (c : MemChunk) : result MemChunk :=
  if blocksOrdered (blocks c) 0 then Ok c
  else let (from, to) := Bounds c in rebound c from to None.

Definition CloseWith (rebound : MemChunk -> Z -> Z -> option Filter -> result MemChunk)
    (c : MemChunk) : result MemChunk :=
  reorderWith rebound (cut c).

(** The loop [for itr.Next() { ... newChunk.Append(&entry) ... }] *)
Fixpoint appendAll (filter : option Filter) (c : MemChunk) (itr : list Entry)
  : result MemChunk :=
  match itr with
  | [] => Ok c
  | e :: itr' =>
      if match filter with
         | Some f => f (Timestamp e) (Line e)
         | None => false
         end
      then appendAll filter c itr'
      else
        match Append c e with
        | (Some err, _, _) => Err err
        | (None, c', _) => appendAll filter c' itr'
        end
  end.

(** [Rebound] and [Close] call each other through [reorder]; [fuel]
    bounds the depth of the calls. *)
Fixpoint Rebound (fuel : nat) (c : MemChunk) (start end_ : Z) (filter : option Filter)
  : result MemChunk :=
  match fuel with
  | O => OutOfFuel
  | S fuel' =>
      match Iterator c start (end_ + Millisecond) FORWARD NoopPipeline true with
      | Ok itr =>
          let headFmt' :=
            if headFmt c <? OrderedHeadBlockFmt then DefaultHeadBlockFmt else headFmt c in
          let newChunk :=
            if 0 <? blockSize c
            then NewMemChunk (Encoding_of c) headFmt' (blockSize c) (targetSize c)
            else NewMemChunk (Encoding_of c) headFmt' defaultBlockSize (CompressedSize c) in
          match appendAll filter newChunk itr with
          | Ok newChunk' =>
              if Size newChunk' =? 0 then Err ErrSliceNoDataInRange
              else CloseWith (Rebound fuel') newChunk'
          | Err e => Err e
          | Panic => Panic
          | OutOfFuel => OutOfFuel
          end
      | Err e => Err e
      | Panic => Panic
      | OutOfFuel => OutOfFuel
      end
  end.

Definition reorder (fuel : nat) (c : MemChunk) : result MemChunk :=
  reorderWith (Rebound fuel) c.

Definition Close (fuel : nat) (c : MemChunk) : result MemChunk :=
  CloseWith (Rebound fuel) c.

(** *** Serialisation *)

(** The loop [for i, b := range c.blocks] of [writeTo]: every block is
    written followed by its CRC, and its [offset] field is set. *)
Fixpoint writeBlocks (bs : list block) (w : bytes) (off : Z)
  : bytes * Z * list block :=
  match bs with
  | [] => (w, off, [])
  | b :: bs' =>
      let out := b_b b ++ Binary.PutUint32 (Crc32.Checksum (b_b b)) in
      let '(w', off', bs'') := writeBlocks bs' (w ++ out) (off + len out) in
      (w', off', set_offset b off :: bs'')
  end.

Definition putBlockMeta (fmt : Z) (eb : encbuf) (b : block) : encbuf :=
  let eb := putUvarint eb (numEntries b) in
  let eb := putVarint64 eb (b_mint b) in
  let eb := putVarint64 eb (b_maxt b) in
  let eb := putUvarint eb (offset b) in
  let eb := if chunkFormatV3 <=? fmt then putUvarint eb (uncompressedSize b) else eb in
  putUvarint eb (len (b_b b)).

(** [writeTo]: the bytes written and the chunk afterwards (the offsets of
    the blocks and [compressedSize] are updated).  The writer is a buffer,
    so no write fails. *)
Definition writeTo (c : MemChunk) (forCheckpoint : bool) : bytes * MemChunk :=
  (* the header *)
  let eb := putBE32 [] magicNumber in
  let eb := putByte eb (format c) in
  let eb := if chunkFormatV1 <? format c then putByte eb (to_byte (encoding c)) else eb in
  let w := eb in
  let off := len eb in
  let nonIndexedLabelsOffset := off in
  (* the symbol table, from v4 *)
  let sec :=
    if forCheckpoint then symCheckpoint (c_symbolizer c)
    else symSerialize (encoding c) (c_symbolizer c) in
  let crcHash := Binary.PutUint32 (Crc32.Checksum sec) in
  let nonIndexedLabelsLen := if chunkFormatV4 <=? format c then len sec else 0 in
  let w := if chunkFormatV4 <=? format c then w ++ sec ++ crcHash else w in
  let off := if chunkFormatV4 <=? format c then off + len sec + len crcHash else off in
  (* the blocks *)
  let '(w, off, blocks') := writeBlocks (blocks c) w off in
  let metasOffset := off in
  (* the metas *)
  let eb := putUvarint [] (len blocks') in
  let eb := fold_left (putBlockMeta (format c)) blocks' eb in
  let metasLen := len eb in
  let eb := putHash eb in
  let w := w ++ eb in
  let off := off + len eb in
  (* the offset and length of the symbol table, from v4 *)
  let eb := putBE64int (putBE64int [] nonIndexedLabelsLen) nonIndexedLabelsOffset in
  let w := if chunkFormatV4 <=? format c then w ++ eb else w in
  let off := if chunkFormatV4 <=? format c then off + len eb else off in
  (* the offset (and from v4 the length) of the metas *)
  let eb := if chunkFormatV4 <=? format c then putBE64int [] metasLen else [] in
  let eb := putBE64int eb metasOffset in
  let w := w ++ eb in
  let off := off + len eb in
  (w,
   {| blockSize := blockSize c;
      targetSize := targetSize c;
      c_symbolizer := c_symbolizer c;
      blocks := blocks';
      cutBlockSize := cutBlockSize c;
      head := head c;
      format := format c;
      encoding := encoding c;
      headFmt := headFmt c;
      compressedSize := off |}).

Definition WriteTo (c : MemChunk) : bytes * MemChunk := writeTo c false.

(** [Bytes] *)
Definition Bytes (c : MemChunk) : bytes := fst (WriteTo c).

(** [BytesSize]; [symCheckpointSize] stands for [symbolizer.CheckpointSize],
    which is not among the sources. *)
Definition BytesSize (symCheckpointSize : symbolizer -> Z) (c : MemChunk) : Z :=
  let size := 4 in                                   (* magic number *)
  let size := size + 1 in                            (* format *)
  let size := if chunkFormatV1 <? format c then size + 1 else size in
  let size :=
    fold_left
      (fun size b =>
         let size := size + (len (b_b b) + 4) in     (* size + crc *)
         let size := size + MaxVarintLen32 in        (* num entries *)
         let size := size + Binary.MaxVarintLen64 in (* mint *)
         let size := size + Binary.MaxVarintLen64 in (* maxt *)
         let size := size + MaxVarintLen32 in        (* offset *)
         let size :=
           if chunkFormatV3 <=? format c then size + MaxVarintLen32 else size in
         size + MaxVarintLen32)                      (* len(b) *)
      (blocks c) size in
  let size := size + MaxVarintLen32 in               (* len blocks *)
  let size := size + 4 in                            (* metablock crc *)
  let size := size + 8 in                            (* metaoffset *)
  if chunkFormatV4 <=? format c
  then
    let size := size + 8 in                          (* metablock length *)
    let size := size + symCheckpointSize (c_symbolizer c) in
    let size := size + 4 in
    size + (8 + 8)
  else size.

(** [readSectionLenAndOffset] of [newByteChunk] *)
Definition readSectionLenAndOffset (b : bytes) (idx : Z) : result (Z * Z) :=
  let lenAndOffsetPos := len b - idx * 16 in
  match slice b lenAndOffsetPos (lenAndOffsetPos + 16) with
  | None => Panic
  | Some lenAndOffset =>
      match Binary.Uint64 lenAndOffset, Binary.Uint64 (skipn 8 lenAndOffset) with
      | Some l, Some o => Ok (l, o)
      | _, _ => Panic
      end
  end.

(** [binary.BigEndian.Uint32(b[pos:])] *)
Definition be32At (b : bytes) (pos : Z) : result Z :=
  match slice_from b pos with
  | None => Panic
  | Some tl => of_slice (Binary.Uint32 tl)
  end.

(** The header: the version and the encoding, and the buffer after them. *)
Definition readHeader (b : bytes) : result (Z * Encoding) :=
  let (m, db) := db_be32 (mkdecbuf b) in
  let (version, db) := db_byte db in
  match db_err db with
  | Some e => Err (ErrWrap 0 e)                       (* "verifying header" *)
  | None =>
      if negb (m =? magicNumber) then Err (ErrInvalidMagic m)
      else if version =? chunkFormatV1 then Ok (version, EncGZIP)
      else if (version =? chunkFormatV2) || (version =? chunkFormatV3)
              || (version =? chunkFormatV4) then
        let (enc, db) := db_byte db in
        match db_err db with
        | Some e => Err (ErrWrap 1 e)                 (* "verifying encoding" *)
        | None => Ok (version, enc)
        end
      else Err (ErrInvalidVersion version)
  end.

(** The loop [for i := 0; i < num; i++] over the block metas. *)
Fixpoint readBlocks (num : nat) (version : Z) (b : bytes) (db : decbuf)
    (blks : list block) (cutSize : Z) : result (list block * Z) :=
  match num with
  | O => Ok (blks, cutSize)
  | S num' =>
      let (numEntries', db) := db_uvarint db in
      let (mint, db) := db_varint64 db in
      let (maxt, db) := db_varint64 db in
      let (offset', db) := db_uvarint db in
      let (uncompressedSize', db) :=
        if chunkFormatV3 <=? version then db_uvarint db else (0, db) in
      let (l, db) := db_uvarint db in
      match slice b offset' (int (offset' + l)) with
      | None => Panic
      | Some blk_b =>
          match be32At b (int (offset' + l)) with
          | Ok expCRC =>
              if negb (expCRC =? Crc32.Checksum blk_b)
              then readBlocks num' version b db blks cutSize   (* the block is skipped *)
              else
                let blk := {| b_b := blk_b; numEntries := numEntries';
                              b_mint := mint; b_maxt := maxt; offset := offset';
                              uncompressedSize := uncompressedSize' |} in
                match db_err db with
                | Some e => Err (ErrWrap 2 e)         (* "decoding block meta" *)
                | None => readBlocks num' version b db (blks ++ [blk]) (cutSize + len blk_b)
                end
          | Err e => Err e
          | Panic => Panic
          | OutOfFuel => OutOfFuel
          end
      end
  end.

(** The meta section: its bytes and the CRC stored after it. *)
Definition readMetas (b : bytes) (version : Z) : result (bytes * Z) :=
  match
    (if chunkFormatV4 <=? version
     then match readSectionLenAndOffset b chunkMetasSectionIdx with
          | Ok (metasLen, metasOffset) => Ok (metasOffset, metasLen)
          | Err e => Err e
          | Panic => Panic
          | OutOfFuel => OutOfFuel
          end
     else match slice_from b (len b - 8) with
          | None => Panic
          | Some tl =>
              match Binary.Uint64 tl with
              | None => Panic
              | Some metasOffset =>
                  Ok (metasOffset, uint64 (uint64 (len b - (8 + 4)) - metasOffset))
              end
          end)
  with
  | Ok (metasOffset, metasLen) =>
      match slice b metasOffset (uint64 (metasOffset + metasLen)) with
      | None => Panic
      | Some mb =>
          match be32At b (uint64 (metasOffset + metasLen)) with
          | Ok expCRC => Ok (mb, expCRC)
          | Err e => Err e
          | Panic => Panic
          | OutOfFuel => OutOfFuel
          end
      end
  | Err e => Err e
  | Panic => Panic
  | OutOfFuel => OutOfFuel
  end.

(** The symbol-table section of a v4 chunk: its bytes and the CRC stored
    after it. *)
Definition readSymbolsSection (b : bytes) : result (bytes * Z) :=
  match readSectionLenAndOffset b chunkNonIndexedLabelsSectionIdx with
  | Ok (nonIndexedLabelsLen, nonIndexedLabelsOffset) =>
      match slice b nonIndexedLabelsOffset
              (uint64 (nonIndexedLabelsOffset + nonIndexedLabelsLen)) with
      | None => Panic
      | Some lb =>
          match be32At b (uint64 (nonIndexedLabelsOffset + nonIndexedLabelsLen)) with
          | Ok expCRC => Ok (lb, expCRC)
          | Err e => Err e
          | Panic => Panic
          | OutOfFuel => OutOfFuel
          end
      end
  | Err e => Err e
  | Panic => Panic
  | OutOfFuel => OutOfFuel
  end.

Definition newByteChunk (b : bytes) (blockSize' targetSize' : Z) (fromCheckpoint : bool)
  : result MemChunk :=
  match readHeader b with
  | Ok (version, enc) =>
      match readMetas b version with
      | Ok (mb, expCRC) =>
          let db := mkdecbuf mb in
          if negb (expCRC =? db_crc32 db) then Err ErrInvalidChecksum
          else
            (* the number of blocks; make([]block, 0, num) *)
            let (num, db) := db_uvarint db in
            if num <? 0 then Panic
            else
              match readBlocks (Z.to_nat num) version b db [] 0 with
              | Ok (blks, cutSize) =>
                  let bc (sy : symbolizer) :=
                    {| blockSize := blockSize';
                       targetSize := targetSize';
                       c_symbolizer := sy;
                       blocks := blks;
                       cutBlockSize := cutSize;
                       head := OrderedHead headBlock_empty;   (* dummy, empty *)
                       format := version;
                       encoding := enc;
                       headFmt := 0;
                       compressedSize := len b |} in
                  if chunkFormatV4 <=? version then
                    match readSymbolsSection b with
                    | Ok (lb, expCRC') =>
                        if negb (expCRC' =? Crc32.Checksum lb) then Err ErrInvalidChecksum
                        else if fromCheckpoint then Ok (bc (symFromCheckpoint lb))
                        else
                          match symFromEnc enc lb with
                          | Some sy => Ok (bc sy)
                          | None => Err ErrSymbols
                          end
                    | Err e => Err e
                    | Panic => Panic
                    | OutOfFuel => OutOfFuel
                    end
                  else Ok (bc newSymbolizer)
              | Err e => Err e
              | Panic => Panic
              | OutOfFuel => OutOfFuel
              end
      | Err e => Err e
      | Panic => Panic
      | OutOfFuel => OutOfFuel
      end
  | Err e => Err e
  | Panic => Panic
  | OutOfFuel => OutOfFuel
  end.

Definition NewByteChunk (b : bytes) (blockSize' targetSize' : Z) : result MemChunk :=
  newByteChunk b blockSize' targetSize' false.

End Chunk.

(** ** The varint helpers of the generated message code *)

(** [math/bits.Len64]: the number of bits needed to represent [x]. *)
Definition Len64 (x : Z) : Z := if x =? 0 then 0 else Z.log2 x + 1.

(** [sovFrontend] *)
Definition sovFrontend (x : Z) : Z := (Len64 (Z.lor x 1) + 6) / 7.

(** [dAtA[i] = v]; [None] is the index-out-of-range panic. *)
Definition store (dAtA : bytes) (i : Z) (v : byte) : option bytes :=
  if (0 <=? i) && (i <? len dAtA)
  then Some (firstn (Z.to_nat i) dAtA ++ v :: skipn (S (Z.to_nat i)) dAtA)
  else None.

(** The loop [for v >= 1<<7] of [encodeVarintFrontend], with the store that
    follows it. *)
Fixpoint encodeVarintLoop (fuel : nat) (dAtA : bytes) (offset v : Z) : result bytes :=
  match fuel with
  | O => OutOfFuel
  | S fuel' =>
      if 2 ^ 7 <=? v then
        match store dAtA offset (to_byte (Z.lor (Z.land v 127) 128)) with
        | None => Panic
        | Some dAtA' => encodeVarintLoop fuel' dAtA' (offset + 1) (Z.shiftr v 7)
        end
      else of_slice (store dAtA offset (to_byte v))
  end.

(** [encodeVarintFrontend]: the buffer after the call and the returned base.
    The loop turns at most nine times on a [uint64]. *)
Definition encodeVarintFrontend (dAtA : bytes) (offset : Z) (v : Z) : result (bytes * Z) :=
  let offset := offset - sovFrontend v in
  let base := offset in
  match encodeVarintLoop 10 dAtA offset v with
  | Ok dAtA' => Ok (dAtA', base)
  | Err e => Err e
  | Panic => Panic
  | OutOfFuel => OutOfFuel
  end.

(** ** A concrete set of collaborators

    The codec [none] copies the bytes; the symbol table is written as the
    number of strings followed by the length-prefixed strings, through the
    codec. *)

Fixpoint decodeStrings (n : nat) (b : bytes) : option (list bytes) :=
  match n with
  | O => Some []
  | S n' =>
      let (l, w) := Binary.Uvarint b in
      if w <? 1 then None
      else
        match slice b w (w + l) with
        | None => None
        | Some str =>
            match decodeStrings n' (skipn (Z.to_nat (w + l)) b) with
            | Some strs => Some (str :: strs)
            | None => None
            end
        end
  end.

Definition encodeStrings (l : list bytes) : bytes :=
  Binary.PutUvarint (len l) ++ flat_map (fun x => Binary.PutUvarint (len x) ++ x) l.

Definition decodeSymbols (b : bytes) : option symbolizer :=
  let (n, w) := Binary.Uvarint b in
  if w <? 1 then None
  else
    match decodeStrings (Z.to_nat n) (skipn (Z.to_nat w) b) with
    | Some strs => Some {| sym_labels := strs |}
    | None => None
    end.

(** The size of the symbols section an entry's labels take in a v4 block. *)
Definition plainLabelsLen (lbls : labels) : Z :=
  len (Binary.PutUvarint (len lbls)) + 2 * Binary.MaxVarintLen64 * len lbls.

Definition PlainPools : Pools :=
  {| compress := fun _ b => b;
     decompress := fun _ b => Some b;
     symSerialize := fun _ sy => encodeStrings (sym_labels sy);
     symFromEnc := fun _ b => decodeSymbols b;
     symCheckpoint := fun sy => encodeStrings (sym_labels sy);
     symFromCheckpoint := fun b =>
       match decodeSymbols b with Some sy => sy | None => newSymbolizer end;
     metaLabelsLen := plainLabelsLen;
     streamRank := fun _ => 0 |}.

Unset Implicit Arguments.

(** * Part II: the vocabulary of the properties

    Runs of appends, the invariants of an ordered chunk, the layout of the
    serialised bytes, and what a read keeps of a written block. *)

Section Statements.
Context {P : Pools}.

(** the run of a sequence of Append calls: the chunk afterwards and the
    entries that were accepted, in order *)
Fixpoint appendRun (c : MemChunk) (es : list Entry) : MemChunk * list Entry :=
  match es with
  | [] => (c, [])
  | e :: es' =>
      match Append c e with
      | (None, c', _) => let (c'', acc) := appendRun c' es' in (c'', e :: acc)
      | (Some _, c', _) => appendRun c' es'
      end
  end.

(** [ts] is at most the largest timestamp the chunk holds where [Append]
    looks for it: the head, or the last block when the head is empty *)
Definition heldBelow (c : MemChunk) (ts : Z) : Prop :=
  match head c with
  | OrderedHead hb =>
      if headBlock_IsEmpty hb then blocks c <> [] /\ ts <= lastMaxt (blocks c)
      else ts <= hb_maxt hb
  | UnorderedHead _ => False
  end.

(** what a run of appends keeps true of a chunk with the ordered head *)
Definition ordInv (c : MemChunk) (acc : list Entry) : Prop :=
  headFmt c < UnorderedHeadBlockFmt /\
  (exists hb, head c = OrderedHead hb) /\
  forall a, In a acc -> heldBelow c (Timestamp a).

(** the first test of [Append]: the entry is older than the last sealed
    block of a chunk with an ordered, empty head *)
Definition outOfOrderAtBlocks (c : MemChunk) (e : Entry) : bool :=
  (headFmt c <? UnorderedHeadBlockFmt) && HeadBlock_IsEmpty (head c)
  && (0 <? len (blocks c)) && (Timestamp e <? lastMaxt (blocks c)).

(** The rest of [Append] once the entry is handed to the head. *)
Definition forwardToHead (c : MemChunk) (ts : Z) (line : bytes) (lbls : labels)
  : option error * MemChunk :=
  match HeadBlock_Append (head c) (c_symbolizer c) ts line lbls with
  | (Some err, h', sy') => (Some err, with_head c h' sy')
  | (None, h', sy') =>
      let c' := with_head c h' sy' in
      if blockSize c' <=? HeadBlock_UncompressedSize (head c') then (None, cut c')
      else (None, c')
  end.

(** the block that [cut] makes of a head *)
Definition sealedFrom (enc : Encoding) (sy : symbolizer) (h : HeadBlock) : block :=
  {| b_b := HeadBlock_Serialise enc sy h;
     numEntries := HeadBlock_Entries h;
     b_mint := fst (HeadBlock_Bounds h);
     b_maxt := snd (HeadBlock_Bounds h);
     offset := 0;
     uncompressedSize := HeadBlock_UncompressedSize h |}.


(** the configuration of a chunk: codec, block size, target size *)
Definition config (c : MemChunk) : Encoding * Z * Z :=
  (encoding c, blockSize c, targetSize c).

(** the two branches of [Rebound] on the block size *)
Definition reboundConfig (c : MemChunk) : Encoding * Z * Z :=
  if 0 <? blockSize c then (encoding c, blockSize c, targetSize c)
  else (encoding c, defaultBlockSize, CompressedSize c).

(** [subseq l1 l2]: [l1] is [l2] with some elements left out *)
Inductive subseq {A : Type} : list A -> list A -> Prop :=
| subseq_nil : subseq [] []
| subseq_skip x l1 l2 : subseq l1 l2 -> subseq l1 (x :: l2)
| subseq_cons x l1 l2 : subseq l1 l2 -> subseq (x :: l1) (x :: l2).

(** timestamps never decrease along the list *)
Definition tsSorted (l : list Entry) : Prop := StronglySorted Z.le (map Timestamp l).

(** an entry whose timestamp and length survive their varint encoding *)
Definition wt_entry (e : entry) : Prop := in_int64 (e_t e) /\ len (e_s e) < 2 ^ 63.

(** the entries the iterator yields from the encoding of [es]: all of them,
    up to the first line of [maxLineLength] bytes or more *)
Fixpoint decoded (es : list entry) : list (Z * bytes * labels) :=
  match es with
  | [] => []
  | e :: es' =>
      if maxLineLength <=? len (e_s e) then []
      else (e_t e, e_s e, []) :: decoded es'
  end.

(** every stream holds, in their order, entries with timestamps of [l] *)
Definition streamsOf (streams : list Stream) (l : list Z) : Prop :=
  Forall (fun s => subseq (map Timestamp (Entries s)) l) streams.

(** the blocks [bs] hold the entry lists [G], block by block *)
Definition blocksOf (enc : Encoding) (G : list (list entry)) (bs : list block) : Prop :=
  Forall2 (fun es b => b_b b = compress enc (flat_map encodeEntry es)) G bs.

(** the invariant of a chunk with the ordered head: [G] are the entries of
    the sealed blocks, [hb] is the head *)
Definition orderedChunk (c : MemChunk) (G : list (list entry)) (hb : headBlock) : Prop :=
  head c = OrderedHead hb /\
  headFmt c < UnorderedHeadBlockFmt /\
  format c < chunkFormatV4 /\
  blocksOf (encoding c) G (blocks c) /\
  StronglySorted Z.le (map e_t (concat G ++ entries hb)) /\
  Forall wt_entry (concat G ++ entries hb) /\
  (forall y, In y (map e_t (concat G)) -> blocks c <> [] /\ y <= lastMaxt (blocks c)) /\
  (entries hb <> [] -> forall y, In y (map e_t (concat G ++ entries hb)) -> y <= hb_maxt hb).

(** the same for an entry as the caller passes it *)
Definition wt_Entry (e : Entry) : Prop := in_int64 (Timestamp e) /\ len (Line e) < 2 ^ 63.

(** magic number, version and, after version 1, the encoding byte *)
Definition wireHeader (fmt : Z) (enc : Encoding) : bytes :=
  Binary.PutUint32 magicNumber ++ [fmt]
  ++ (if chunkFormatV1 <? fmt then [to_byte enc] else []).

(** the symbol-table section of version 4 and its CRC *)
Definition wireSymbols (fmt : Z) (sec : bytes) (secCrc : Z) : bytes :=
  if chunkFormatV4 <=? fmt then sec ++ Binary.PutUint32 secCrc else [].

(** lengths and offsets of the sections, at the end of the image *)
Definition wireTrailer (fmt : Z) (labelsLen labelsOff metasLen metasOff : Z) : bytes :=
  (if chunkFormatV4 <=? fmt
   then Binary.PutUint64 (uint64 labelsLen) ++ Binary.PutUint64 (uint64 labelsOff)
   else [])
  ++ (if chunkFormatV4 <=? fmt then Binary.PutUint64 (uint64 metasLen) else [])
  ++ Binary.PutUint64 (uint64 metasOff).

(** header, symbol table (v4), block payloads, metas and their CRC, trailer *)
Definition wire (fmt : Z) (enc : Encoding) (sec : bytes) (secCrc : Z)
    (body mb : bytes) (metaCrc : Z) : bytes :=
  let h := wireHeader fmt enc in
  let sy := wireSymbols fmt sec secCrc in
  h ++ sy ++ body ++ mb ++ Binary.PutUint32 metaCrc
  ++ wireTrailer fmt (if chunkFormatV4 <=? fmt then len sec else 0) (len h) (len mb)
       (len h + len sy + len body).

(** a block on the wire: the block and the CRC stored after its payload *)
Definition wireBody (l : list (block * Z)) : bytes :=
  flat_map (fun bc => b_b (fst bc) ++ Binary.PutUint32 (snd bc)) l.

(** the offsets [writeTo] records while it lays the payloads out *)
Fixpoint withOffsets (l : list (block * Z)) (off : Z) : list (block * Z) :=
  match l with
  | [] => []
  | (b, crc) :: l' =>
      (set_offset b off, crc) :: withOffsets l' (off + len (b_b b) + 4)
  end.

(** the meta record of one block *)
Definition metaBytes (fmt : Z) (b : block) : bytes :=
  Binary.PutUvarint (uint64 (numEntries b)) ++ Binary.PutVarint (b_mint b)
  ++ Binary.PutVarint (b_maxt b) ++ Binary.PutUvarint (uint64 (offset b))
  ++ (if chunkFormatV3 <=? fmt then Binary.PutUvarint (uint64 (uncompressedSize b)) else [])
  ++ Binary.PutUvarint (uint64 (len (b_b b))).

(** the meta section: a count and the records *)
Definition wireMetas (fmt : Z) (bs : list block) : bytes :=
  Binary.PutUvarint (uint64 (len bs)) ++ flat_map (metaBytes fmt) bs.

(** a block with the CRC [writeTo] computes for it *)
Definition sealed (b : block) : block * Z := (b, Crc32.Checksum (b_b b)).

(** the versions [newByteChunk] accepts *)
Definition validFormat (fmt : Z) : Prop :=
  fmt = chunkFormatV1 \/ fmt = chunkFormatV2 \/ fmt = chunkFormatV3 \/ fmt = chunkFormatV4.

(** what the reader keeps of a block: formats before v3 do not record the
    uncompressed size *)
Definition asRead (fmt : Z) (b : block) : block :=
  {| b_b := b_b b; numEntries := numEntries b; b_mint := b_mint b; b_maxt := b_maxt b;
     offset := offset b;
     uncompressedSize := if chunkFormatV3 <=? fmt then uncompressedSize b else 0 |}.

(** the stored CRC is the CRC of the payload *)
Definition crcOk (bc : block * Z) : bool := snd bc =? Crc32.Checksum (b_b (fst bc)).

(** the blocks that load: those whose stored CRC matches their payload *)
Definition loaded (fmt : Z) (l : list (block * Z)) : list block :=
  map (fun bc => asRead fmt (fst bc)) (filter crcOk l).

(** the bytes of the blocks that load *)
Definition loadedSize (l : list (block * Z)) : Z :=
  fold_right (fun bc acc => len (b_b (fst bc)) + acc) 0 (filter crcOk l).

(** block metadata that survives its varint encoding *)
Definition wtBlock (b : block) : Prop :=
  in_int64 (numEntries b) /\ in_int64 (b_mint b) /\ in_int64 (b_maxt b)
  /\ in_int64 (uncompressedSize b).

(** the chunk [newByteChunk] builds from what it has read *)
Definition byteChunk (bs ts : Z) (sy : symbolizer) (blks : list block) (cutSize : Z)
    (fmt : Z) (enc : Encoding) (n : Z) : MemChunk :=
  {| blockSize := bs;
     targetSize := ts;
     c_symbolizer := sy;
     blocks := blks;
     cutBlockSize := cutSize;
     head := OrderedHead headBlock_empty;
     format := fmt;
     encoding := enc;
     headFmt := 0;
     compressedSize := n |}.

(** two blocks that agree on what is written to the wire *)
Definition sameWire (fmt : Z) (b1 b2 : block) : Prop :=
  b_b b1 = b_b b2 /\ numEntries b1 = numEntries b2 /\
  b_mint b1 = b_mint b2 /\ b_maxt b1 = b_maxt b2 /\
  (chunkFormatV3 <= fmt -> uncompressedSize b1 = uncompressedSize b2).

(** an empty head has the bounds (0, 0) *)
Definition headTidy (h : HeadBlock) : Prop :=
  HeadBlock_IsEmpty h = true -> HeadBlock_Bounds h = (0, 0).

(** a chunk whose bytes can be read back under the same format and encoding *)
Definition writable (c : MemChunk) : Prop :=
  headTidy (head c) /\ validFormat (format c) /\ 0 <= encoding c < 256 /\
  (format c = chunkFormatV1 -> encoding c = EncGZIP).

(** a writable chunk with nothing left in the head *)
Definition closed (c : MemChunk) : Prop :=
  writable c /\ HeadBlock_IsEmpty (head c) = true.

(** what reading the bytes of [c] back gives: a chunk with the same forward
    iterations, bounds, size, block count, encoding, format and bytes *)
Definition readsBackAs (c : MemChunk) (bs' ts' : Z) : Prop :=
  exists c',
    NewByteChunk (Bytes c) bs' ts' = Ok c' /\
    (forall mint maxt p keep,
        Iterator c' mint maxt FORWARD p keep = Iterator c mint maxt FORWARD p keep) /\
    Bounds c' = Bounds c /\
    Size c' = Size c /\
    BlockCount c' = BlockCount c /\
    Encoding_of c' = Encoding_of c /\
    format c' = format c /\
    Bytes c' = Bytes c.

(** the entry a head keeps of an appended entry, below version 4 *)
Definition stored (e : Entry) : entry :=
  {| e_t := Timestamp e; e_s := Line e; e_nonIndexedLabels := [] |}.

(** what the pipeline makes of one stored entry *)
Definition emitted (p : Pipeline) (e : entry) : list Entry :=
  match p (e_t e) (e_s e) [] with
  | Some (newLine, _) =>
      [{| Timestamp := e_t e; Line := newLine; NonIndexedLabels := [] |}]
  | None => []
  end.

(** the pipeline gives every entry it keeps the same labels, as a pipeline
    does that has no stage deriving labels from the line *)
Definition singleStream (p : Pipeline) : Prop :=
  exists lr : LabelsResult,
    forall t line lbls newLine lr', p t line lbls = Some (newLine, lr') -> lr' = lr.

(** no stream for no entry, else the one stream of the entries *)
Definition oneOf (lr : LabelsResult) (acc : list Entry) : list Stream :=
  match acc with
  | [] => []
  | _ => [{| Labels := lr; Entries := acc |}]
  end.

(** the half-open time range of an iteration *)
Definition inRange (mint maxt : Z) (e : entry) : bool :=
  (mint <=? e_t e) && (e_t e <? maxt).

(** timestamps of the first and of the last entry, 0 for no entry *)
Definition firstT (es : list entry) : Z :=
  match es with
  | [] => 0
  | e :: _ => e_t e
  end.

Definition lastT (es : list entry) : Z :=
  match rev es with
  | [] => 0
  | e :: _ => e_t e
  end.

(** the bytes of the lines *)
Definition lineBytes (es : list entry) : Z :=
  fold_right (fun e n => len (e_s e) + n) 0 es.

(** the bytes of the payloads *)
Definition payloadBytes (bs : list block) : Z :=
  fold_right (fun b n => len (b_b b) + n) 0 bs.

(** a sealed block of the entries [es] *)
Record sealedAs (enc : Encoding) (es : list entry) (b : block) : Prop :=
  { sa_bytes : b_b b = compress enc (flat_map encodeEntry es);
    sa_nonempty : es <> [];
    sa_count : numEntries b = len es;
    sa_mint : b_mint b = firstT es;
    sa_maxt : b_maxt b = lastT es;
    sa_size : uncompressedSize b = lineBytes es }.

(** the chunk [c], of a version below 4 and with the ordered head [hb],
    holds the entries [acc]: [G] lists the entries of the sealed blocks *)
Record holds (c : MemChunk) (G : list (list entry)) (hb : headBlock) (acc : list Entry)
  : Prop :=
  { h_head : head c = OrderedHead hb;
    h_headFmt : headFmt c < UnorderedHeadBlockFmt;
    h_format : format c < chunkFormatV4;
    h_blocks : Forall2 (sealedAs (encoding c)) G (blocks c);
    h_mint : hb_mint hb = firstT (entries hb);
    h_maxt : hb_maxt hb = lastT (entries hb);
    h_size : size hb = lineBytes (entries hb);
    h_cut : cutBlockSize c = payloadBytes (blocks c);
    h_all : concat G ++ entries hb = map stored acc;
    h_sorted : StronglySorted Z.le (map Timestamp acc);
    h_pos : Forall (fun e => 0 < Timestamp e) acc;
    h_wt : Forall wt_Entry acc }.

(** the total of the line lengths *)
Definition lineTotal (es : list Entry) : Z := fold_right (fun e n => len (Line e) + n) 0 es.

(** the entries of [acc] in the range of [Rebound], as the iterator hands
    them over, without those the filter drops *)
Definition reboundKeeps (start end_ : Z) (filter' : option Filter) (acc : list Entry)
  : list Entry :=
  filter (fun e => negb match filter' with
                        | Some f => f (Timestamp e) (Line e)
                        | None => false
                        end)
    (map dropLabels
       (filter (fun a => (start <=? Timestamp a) && (Timestamp a <? end_ + Millisecond)) acc)).

(** an entry as the decoder returns it, below version 4 *)
Definition asDecoded (e : entry) : Z * bytes * labels := (e_t e, e_s e, []).

(** one entry in a head checkpoint *)
Definition checkpointEntry (e : entry) : bytes :=
  Binary.PutVarint (e_t e) ++ Binary.PutUvarint (uint64 (len (e_s e))) ++ e_s e.

(** an entry as [LoadBytes] rebuilds it *)
Definition reloaded (e : entry) : entry :=
  {| e_t := e_t e; e_s := e_s e; e_nonIndexedLabels := [] |}.

(** the payload of [b] and its CRC lie in [out] where [b] says *)
Definition placedIn (out : bytes) (b : block) : Prop :=
  slice out (offset b) (offset b + len (b_b b)) = Some (b_b b) /\
  slice out (offset b + len (b_b b)) (offset b + len (b_b b) + 4)
  = Some (Binary.PutUint32 (Crc32.Checksum (b_b b))).

(** the share of one block in [BytesSize] *)
Definition blockCost (fmt : Z) (b : block) : Z :=
  len (b_b b) + 4 + 35 + (if chunkFormatV3 <=? fmt then 5 else 0).

(** the metadata of a block fit the varints [BytesSize] counts for them *)
Definition metaFits (fmt : Z) (b : block) : Prop :=
  0 <= numEntries b < 2 ^ 35 /\ 0 <= offset b < 2 ^ 35 /\
  0 <= uncompressedSize b < 2 ^ 35 /\ len (b_b b) < 2 ^ 35.

End Statements.

(** ** Concrete chunks, over the pools that store payloads as they are *)

Definition exE (t : Z) (line : bytes) : Entry :=
  {| Timestamp := t; Line := line; NonIndexedLabels := [] |}.

Definition exEntries : list Entry :=
  [exE 1 [97; 98]; exE 2 [99]; exE 2 [100; 101; 102]; exE 5 [103]].

(** four entries appended to an ordered v3 chunk with 4-byte blocks *)
Definition exChunk : MemChunk :=
  fst (appendRun (P := PlainPools)
         (newMemChunkWithFormat chunkFormatV3 EncNone OrderedHeadBlockFmt 4 0) exEntries).

Definition exClosed : MemChunk := cut (P := PlainPools) exChunk.

Definition twoEntries : list Entry := [exE 1 [97]; exE 2 [98]].

(** two entries, one nanosecond apart, in one block *)
Definition twoChunk : MemChunk :=
  cut (P := PlainPools)
    (fst (appendRun (P := PlainPools)
            (NewMemChunk EncNone OrderedHeadBlockFmt 1024 0) twoEntries)).

(** ten continuation bytes and a final byte: a varint that overflows 64 bits *)
Definition overlongVarint : bytes := [128; 128; 128; 128; 128; 128; 128; 128; 128; 128; 0].

(** a chunk whose only block holds [overlongVarint] as its payload *)
Definition malformedChunk : MemChunk :=
  {| blockSize := 1024; targetSize := 0; c_symbolizer := newSymbolizer;
     blocks := [{| b_b := overlongVarint; numEntries := 1; b_mint := 0; b_maxt := 10;
                   offset := 0; uncompressedSize := 11 |}];
     cutBlockSize := 11; head := OrderedHead headBlock_empty;
     format := chunkFormatV3; encoding := EncNone; headFmt := OrderedHeadBlockFmt;
     compressedSize := 0 |}.

(** the blocks of [exClosed] as they lie on the wire, the payload of the
    first one with a flipped bit *)
Definition exCorrupted : list (block * Z) :=
  match withOffsets (map sealed (blocks exClosed)) 6 with
  | (b, crc) :: rest =>
      ({| b_b := 3 :: tl (b_b b); numEntries := numEntries b; b_mint := b_mint b;
          b_maxt := b_maxt b; offset := offset b;
          uncompressedSize := uncompressedSize b |}, crc) :: rest
  | [] => []
  end.

(** [exClosed] rebound to the range 0..10 *)
Definition exRebound : MemChunk :=
  match Rebound (P := PlainPools) 1 exClosed 0 10 None with
  | Ok c => c
  | _ => exClosed
  end.

(** an entry that carries one structured label *)
Definition exLabelled : Entry :=
  {| Timestamp := 1; Line := [97]; NonIndexedLabels := [([107], [118])] |}.

(** one entry, sealed into a block of a version 3 chunk with 1-byte blocks *)
Definition exOneBlock : MemChunk :=
  fst (appendRun (P := PlainPools) (NewMemChunk EncNone OrderedHeadBlockFmt 1 0)
         [exE 5 [97]]).

(** an entry older than the one in [exOneBlock], with a structured label *)
Definition exOlder : Entry :=
  {| Timestamp := 3; Line := [98]; NonIndexedLabels := [([107], [118])] |}.

(** four entries with timestamps that never decrease *)
Definition v4Entries : list Entry :=
  [exE 1 [0; 0]; exE 100 []; exE 100 [0]; exE 101 [1; 9; 0; 0]].

(** a version 4 chunk with the ordered head and 2-byte blocks after these
    four appends *)
Definition v4Ordered : MemChunk :=
  fst (appendRun (P := PlainPools)
         (newMemChunkWithFormat chunkFormatV4 EncNone OrderedHeadBlockFmt 2 0) v4Entries).

(** the bytes of an empty version 4 chunk *)
Definition v4Image : bytes :=
  Bytes (P := PlainPools)
    (newMemChunkWithFormat chunkFormatV4 EncNone
       UnorderedWithNonIndexedLabelsHeadBlockFmt 2 0).

(** replaces the list of a [Forall] goal by its value *)
Ltac list_value :=
  match goal with
  | |- Forall _ ?l =>
      let l' := eval vm_compute in l in
      replace l with l' by (vm_compute; reflexivity)
  end.

(** the chunk of [NewMemChunk] with 4-byte blocks after the four appends *)
Definition exRun : MemChunk * list Entry :=
  appendRun (P := PlainPools) (NewMemChunk EncNone OrderedHeadBlockFmt 4 0) exEntries.

(** an ordered head that holds three entries *)
Definition exHead : headBlock :=
  {| entries := [{| e_t := 1; e_s := [97; 98]; e_nonIndexedLabels := [] |};
                 {| e_t := 2; e_s := []; e_nonIndexedLabels := [] |};
                 {| e_t := 7; e_s := [99]; e_nonIndexedLabels := [] |}];
     size := 3; hb_mint := 1; hb_maxt := 7 |}.

(** a version 4 chunk with one block, a labelled entry and a head that is
    not empty *)
Definition exV4 : MemChunk :=
  fst (appendRun (P := PlainPools)
         (newMemChunkWithFormat chunkFormatV4 EncNone
            UnorderedWithNonIndexedLabelsHeadBlockFmt 4 0)
         [exLabelled; exE 2 [98; 99; 100; 101]; exE 3 [102]]).

(** a pipeline that keeps every line and derives its labels from the line *)
Definition byLine : Pipeline := fun _ line _ => Some (line, line).

(** three entries, the last two at one timestamp, the first and the last
    with the same line *)
Definition exTies : list Entry := [exE 1 [120]; exE 2 [121]; exE 2 [120]].

(** the chunk that holds them in its head *)
Definition exTiesRun : MemChunk * list Entry :=
  appendRun (P := PlainPools) (NewMemChunk EncNone OrderedHeadBlockFmt 1024 0) exTies.

(** closes a comparison of two numerals *)
Ltac numerals :=
  vm_compute; first [reflexivity | let E := fresh in intros E; discriminate E].

(** closes a [Forall] of comparisons over a concrete list *)
Ltac each_value := list_value; repeat constructor; numerals.

(** * Part III: properties *)

(** ** Integers on the wire *)

Lemma forallb_bytes (P : Z -> bool) :
  forallb P (map Z.of_nat (seq 0 256)) = true ->
  forall b, 0 <= b < 256 -> P b = true.
Proof.
  intros H b Hb. rewrite forallb_forall in H. apply H.
  apply in_map_iff. exists (Z.to_nat b). split; [lia|].
  apply in_seq. lia.
Qed.

Lemma testbit_small a k n : 0 <= a < 2 ^ k -> k <= n -> Z.testbit a n = false.
Proof.
  intros Ha Hk. destruct (Z.eq_dec a 0) as [->|Hne]; [apply Z.bits_0|].
  apply Z.bits_above_log2; [lia|].
  assert (Z.log2 a < k); [|lia].
  apply Z.log2_lt_pow2; lia.
Qed.

Lemma lor_add_disjoint x y k :
  0 <= k -> 0 <= x < 2 ^ k -> 0 <= y -> Z.lor x (Z.shiftl y k) = x + y * 2 ^ k.
Proof.
  intros Hk Hx Hy.
  rewrite Z.shiftl_mul_pow2 by lia.
  rewrite <- Z.lxor_lor.
  - symmetry. apply Z.add_nocarry_lxor.
    apply Z.bits_inj'. intros n Hn. rewrite Z.land_spec, Z.bits_0.
    destruct (Z_lt_le_dec n k).
    + rewrite <- Z.shiftl_mul_pow2 by lia. rewrite Z.shiftl_spec_low by lia.
      apply andb_false_r.
    + rewrite (testbit_small x k n) by lia. reflexivity.
  - apply Z.bits_inj'. intros n Hn. rewrite Z.land_spec, Z.bits_0.
    destruct (Z_lt_le_dec n k).
    + rewrite <- Z.shiftl_mul_pow2 by lia. rewrite Z.shiftl_spec_low by lia.
      apply andb_false_r.
    + rewrite (testbit_small x k n) by lia. reflexivity.
Qed.

Lemma len_app {A} (l1 l2 : list A) : len (l1 ++ l2) = len l1 + len l2.
Proof. unfold len. rewrite length_app. lia. Qed.

Lemma len_cons {A} (a : A) (l : list A) : len (a :: l) = 1 + len l.
Proof. unfold len. simpl length. lia. Qed.

Lemma len_nonneg {A} (l : list A) : 0 <= len l.
Proof. unfold len. lia. Qed.

Lemma byte_cont_facts a :
  0 <= a < 256 ->
  (Z.lor a 128 <? 128) = false /\ Z.land (Z.lor a 128) 127 = a mod 128.
Proof.
  intros Ha.
  pose proof (forallb_bytes
    (fun a => negb (Z.lor a 128 <? 128) && (Z.land (Z.lor a 128) 127 =? a mod 128))
    eq_refl a Ha) as H.
  apply andb_true_iff in H. destruct H as [H1 H2].
  apply negb_true_iff in H1. apply Z.eqb_eq in H2. auto.
Qed.

Lemma pow2_split a b : 0 <= a -> 0 <= b -> 2 ^ (a + b) = 2 ^ a * 2 ^ b.
Proof. intros. apply Z.pow_add_r; lia. Qed.

Lemma uvarintLoop_final i v x rest :
  0 <= i <= 9 -> 0 <= v < 2 ^ (64 - 7 * i) -> v < 128 -> 0 <= x < 2 ^ (7 * i) ->
  Binary.uvarintLoop (to_byte v :: rest) i x (7 * i) = (x + v * 2 ^ (7 * i), i + 1).
Proof.
  intros Hi Hv Hv' Hx. unfold to_byte. rewrite Z.mod_small by lia.
  cbn [Binary.uvarintLoop]. unfold Binary.MaxVarintLen64.
  destruct (Z.eqb_spec i 10); [lia|].
  destruct (Z.ltb_spec v 128); [|lia].
  assert (Hpow : 2 ^ 64 = 2 ^ (64 - 7 * i) * 2 ^ (7 * i)).
  { rewrite <- pow2_split by lia. f_equal. lia. }
  assert (Hp1 : 0 < 2 ^ (7 * i)) by (apply Z.pow_pos_nonneg; lia).
  assert (Hlt : v * 2 ^ (7 * i) < 2 ^ 64).
  { rewrite Hpow. apply Z.mul_lt_mono_pos_r; lia. }
  replace ((i =? 10 - 1) && (1 <? v)) with false.
  - f_equal. unfold uint64. rewrite Z.mod_small.
    + apply lor_add_disjoint; lia.
    + rewrite Z.shiftl_mul_pow2 by lia. split; [apply Z.mul_nonneg_nonneg; lia|lia].
  - symmetry. apply andb_false_iff.
    destruct (Z.eqb_spec i (10 - 1)); [right|left; reflexivity].
    apply Z.ltb_ge. replace (64 - 7 * i) with 1 in Hv by lia. change (2 ^ 1) with 2 in Hv. lia.
Qed.

Lemma uvarintLoop_put n : forall i v x rest,
  Z.of_nat n = 9 - i -> 0 <= i ->
  0 <= v < 2 ^ (64 - 7 * i) -> 0 <= x < 2 ^ (7 * i) ->
  Binary.uvarintLoop (Binary.putUvarintLoop n v ++ rest) i x (7 * i)
  = (x + v * 2 ^ (7 * i), i + len (Binary.putUvarintLoop n v)).
Proof.
  induction n as [|n IH]; intros i v x rest Hn Hi Hv Hx.
  - simpl Binary.putUvarintLoop. cbn [app]. rewrite len_cons. change (len (@nil byte)) with 0.
    replace (1 + 0) with 1 by lia.
    apply uvarintLoop_final; try lia.
    replace (64 - 7 * i) with 1 in Hv by lia. change (2 ^ 1) with 2 in Hv. lia.
  - cbn [Binary.putUvarintLoop].
    destruct (Z.leb_spec 128 v) as [Hge|Hlt].
    + cbn [app Binary.uvarintLoop]. unfold Binary.MaxVarintLen64.
      destruct (Z.eqb_spec i 10); [lia|].
      assert (Hb : 0 <= to_byte v < 256) by (unfold to_byte; apply Z.mod_pos_bound; lia).
      destruct (byte_cont_facts _ Hb) as [Hb1 Hb2].
      rewrite Hb1, Hb2. unfold to_byte.
      replace ((v mod 256) mod 128) with (v mod 128).
      2:{ symmetry. apply Z.mod_mod_divide. exists 2. reflexivity. }
      assert (Hp1 : 0 < 2 ^ (7 * i)) by (apply Z.pow_pos_nonneg; lia).
      assert (Hpow : 2 ^ 64 = 2 ^ (64 - 7 * i) * 2 ^ (7 * i)).
      { rewrite <- pow2_split by lia. f_equal. lia. }
      assert (Hpow2 : 2 ^ (64 - 7 * i) = 128 * 2 ^ (64 - 7 * (i + 1))).
      { change 128 with (2 ^ 7). rewrite <- pow2_split by lia. f_equal. lia. }
      assert (Hpow3 : 2 ^ (7 * (i + 1)) = 2 ^ (7 * i) * 128).
      { change 128 with (2 ^ 7). rewrite <- pow2_split by lia. f_equal. lia. }
      assert (Hp2 : 0 < 2 ^ (64 - 7 * (i + 1))) by (apply Z.pow_pos_nonneg; lia).
      pose proof (Z.mod_pos_bound v 128 ltac:(lia)) as Hm.
      pose proof (Z.div_mod v 128 ltac:(lia)) as Hdm.
      assert (Hsmall : 0 <= v mod 128 * 2 ^ (7 * i) < 2 ^ 64).
      { split; [apply Z.mul_nonneg_nonneg; lia|].
        rewrite Hpow, Hpow2. apply Z.mul_lt_mono_pos_r; [lia|]. nia. }
      unfold uint64. rewrite Z.mod_small by (rewrite Z.shiftl_mul_pow2 by lia; exact Hsmall).
      rewrite lor_add_disjoint by lia.
      rewrite Z.shiftr_div_pow2 by lia. change (2 ^ 7) with 128.
      replace (7 * i + 7) with (7 * (i + 1)) by lia.
      assert (Hv1 : 0 <= v / 128 < 2 ^ (64 - 7 * (i + 1))).
      { split; [apply Z.div_pos; lia|]. apply Z.div_lt_upper_bound; lia. }
      assert (Hx1 : 0 <= x + v mod 128 * 2 ^ (7 * i) < 2 ^ (7 * (i + 1))).
      { rewrite Hpow3. nia. }
      rewrite IH by lia.
      f_equal; [|rewrite len_cons; lia]. rewrite Hpow3. nia.
    + cbn [app]. rewrite len_cons. change (len (@nil byte)) with 0.
      replace (1 + 0) with 1 by lia.
      apply uvarintLoop_final; lia.
Qed.

Lemma putUvarintLoop_len n v : 1 <= len (Binary.putUvarintLoop n v) <= Z.of_nat n + 1.
Proof.
  revert v. induction n as [|n IH]; intros v.
  - simpl. unfold len. simpl. lia.
  - cbn [Binary.putUvarintLoop]. destruct (128 <=? v).
    + rewrite len_cons. specialize (IH (Z.shiftr v 7)). lia.
    + unfold len. simpl. lia.
Qed.

Lemma Uvarint_PutUvarint x rest :
  Binary.Uvarint (Binary.PutUvarint x ++ rest) = (uint64 x, len (Binary.PutUvarint x)).
Proof.
  unfold Binary.Uvarint, Binary.PutUvarint.
  pose proof (Z.mod_pos_bound x (2 ^ 64) ltac:(lia)) as Hx. fold (uint64 x) in Hx.
  pose proof (uvarintLoop_put 9 0 (uint64 x) 0 rest eq_refl ltac:(lia)) as H.
  change (7 * 0) with 0 in H. change (64 - 0) with 64 in H. change (2 ^ 0) with 1 in H.
  rewrite H by lia. f_equal. lia.
Qed.

Lemma PutUvarint_len x : 1 <= len (Binary.PutUvarint x) <= 10.
Proof. unfold Binary.PutUvarint. pose proof (putUvarintLoop_len 9 (uint64 x)). lia. Qed.

Lemma uint64_idem x : uint64 (uint64 x) = uint64 x.
Proof. unfold uint64. apply Z.mod_mod. lia. Qed.

Lemma uint64_small x : 0 <= x < 2 ^ 64 -> uint64 x = x.
Proof. intros. unfold uint64. apply Z.mod_small. lia. Qed.

Lemma int64_small x : in_int64 x -> int64 x = x.
Proof.
  unfold in_int64, int64. intros H.
  destruct (Z_lt_le_dec x 0).
  - replace (x mod 2 ^ 64) with (x + 2 ^ 64).
    + destruct (Z.ltb_spec (x + 2 ^ 64) (2 ^ 63)); lia.
    + symmetry. rewrite <- (Z.mod_add x 1 (2 ^ 64)) by lia. apply Z.mod_small. lia.
  - rewrite Z.mod_small by lia. destruct (Z.ltb_spec x (2 ^ 63)); lia.
Qed.

Lemma int64_uint64 x : in_int64 x -> int64 (uint64 x) = x.
Proof.
  intros H. unfold int64. fold (uint64 (uint64 x)). rewrite uint64_idem.
  fold (int64 x). apply int64_small. exact H.
Qed.

Lemma land_1 a : Z.land a 1 = a mod 2.
Proof. exact (Z.land_ones a 1 ltac:(lia)). Qed.

Lemma zigzag_roundtrip x :
  in_int64 x ->
  let ux0 := uint64 (Z.shiftl (uint64 x) 1) in
  let ux := if x <? 0 then uint64 (Z.lnot ux0) else ux0 in
  0 <= ux < 2 ^ 64 /\
  (if Z.land ux 1 =? 0 then int64 (Z.shiftr ux 1)
   else int64 (Z.lnot (int64 (Z.shiftr ux 1)))) = x.
Proof.
  unfold in_int64. intros H. cbv zeta.
  rewrite Z.shiftl_mul_pow2 by lia. change (2 ^ 1) with 2.
  destruct (Z.ltb_spec x 0) as [Hneg|Hpos].
  - assert (E1 : uint64 x = x + 2 ^ 64).
    { unfold uint64. rewrite <- (Z.mod_add x 1 (2 ^ 64)) by lia. apply Z.mod_small. lia. }
    assert (E2 : uint64 (uint64 x * 2) = 2 * x + 2 ^ 64).
    { rewrite E1. unfold uint64.
      replace ((x + 2 ^ 64) * 2) with (2 * x + 2 ^ 64 + 1 * 2 ^ 64) by lia.
      rewrite Z.mod_add by lia. apply Z.mod_small. lia. }
    assert (E3 : uint64 (Z.lnot (uint64 (uint64 x * 2))) = - 2 * x - 1).
    { rewrite E2. unfold Z.lnot, uint64.
      replace (Z.pred (- (2 * x + 2 ^ 64))) with (- 2 * x - 1 + (-1) * 2 ^ 64) by lia.
      rewrite Z.mod_add by lia. apply Z.mod_small. lia. }
    rewrite E3. split; [lia|].
    rewrite land_1.
    replace ((- 2 * x - 1) mod 2) with 1.
    2:{ replace (- 2 * x - 1) with (1 + (- x - 1) * 2) by lia. rewrite Z.mod_add by lia. reflexivity. }
    simpl (1 =? 0). cbv iota.
    rewrite Z.shiftr_div_pow2 by lia. change (2 ^ 1) with 2.
    replace ((- 2 * x - 1) / 2) with (- x - 1).
    2:{ replace (- 2 * x - 1) with (1 + (- x - 1) * 2) by lia. rewrite Z.div_add by lia. reflexivity. }
    rewrite (int64_small (- x - 1)) by (unfold in_int64; lia).
    unfold Z.lnot. replace (Z.pred (- (- x - 1))) with x by lia.
    apply int64_small. unfold in_int64. lia.
  - assert (E1 : uint64 x = x) by (apply uint64_small; lia).
    assert (E2 : uint64 (uint64 x * 2) = 2 * x).
    { rewrite E1. replace (x * 2) with (2 * x) by lia. apply uint64_small. lia. }
    rewrite E2. split; [lia|].
    rewrite land_1.
    replace ((2 * x) mod 2) with 0.
    2:{ rewrite Z.mul_comm. symmetry. apply Z.mod_mul. lia. }
    simpl (0 =? 0). cbv iota.
    rewrite Z.shiftr_div_pow2 by lia. change (2 ^ 1) with 2.
    rewrite Z.mul_comm, Z.div_mul by lia.
    apply int64_small. unfold in_int64. lia.
Qed.

Lemma Varint_PutVarint x rest :
  in_int64 x ->
  Binary.Varint (Binary.PutVarint x ++ rest) = (x, len (Binary.PutVarint x)).
Proof.
  intros H. unfold Binary.Varint, Binary.PutVarint.
  destruct (zigzag_roundtrip x H) as [Hr Hz].
  cbv zeta in Hr, Hz |- *.
  rewrite Uvarint_PutUvarint.
  rewrite uint64_small by exact Hr.
  f_equal. exact Hz.
Qed.

Lemma PutVarint_len x : 1 <= len (Binary.PutVarint x) <= 10.
Proof. unfold Binary.PutVarint. apply PutUvarint_len. Qed.

Lemma to_byte_range x : 0 <= to_byte x < 256.
Proof. unfold to_byte. apply Z.mod_pos_bound. lia. Qed.

Lemma Uint32_PutUint32 v rest :
  Binary.Uint32 (Binary.PutUint32 v ++ rest) = Some (uint32 v).
Proof.
  unfold Binary.PutUint32, Binary.Uint32. cbn [app]. f_equal.
  pose proof (to_byte_range v) as H3.
  pose proof (to_byte_range (Z.shiftr v 8)) as H2.
  pose proof (to_byte_range (Z.shiftr v 16)) as H1.
  pose proof (to_byte_range (Z.shiftr v 24)) as H0.
  rewrite (lor_add_disjoint (to_byte v) _ 8) by (change (2 ^ 8) with 256; lia).
  rewrite (lor_add_disjoint _ _ 16) by (change (2 ^ 8) with 256; change (2 ^ 16) with 65536; lia).
  rewrite (lor_add_disjoint _ _ 24)
    by (change (2 ^ 8) with 256; change (2 ^ 16) with 65536; change (2 ^ 24) with 16777216; lia).
  unfold to_byte, uint32 in *. rewrite !Z.shiftr_div_pow2 in * by lia.
  change (2 ^ 8) with 256. change (2 ^ 16) with 65536. change (2 ^ 24) with 16777216.
  change (2 ^ 32) with 4294967296.
  Z.to_euclidean_division_equations. lia.
Qed.

Lemma PutUint32_len v : len (Binary.PutUint32 v) = 4.
Proof. reflexivity. Qed.

Lemma uint32_range x : 0 <= uint32 x < 2 ^ 32.
Proof. unfold uint32. apply Z.mod_pos_bound. lia. Qed.

Lemma uint64_range x : 0 <= uint64 x < 2 ^ 64.
Proof. unfold uint64. apply Z.mod_pos_bound. lia. Qed.

Lemma uint32_small x : 0 <= x < 2 ^ 32 -> uint32 x = x.
Proof. intros. unfold uint32. apply Z.mod_small. lia. Qed.

Lemma skipn_app_exact {A} (l1 l2 : list A) n : n = length l1 -> skipn n (l1 ++ l2) = l2.
Proof.
  intros ->. rewrite skipn_app, skipn_all, Nat.sub_diag. reflexivity.
Qed.

Lemma firstn_app_exact {A} (l1 l2 : list A) n : n = length l1 -> firstn n (l1 ++ l2) = l1.
Proof.
  intros ->. rewrite firstn_app, firstn_all, Nat.sub_diag. simpl. apply app_nil_r.
Qed.

Lemma Uint64_PutUint64 v rest :
  0 <= v < 2 ^ 64 ->
  Binary.Uint64 (Binary.PutUint64 v ++ rest) = Some v.
Proof.
  intros Hv. unfold Binary.Uint64, Binary.PutUint64.
  rewrite <- app_assoc. rewrite Uint32_PutUint32.
  rewrite skipn_app_exact by reflexivity.
  rewrite Uint32_PutUint32. f_equal.
  pose proof (uint32_range v). 
  rewrite lor_add_disjoint; try lia.
  - unfold uint32. rewrite Z.shiftr_div_pow2 by lia.
    change (2 ^ 32) with 4294967296 in *. change (2 ^ 64) with 18446744073709551616 in *.
    Z.to_euclidean_division_equations. lia.
  - apply uint32_range.
Qed.

Lemma PutUint64_len v : len (Binary.PutUint64 v) = 8.
Proof. reflexivity. Qed.

Lemma Checksum_range p : 0 <= Crc32.Checksum p < 2 ^ 32.
Proof. unfold Crc32.Checksum, Crc32.Update. apply uint32_range. Qed.

(** ** Slices and the decoder of a block *)

Lemma slice_ok {A} (b : list A) lo hi :
  0 <= lo -> lo <= hi -> hi <= len b ->
  slice b lo hi = Some (firstn (Z.to_nat (hi - lo)) (skipn (Z.to_nat lo) b)).
Proof.
  intros H1 H2 H3. unfold slice.
  destruct (Z.leb_spec 0 lo); [|lia].
  destruct (Z.leb_spec lo hi); [|lia].
  destruct (Z.leb_spec hi (len b)); [|lia]. reflexivity.
Qed.

Lemma slice_tail {A} (b : list A) lo :
  0 <= lo <= len b -> slice b lo (len b) = Some (skipn (Z.to_nat lo) b).
Proof.
  intros H. rewrite slice_ok by lia. f_equal.
  apply firstn_all2. rewrite length_skipn. unfold len in *. lia.
Qed.

Lemma firstn_app_le {A} (l1 l2 : list A) n :
  (length l1 <= n)%nat -> firstn n (l1 ++ l2) = l1 ++ firstn (n - length l1) l2.
Proof.
  intros H. rewrite firstn_app. rewrite firstn_all2 by lia. reflexivity.
Qed.

Lemma skipn_app_le {A} (l1 l2 : list A) n :
  (length l1 <= n)%nat -> skipn n (l1 ++ l2) = skipn (n - length l1) l2.
Proof.
  intros H. rewrite skipn_app. rewrite skipn_all2 by lia. reflexivity.
Qed.

Lemma Read_eq r n :
  0 <= n ->
  Read r n = (firstn (Z.to_nat n) r, skipn (Z.to_nat n) r,
              match r with [] => negb (n =? 0) | _ => false end).
Proof.
  intros Hn. unfold Read. destruct r; [|reflexivity].
  rewrite firstn_nil, skipn_nil. reflexivity.
Qed.

Lemma readTwo_ok parse p1 p2 v1 v2 tail st fuel :
  (forall x, parse (p1 ++ x) = (v1, len p1)) ->
  (forall x, Binary.Uvarint (p2 ++ x) = (v2, len p2)) ->
  1 <= len p1 <= 10 -> 1 <= len p2 <= 10 ->
  readBuf st ++ rd st = p1 ++ p2 ++ tail ->
  len (readBuf st) <= 20 ->
  readTwo parse (S fuel) st 0
  = LoopOk (v1, len p1, v2, len p2)
      {| rd := skipn (Z.to_nat (20 - len (readBuf st))) (rd st);
         readBuf := firstn 20 (readBuf st ++ rd st) |}.
Proof.
  intros Hp1 Hp2 Hl1 Hl2 Hs Hb.
  cbn [readTwo]. unfold readBufLen.
  rewrite Read_eq by lia.
  set (n := Z.to_nat (20 - len (readBuf st))).
  assert (Hbuf : readBuf st ++ firstn n (rd st) = firstn 20 (readBuf st ++ rd st)).
  { rewrite firstn_app_le by (unfold len in Hb; lia). f_equal. f_equal.
    unfold n, len. lia. }
  rewrite Hbuf. rewrite Hs.
  set (buf := firstn 20 (p1 ++ p2 ++ tail)).
  assert (Eb : buf = p1 ++ p2 ++ firstn (20 - length p1 - length p2) tail).
  { unfold buf. rewrite firstn_app_le by (unfold len in *; lia). f_equal.
    rewrite firstn_app_le by (unfold len in *; lia). reflexivity. }
  assert (Hvalid : len p1 + len p2 <= len buf).
  { rewrite Eb. rewrite !len_app. pose proof (len_nonneg (firstn (20 - length p1 - length p2) tail)). lia. }
  replace ((match rd st with [] => negb (20 - len (readBuf st) =? 0) | _ :: _ => false end)
           && (len buf =? 0)) with false.
  2:{ symmetry. apply andb_false_iff. right. apply Z.eqb_neq. lia. }
  cbv iota.
  rewrite Eb at 1. rewrite Hp1.
  rewrite slice_tail by lia.
  replace (skipn (Z.to_nat (len p1)) buf) with (p2 ++ firstn (20 - length p1 - length p2) tail).
  2:{ rewrite Eb. rewrite skipn_app_exact by (unfold len; lia). reflexivity. }
  rewrite Hp2.
  destruct (Z.eqb_spec (len p2) 0); [lia|]. reflexivity.
Qed.

Lemma int_small x : in_int64 x -> int x = x.
Proof. apply int64_small. Qed.

Lemma readLine_done fuel r line lineSize :
  lineSize <= len line ->
  readLine (S fuel) r line lineSize = LoopOk (line, r) {| rd := r; readBuf := [] |}.
Proof.
  intros H. cbn [readLine]. destruct (Z.ltb_spec (len line) lineSize); [lia|reflexivity].
Qed.

Lemma readLine_step fuel r line lineSize :
  len line < lineSize -> r <> [] ->
  readLine (S fuel) r line lineSize
  = readLine fuel (skipn (Z.to_nat (lineSize - len line)) r)
      (line ++ firstn (Z.to_nat (lineSize - len line)) r) lineSize.
Proof.
  intros H Hr. cbn [readLine].
  destruct (Z.ltb_spec (len line) lineSize); [|lia].
  rewrite Read_eq by lia. destruct r; [congruence|]. reflexivity.
Qed.

Lemma skipn_firstn_app {A} (m k : nat) (T : list A) :
  (m <= k)%nat -> skipn m (firstn k T) ++ skipn k T = skipn m T.
Proof.
  intros H.
  assert (E : skipn m T = skipn m (firstn k T ++ skipn k T)) by (rewrite firstn_skipn; reflexivity).
  rewrite E. rewrite skipn_app. f_equal.
  destruct (Nat.le_gt_cases k (length T)).
  - rewrite length_firstn. rewrite Nat.min_l by lia.
    replace (m - k)%nat with 0%nat by lia. reflexivity.
  - rewrite (skipn_all2 T) by lia. rewrite skipn_nil. reflexivity.
Qed.

Lemma moveNext_entry fmt sy st e rest :
  fmt < chunkFormatV4 ->
  in_int64 (e_t e) -> len (e_s e) < 2 ^ 63 ->
  readBuf st ++ rd st = encodeEntry e ++ rest ->
  len (readBuf st) <= 20 ->
  (maxLineLength <= len (e_s e) ->
   moveNext loopFuel fmt sy st = LoopStop (Some (ErrLineTooLong (len (e_s e))))) /\
  (len (e_s e) < maxLineLength ->
   exists st', moveNext loopFuel fmt sy st = LoopOk (e_t e, e_s e, []) st' /\
               readBuf st' ++ rd st' = rest /\ len (readBuf st') <= 20).
Proof.
  intros Hfmt Ht Hl Hs Hb.
  unfold encodeEntry in Hs. rewrite <- !app_assoc in Hs.
  pose proof (len_nonneg (e_s e)) as Hl0.
  pose proof (PutVarint_len (e_t e)) as Hw1.
  pose proof (PutUvarint_len (len (e_s e))) as Hw2.
  set (p1 := Binary.PutVarint (e_t e)) in *.
  set (p2 := Binary.PutUvarint (len (e_s e))) in *.
  assert (Hrt : moveNext loopFuel fmt sy st =
    match
      (let lineSize := len (e_s e) in
       let st1 := {| rd := skipn (Z.to_nat (20 - len (readBuf st))) (rd st);
                     readBuf := firstn 20 (readBuf st ++ rd st) |} in
       let buf := readBuf st1 in
       if maxLineLength <=? lineSize then LoopStop (Some (ErrLineTooLong lineSize))
       else if lineSize <? 0 then LoopPanic
       else
        match slice buf (len p1 + len p2) (len buf) with
        | None => LoopPanic
        | Some avail =>
            let line0 := firstn (Z.to_nat lineSize) avail in
            let kept := skipn (Z.to_nat lineSize) avail in
            match readLine (S (S (length (rd st1)))) (rd st1) line0 lineSize with
            | LoopOk (line, r2) _ =>
                LoopOk (e_t e, line, []) {| rd := r2; readBuf := kept |}
            | LoopStop e => LoopStop e
            | LoopPanic => LoopPanic
            | LoopFuel => LoopFuel
            end
        end)
    with x => x end).
  { unfold moveNext, loopFuel.
    rewrite (readTwo_ok Binary.Varint p1 p2 (e_t e) (uint64 (len (e_s e))) (e_s e ++ rest)); try assumption.
    - rewrite uint64_small by lia. rewrite int_small by (unfold in_int64; lia).
      cbv zeta. destruct (maxLineLength <=? len (e_s e)); [reflexivity|].
      destruct (len (e_s e) <? 0); [reflexivity|].
      cbn [readBuf rd].
      destruct (slice _ _ _); [|reflexivity].
      destruct (readLine _ _ _ _) as [[line r2] ?| | |]; try reflexivity.
      destruct (Z.ltb_spec fmt chunkFormatV4); [reflexivity|lia].
    - intros x. apply Varint_PutVarint. exact Ht.
    - intros x. apply Uvarint_PutUvarint. }
  rewrite Hrt. clear Hrt. cbv zeta. cbn [readBuf rd].
  split.
  - intros Hlong. destruct (Z.leb_spec maxLineLength (len (e_s e))); [reflexivity|lia].
  - intros Hshort. destruct (Z.leb_spec maxLineLength (len (e_s e))); [lia|].
    destruct (Z.ltb_spec (len (e_s e)) 0); [lia|].
    rewrite Hs.
    set (T := e_s e ++ rest).
    set (buf := firstn 20 (p1 ++ p2 ++ T)).
    set (k := (20 - length p1 - length p2)%nat).
    assert (Eb : buf = p1 ++ p2 ++ firstn k T).
    { unfold buf, k. rewrite firstn_app_le by (unfold len in *; lia). f_equal.
      rewrite firstn_app_le by (unfold len in *; lia). reflexivity. }
    assert (Hrd : skipn (Z.to_nat (20 - len (readBuf st))) (rd st) = skipn k T).
    { assert (E : skipn 20 (readBuf st ++ rd st) = skipn 20 (p1 ++ p2 ++ T)) by (rewrite Hs; reflexivity).
      rewrite skipn_app_le in E by (unfold len in *; lia).
      rewrite skipn_app_le in E by (unfold len in *; lia).
      rewrite skipn_app_le in E by (unfold len in *; lia).
      replace (Z.to_nat (20 - len (readBuf st))) with (20 - length (readBuf st))%nat
        by (unfold len in *; lia).
      rewrite E. f_equal. }
    rewrite Hrd.
    assert (Hlb : len buf = len p1 + len p2 + len (firstn k T)).
    { rewrite Eb. rewrite !len_app. lia. }
    pose proof (len_nonneg (firstn k T)).
    rewrite slice_tail by lia.
    replace (skipn (Z.to_nat (len p1 + len p2)) buf) with (firstn k T).
    2:{ rewrite Eb. rewrite app_assoc. rewrite skipn_app_exact; [reflexivity|].
        rewrite length_app. unfold len. lia. }
    set (m := Z.to_nat (len (e_s e))).
    assert (Hm : m = length (e_s e)) by (unfold m, len; lia).
    destruct (Nat.le_gt_cases m k) as [Hle|Hgt].
    + (* the whole line is in the read buffer *)
      assert (E0 : firstn m (firstn k T) = e_s e).
      { rewrite firstn_firstn. rewrite Nat.min_l by lia. unfold T.
        rewrite Hm. apply firstn_app_exact. reflexivity. }
      rewrite E0. rewrite readLine_done by lia.
      eexists. split; [reflexivity|]. cbn [readBuf rd]. split.
      * rewrite skipn_firstn_app by lia.
        unfold T; rewrite Hm; apply skipn_app_exact; reflexivity.
      * unfold len. rewrite length_skipn, length_firstn. lia.
    + (* the line continues in the reader *)
      assert (HT : (m <= length T)%nat) by (unfold T; rewrite length_app; lia).
      assert (E0 : firstn m (firstn k T) = firstn k T).
      { apply firstn_all2. rewrite length_firstn. lia. }
      rewrite E0.
      assert (Hlk : length (firstn k T) = k) by (rewrite length_firstn; lia).
      assert (Hne : skipn k T <> []).
      { intros E. apply (f_equal (@length _)) in E. rewrite length_skipn in E. simpl in E. lia. }
      rewrite readLine_step by (try assumption; unfold len; lia).
      replace (Z.to_nat (len (e_s e) - len (firstn k T))) with (m - k)%nat by (unfold len; lia).
      assert (E1 : firstn k T ++ firstn (m - k) (skipn k T) = e_s e).
      { assert (E2 : firstn m T = e_s e) by (unfold T; rewrite Hm; apply firstn_app_exact; reflexivity).
        rewrite <- E2. rewrite <- (firstn_skipn k T) at 3.
        rewrite firstn_app. rewrite Hlk. rewrite (firstn_all2 (firstn k T)) by lia. reflexivity. }
      rewrite E1. rewrite readLine_done by lia.
      eexists. split; [reflexivity|]. cbn [readBuf rd]. split.
      * rewrite skipn_all2 by lia. cbn [app]. rewrite skipn_skipn.
        replace (m - k + k)%nat with m by lia.
        unfold T. rewrite Hm. apply skipn_app_exact. reflexivity.
      * rewrite skipn_all2 by lia. unfold len. simpl. lia.
Qed.

(** ** Appends *)

Section Props.
Context {P : Pools}.

Lemma with_head_same c : with_head c (head c) (c_symbolizer c) = c.
Proof. destruct c; reflexivity. Qed.

Lemma lastMaxt_snoc bs b : lastMaxt (bs ++ [b]) = b_maxt b.
Proof. unfold lastMaxt. rewrite rev_app_distr. reflexivity. Qed.

Lemma len_zero_iff {A} (l : list A) : (len l =? 0) = true <-> l = [].
Proof.
  unfold len. split.
  - intros H. apply Z.eqb_eq in H. destruct l; [reflexivity|simpl in H; lia].
  - intros ->. reflexivity.
Qed.

Lemma len_snoc_nonzero {A} (l : list A) (x : A) : (len (l ++ [x]) =? 0) = false.
Proof. apply Z.eqb_neq. rewrite len_app. unfold len. simpl. lia. Qed.

(** what Append does on a chunk with an ordered head *)
Lemma Append_ordered c hb e :
  head c = OrderedHead hb -> headFmt c < UnorderedHeadBlockFmt ->
  let ts := Timestamp e in
  let e' := if format c <? chunkFormatV4 then dropLabels e else e in
  (* rejected *)
  ((if headBlock_IsEmpty hb then negb (len (blocks c) =? 0) && (ts <? lastMaxt (blocks c))
    else ts <? hb_maxt hb) = true ->
   fst (Append c e) = (Some ErrOutOfOrder, c)) /\
  (* accepted *)
  ((if headBlock_IsEmpty hb then negb (len (blocks c) =? 0) && (ts <? lastMaxt (blocks c))
    else ts <? hb_maxt hb) = false ->
   let hb' := {| entries := entries hb ++ [{| e_t := ts; e_s := Line e; e_nonIndexedLabels := [] |}];
                 size := size hb + len (Line e);
                 hb_mint := if (hb_mint hb =? 0) || (ts <? hb_mint hb) then ts else hb_mint hb;
                 hb_maxt := ts |} in
   let c' := with_head c (OrderedHead hb') (c_symbolizer c) in
   Append c e = (None, if blockSize c <=? size hb' then cut c' else c', e')).
Proof.
  intros Hh Hf ts e'. unfold Append. rewrite Hh. cbn [HeadBlock_IsEmpty].
  destruct (Z.ltb_spec (headFmt c) UnorderedHeadBlockFmt) as [_|]; [|lia].
  cbn [andb].
  assert (Hl : Line e' = Line e) by (unfold e'; destruct (format c <? chunkFormatV4); reflexivity).
  fold ts. fold e'. rewrite Hl.
  replace (0 <? len (blocks c)) with (negb (len (blocks c) =? 0)).
  2:{ pose proof (len_nonneg (blocks c)).
      destruct (Z.eqb_spec (len (blocks c)) 0); destruct (Z.ltb_spec 0 (len (blocks c))); simpl; lia || reflexivity. }
  destruct (headBlock_IsEmpty hb) eqn:He.
  - cbn [andb]. split.
    + intros Hr. rewrite Hr. reflexivity.
    + intros Hr. rewrite Hr.
      cbn [HeadBlock_Append]. unfold headBlock_Append. rewrite He. cbn [negb andb].
      cbn [with_head head blockSize HeadBlock_UncompressedSize headBlock_UncompressedSize size].
      destruct (blockSize c <=? size hb + len (Line e)); reflexivity.
  - cbn [andb]. split.
    + intros Hr. cbn [HeadBlock_Append]. unfold headBlock_Append. rewrite He, Hr.
      cbn [negb andb fst]. rewrite <- Hh. rewrite with_head_same. reflexivity.
    + intros Hr. cbn [HeadBlock_Append]. unfold headBlock_Append. rewrite He, Hr.
      cbn [negb andb].
      cbn [with_head head blockSize HeadBlock_UncompressedSize headBlock_UncompressedSize size].
      destruct (blockSize c <=? size hb + len (Line e)); reflexivity.
Qed.

Lemma cut_ordered_nonempty c hb :
  head c = OrderedHead hb -> headBlock_IsEmpty hb = false ->
  head (cut c) = OrderedHead headBlock_empty /\
  blocks (cut c) = blocks c ++
     [{| b_b := headBlock_Serialise (encoding c) hb; numEntries := headBlock_Entries hb;
         b_mint := hb_mint hb; b_maxt := hb_maxt hb; offset := 0;
         uncompressedSize := size hb |}] /\
  headFmt (cut c) = headFmt c /\ format (cut c) = format c /\ encoding (cut c) = encoding c.
Proof.
  intros Hh He. unfold cut. rewrite Hh. cbn [HeadBlock_IsEmpty]. rewrite He.
  cbn. auto.
Qed.

Lemma ordInv_Append c acc e :
  ordInv c acc ->
  match Append c e with
  | (None, c', _) => ordInv c' (acc ++ [e])
  | (Some err, c', _) => err = ErrOutOfOrder /\ c' = c
  end.
Proof.
  intros (Hf & [hb Hh] & Hacc).
  destruct (Append_ordered c hb e Hh Hf) as [Hrej Hok].
  cbv zeta in Hrej, Hok.
  destruct (if headBlock_IsEmpty hb then _ else _) eqn:Hc.
  - specialize (Hrej eq_refl). destruct (Append c e) as [[err c'] e']. cbn [fst] in Hrej.
    inversion Hrej; subst. auto.
  - rewrite (Hok eq_refl). clear Hrej Hok.
    set (hb' := {| entries := _; size := _; hb_mint := _; hb_maxt := Timestamp e |}).
    set (c' := with_head c (OrderedHead hb') (c_symbolizer c)).
    assert (He' : headBlock_IsEmpty hb' = false) by (apply len_snoc_nonzero).
    assert (Hmax : forall a, In a (acc ++ [e]) -> Timestamp a <= Timestamp e).
    { intros a Ha. apply in_app_or in Ha. destruct Ha as [Ha|[->|[]]]; [|lia].
      specialize (Hacc a Ha). unfold heldBelow in Hacc. rewrite Hh in Hacc.
      destruct (headBlock_IsEmpty hb).
      - destruct Hacc as [Hne Hle].
        destruct (Z.eqb_spec (len (blocks c)) 0) as [E|E].
        + apply Z.eqb_eq, len_zero_iff in E. congruence.
        + cbn [negb andb] in Hc. apply Z.ltb_ge in Hc. lia.
      - apply Z.ltb_ge in Hc. lia. }
    destruct (blockSize c <=? size hb').
    + destruct (cut_ordered_nonempty c' hb' eq_refl He') as (H1 & H2 & H3 & _).
      split; [rewrite H3; exact Hf|]. split; [eauto|].
      intros a Ha. unfold heldBelow. rewrite H1. cbn [headBlock_IsEmpty headBlock_empty entries].
      change (len (@nil entry) =? 0) with true. cbv iota.
      rewrite H2. rewrite lastMaxt_snoc. cbn [b_maxt hb' hb_maxt].
      split; [|apply Hmax; exact Ha].
      intros E. apply (f_equal (@length _)) in E. rewrite length_app in E. simpl in E. lia.
    + split; [exact Hf|]. split; [exists hb'; reflexivity|].
      intros a Ha. unfold heldBelow. cbn [c' with_head head]. rewrite He'.
      cbn [hb' hb_maxt]. apply Hmax; exact Ha.
Qed.

Lemma ordInv_run es : forall c acc,
  ordInv c acc -> ordInv (fst (appendRun c es)) (acc ++ snd (appendRun c es)).
Proof.
  induction es as [|e es IH]; intros c acc Hinv.
  - simpl. rewrite app_nil_r. exact Hinv.
  - cbn [appendRun]. pose proof (ordInv_Append c acc e Hinv) as H.
    destruct (Append c e) as [[[err|] c'] e'].
    + destruct H as [_ ->]. apply IH. exact Hinv.
    + specialize (IH c' (acc ++ [e]) H).
      destruct (appendRun c' es) as [c'' acc']. cbn [fst snd] in *.
      rewrite <- app_assoc in IH. exact IH.
Qed.

Lemma ordInv_new fmt enc hd bs ts :
  hd < UnorderedHeadBlockFmt -> ordInv (newMemChunkWithFormat fmt enc hd bs ts) [].
Proof.
  intros H. split; [exact H|]. split.
  - unfold newMemChunkWithFormat, NewBlock. cbn [head].
    destruct (Z.ltb_spec hd UnorderedHeadBlockFmt); [eauto|lia].
  - intros a [].
Qed.

(** C2, out-of-order appends.  A chunk with the ordered head is built by a
    run of appends.  An append whose timestamp is strictly below the
    timestamp of an entry the run accepted (so below the largest timestamp
    held, in the head or in the last sealed block) returns [ErrOutOfOrder]
    and leaves the chunk as it was: head, blocks, sizes and all. *)
Theorem Append_out_of_order_rejected :
  forall (fmt : Z) (enc : Encoding) (bs ts : Z) (es : list Entry) (e a : Entry),
    let c := fst (appendRun (newMemChunkWithFormat fmt enc OrderedHeadBlockFmt bs ts) es) in
    let accepted := snd (appendRun (newMemChunkWithFormat fmt enc OrderedHeadBlockFmt bs ts) es) in
    In a accepted ->
    Timestamp e < Timestamp a ->
    fst (Append c e) = (Some ErrOutOfOrder, c).
Proof.
  intros fmt enc bs ts es e a c accepted Ha Hlt.
  pose proof (ordInv_run es _ [] (ordInv_new fmt enc OrderedHeadBlockFmt bs ts ltac:(reflexivity))) as Hinv.
  cbn [app] in Hinv. fold c accepted in Hinv.
  destruct Hinv as (Hf & [hb Hh] & Hacc).
  specialize (Hacc a Ha). unfold heldBelow in Hacc. rewrite Hh in Hacc.
  destruct (Append_ordered c hb e Hh Hf) as [Hrej _]. apply Hrej.
  destruct (headBlock_IsEmpty hb).
  - destruct Hacc as [Hne Hle]. apply andb_true_iff. split.
    + apply negb_true_iff. apply Z.eqb_neq. intros E.
      apply Hne. apply len_zero_iff. apply Z.eqb_eq. exact E.
    + apply Z.ltb_lt. lia.
  - apply Z.ltb_lt. lia.
Qed.

(** ** Cutting the head *)

Lemma HeadBlock_Append_nonempty h sy ts line lbls h' sy' :
  HeadBlock_Append h sy ts line lbls = (None, h', sy') ->
  HeadBlock_IsEmpty h' = false /\
  HeadBlock_UncompressedSize h' = HeadBlock_UncompressedSize h + len line /\
  HeadBlock_Entries h' = HeadBlock_Entries h + 1.
Proof.
  destruct h as [hb|u]; cbn [HeadBlock_Append].
  - unfold headBlock_Append.
    destruct (negb (headBlock_IsEmpty hb) && (ts <? hb_maxt hb)); intros H; inversion H; subst.
    cbn. unfold headBlock_IsEmpty, headBlock_Entries. cbn [entries].
    rewrite len_snoc_nonzero, len_app. unfold len at 3. simpl. auto.
  - unfold unordered_Append. intros H; inversion H; subst.
    cbn. unfold unordered_IsEmpty. cbn [u_entries].
    rewrite len_snoc_nonzero, len_app. unfold len at 3. simpl. auto.
Qed.

Lemma HeadBlock_Reset_empty h :
  HeadBlock_IsEmpty (HeadBlock_Reset h) = true /\
  HeadBlock_UncompressedSize (HeadBlock_Reset h) = 0 /\
  HeadBlock_Entries (HeadBlock_Reset h) = 0 /\
  HeadBlock_Bounds (HeadBlock_Reset h) = (0, 0).
Proof. destruct h; cbn; auto. Qed.

Lemma cut_nonempty c :
  HeadBlock_IsEmpty (head c) = false ->
  blocks (cut c) = blocks c ++ [sealedFrom (encoding c) (c_symbolizer c) (head c)] /\
  cutBlockSize (cut c)
  = cutBlockSize c + len (HeadBlock_Serialise (encoding c) (c_symbolizer c) (head c)) /\
  head (cut c) = HeadBlock_Reset (head c) /\
  c_symbolizer (cut c) = c_symbolizer c /\
  blockSize (cut c) = blockSize c /\ targetSize (cut c) = targetSize c /\
  format (cut c) = format c /\ encoding (cut c) = encoding c /\
  headFmt (cut c) = headFmt c /\ compressedSize (cut c) = compressedSize c.
Proof.
  intros H. unfold cut. rewrite H. unfold sealedFrom.
  destruct (HeadBlock_Bounds (head c)) as [mint maxt]. cbn. repeat split; reflexivity.
Qed.

Lemma cut_empty c : HeadBlock_IsEmpty (head c) = true -> cut c = c.
Proof. intros H. unfold cut. rewrite H. reflexivity. Qed.


(** ** Admission *)

(** C6, admission.  With a positive target size [SpaceFor] holds exactly when
    the cut blocks' bytes, the head's uncompressed bytes, the length of the
    line and, from version 4 on, the symbol table's uncompressed size and the
    encoded size of the entry's labels sum to less than the target.  With a
    target of 0 it holds exactly when fewer than ten blocks are sealed. *)
Theorem SpaceFor_spec : forall (c : MemChunk) (e : Entry),
  (0 < targetSize c ->
   (SpaceFor c e = true <->
    cutBlockSize c + HeadBlock_UncompressedSize (head c) + len (Line e)
    + (if chunkFormatV4 <=? format c
       then sym_UncompressedSize (c_symbolizer c) + metaLabelsLen (NonIndexedLabels e)
       else 0)
    < targetSize c)) /\
  (targetSize c = 0 -> (SpaceFor c e = true <-> len (blocks c) < blocksPerChunk)).
Proof.
  intros c e. unfold SpaceFor. split.
  - intros Ht. destruct (Z.ltb_spec 0 (targetSize c)); [|lia].
    rewrite Z.ltb_lt. destruct (chunkFormatV4 <=? format c); lia.
  - intros Ht. rewrite Ht. cbn [Z.ltb Z.compare]. apply Z.ltb_lt.
Qed.

(** ** Structured labels *)

(** C10, structured labels.  Unless the entry is refused against the sealed
    blocks before anything else happens, a chunk below version 4 hands the
    entry to the head with no labels and the caller's entry comes back with
    its labels cleared, so that appending the entry and appending it without
    its labels are the same; a chunk of version 4 or later hands the labels
    to the head and leaves the entry as it is. *)
Theorem Append_structured_labels : forall (c : MemChunk) (e : Entry),
  (outOfOrderAtBlocks c e = true -> Append c e = (Some ErrOutOfOrder, c, e)) /\
  (outOfOrderAtBlocks c e = false ->
   (format c < chunkFormatV4 ->
    Append c e = (forwardToHead c (Timestamp e) (Line e) [], dropLabels e) /\
    Append c e = Append c (dropLabels e)) /\
   (chunkFormatV4 <= format c ->
    Append c e = (forwardToHead c (Timestamp e) (Line e) (NonIndexedLabels e), e))).
Proof.
  intros c e. unfold Append, outOfOrderAtBlocks, forwardToHead. split.
  - intros ->. reflexivity.
  - intros Hou. split; intros Hf.
    + cbn [dropLabels Timestamp Line NonIndexedLabels]. rewrite Hou.
      destruct (Z.ltb_spec (format c) chunkFormatV4); [|lia].
      cbn [dropLabels Timestamp Line NonIndexedLabels].
      destruct (HeadBlock_Append _ _ _ _ _) as [[[err|] h'] sy']; [split; reflexivity|].
      destruct (_ <=? _); split; reflexivity.
    + rewrite Hou.
      destruct (Z.ltb_spec (format c) chunkFormatV4); [lia|].
      destruct (HeadBlock_Append _ _ _ _ _) as [[[err|] h'] sy']; [reflexivity|].
      destruct (_ <=? _); reflexivity.
Qed.

(** ** The configuration of a rebound chunk *)

Lemma cut_config c : config (cut c) = config c.
Proof.
  unfold cut. destruct (HeadBlock_IsEmpty (head c)); [reflexivity|].
  destruct (HeadBlock_Bounds (head c)). reflexivity.
Qed.

Lemma Append_config c e : config (snd (fst (Append c e))) = config c.
Proof.
  unfold Append.
  destruct (_ && _ && _ && _); [reflexivity|].
  destruct (HeadBlock_Append _ _ _ _ _) as [[[err|] h'] sy']; [reflexivity|].
  destruct (_ <=? _); cbn [fst snd]; [rewrite cut_config|]; reflexivity.
Qed.

Lemma appendAll_config filter itr : forall c c',
  appendAll filter c itr = Ok c' -> config c' = config c.
Proof.
  induction itr as [|e itr IH]; intros c c' H; cbn [appendAll] in H.
  - inversion H. reflexivity.
  - destruct (match filter with Some f => f (Timestamp e) (Line e) | None => false end).
    + apply IH. exact H.
    + pose proof (Append_config c e) as Hc.
      destruct (Append c e) as [[[err|] c1] e1]; [discriminate|].
      cbn [fst snd] in Hc. rewrite <- Hc. apply IH. exact H.
Qed.

Lemma Rebound_config fuel : forall c start end_ filter c',
  Rebound fuel c start end_ filter = Ok c' -> config c' = reboundConfig c.
Proof.
  induction fuel as [|fuel IH]; intros c start end_ filter c' H; [discriminate|].
  cbn [Rebound] in H.
  destruct (Iterator c start (end_ + Millisecond) FORWARD NoopPipeline true) as [itr| | |];
    try discriminate.
  set (nc := if 0 <? blockSize c then _ else _) in H.
  assert (Hnc : config nc = reboundConfig c).
  { unfold nc, reboundConfig. destruct (0 <? blockSize c); reflexivity. }
  assert (Hpos : 0 < blockSize nc).
  { unfold nc. destruct (Z.ltb_spec 0 (blockSize c)); cbn; [assumption|reflexivity]. }
  destruct (appendAll filter nc itr) as [nc'| | |] eqn:Ha; try discriminate.
  apply appendAll_config in Ha.
  destruct (Size nc' =? 0); [discriminate|].
  unfold CloseWith, reorderWith in H.
  pose proof (cut_config nc') as Hcut.
  destruct (blocksOrdered (blocks (cut nc')) 0).
  - inversion H; subst. congruence.
  - destruct (Bounds (cut nc')) as [from to].
    apply IH in H. rewrite H.
    assert (Hb : blockSize (cut nc') = blockSize nc).
    { unfold config in *. congruence. }
    assert (E : reboundConfig (cut nc') = config (cut nc')).
    { unfold reboundConfig. rewrite Hb.
      destruct (Z.ltb_spec 0 (blockSize nc)); [|lia].
      unfold config. rewrite Hb. reflexivity. }
    rewrite E. congruence.
Qed.

(** C8, as amended.  The chunk [Rebound] returns has the codec of the
    original.  When the original's block size is positive it has that block
    size and the original's target size; otherwise its block size is 256 KiB
    and its target size is the original's compressed size. *)
Theorem Rebound_inherits_configuration :
  forall (fuel : nat) (c : MemChunk) (start end_ : Z) (filter : option Filter) (c' : MemChunk),
    Rebound fuel c start end_ filter = Ok c' ->
    encoding c' = encoding c /\
    blockSize c' = (if 0 <? blockSize c then blockSize c else defaultBlockSize) /\
    targetSize c' = (if 0 <? blockSize c then targetSize c else CompressedSize c).
Proof.
  intros fuel c start end_ filter c' H.
  apply Rebound_config in H. unfold config, reboundConfig in H.
  destruct (0 <? blockSize c); inversion H; auto.
Qed.

End Props.

(** ** Subsequences and sorted lists *)

#[local] Hint Constructors subseq : core.

Lemma subseq_nil_l {A} (l : list A) : subseq [] l.
Proof. induction l; auto. Qed.

Lemma subseq_refl {A} (l : list A) : subseq l l.
Proof. induction l; auto. Qed.

Lemma subseq_app {A} (a b c d : list A) : subseq a b -> subseq c d -> subseq (a ++ c) (b ++ d).
Proof. intros H1 H2. induction H1; cbn; auto. Qed.

Lemma subseq_trans {A} (l1 l2 l3 : list A) : subseq l1 l2 -> subseq l2 l3 -> subseq l1 l3.
Proof.
  intros H1 H2. revert l1 H1. induction H2; intros l0 H1; auto.
  inversion H1; subst; auto.
Qed.

Lemma subseq_In {A} (l1 l2 : list A) x : subseq l1 l2 -> In x l1 -> In x l2.
Proof. intros H. induction H; cbn; intuition. Qed.

Lemma subseq_filter {A} (f : A -> bool) (l : list A) : subseq (filter f l) l.
Proof. induction l; cbn; auto. destruct (f a); auto. Qed.

Lemma subseq_takeWhile {A} (f : A -> bool) (l : list A) : subseq (takeWhile f l) l.
Proof. induction l; cbn; auto. destruct (f a); auto using subseq_nil_l. Qed.

Lemma subseq_sorted (l1 l2 : list Z) :
  subseq l1 l2 -> StronglySorted Z.le l2 -> StronglySorted Z.le l1.
Proof.
  intros H. induction H; intros Hs; auto.
  - apply IHsubseq. inversion Hs; assumption.
  - inversion Hs; subst. constructor; auto.
    rewrite Forall_forall in *. intros y Hy. apply H3. eapply subseq_In; eauto.
Qed.

Lemma subseq_map {A B} (f : A -> B) (l1 l2 : list A) : subseq l1 l2 -> subseq (map f l1) (map f l2).
Proof. intros H. induction H; cbn; auto. Qed.

Lemma sorted_app_inv (l1 l2 : list Z) :
  StronglySorted Z.le (l1 ++ l2) -> StronglySorted Z.le l1 /\ StronglySorted Z.le l2.
Proof.
  intros H. split.
  - eapply subseq_sorted; [|exact H]. rewrite <- (app_nil_r l1) at 1.
    apply subseq_app; [apply subseq_refl|apply subseq_nil_l].
  - eapply subseq_sorted; [|exact H]. change l2 with ([] ++ l2) at 1.
    apply subseq_app; [apply subseq_nil_l|apply subseq_refl].
Qed.

Lemma sorted_snoc (l : list Z) x :
  StronglySorted Z.le l -> (forall y, In y l -> y <= x) -> StronglySorted Z.le (l ++ [x]).
Proof.
  intros Hs Hx. induction Hs; cbn.
  - constructor; constructor.
  - constructor.
    + apply IHHs. intros y Hy. apply Hx. right. exact Hy.
    + apply Forall_app. split; [assumption|]. constructor; [|constructor].
      apply Hx. left. reflexivity.
Qed.

Lemma sorted_app_le (l1 l2 : list Z) x y :
  StronglySorted Z.le (l1 ++ l2) -> In x l1 -> In y l2 -> x <= y.
Proof.
  induction l1 as [|a l1 IH]; cbn; intros Hs Hx Hy; [destruct Hx|].
  inversion Hs as [|? ? Hs' Hall]; subst. destruct Hx as [->|Hx].
  - rewrite Forall_forall in Hall. apply Hall. apply in_or_app. right. exact Hy.
  - apply IH; assumption.
Qed.

Lemma sorted_app (l1 l2 : list Z) :
  StronglySorted Z.le l1 -> StronglySorted Z.le l2 ->
  (forall x y, In x l1 -> In y l2 -> x <= y) ->
  StronglySorted Z.le (l1 ++ l2).
Proof.
  intros H1 H2 Hle. induction H1 as [|a l1 Hs IH Hall]; cbn; [exact H2|].
  constructor.
  - apply IH. intros x y Hx Hy. apply Hle; [right; exact Hx|exact Hy].
  - apply Forall_app. split; [exact Hall|].
    rewrite Forall_forall. intros y Hy. apply Hle; [left; reflexivity|exact Hy].
Qed.

Lemma subseq_snoc_r {A} (a b : list A) x : subseq a b -> subseq a (b ++ [x]).
Proof.
  intros H. rewrite <- (app_nil_r a). apply subseq_app; [exact H|apply subseq_nil_l].
Qed.

Lemma subseq_snoc {A} (a b : list A) x : subseq a b -> subseq (a ++ [x]) (b ++ [x]).
Proof. intros H. apply subseq_app; [exact H|apply subseq_refl]. Qed.

(** ** The sort iterator *)

Lemma popBest_None its : popBest Z.ltb its = None -> concat its = [].
Proof.
  induction its as [|[|e es] rest IH]; cbn; intros H; auto.
  - destruct (popBest Z.ltb rest) as [[e' rest']|]; [discriminate|]. auto.
  - destruct (popBest Z.ltb rest) as [[e' rest']|]; [|discriminate].
    destruct (Timestamp e' <? Timestamp e); discriminate.
Qed.

Lemma popBest_In its : forall e its',
  popBest Z.ltb its = Some (e, its') -> In e (concat its).
Proof.
  induction its as [|[|z zs] r IHr]; cbn [popBest]; intros e its' E; [discriminate| |].
  - destruct (popBest Z.ltb r) as [[e1 r1]|] eqn:E1; [|discriminate].
    inversion E; subst. cbn. eapply IHr. reflexivity.
  - destruct (popBest Z.ltb r) as [[e1 r1]|] eqn:E1.
    + destruct (Timestamp e1 <? Timestamp z); inversion E; subst; cbn.
      * right. apply in_or_app. right. eapply IHr. reflexivity.
      * left. reflexivity.
    + inversion E; subst. cbn. left. reflexivity.
Qed.

Lemma popBest_spec its : forall e its',
  popBest Z.ltb its = Some (e, its') ->
  Forall tsSorted its ->
  Forall tsSorted its' /\
  (forall x, In x (concat its) -> Timestamp e <= Timestamp x) /\
  (forall x, In x (concat its') -> In x (concat its)).
Proof.
  induction its as [|[|x xs] rest IH]; cbn [popBest]; intros e its' H Hs.
  - discriminate.
  - destruct (popBest Z.ltb rest) as [[e' rest']|] eqn:E; [|discriminate].
    inversion H; subst. inversion Hs; subst.
    destruct (IH _ _ eq_refl H3) as (A & B & C).
    split; [constructor; assumption|]. split; cbn; auto.
  - inversion Hs as [|? ? Hx Hrest]; subst.
    assert (Hxs : tsSorted xs /\ forall y, In y xs -> Timestamp x <= Timestamp y).
    { unfold tsSorted in Hx. cbn in Hx. inversion Hx; subst. split; [assumption|].
      intros y Hy. rewrite Forall_forall in H3. apply H3. apply in_map. exact Hy. }
    destruct Hxs as [Hxs Hle].
    destruct (popBest Z.ltb rest) as [[e' rest']|] eqn:E.
    + destruct (IH _ _ eq_refl Hrest) as (A & B & C).
      destruct (Z.ltb_spec (Timestamp e') (Timestamp x)) as [Hlt|Hge]; inversion H; subst.
      * split; [constructor; assumption|]. split.
        -- cbn. intros y [->|Hy]; [lia|]. apply in_app_or in Hy. destruct Hy as [Hy|Hy].
           ++ specialize (Hle y Hy). lia.
           ++ apply B. exact Hy.
        -- cbn. intros y [->|Hy]; [auto|]. right. apply in_app_or in Hy. apply in_or_app.
           destruct Hy; auto.
      * split; [constructor; assumption|]. split.
        -- cbn. intros y [->|Hy]; [lia|]. apply in_app_or in Hy. destruct Hy as [Hy|Hy].
           ++ apply Hle. exact Hy.
           ++ assert (He' : In e' (concat rest)).
              { eapply popBest_In. exact E. }
              specialize (B y Hy). lia.
        -- cbn. intros y Hy. right. exact Hy.
    + inversion H; subst. apply popBest_None in E.
      split; [constructor; assumption|]. split.
      * cbn. rewrite E, app_nil_r. intros y [->|Hy]; [lia|]. apply Hle. exact Hy.
      * cbn. intros y Hy. right. exact Hy.
Qed.

Lemma sortMerge_In fuel : forall its x,
  Forall tsSorted its -> In x (sortMerge fuel Z.ltb its) -> In x (concat its).
Proof.
  induction fuel as [|fuel IH]; intros its x Hs Hx; cbn [sortMerge] in Hx; [destruct Hx|].
  destruct (popBest Z.ltb its) as [[e its']|] eqn:E; [|destruct Hx].
  destruct (popBest_spec _ _ _ E Hs) as (A & B & C).
  destruct Hx as [<-|Hx].
  - eapply popBest_In. exact E.
  - apply C. apply IH; assumption.
Qed.

Lemma sortMerge_sorted fuel : forall its,
  Forall tsSorted its -> tsSorted (sortMerge fuel Z.ltb its).
Proof.
  induction fuel as [|fuel IH]; intros its Hs; cbn [sortMerge]; [constructor|].
  destruct (popBest Z.ltb its) as [[e its']|] eqn:E; [|constructor].
  destruct (popBest_spec _ _ _ E Hs) as (A & B & C).
  unfold tsSorted. cbn [map]. constructor; [apply IH; exact A|].
  rewrite Forall_forall. intros y Hy. apply in_map_iff in Hy. destruct Hy as (x & <- & Hx).
  apply B. apply C. apply (sortMerge_In fuel); assumption.
Qed.

Lemma sorted_concat_each (ls : list (list Entry)) :
  tsSorted (concat ls) -> Forall tsSorted ls.
Proof.
  induction ls as [|l ls IH]; cbn; intros H; constructor.
  - unfold tsSorted in *. rewrite map_app in H. apply sorted_app_inv in H. tauto.
  - apply IH. unfold tsSorted in *. rewrite map_app in H. apply sorted_app_inv in H. tauto.
Qed.

(** ** Decoding a block written by the ordered head *)

Lemma moveNext_end fmt sy :
  moveNext loopFuel fmt sy {| rd := []; readBuf := [] |} = LoopStop None.
Proof. reflexivity. Qed.

Lemma app_eq_nil_both {A} (a b : list A) : a ++ b = [] -> a = [] /\ b = [].
Proof. destruct a; cbn; intros H; [auto|discriminate]. Qed.

Lemma drain_encoded fmt sy es : forall fuel st,
  fmt < chunkFormatV4 ->
  Forall wt_entry es ->
  readBuf st ++ rd st = flat_map encodeEntry es ->
  len (readBuf st) <= 20 ->
  (length es < fuel)%nat ->
  exists err, drain fuel fmt sy st = Ok (decoded es, err).
Proof.
  induction es as [|e es IH]; intros fuel st Hfmt Hwt Hs Hb Hfuel.
  - cbn in Hs. apply app_eq_nil_both in Hs. destruct Hs as [H1 H2].
    destruct st as [r b]. cbn in H1, H2. subst.
    destruct fuel as [|fuel]; [cbn in Hfuel; lia|].
    cbn [drain]. rewrite moveNext_end. eexists. reflexivity.
  - destruct fuel as [|fuel]; [cbn in Hfuel; lia|].
    inversion Hwt as [|? ? [Ht Hl] Hwt']; subst.
    cbn [flat_map] in Hs.
    destruct (moveNext_entry fmt sy st e (flat_map encodeEntry es) Hfmt Ht Hl Hs Hb)
      as [Hlong Hshort].
    cbn [drain decoded].
    destruct (Z.leb_spec maxLineLength (len (e_s e))) as [Hge|Hlt].
    + rewrite (Hlong Hge). eexists. reflexivity.
    + destruct (Hshort Hlt) as (st' & Hm & Hs' & Hb'). rewrite Hm.
      assert (Hf' : (length es < fuel)%nat) by (cbn [length] in Hfuel; lia).
      destruct (IH fuel st' Hfmt Hwt' Hs' Hb' Hf') as [err Hd].
      rewrite Hd. eexists. reflexivity.
Qed.

Lemma encodeEntry_nonempty e : (1 <= length (encodeEntry e))%nat.
Proof.
  unfold encodeEntry. rewrite length_app.
  pose proof (PutVarint_len (e_t e)) as H. unfold len in H. lia.
Qed.

Lemma flat_map_encode_length es : (length es <= length (flat_map encodeEntry es))%nat.
Proof.
  induction es as [|e es IH]; cbn [flat_map length]; [lia|].
  rewrite length_app. pose proof (encodeEntry_nonempty e). lia.
Qed.

Lemma decoded_ts es : subseq (map (fun x => fst (fst x)) (decoded es)) (map e_t es).
Proof.
  induction es as [|e es IH]; cbn [decoded map]; [constructor|].
  destruct (maxLineLength <=? len (e_s e)); cbn [map fst].
  - apply subseq_nil_l.
  - apply subseq_cons. exact IH.
Qed.

Lemma pipeEntry_ts p keep l :
  subseq (map Timestamp (flat_map (pipeEntry p keep) l)) (map (fun x => fst (fst x)) l).
Proof.
  induction l as [|[[ts line] lbls] l IH]; cbn; [constructor|].
  destruct (p ts line lbls) as [[newLine lr]|]; cbn.
  - apply subseq_cons. exact IH.
  - apply subseq_skip. exact IH.
Qed.

(** ** The streams of a head iterator *)

Lemma streamsOf_snoc streams l x : streamsOf streams l -> streamsOf streams (l ++ [x]).
Proof.
  unfold streamsOf. intros H. eapply Forall_impl; [|exact H].
  intros s Hs. apply subseq_snoc_r. exact Hs.
Qed.

Lemma addEntry_streamsOf streams lbl e l :
  streamsOf streams l -> streamsOf (addEntry streams lbl e) (l ++ [Timestamp e]).
Proof.
  unfold streamsOf. induction streams as [|s streams IH]; intros H; cbn [addEntry].
  - constructor; [|constructor]. cbn [Entries map].
    change [Timestamp e] with ([] ++ [Timestamp e]) at 1.
    apply subseq_app; [apply subseq_nil_l|apply subseq_refl].
  - inversion H as [|? ? Hs Hrest]; subst.
    destruct (bytes_eqb (Labels s) lbl).
    + constructor; [|apply (streamsOf_snoc streams l (Timestamp e)); exact Hrest].
      cbn [Entries]. rewrite map_app. cbn [map]. apply subseq_snoc. exact Hs.
    + constructor; [apply subseq_snoc_r; exact Hs|apply IH; exact Hrest].
Qed.

Lemma process_streamsOf mint maxt p streams e l :
  streamsOf streams l -> streamsOf (process mint maxt p streams e) (l ++ [e_t e]).
Proof.
  intros H. unfold process.
  destruct ((e_t e <? mint) || (maxt <=? e_t e)); [apply streamsOf_snoc; exact H|].
  destruct (p (e_t e) (e_s e) (e_nonIndexedLabels e)) as [[newLine lr]|];
    [|apply streamsOf_snoc; exact H].
  apply (addEntry_streamsOf streams lr (toEntry newLine e) l). exact H.
Qed.

Lemma fold_process_streamsOf mint maxt p es : forall streams l,
  streamsOf streams l ->
  streamsOf (fold_left (process mint maxt p) es streams) (l ++ map e_t es).
Proof.
  induction es as [|e es IH]; intros streams l H; cbn [fold_left map].
  - rewrite app_nil_r. exact H.
  - replace (l ++ e_t e :: map e_t es) with ((l ++ [e_t e]) ++ map e_t es)
      by (rewrite <- app_assoc; reflexivity).
    apply IH. apply process_streamsOf. exact H.
Qed.

Lemma insertByRank_Forall (Q : Stream -> Prop) rank s l :
  Q s -> Forall Q l -> Forall Q (insertByRank rank s l).
Proof.
  intros Hs H. induction H as [|x l Hx Hl IH]; cbn [insertByRank].
  - constructor; [exact Hs|constructor].
  - destruct (rank (Labels s) <? rank (Labels x)).
    + constructor; [exact Hs|]. constructor; assumption.
    + constructor; assumption.
Qed.

Lemma rangeStreams_Forall (Q : Stream -> Prop) rank streams :
  Forall Q streams -> Forall Q (rangeStreams rank streams).
Proof.
  unfold rangeStreams.
  assert (G : forall acc, Forall Q acc -> Forall Q streams ->
                          Forall Q (fold_left (fun acc s => insertByRank rank s acc) streams acc)).
  { induction streams as [|s streams IH]; intros acc Hacc H; cbn [fold_left]; [exact Hacc|].
    inversion H; subst. apply IH; [|assumption]. apply insertByRank_Forall; assumption. }
  apply G. constructor.
Qed.

Lemma streamsIterator_sorted rank streams l :
  StronglySorted Z.le l -> streamsOf streams l ->
  tsSorted (streamsIterator rank streams FORWARD) /\
  forall x, In x (streamsIterator rank streams FORWARD) -> In (Timestamp x) l.
Proof.
  intros Hl Hst. unfold streamsIterator.
  destruct (len streams =? 0); [split; [constructor|intros x []]|].
  unfold NewStreamsIterator, NewSortEntryIterator.
  pose proof (rangeStreams_Forall _ rank streams Hst) as HR.
  assert (Hsorted : Forall tsSorted (map Entries (rangeStreams rank streams))).
  { rewrite Forall_map. eapply Forall_impl; [|exact HR].
    intros s Hs. unfold tsSorted. exact (subseq_sorted _ _ Hs Hl). }
  split; [apply sortMerge_sorted; exact Hsorted|].
  intros x Hx. apply sortMerge_In in Hx; [|exact Hsorted].
  apply in_concat in Hx. destruct Hx as (es & Hes & Hx).
  apply in_map_iff in Hes. destruct Hes as (s & <- & Hs).
  rewrite Forall_forall in HR. eapply subseq_In; [apply HR; exact Hs|].
  apply in_map. exact Hx.
Qed.

Lemma headBlock_Iterator_sorted rank hb mint maxt p :
  StronglySorted Z.le (map e_t (entries hb)) ->
  tsSorted (headBlock_Iterator rank hb FORWARD mint maxt p) /\
  forall x, In x (headBlock_Iterator rank hb FORWARD mint maxt p) ->
            In (Timestamp x) (map e_t (entries hb)).
Proof.
  intros Hs. unfold headBlock_Iterator.
  destruct (headBlock_IsEmpty hb || _); [split; [constructor|intros x []]|].
  apply streamsIterator_sorted; [exact Hs|].
  apply (fold_process_streamsOf mint maxt p (entries hb) [] []). constructor.
Qed.

Section Ordering.
Context {P : Pools}.
Hypothesis decompress_compress :
  forall (enc : Encoding) (b : bytes), decompress enc (compress enc b) = Some b.

Lemma encBlock_Iterator_ordered enc fmt sy b es p keep :
  fmt < chunkFormatV4 ->
  Forall wt_entry es ->
  b_b b = compress enc (flat_map encodeEntry es) ->
  exists it, encBlock_Iterator enc fmt sy b p keep = Ok it /\
             subseq (map Timestamp it) (map e_t es).
Proof.
  intros Hfmt Hwt Hb. unfold encBlock_Iterator.
  destruct (len (b_b b) =? 0).
  - exists []. split; [reflexivity|]. apply subseq_nil_l.
  - unfold blockEntries. rewrite Hb, decompress_compress.
    assert (H20 : len (@nil byte) <= 20) by (unfold len; simpl; lia).
    assert (Hfu : (length es < drainFuel (flat_map encodeEntry es))%nat).
    { unfold drainFuel. pose proof (flat_map_encode_length es). lia. }
    destruct (drain_encoded fmt sy es (drainFuel (flat_map encodeEntry es))
                {| rd := flat_map encodeEntry es; readBuf := [] |} Hfmt Hwt eq_refl H20 Hfu)
      as [err Hd].
    + rewrite Hd. eexists. split; [reflexivity|].
      eapply subseq_trans; [apply pipeEntry_ts|apply decoded_ts].
Qed.

Lemma orderedChunk_new fmt enc bs ts :
  fmt < chunkFormatV4 ->
  orderedChunk (newMemChunkWithFormat fmt enc OrderedHeadBlockFmt bs ts) [] headBlock_empty.
Proof.
  intros Hf. unfold orderedChunk. cbn.
  split; [reflexivity|]. split; [reflexivity|]. split; [exact Hf|].
  split; [constructor|]. split; [constructor|]. split; [constructor|].
  split; [intros y []|]. intros H. congruence.
Qed.

Lemma orderedChunk_Append c G hb e :
  orderedChunk c G hb -> wt_Entry e ->
  exists G' hb', orderedChunk (snd (fst (Append c e))) G' hb'.
Proof.
  intros (Hh & Hf & Hfmt & Hbl & Hso & Hwt & Hbmax & Hhmax) [Wt Wl].
  destruct (Append_ordered c hb e Hh Hf) as [Hrej Hok]. cbv zeta in Hrej, Hok.
  destruct (if headBlock_IsEmpty hb then _ else _) eqn:Hc.
  - specialize (Hrej eq_refl). destruct (Append c e) as [[err c1] e1]. cbn [fst snd] in *.
    inversion Hrej; subst. exists G, hb. unfold orderedChunk. auto 10.
  - rewrite (Hok eq_refl). clear Hrej Hok. cbn [fst snd].
    set (ne := {| e_t := Timestamp e; e_s := Line e; e_nonIndexedLabels := [] |}).
    set (hb' := {| entries := entries hb ++ [ne]; size := _; hb_mint := _; hb_maxt := Timestamp e |}).
    set (c' := with_head c (OrderedHead hb') (c_symbolizer c)).
    assert (He' : headBlock_IsEmpty hb' = false) by (apply len_snoc_nonzero).
    assert (Hmax : forall y, In y (map e_t (concat G ++ entries hb)) -> y <= Timestamp e).
    { intros y Hy. destruct (headBlock_IsEmpty hb) eqn:He.
      - unfold headBlock_IsEmpty in He. apply len_zero_iff in He. rewrite He, app_nil_r in Hy.
        destruct (Hbmax y Hy) as [Hne Hle].
        destruct (Z.eqb_spec (len (blocks c)) 0) as [E|E].
        + apply Z.eqb_eq, len_zero_iff in E. congruence.
        + cbn [negb andb] in Hc. apply Z.ltb_ge in Hc. lia.
      - apply Z.ltb_ge in Hc.
        assert (Hne : entries hb <> []).
        { intros E. unfold headBlock_IsEmpty in He. rewrite E in He. discriminate. }
        specialize (Hhmax Hne y Hy). lia. }
    assert (Hso' : StronglySorted Z.le (map e_t (concat G ++ entries hb'))).
    { cbn [hb' entries]. rewrite app_assoc, map_app. cbn [map ne e_t].
      apply sorted_snoc; assumption. }
    assert (Hwt' : Forall wt_entry (concat G ++ entries hb')).
    { cbn [hb' entries]. rewrite app_assoc. apply Forall_app. split; [assumption|].
      constructor; [|constructor]. split; assumption. }
    assert (Hmax' : forall y, In y (map e_t (concat G ++ entries hb')) -> y <= Timestamp e).
    { cbn [hb' entries]. rewrite app_assoc, map_app. intros y Hy.
      apply in_app_or in Hy. destruct Hy as [Hy|[<-|[]]]; [auto|cbn; lia]. }
    destruct (blockSize c <=? size hb').
    + destruct (cut_nonempty c') as (H1 & _ & H3 & _ & _ & _ & H7 & H8 & H9 & _);
        [exact He'|].
      exists (G ++ [entries hb']), headBlock_empty. unfold orderedChunk.
      rewrite H1, H3, H7, H8, H9. cbn [c' with_head head blocks encoding format headFmt c_symbolizer].
      cbn [HeadBlock_Reset headBlock_Reset headBlock_empty entries].
      rewrite concat_app. cbn [concat]. rewrite !app_nil_r.
      split; [reflexivity|]. split; [exact Hf|]. split; [exact Hfmt|].
      split; [apply Forall2_app; [exact Hbl|]; constructor; [reflexivity|constructor]|].
      split; [exact Hso'|]. split; [exact Hwt'|]. split.
      * intros y Hy. split.
        -- intros E. apply (f_equal (@length _)) in E. rewrite length_app in E. simpl in E. lia.
        -- rewrite lastMaxt_snoc. cbn [b_maxt sealedFrom HeadBlock_Bounds headBlock_Bounds snd hb' hb_maxt].
           apply Hmax'. exact Hy.
      * intros E. congruence.
    + exists G, hb'. unfold orderedChunk. cbn [c' with_head head blocks encoding format headFmt].
      split; [reflexivity|]. split; [exact Hf|]. split; [exact Hfmt|].
      split; [exact Hbl|]. split; [exact Hso'|]. split; [exact Hwt'|]. split; [exact Hbmax|].
      intros _ y Hy. cbn [hb' hb_maxt]. apply Hmax'. exact Hy.
Qed.

Lemma orderedChunk_run es : forall c G hb,
  orderedChunk c G hb -> Forall wt_Entry es ->
  exists G' hb', orderedChunk (fst (appendRun c es)) G' hb'.
Proof.
  induction es as [|e es IH]; intros c G hb Hinv Hwt.
  - exists G, hb. exact Hinv.
  - inversion Hwt; subst. cbn [appendRun].
    destruct (orderedChunk_Append c G hb e Hinv H1) as (G1 & hb1 & H1').
    destruct (Append c e) as [[[err|] c1] e1]; cbn [fst snd] in H1'.
    + apply (IH c1 G1 hb1); assumption.
    + destruct (IH c1 G1 hb1 H1' H2) as (G2 & hb2 & H2').
      destruct (appendRun c1 es) as [c2 acc]. exists G2, hb2. exact H2'.
Qed.

Lemma selectBlocks_sub enc mint maxt G bs :
  blocksOf enc G bs ->
  forall lastMax ordered,
    exists Gsel,
      blocksOf enc Gsel (fst (fst (selectBlocks mint maxt bs lastMax ordered))) /\
      subseq (concat Gsel) (concat G).
Proof.
  intros H. induction H as [|es b G bs Hb HF IH]; intros lastMax ordered.
  - exists []. split; constructor.
  - cbn [selectBlocks]. destruct ((maxt <? b_mint b) || (b_maxt b <? mint)).
    + destruct (IH lastMax ordered) as (Gsel & H1 & H2). exists Gsel. split; [exact H1|].
      cbn [concat]. change (concat Gsel) with ([] ++ concat Gsel).
      apply subseq_app; [apply subseq_nil_l|exact H2].
    + destruct (IH (b_maxt b) (ordered && negb (b_mint b <? lastMax))) as (Gsel & H1 & H2).
      destruct (selectBlocks mint maxt bs (b_maxt b) _) as [[sel lm] ord]. cbn [fst] in *.
      exists (es :: Gsel). split; [constructor; assumption|].
      cbn [concat]. apply subseq_app; [apply subseq_refl|exact H2].
Qed.

Lemma collect_blocks enc fmt sy p keep Gsel sel :
  fmt < chunkFormatV4 ->
  blocksOf enc Gsel sel ->
  Forall wt_entry (concat Gsel) ->
  exists its,
    collect (map (fun b => encBlock_Iterator enc fmt sy b p keep) sel) = Ok its /\
    subseq (map Timestamp (concat its)) (map e_t (concat Gsel)).
Proof.
  intros Hfmt H. induction H as [|es b G bs Hb HF IH]; intros Hwt.
  - exists []. split; [reflexivity|constructor].
  - cbn [concat] in Hwt. apply Forall_app in Hwt. destruct Hwt as [Hwt1 Hwt2].
    destruct (IH Hwt2) as (its & Hc & Hs).
    destruct (encBlock_Iterator_ordered enc fmt sy b es p keep Hfmt Hwt1 Hb) as (it & Hi & Hsi).
    exists (it :: its). cbn [map collect]. rewrite Hi, Hc. split; [reflexivity|].
    cbn [concat]. rewrite !map_app. apply subseq_app; assumption.
Qed.

Lemma Iterator_sorted c G hb mint maxt p keep :
  orderedChunk c G hb ->
  exists l, Iterator c mint maxt FORWARD p keep = Ok l /\ tsSorted l.
Proof.
  intros (Hh & Hf & Hfmt & Hbl & Hso & Hwt & Hbmax & Hhmax).
  unfold Iterator.
  destruct (selectBlocks_sub (encoding c) mint maxt G (blocks c) Hbl 0 true) as (Gsel & Hsel & Hsub).
  destruct (selectBlocks mint maxt (blocks c) 0 true) as [[sel lastMax] ordered]. cbn [fst] in Hsel.
  assert (Hwt' : Forall wt_entry (concat Gsel)).
  { apply Forall_app in Hwt. destruct Hwt as [Hwt _]. rewrite Forall_forall in *.
    intros x Hx. apply Hwt. eapply subseq_In; eassumption. }
  destruct (collect_blocks (encoding c) (format c) (c_symbolizer c) p keep Gsel sel Hfmt Hsel Hwt')
    as (its & Hc & Hs).
  rewrite Hc. rewrite Hh. cbn [HeadBlock_IsEmpty HeadBlock_Iterator HeadBlock_Bounds].
  set (headIterator := if negb (headBlock_IsEmpty hb) then [_] else []).
  set (ordered' := if negb (headBlock_IsEmpty hb) then _ else ordered).
  assert (HsG : StronglySorted Z.le (map e_t (concat G)) /\
                StronglySorted Z.le (map e_t (entries hb))).
  { rewrite map_app in Hso. apply sorted_app_inv. exact Hso. }
  destruct HsG as [HsG HsH].
  destruct (headBlock_Iterator_sorted streamRank hb mint maxt p HsH) as [Hhs Hhin].
  assert (Hhead : tsSorted (concat headIterator) /\
                  forall x, In x (concat headIterator) ->
                            In (Timestamp x) (map e_t (entries hb))).
  { unfold headIterator. destruct (negb (headBlock_IsEmpty hb)); cbn [concat].
    - rewrite app_nil_r. split; assumption.
    - split; [constructor|intros x []]. }
  destruct Hhead as [Hhead Hheadin].
  assert (Hall : tsSorted (concat (its ++ headIterator))).
  { unfold tsSorted. rewrite concat_app, map_app. apply sorted_app.
    - eapply subseq_sorted; [|exact HsG].
      eapply subseq_trans; [exact Hs|]. apply subseq_map. exact Hsub.
    - exact Hhead.
    - intros x y Hx Hy. rewrite map_app in Hso.
      apply (sorted_app_le _ _ x y Hso).
      + eapply subseq_In; [|exact Hx].
        eapply subseq_trans; [exact Hs|]. apply subseq_map. exact Hsub.
      + apply in_map_iff in Hy. destruct Hy as (e & <- & He). apply Hheadin. exact He. }
  eexists. split; [reflexivity|].
  unfold NewTimeRangedIterator, tsSorted.
  eapply subseq_sorted.
  - apply subseq_map. eapply subseq_trans; [apply subseq_takeWhile|apply subseq_filter].
  - destruct ordered'.
    + exact Hall.
    + unfold NewSortEntryIterator. apply sortMerge_sorted. apply sorted_concat_each. exact Hall.
Qed.

(** C7, ordering.  A chunk made by [NewMemChunk] with the ordered head, or
    one of any version below 4 with the ordered head, is built by a run of
    appends.  A forward iteration over any time range, with any pipeline,
    returns, and the entries it emits have non-decreasing timestamps. *)
Theorem forward_iteration_is_ordered :
  (forall (enc : Encoding) (bs ts : Z) (es : list Entry)
          (mint maxt : Z) (p : Pipeline) (keep : bool),
      Forall wt_Entry es ->
      let c := fst (appendRun (NewMemChunk enc OrderedHeadBlockFmt bs ts) es) in
      exists l, Iterator c mint maxt FORWARD p keep = Ok l /\ Sorted Z.le (map Timestamp l)) /\
  (forall (fmt : Z) (enc : Encoding) (bs ts : Z) (es : list Entry)
          (mint maxt : Z) (p : Pipeline) (keep : bool),
      fmt < chunkFormatV4 ->
      Forall wt_Entry es ->
      let c := fst (appendRun (newMemChunkWithFormat fmt enc OrderedHeadBlockFmt bs ts) es) in
      exists l, Iterator c mint maxt FORWARD p keep = Ok l /\ Sorted Z.le (map Timestamp l)).
Proof.
  assert (General : forall fmt enc bs ts es mint maxt p keep,
             fmt < chunkFormatV4 -> Forall wt_Entry es ->
             exists l,
               Iterator (fst (appendRun (newMemChunkWithFormat fmt enc OrderedHeadBlockFmt bs ts) es))
                 mint maxt FORWARD p keep = Ok l /\ Sorted Z.le (map Timestamp l)).
  { intros fmt enc bs ts es mint maxt p keep Hfmt Hwt.
    destruct (orderedChunk_run es _ _ _ (orderedChunk_new fmt enc bs ts Hfmt) Hwt)
      as (G & hb & Hinv).
    destruct (Iterator_sorted _ G hb mint maxt p keep Hinv) as (l & Hl & Hs).
    exists l. split; [exact Hl|]. apply StronglySorted_Sorted. exact Hs. }
  split.
  - intros enc bs ts es mint maxt p keep Hwt c. unfold c, NewMemChunk.
    apply General; [reflexivity|exact Hwt].
  - intros fmt enc bs ts es mint maxt p keep Hfmt Hwt c. apply General; assumption.
Qed.

End Ordering.

(** ** The wire form of a chunk *)

Lemma putBlockMeta_eq fmt eb b : putBlockMeta fmt eb b = eb ++ metaBytes fmt b.
Proof.
  unfold putBlockMeta, metaBytes, putUvarint, putVarint64.
  destruct (chunkFormatV3 <=? fmt); rewrite <- ?app_assoc; reflexivity.
Qed.

Lemma fold_putBlockMeta fmt bs : forall eb,
  fold_left (putBlockMeta fmt) bs eb = eb ++ flat_map (metaBytes fmt) bs.
Proof.
  induction bs as [|b bs IH]; intros eb; cbn [fold_left flat_map].
  - rewrite app_nil_r. reflexivity.
  - rewrite IH, putBlockMeta_eq, <- app_assoc. reflexivity.
Qed.

Lemma withOffsets_fst_len l : forall off,
  map (fun bc => len (b_b (fst bc))) (withOffsets l off) = map (fun bc => len (b_b (fst bc))) l.
Proof.
  induction l as [|[b crc] l IH]; intros off; cbn; [reflexivity|]. rewrite IH. reflexivity.
Qed.

Lemma wireBody_withOffsets l : forall off, wireBody (withOffsets l off) = wireBody l.
Proof.
  induction l as [|[b crc] l IH]; intros off; cbn; [reflexivity|].
  unfold wireBody in IH. rewrite IH. reflexivity.
Qed.

Lemma writeBlocks_eq bs : forall w off,
  writeBlocks bs w off
  = (w ++ wireBody (map sealed bs), off + len (wireBody (map sealed bs)),
     map fst (withOffsets (map sealed bs) off)).
Proof.
  induction bs as [|b bs IH]; intros w off; cbn [writeBlocks map wireBody flat_map withOffsets sealed fst snd].
  - rewrite app_nil_r. change (len (@nil byte)) with 0. rewrite Z.add_0_r. reflexivity.
  - rewrite IH. fold (wireBody (map sealed bs)). cbn [map fst].
    f_equal; [f_equal|].
    + rewrite <- !app_assoc. reflexivity.
    + rewrite !len_app. lia.
    + do 3 f_equal. rewrite len_app, PutUint32_len. lia.
Qed.

Section Wire.
Context {P : Pools}.

Lemma writeTo_wire c :
  let sec := symSerialize (encoding c) (c_symbolizer c) in
  let off0 := len (wireHeader (format c) (encoding c))
              + len (wireSymbols (format c) sec (Crc32.Checksum sec)) in
  let blocks' := map fst (withOffsets (map sealed (blocks c)) off0) in
  let mb := wireMetas (format c) blocks' in
  fst (writeTo c false)
  = wire (format c) (encoding c) sec (Crc32.Checksum sec)
      (wireBody (map sealed (blocks c))) mb (Crc32.Checksum mb)
  /\ blocks (snd (writeTo c false)) = blocks'
  /\ compressedSize (snd (writeTo c false)) = len (fst (writeTo c false)).
Proof.
  cbv zeta. unfold writeTo, wire, wireHeader, wireSymbols, wireTrailer, wireMetas.
  unfold putBE32, putByte, putBE64int, putHash, putUvarint.
  assert (L4 : forall v, len (Binary.PutUint32 v) = 4) by reflexivity.
  assert (L8 : forall v, len (Binary.PutUint64 v) = 8) by reflexivity.
  assert (L1 : forall x : byte, len [x] = 1) by reflexivity.
  assert (L0 : len (@nil byte) = 0) by reflexivity.
  destruct (chunkFormatV4 <=? format c) eqn:E4; destruct (chunkFormatV1 <? format c) eqn:E1;
    rewrite writeBlocks_eq; rewrite fold_putBlockMeta;
    cbn [fst snd blocks compressedSize app];
    (split; [|split]);
    rewrite <- ?app_assoc; cbn [app]; rewrite ?len_app; cbn [app];
    rewrite ?L4, ?L8, ?L1, ?L0, ?Z.add_0_r, ?Z.add_assoc; try reflexivity; try lia.
  all: repeat (rewrite ?len_cons, ?len_app, ?L4, ?L8, ?L0); lia.
Qed.

End Wire.

(** ** Reading the wire form back *)

Lemma slice_segment {A} (b pre mid post : list A) lo hi :
  b = pre ++ mid ++ post -> lo = len pre -> hi = lo + len mid ->
  slice b lo hi = Some mid.
Proof.
  intros -> -> ->. pose proof (len_nonneg pre). pose proof (len_nonneg mid).
  pose proof (len_nonneg post).
  rewrite slice_ok; try lia.
  - f_equal. rewrite skipn_app_exact by (unfold len; lia).
    apply firstn_app_exact. unfold len. lia.
  - rewrite !len_app. lia.
Qed.

Lemma slice_from_segment {A} (b pre post : list A) lo :
  b = pre ++ post -> lo = len pre -> slice_from b lo = Some post.
Proof.
  intros -> ->. unfold slice_from.
  apply (slice_segment (pre ++ post) pre post []).
  - rewrite app_nil_r. reflexivity.
  - reflexivity.
  - rewrite len_app. reflexivity.
Qed.

Lemma be32At_segment (b pre post : bytes) v lo :
  b = pre ++ Binary.PutUint32 v ++ post -> lo = len pre ->
  be32At b lo = Ok (uint32 v).
Proof.
  intros Hb Hlo. unfold be32At.
  rewrite (slice_from_segment b pre (Binary.PutUint32 v ++ post) lo Hb Hlo).
  rewrite Uint32_PutUint32. reflexivity.
Qed.

Lemma Uint64_PutUint64_nil v : 0 <= v < 2 ^ 64 -> Binary.Uint64 (Binary.PutUint64 v) = Some v.
Proof.
  intros H. rewrite <- (app_nil_r (Binary.PutUint64 v)). apply Uint64_PutUint64. exact H.
Qed.

Lemma readSectionLenAndOffset_segment (b pre post : bytes) l o idx :
  b = pre ++ Binary.PutUint64 l ++ Binary.PutUint64 o ++ post ->
  len post = (idx - 1) * 16 ->
  0 <= l < 2 ^ 64 -> 0 <= o < 2 ^ 64 ->
  readSectionLenAndOffset b idx = Ok (l, o).
Proof.
  intros Hb Hpost Hl Ho. unfold readSectionLenAndOffset.
  rewrite (slice_segment b pre (Binary.PutUint64 l ++ Binary.PutUint64 o) post).
  - rewrite Uint64_PutUint64 by exact Hl.
    rewrite skipn_app_exact by reflexivity.
    rewrite Uint64_PutUint64_nil by exact Ho. reflexivity.
  - rewrite Hb, <- app_assoc. reflexivity.
  - rewrite Hb. rewrite !len_app, !PutUint64_len. lia.
  - rewrite len_app, !PutUint64_len. lia.
Qed.

Lemma magic_uint32 : uint32 magicNumber = magicNumber.
Proof. reflexivity. Qed.

Lemma readHeader_wire fmt enc sec secCrc body mb metaCrc :
  validFormat fmt -> 0 <= enc < 256 ->
  readHeader (wire fmt enc sec secCrc body mb metaCrc)
  = Ok (fmt, if fmt =? chunkFormatV1 then EncGZIP else enc).
Proof.
  intros Hf He. unfold wire, wireHeader, readHeader, db_be32, db_byte, mkdecbuf, db_err.
  cbn [db_e db_b]. rewrite <- !app_assoc. rewrite Uint32_PutUint32.
  rewrite skipn_app_exact by reflexivity. cbn [app db_e db_b].
  rewrite magic_uint32. rewrite Z.eqb_refl. cbn [negb].
  destruct Hf as [ -> | [ -> | [ -> | -> ] ] ]; cbn -[wireSymbols wireTrailer Binary.PutUint32];
    try reflexivity; unfold to_byte; rewrite Z.mod_small by lia; reflexivity.
Qed.

Lemma readMetas_wire fmt enc sec secCrc body mb metaCrc :
  validFormat fmt ->
  0 <= metaCrc < 2 ^ 32 ->
  len (wire fmt enc sec secCrc body mb metaCrc) < 2 ^ 63 ->
  readMetas (wire fmt enc sec secCrc body mb metaCrc) fmt = Ok (mb, metaCrc).
Proof.
  intros Hf Hc Hlen. unfold readMetas.
  set (b := wire fmt enc sec secCrc body mb metaCrc) in *.
  set (h := wireHeader fmt enc). set (sy := wireSymbols fmt sec secCrc).
  set (mo := len h + len sy + len body).
  pose proof (len_nonneg h). pose proof (len_nonneg sy). pose proof (len_nonneg body).
  pose proof (len_nonneg mb). pose proof (len_nonneg sec).
  assert (Hpre : len (h ++ sy ++ body) = mo) by (rewrite !len_app; unfold mo; lia).
  assert (Hb : b = (h ++ sy ++ body) ++ mb ++ Binary.PutUint32 metaCrc
                   ++ wireTrailer fmt (if chunkFormatV4 <=? fmt then len sec else 0) (len h) (len mb) mo).
  { unfold b, wire. fold h sy mo. rewrite <- !app_assoc. reflexivity. }
  assert (Hlb : len b = mo + len mb + 4
                + len (wireTrailer fmt (if chunkFormatV4 <=? fmt then len sec else 0) (len h) (len mb) mo)).
  { rewrite Hb. rewrite len_app, Hpre, !len_app, PutUint32_len. lia. }
  assert (Hmo : uint64 mo = mo).
  { apply uint64_small. pose proof (len_nonneg (wireTrailer fmt (if chunkFormatV4 <=? fmt then len sec else 0) (len h) (len mb) mo)). lia. }
  assert (Hml : uint64 (len mb) = len mb).
  { apply uint64_small. pose proof (len_nonneg (wireTrailer fmt (if chunkFormatV4 <=? fmt then len sec else 0) (len h) (len mb) mo)). lia. }
  assert (Hend : uint64 (mo + len mb) = mo + len mb).
  { apply uint64_small. pose proof (len_nonneg (wireTrailer fmt (if chunkFormatV4 <=? fmt then len sec else 0) (len h) (len mb) mo)). lia. }
  assert (Hgo : forall metasLen metasOffset, metasLen = len mb -> metasOffset = mo ->
     match slice b metasOffset (uint64 (metasOffset + metasLen)) with
     | None => Panic
     | Some mb0 =>
         match be32At b (uint64 (metasOffset + metasLen)) with
         | Ok expCRC => Ok (mb0, expCRC)
         | Err e => Err e
         | Panic => Panic
         | OutOfFuel => OutOfFuel
         end
     end = Ok (mb, metaCrc)).
  { intros ? ? -> ->. rewrite Hend.
    erewrite (slice_segment b (h ++ sy ++ body) mb); [|exact Hb|exact (eq_sym Hpre)|reflexivity].
    erewrite be32At_segment with (pre := (h ++ sy ++ body) ++ mb) (v := metaCrc).
    - rewrite uint32_small by lia. reflexivity.
    - rewrite Hb. rewrite <- !app_assoc. reflexivity.
    - rewrite len_app, Hpre. reflexivity. }
  destruct (Z.leb_spec chunkFormatV4 fmt) as [H4|H4].
  - (* v4: the length and the offset are the last 16 bytes *)
    assert (Ht : wireTrailer fmt (len sec) (len h) (len mb) mo
                 = (Binary.PutUint64 (uint64 (len sec)) ++ Binary.PutUint64 (uint64 (len h)))
                   ++ Binary.PutUint64 (len mb) ++ Binary.PutUint64 mo ++ []).
    { unfold wireTrailer. destruct (Z.leb_spec chunkFormatV4 fmt); [|lia].
      rewrite Hml, Hmo. rewrite app_nil_r. rewrite <- !app_assoc. reflexivity. }
    rewrite (readSectionLenAndOffset_segment b
               ((h ++ sy ++ body) ++ mb ++ Binary.PutUint32 metaCrc
                ++ Binary.PutUint64 (uint64 (len sec)) ++ Binary.PutUint64 (uint64 (len h)))
               [] (len mb) mo chunkMetasSectionIdx).
    + apply Hgo; reflexivity.
    + rewrite Hb, Ht. rewrite <- !app_assoc. reflexivity.
    + reflexivity.
    + rewrite <- Hml. apply uint64_range.
    + rewrite <- Hmo. apply uint64_range.
  - (* before v4: the offset is the last 8 bytes *)
    assert (Ht : wireTrailer fmt 0 (len h) (len mb) mo = Binary.PutUint64 mo).
    { unfold wireTrailer. destruct (Z.leb_spec chunkFormatV4 fmt); [lia|].
      rewrite Hmo. reflexivity. }
    rewrite Ht in Hb, Hlb. rewrite PutUint64_len in Hlb.
    rewrite (slice_from_segment b ((h ++ sy ++ body) ++ mb ++ Binary.PutUint32 metaCrc)
               (Binary.PutUint64 mo) (len b - 8)).
    + rewrite Uint64_PutUint64_nil by (rewrite <- Hmo; apply uint64_range).
      apply Hgo; [|reflexivity].
      replace (len b - (8 + 4)) with (mo + len mb) by lia.
      rewrite Hend. replace (mo + len mb - mo) with (len mb) by lia. exact Hml.
    + rewrite Hb. rewrite <- !app_assoc. reflexivity.
    + rewrite len_app, Hpre, !len_app, PutUint32_len. lia.
Qed.

Lemma readSymbolsSection_wire fmt enc sec secCrc body mb metaCrc :
  chunkFormatV4 <= fmt ->
  0 <= secCrc < 2 ^ 32 ->
  len (wire fmt enc sec secCrc body mb metaCrc) < 2 ^ 63 ->
  readSymbolsSection (wire fmt enc sec secCrc body mb metaCrc) = Ok (sec, secCrc).
Proof.
  intros H4 Hc Hlen. unfold readSymbolsSection.
  set (b := wire fmt enc sec secCrc body mb metaCrc) in *.
  set (h := wireHeader fmt enc).
  pose proof (len_nonneg h). pose proof (len_nonneg body).
  pose proof (len_nonneg mb). pose proof (len_nonneg sec).
  assert (Hb' : exists mo,
             b = h ++ sec ++ Binary.PutUint32 secCrc ++ body ++ mb ++ Binary.PutUint32 metaCrc
                   ++ Binary.PutUint64 (uint64 (len sec)) ++ Binary.PutUint64 (uint64 (len h))
                   ++ Binary.PutUint64 (uint64 (len mb)) ++ Binary.PutUint64 (uint64 mo)).
  { unfold b, wire, wireSymbols, wireTrailer. fold h.
    destruct (Z.leb_spec chunkFormatV4 fmt); [|lia].
    eexists. rewrite <- !app_assoc. reflexivity. }
  destruct Hb' as [mo Hb].
  assert (Hlb : len h + len sec <= len b).
  { rewrite Hb. rewrite !len_app. 
    pose proof (len_nonneg (Binary.PutUint32 secCrc)). rewrite !PutUint32_len, !PutUint64_len. lia. }
  assert (Hsl : uint64 (len sec) = len sec) by (apply uint64_small; lia).
  assert (Hhl : uint64 (len h) = len h) by (apply uint64_small; lia).
  assert (Hend : uint64 (len h + len sec) = len h + len sec) by (apply uint64_small; lia).
  rewrite (readSectionLenAndOffset_segment b
             (h ++ sec ++ Binary.PutUint32 secCrc ++ body ++ mb ++ Binary.PutUint32 metaCrc)
             (Binary.PutUint64 (uint64 (len mb)) ++ Binary.PutUint64 (uint64 mo))
             (len sec) (len h) chunkNonIndexedLabelsSectionIdx).
  - rewrite Hend.
    erewrite (slice_segment b h sec); [|exact Hb|reflexivity|reflexivity].
    erewrite be32At_segment with (pre := h ++ sec) (v := secCrc).
    + rewrite uint32_small by lia. reflexivity.
    + rewrite Hb. rewrite <- !app_assoc. reflexivity.
    + rewrite len_app. reflexivity.
  - rewrite Hb, Hsl, Hhl. rewrite <- !app_assoc. reflexivity.
  - rewrite len_app, !PutUint64_len. reflexivity.
  - lia.
  - lia.
Qed.

Lemma int_uint64 x : in_int64 x -> int (uint64 x) = x.
Proof. apply int64_uint64. Qed.

Lemma db_uvarint_put x rest :
  in_int64 x ->
  db_uvarint (mkdecbuf (Binary.PutUvarint (uint64 x) ++ rest)) = (x, mkdecbuf rest).
Proof.
  intros Hx. unfold db_uvarint, db_uvarint64, mkdecbuf. cbn [db_e db_b].
  rewrite Uvarint_PutUvarint. rewrite uint64_idem.
  pose proof (PutUvarint_len (uint64 x)) as Hl.
  destruct (Z.ltb_spec (len (Binary.PutUvarint (uint64 x))) 1); [lia|].
  rewrite skipn_app_exact by (unfold len; lia).
  rewrite int_uint64 by exact Hx. reflexivity.
Qed.

Lemma db_varint64_put x rest :
  in_int64 x ->
  db_varint64 (mkdecbuf (Binary.PutVarint x ++ rest)) = (x, mkdecbuf rest).
Proof.
  intros Hx. unfold db_varint64, mkdecbuf. cbn [db_e db_b].
  rewrite Varint_PutVarint by exact Hx.
  pose proof (PutVarint_len x) as Hl.
  destruct (Z.ltb_spec (len (Binary.PutVarint x)) 1); [lia|].
  rewrite skipn_app_exact by (unfold len; lia). reflexivity.
Qed.

Lemma readBlocks_wire fmt b : forall l pre post rest blks cutSize,
  b = pre ++ wireBody l ++ post ->
  withOffsets l (len pre) = l ->
  Forall (fun bc => wtBlock (fst bc) /\ 0 <= snd bc < 2 ^ 32) l ->
  len b < 2 ^ 63 ->
  readBlocks (length l) fmt b (mkdecbuf (flat_map (metaBytes fmt) (map fst l) ++ rest))
    blks cutSize
  = Ok (blks ++ loaded fmt l, cutSize + loadedSize l).
Proof.
  induction l as [|[blk crc] l IH]; intros pre post rest blks cutSize Hb Hoff Hwt Hlen.
  - cbn. rewrite app_nil_r, Z.add_0_r. reflexivity.
  - cbn [withOffsets] in Hoff. injection Hoff as Ho Hoff'.
    apply Forall_cons_iff in Hwt. destruct Hwt as [[(Wn & Wmin & Wmax & Wu) Wc] Hwt'].
    cbn [fst snd] in *.
    cbn [length readBlocks map flat_map fst]. unfold metaBytes at 1.
    rewrite <- !app_assoc.
    rewrite db_uvarint_put by exact Wn.
    rewrite db_varint64_put by exact Wmin.
    rewrite db_varint64_put by exact Wmax.
    cbn [wireBody flat_map fst snd] in Hb. fold (wireBody l) in Hb.
    rewrite <- !app_assoc in Hb.
    pose proof (len_nonneg pre). pose proof (len_nonneg (b_b blk)).
    assert (Hlb : len pre + len (b_b blk) + 4 <= len b).
    { rewrite Hb. rewrite !len_app, PutUint32_len.
      pose proof (len_nonneg (wireBody l)). pose proof (len_nonneg post). lia. }
    assert (Wo : in_int64 (offset blk)).
    { rewrite <- Ho. cbn [set_offset offset]. unfold in_int64. lia. }
    rewrite db_uvarint_put by exact Wo.
    assert (Hsz : (if chunkFormatV3 <=? fmt
                   then db_uvarint (mkdecbuf
                          ((if chunkFormatV3 <=? fmt
                            then Binary.PutUvarint (uint64 (uncompressedSize blk)) else [])
                           ++ Binary.PutUvarint (uint64 (len (b_b blk)))
                           ++ flat_map (metaBytes fmt) (map fst l) ++ rest))
                   else (0, mkdecbuf
                          ((if chunkFormatV3 <=? fmt
                            then Binary.PutUvarint (uint64 (uncompressedSize blk)) else [])
                           ++ Binary.PutUvarint (uint64 (len (b_b blk)))
                           ++ flat_map (metaBytes fmt) (map fst l) ++ rest)))
                  = (if chunkFormatV3 <=? fmt then uncompressedSize blk else 0,
                     mkdecbuf (Binary.PutUvarint (uint64 (len (b_b blk)))
                               ++ flat_map (metaBytes fmt) (map fst l) ++ rest))).
    { destruct (chunkFormatV3 <=? fmt).
      - apply db_uvarint_put. exact Wu.
      - reflexivity. }
    rewrite Hsz. clear Hsz.
    rewrite db_uvarint_put by (unfold in_int64; lia).
    assert (Hoffv : offset blk = len pre).
    { rewrite <- Ho. reflexivity. }
    rewrite Hoffv.
    rewrite int_small by (unfold in_int64; lia).
    erewrite (slice_segment b pre (b_b blk)); [|exact Hb|reflexivity|reflexivity].
    erewrite be32At_segment with (pre := pre ++ b_b blk) (v := crc);
      [|rewrite Hb, <- !app_assoc; reflexivity|rewrite len_app; reflexivity].
    rewrite uint32_small by lia.
    assert (Hb' : b = (pre ++ b_b blk ++ Binary.PutUint32 crc) ++ wireBody l ++ post).
    { rewrite Hb, <- !app_assoc. reflexivity. }
    assert (Hoff2 : withOffsets l (len (pre ++ b_b blk ++ Binary.PutUint32 crc)) = l).
    { rewrite !len_app, PutUint32_len. rewrite Z.add_assoc. exact Hoff'. }
    unfold loaded, loadedSize. cbn [filter].
    change (crcOk (blk, crc)) with (crc =? Crc32.Checksum (b_b blk)).
    destruct (Z.eqb_spec crc (Crc32.Checksum (b_b blk))) as [Hcrc|Hcrc]; cbn [negb].
    + cbn [db_err mkdecbuf db_e].
      rewrite (IH _ post rest _ _ Hb' Hoff2 Hwt' Hlen).
      cbn [map fold_right fst]. unfold asRead at 1. rewrite Hoffv.
      rewrite <- app_assoc. cbn [app].
      unfold loaded, loadedSize. f_equal. f_equal. lia.
    + rewrite (IH _ post rest _ _ Hb' Hoff2 Hwt' Hlen). reflexivity.
Qed.

Lemma metaBytes_len fmt x : 1 <= len (metaBytes fmt x).
Proof.
  unfold metaBytes. rewrite len_app.
  pose proof (PutUvarint_len (uint64 (numEntries x))).
  match goal with |- _ <= _ + len ?r => pose proof (len_nonneg r) end. lia.
Qed.

Lemma flat_map_metaBytes_len fmt xs : len xs <= len (flat_map (metaBytes fmt) xs).
Proof.
  induction xs as [|x xs IH]; cbn [flat_map]; [unfold len; simpl; lia|].
  rewrite len_app, len_cons. pose proof (metaBytes_len fmt x). lia.
Qed.

Section ReadWire.
Context {P : Pools}.

Lemma newByteChunk_wire fmt enc sec secCrc l metaCrc bs ts :
  validFormat fmt -> 0 <= enc < 256 ->
  0 <= secCrc < 2 ^ 32 -> 0 <= metaCrc < 2 ^ 32 ->
  withOffsets l (len (wireHeader fmt enc) + len (wireSymbols fmt sec secCrc)) = l ->
  Forall (fun bc => wtBlock (fst bc) /\ 0 <= snd bc < 2 ^ 32) l ->
  let mb := wireMetas fmt (map fst l) in
  let b := wire fmt enc sec secCrc (wireBody l) mb metaCrc in
  let enc' := if fmt =? chunkFormatV1 then EncGZIP else enc in
  len b < 2 ^ 63 ->
  newByteChunk b bs ts false
  = if negb (metaCrc =? Crc32.Checksum mb) then Err ErrInvalidChecksum
    else if chunkFormatV4 <=? fmt then
      if negb (secCrc =? Crc32.Checksum sec) then Err ErrInvalidChecksum
      else match symFromEnc enc' sec with
           | Some sy => Ok (byteChunk bs ts sy (loaded fmt l) (loadedSize l) fmt enc' (len b))
           | None => Err ErrSymbols
           end
    else Ok (byteChunk bs ts newSymbolizer (loaded fmt l) (loadedSize l) fmt enc' (len b)).
Proof.
  intros Hf He Hsc Hmc Hoff Hwt mb b enc' Hlen.
  unfold newByteChunk. fold b.
  unfold b at 1. rewrite readHeader_wire by assumption. fold enc'.
  unfold b at 1. rewrite readMetas_wire by assumption.
  unfold db_crc32, mkdecbuf at 1. cbn [db_b].
  destruct (metaCrc =? Crc32.Checksum mb); cbn [negb]; [|reflexivity].
  unfold mb at 1. unfold wireMetas.
  assert (Hnl : in_int64 (len (map fst l))).
  { unfold in_int64. pose proof (len_nonneg (map fst l)).
    assert (len (map fst l) <= len b); [|lia].
    unfold b, wire. rewrite !len_app. unfold mb, wireMetas. rewrite len_app.
    pose proof (len_nonneg (wireHeader fmt enc)).
    pose proof (len_nonneg (wireSymbols fmt sec secCrc)).
    pose proof (len_nonneg (wireBody l)).
    pose proof (PutUvarint_len (uint64 (len (map fst l)))).
    pose proof (len_nonneg (Binary.PutUint32 metaCrc)).
    pose proof (len_nonneg (wireTrailer fmt (if chunkFormatV4 <=? fmt then len sec else 0)
       (len (wireHeader fmt enc)) (len (Binary.PutUvarint (uint64 (len (map fst l)))) +
        len (flat_map (metaBytes fmt) (map fst l)))
       (len (wireHeader fmt enc) + len (wireSymbols fmt sec secCrc) + len (wireBody l)))).
    assert (len (map fst l) <= len (flat_map (metaBytes fmt) (map fst l))); [|lia].
    apply flat_map_metaBytes_len. }
  rewrite db_uvarint_put by exact Hnl.
  pose proof (len_nonneg (map fst l)).
  destruct (Z.ltb_spec (len (map fst l)) 0); [lia|].
  replace (Z.to_nat (len (map fst l))) with (length l)
    by (unfold len; rewrite length_map; lia).
  rewrite <- (app_nil_r (flat_map (metaBytes fmt) (map fst l))).
  rewrite (readBlocks_wire fmt b l (wireHeader fmt enc ++ wireSymbols fmt sec secCrc)
             (mb ++ Binary.PutUint32 metaCrc
              ++ wireTrailer fmt (if chunkFormatV4 <=? fmt then len sec else 0)
                   (len (wireHeader fmt enc)) (len mb)
                   (len (wireHeader fmt enc) + len (wireSymbols fmt sec secCrc) + len (wireBody l)))
             [] [] 0).
  - cbn [app]. rewrite Z.add_0_l.
    destruct (Z.leb_spec chunkFormatV4 fmt) as [H4|H4]; [|reflexivity].
    unfold b at 1. rewrite readSymbolsSection_wire by assumption.
    destruct (secCrc =? Crc32.Checksum sec); cbn [negb]; [|reflexivity].
    destruct (symFromEnc enc' sec); reflexivity.
  - unfold b, wire. rewrite <- !app_assoc. reflexivity.
  - rewrite len_app. exact Hoff.
  - exact Hwt.
  - exact Hlen.
Qed.

End ReadWire.

(** ** Chunks that agree on the wire *)

Lemma withOffsets_idem l : forall off, withOffsets (withOffsets l off) off = withOffsets l off.
Proof.
  induction l as [|[b crc] l IH]; intros off; cbn [withOffsets]; [reflexivity|].
  cbn [set_offset b_b]. rewrite IH. reflexivity.
Qed.

Lemma filter_crcOk_sealed bs : forall off,
  filter crcOk (withOffsets (map sealed bs) off) = withOffsets (map sealed bs) off.
Proof.
  induction bs as [|b bs IH]; intros off; cbn [map sealed withOffsets filter]; [reflexivity|].
  unfold crcOk at 1. cbn [fst snd set_offset b_b]. rewrite Z.eqb_refl. rewrite IH. reflexivity.
Qed.

Lemma sameWire_read fmt bs : forall off,
  Forall2 (sameWire fmt) bs
    (map (fun bc => asRead fmt (fst bc)) (withOffsets (map sealed bs) off)).
Proof.
  induction bs as [|b bs IH]; intros off; cbn [map sealed withOffsets fst]; constructor.
  - unfold sameWire, asRead, set_offset. cbn.
    repeat split; try reflexivity.
    intros H. destruct (Z.leb_spec chunkFormatV3 fmt); [reflexivity|lia].
  - apply IH.
Qed.

Lemma sameWire_body fmt bs1 bs2 :
  Forall2 (sameWire fmt) bs1 bs2 -> wireBody (map sealed bs1) = wireBody (map sealed bs2).
Proof.
  intros H. induction H as [|b1 b2 l1 l2 (Hb & _) _ IH]; [reflexivity|].
  cbn [map sealed wireBody flat_map fst snd]. unfold wireBody in IH. rewrite IH, Hb. reflexivity.
Qed.

Lemma sameWire_metas fmt bs1 bs2 :
  Forall2 (sameWire fmt) bs1 bs2 -> forall off,
  flat_map (metaBytes fmt) (map fst (withOffsets (map sealed bs1) off))
  = flat_map (metaBytes fmt) (map fst (withOffsets (map sealed bs2) off)).
Proof.
  intros H. induction H as [|b1 b2 l1 l2 (Hb & Hn & Hmi & Hma & Hu) _ IH]; intros off; [reflexivity|].
  cbn [map sealed withOffsets flat_map fst]. rewrite Hb, IH. f_equal.
  unfold metaBytes, set_offset. cbn. rewrite Hb, Hn, Hmi, Hma.
  destruct (Z.leb_spec chunkFormatV3 fmt); [rewrite Hu by assumption|]; reflexivity.
Qed.

Lemma sameWire_length fmt bs1 bs2 : Forall2 (sameWire fmt) bs1 bs2 -> len bs1 = len bs2.
Proof. intros H. unfold len. f_equal. eapply Forall2_length. exact H. Qed.

Lemma withOffsets_length l : forall off, length (withOffsets l off) = length l.
Proof. induction l as [|[b c] l IH]; intros off; cbn; [reflexivity|]. rewrite IH. reflexivity. Qed.

Lemma wire_pre_v4 fmt enc sec1 sec2 crc1 crc2 body mb mc :
  fmt < chunkFormatV4 ->
  wire fmt enc sec1 crc1 body mb mc = wire fmt enc sec2 crc2 body mb mc.
Proof.
  intros H. unfold wire, wireSymbols, wireTrailer.
  destruct (Z.leb_spec chunkFormatV4 fmt); [lia|reflexivity].
Qed.

Section Congruence.
Context {P : Pools}.

Lemma Bytes_congr c1 c2 :
  format c1 = format c2 -> encoding c1 = encoding c2 ->
  (chunkFormatV4 <= format c1 -> c_symbolizer c1 = c_symbolizer c2) ->
  Forall2 (sameWire (format c1)) (blocks c1) (blocks c2) ->
  Bytes c1 = Bytes c2.
Proof.
  intros Hf He Hs Hb. unfold Bytes, WriteTo.
  destruct (writeTo_wire c1) as (W1 & _). destruct (writeTo_wire c2) as (W2 & _).
  cbv zeta in W1, W2. rewrite W1, W2. rewrite <- Hf, <- He.
  rewrite <- (sameWire_body _ _ _ Hb).
  set (sec1 := symSerialize (encoding c1) (c_symbolizer c1)).
  set (sec2 := symSerialize (encoding c1) (c_symbolizer c2)).
  assert (Hm : forall off,
            wireMetas (format c1) (map fst (withOffsets (map sealed (blocks c1)) off))
            = wireMetas (format c1) (map fst (withOffsets (map sealed (blocks c2)) off))).
  { intros off. unfold wireMetas. rewrite (sameWire_metas _ _ _ Hb).
    do 3 f_equal. unfold len. rewrite !length_map, !withOffsets_length, !length_map.
    f_equal. eapply Forall2_length. exact Hb. }
  destruct (Z.leb_spec chunkFormatV4 (format c1)) as [H4|H4].
  - assert (E : sec1 = sec2) by (unfold sec1, sec2; rewrite (Hs H4); reflexivity).
    rewrite <- E. rewrite Hm. reflexivity.
  - assert (Ew : forall s c, wireSymbols (format c1) s c = []).
    { intros s c. unfold wireSymbols. destruct (Z.leb_spec chunkFormatV4 (format c1)); [lia|reflexivity]. }
    rewrite !Ew. rewrite Hm.
    apply wire_pre_v4. exact H4.
Qed.

Lemma moveNext_pre_v4 fuel fmt sy1 sy2 st :
  fmt < chunkFormatV4 -> moveNext fuel fmt sy1 st = moveNext fuel fmt sy2 st.
Proof.
  intros H. unfold moveNext.
  destruct (readTwo Binary.Varint fuel st 0) as [[[[ts tw] l] lw] st1| | |]; try reflexivity.
  cbv zeta.
  destruct (maxLineLength <=? int l); [reflexivity|].
  destruct (int l <? 0); [reflexivity|].
  destruct (slice _ _ _); [|reflexivity].
  destruct (readLine _ _ _ _) as [[line r2] ?| | |]; try reflexivity.
  destruct (Z.ltb_spec fmt chunkFormatV4); [reflexivity|lia].
Qed.

Lemma drain_pre_v4 fuel fmt sy1 sy2 : forall st,
  fmt < chunkFormatV4 -> drain fuel fmt sy1 st = drain fuel fmt sy2 st.
Proof.
  induction fuel as [|fuel IH]; intros st H; [reflexivity|].
  cbn [drain]. rewrite (moveNext_pre_v4 loopFuel fmt sy1 sy2 st H).
  destruct (moveNext loopFuel fmt sy2 st); try reflexivity.
  rewrite (IH _ H). reflexivity.
Qed.

Lemma encBlock_Iterator_congr enc fmt sy1 sy2 b1 b2 p keep :
  (chunkFormatV4 <= fmt -> sy1 = sy2) -> b_b b1 = b_b b2 ->
  encBlock_Iterator enc fmt sy1 b1 p keep = encBlock_Iterator enc fmt sy2 b2 p keep.
Proof.
  intros Hs Hb. unfold encBlock_Iterator, blockEntries. rewrite Hb.
  destruct (Z.leb_spec chunkFormatV4 fmt) as [H4|H4].
  - rewrite (Hs H4). reflexivity.
  - destruct (decompress enc (b_b b2)); [|reflexivity].
    rewrite (drain_pre_v4 _ fmt sy1 sy2 _ H4). reflexivity.
Qed.

Lemma selectBlocks_congr fmt mint maxt bs1 bs2 :
  Forall2 (sameWire fmt) bs1 bs2 -> forall lm ord,
  Forall2 (sameWire fmt) (fst (fst (selectBlocks mint maxt bs1 lm ord)))
                         (fst (fst (selectBlocks mint maxt bs2 lm ord))) /\
  snd (fst (selectBlocks mint maxt bs1 lm ord)) = snd (fst (selectBlocks mint maxt bs2 lm ord)) /\
  snd (selectBlocks mint maxt bs1 lm ord) = snd (selectBlocks mint maxt bs2 lm ord).
Proof.
  intros H. induction H as [|b1 b2 l1 l2 Hb _ IH]; intros lm ord.
  - cbn. auto.
  - cbn [selectBlocks]. destruct Hb as (Hbb & Hn & Hmi & Hma & Hu). rewrite Hmi, Hma.
    destruct ((maxt <? b_mint b2) || (b_maxt b2 <? mint)).
    + apply IH.
    + specialize (IH (b_maxt b2) (ord && negb (b_mint b2 <? lm))).
      destruct (selectBlocks mint maxt l1 _ _) as [[s1 m1] o1].
      destruct (selectBlocks mint maxt l2 _ _) as [[s2 m2] o2].
      cbn [fst snd] in *. destruct IH as (A & B & C). repeat split; try assumption.
      constructor; [|exact A]. unfold sameWire. auto.
Qed.

Lemma Iterator_congr c1 c2 mint maxt d p keep :
  format c1 = format c2 -> encoding c1 = encoding c2 ->
  (chunkFormatV4 <= format c1 -> c_symbolizer c1 = c_symbolizer c2) ->
  Forall2 (sameWire (format c1)) (blocks c1) (blocks c2) ->
  HeadBlock_IsEmpty (head c1) = true -> HeadBlock_IsEmpty (head c2) = true ->
  Iterator c1 mint maxt d p keep = Iterator c2 mint maxt d p keep.
Proof.
  intros Hf He Hs Hb H1 H2. unfold Iterator.
  destruct (selectBlocks_congr _ mint maxt _ _ Hb 0 true) as (A & B & C).
  destruct (selectBlocks mint maxt (blocks c1) 0 true) as [[s1 m1] o1].
  destruct (selectBlocks mint maxt (blocks c2) 0 true) as [[s2 m2] o2].
  cbn [fst snd] in *. subst m2 o2.
  rewrite H1, H2. cbn [negb].
  rewrite <- Hf, <- He.
  replace (map (fun b => encBlock_Iterator (encoding c1) (format c1) (c_symbolizer c2) b p keep) s2)
    with (map (fun b => encBlock_Iterator (encoding c1) (format c1) (c_symbolizer c1) b p keep) s1).
  - reflexivity.
  - clear - A Hs. induction A as [|b1 b2 l1 l2 (Hbb & _) _ IH]; [reflexivity|].
    cbn [map]. rewrite IH. f_equal. apply encBlock_Iterator_congr; assumption.
Qed.

Lemma Bounds_congr fmt c1 c2 :
  Forall2 (sameWire fmt) (blocks c1) (blocks c2) ->
  HeadBlock_Bounds (head c1) = HeadBlock_Bounds (head c2) ->
  Bounds c1 = Bounds c2.
Proof.
  intros Hb Hh. unfold Bounds. rewrite Hh.
  generalize (HeadBlock_Bounds (head c2)). clear Hh.
  induction Hb as [|b1 b2 l1 l2 (_ & _ & Hmi & Hma & _) _ IH]; intros ft; [reflexivity|].
  cbn [fold_left]. rewrite Hmi, Hma. apply IH.
Qed.

Lemma Size_congr fmt c1 c2 :
  Forall2 (sameWire fmt) (blocks c1) (blocks c2) ->
  HeadBlock_Entries (head c1) = HeadBlock_Entries (head c2) ->
  Size c1 = Size c2.
Proof.
  intros Hb Hh. unfold Size. rewrite Hh. f_equal.
  generalize 0.
  induction Hb as [|b1 b2 l1 l2 (_ & Hn & _) _ IH]; intros n; [reflexivity|].
  cbn [fold_left]. rewrite Hn. apply IH.
Qed.

End Congruence.

(** ** Closed chunks *)

Lemma sameWire_sym fmt b1 b2 : sameWire fmt b1 b2 -> sameWire fmt b2 b1.
Proof. unfold sameWire. intros (A & B & C & D & E). repeat split; auto. intros H. symmetry. auto. Qed.

Lemma Forall2_sameWire_sym fmt l1 l2 :
  Forall2 (sameWire fmt) l1 l2 -> Forall2 (sameWire fmt) l2 l1.
Proof. intros H. induction H; constructor; auto using sameWire_sym. Qed.

Section RoundTrip.
Context {P : Pools}.

Lemma cut_head_empty c : HeadBlock_IsEmpty (head (cut c)) = true.
Proof.
  destruct (HeadBlock_IsEmpty (head c)) eqn:E.
  - rewrite cut_empty by exact E. exact E.
  - destruct (cut_nonempty c E) as (_ & _ & H & _). rewrite H.
    apply HeadBlock_Reset_empty.
Qed.

Lemma cut_writable c : writable c -> writable (cut c).
Proof.
  intros (Ht & Hf & He & Hg).
  destruct (HeadBlock_IsEmpty (head c)) eqn:E.
  - rewrite cut_empty by exact E. repeat split; try assumption; try lia.
  - destruct (cut_nonempty c E) as (_ & _ & H & _ & _ & _ & H7 & H8 & _).
    unfold writable. rewrite H, H7, H8. repeat split; try assumption; try lia.
    intros _. apply HeadBlock_Reset_empty.
Qed.

Lemma Append_writable c e : writable c -> writable (snd (fst (Append c e))).
Proof.
  intros Hw. pose proof Hw as (Ht & Hf & He & Hg). unfold Append.
  destruct (_ && _ && _ && _); [exact Hw|].
  destruct (HeadBlock_Append _ _ _ _ _) as [[[err|] h'] sy'] eqn:Ha; cbn [fst snd].
  - (* the head rejected the entry: it is unchanged *)
    assert (h' = head c).
    { destruct (head c) as [hb|u]; cbn [HeadBlock_Append] in Ha.
      - unfold headBlock_Append in Ha.
        destruct (negb (headBlock_IsEmpty hb) && _); inversion Ha; reflexivity.
      - destruct (unordered_Append _ _ _ _ _). inversion Ha. }
    subst h'. unfold writable. cbn [with_head head format encoding]. repeat split; try assumption; try lia.
  - destruct (HeadBlock_Append_nonempty _ _ _ _ _ _ _ Ha) as (Hne & _).
    assert (Hw1 : writable (with_head c h' sy')).
    { unfold writable. cbn [with_head head format encoding]. repeat split; try assumption; try lia.
      intros E. congruence. }
    destruct (_ <=? _); cbn [fst snd]; [apply cut_writable|]; exact Hw1.
Qed.

Lemma appendRun_writable es : forall c, writable c -> writable (fst (appendRun c es)).
Proof.
  induction es as [|e es IH]; intros c Hw; [exact Hw|].
  cbn [appendRun]. pose proof (Append_writable c e Hw) as H.
  destruct (Append c e) as [[[err|] c1] e1]; cbn [fst snd] in H.
  - apply IH. exact H.
  - specialize (IH c1 H). destruct (appendRun c1 es). exact IH.
Qed.

Lemma appendAll_writable filter itr : forall c c',
  writable c -> appendAll filter c itr = Ok c' -> writable c'.
Proof.
  induction itr as [|e itr IH]; intros c c' Hw H; cbn [appendAll] in H.
  - inversion H; subst. exact Hw.
  - destruct (match filter with Some f => f (Timestamp e) (Line e) | None => false end).
    + eapply IH; eassumption.
    + pose proof (Append_writable c e Hw) as Ha.
      destruct (Append c e) as [[[err|] c1] e1]; [discriminate|].
      eapply IH; eassumption.
Qed.

Lemma NewBlock_tidy f : headTidy (NewBlock f).
Proof. unfold NewBlock, headTidy. destruct (f <? UnorderedHeadBlockFmt); reflexivity. Qed.

Lemma newMemChunk_writable fmt enc hd bs ts :
  validFormat fmt -> 0 <= enc < 256 -> (fmt = chunkFormatV1 -> enc = EncGZIP) ->
  writable (newMemChunkWithFormat fmt enc hd bs ts).
Proof.
  intros. unfold writable. cbn. repeat split; try assumption; try lia. apply NewBlock_tidy.
Qed.

Lemma Rebound_closed fuel : forall c start end_ filter c',
  0 <= encoding c < 256 ->
  Rebound fuel c start end_ filter = Ok c' -> closed c'.
Proof.
  induction fuel as [|fuel IH]; intros c start end_ filter c' He H; [discriminate|].
  cbn [Rebound] in H.
  destruct (Iterator c start (end_ + Millisecond) FORWARD NoopPipeline true) as [itr| | |];
    try discriminate.
  set (nc := if 0 <? blockSize c then _ else _) in H.
  assert (Hnc : writable nc).
  { unfold nc, NewMemChunk, Encoding_of.
    destruct (0 <? blockSize c); apply newMemChunk_writable;
      try (right; right; left; reflexivity); try assumption; discriminate. }
  destruct (appendAll filter nc itr) as [nc'| | |] eqn:Ha; try discriminate.
  apply appendAll_writable in Ha; [|exact Hnc].
  destruct (Size nc' =? 0); [discriminate|].
  unfold CloseWith, reorderWith in H.
  pose proof (cut_writable nc' Ha) as Hcw.
  destruct (blocksOrdered (blocks (cut nc')) 0).
  - inversion H; subst. split; [exact Hcw|apply cut_head_empty].
  - destruct (Bounds (cut nc')) as [from to].
    eapply IH; [|exact H]. apply Hcw.
Qed.

Lemma Close_closed fuel c c' : writable c -> Close fuel c = Ok c' -> closed c'.
Proof.
  intros Hw H. unfold Close, CloseWith, reorderWith in H.
  pose proof (cut_writable c Hw) as Hcw.
  destruct (blocksOrdered (blocks (cut c)) 0).
  - inversion H; subst. split; [exact Hcw|apply cut_head_empty].
  - destruct (Bounds (cut c)) as [from to].
    eapply Rebound_closed; [|exact H]. apply Hcw.
Qed.

(** reading back what a closed chunk wrote *)
Lemma read_back c bs ts :
  closed c ->
  Forall wtBlock (blocks c) ->
  len (Bytes c) < 2 ^ 63 ->
  (chunkFormatV4 <= format c ->
   symFromEnc (encoding c) (symSerialize (encoding c) (c_symbolizer c))
   = Some (c_symbolizer c)) ->
  exists c',
    NewByteChunk (Bytes c) bs ts = Ok c' /\
    format c' = format c /\ encoding c' = encoding c /\
    (chunkFormatV4 <= format c -> c_symbolizer c' = c_symbolizer c) /\
    Forall2 (sameWire (format c)) (blocks c') (blocks c) /\
    head c' = OrderedHead headBlock_empty.
Proof.
  intros [(Ht & Hf & He & Hg) Hemp] Hwt Hlen Hsym.
  destruct (writeTo_wire c) as (W & _). cbv zeta in W.
  unfold Bytes, WriteTo in *. rewrite W in *.
  set (sec := symSerialize (encoding c) (c_symbolizer c)) in *.
  set (off0 := len (wireHeader (format c) (encoding c))
               + len (wireSymbols (format c) sec (Crc32.Checksum sec))) in *.
  set (l := withOffsets (map sealed (blocks c)) off0) in *.
  rewrite <- (wireBody_withOffsets (map sealed (blocks c)) off0) in *. fold l in Hlen |- *.
  unfold NewByteChunk.
  rewrite newByteChunk_wire; try assumption.
  - rewrite Z.eqb_refl. cbn [negb]. rewrite Z.eqb_refl. cbn [negb].
    assert (Eenc : (if format c =? chunkFormatV1 then EncGZIP else encoding c) = encoding c).
    { destruct (Z.eqb_spec (format c) chunkFormatV1) as [E|E]; [symmetry; auto|reflexivity]. }
    rewrite Eenc.
    assert (Hl : Forall2 (sameWire (format c)) (loaded (format c) l) (blocks c)).
    { unfold loaded, l. rewrite filter_crcOk_sealed.
      apply Forall2_sameWire_sym. apply sameWire_read. }
    destruct (Z.leb_spec chunkFormatV4 (format c)) as [H4|H4].
    + fold sec in Hsym. rewrite (Hsym H4). eexists. split; [reflexivity|].
      cbn [byteChunk format encoding c_symbolizer blocks head]. auto.
    + eexists. split; [reflexivity|].
      cbn [byteChunk format encoding c_symbolizer blocks head].
      repeat split; try reflexivity; try assumption. intros; lia.
  - apply Checksum_range.
  - apply Checksum_range.
  - apply withOffsets_idem.
  - unfold l. clear - Hwt. generalize off0.
    induction Hwt as [|b bs Hb _ IH]; intros off; cbn [map sealed withOffsets]; constructor.
    + cbn [fst snd]. split; [|apply Checksum_range].
      unfold wtBlock, set_offset in *. cbn. exact Hb.
    + apply IH.
Qed.

Lemma cut_format c : format (cut c) = format c.
Proof.
  unfold cut. destruct (HeadBlock_IsEmpty (head c)); [reflexivity|].
  destruct (HeadBlock_Bounds (head c)). reflexivity.
Qed.

Lemma Append_format c e : format (snd (fst (Append c e))) = format c.
Proof.
  unfold Append.
  destruct (_ && _ && _ && _); [reflexivity|].
  destruct (HeadBlock_Append _ _ _ _ _) as [[[err|] h'] sy']; [reflexivity|].
  destruct (_ <=? _); cbn [fst snd]; [rewrite cut_format|]; reflexivity.
Qed.

Lemma appendRun_format es : forall c, format (fst (appendRun c es)) = format c.
Proof.
  induction es as [|e es IH]; intros c; cbn [appendRun]; [reflexivity|].
  pose proof (Append_format c e) as Hc.
  destruct (Append c e) as [[[err|] c1] e1]; cbn [fst snd] in Hc.
  - rewrite IH. exact Hc.
  - specialize (IH c1). destruct (appendRun c1 es) as [c2 acc]. cbn [fst] in *. congruence.
Qed.

Lemma appendAll_format filter itr : forall c c',
  appendAll filter c itr = Ok c' -> format c' = format c.
Proof.
  induction itr as [|e itr IH]; intros c c' H; cbn [appendAll] in H.
  - inversion H. reflexivity.
  - destruct (match filter with Some f => f (Timestamp e) (Line e) | None => false end).
    + apply IH. exact H.
    + pose proof (Append_format c e) as Hc.
      destruct (Append c e) as [[[err|] c1] e1]; [discriminate|].
      cbn [fst snd] in Hc. rewrite <- Hc. apply IH. exact H.
Qed.

Lemma Rebound_format fuel : forall c start end_ filter c',
  Rebound fuel c start end_ filter = Ok c' -> format c' = DefaultChunkFormat.
Proof.
  induction fuel as [|fuel IH]; intros c start end_ filter c' H; [discriminate|].
  cbn [Rebound] in H.
  destruct (Iterator c start (end_ + Millisecond) FORWARD NoopPipeline true) as [itr| | |];
    try discriminate.
  set (nc := if 0 <? blockSize c then _ else _) in H.
  assert (Hnc : format nc = DefaultChunkFormat).
  { unfold nc. destruct (0 <? blockSize c); reflexivity. }
  destruct (appendAll filter nc itr) as [nc'| | |] eqn:Ha; try discriminate.
  apply appendAll_format in Ha.
  destruct (Size nc' =? 0); [discriminate|].
  unfold CloseWith, reorderWith in H.
  destruct (blocksOrdered (blocks (cut nc')) 0).
  - inversion H; subst. rewrite cut_format. congruence.
  - destruct (Bounds (cut nc')) as [from to]. eapply IH. exact H.
Qed.

Lemma Close_format fuel c c' :
  Close fuel c = Ok c' -> format c' = format c \/ format c' = DefaultChunkFormat.
Proof.
  intros H. unfold Close, CloseWith, reorderWith in H.
  destruct (blocksOrdered (blocks (cut c)) 0).
  - inversion H; subst. left. apply cut_format.
  - destruct (Bounds (cut c)) as [from to]. right. eapply Rebound_format. exact H.
Qed.

(** C1, round trip.  A chunk made by [NewMemChunk], or one of any version,
    is built by a run of appends and closed, then written and read back.
    The reread chunk emits the same entries under every forward iteration
    and has the same bounds, size, block count, encoding and format; written
    again it gives the same bytes.  The block metadata fits int64 and the
    image is shorter than 2^63 bytes.  For the versions [NewMemChunk] does
    not make: a version 1 image has no encoding byte and is read as gzip, so
    a version 1 chunk is taken with gzip, and from version 4 on the symbol
    table survives its own encoding. *)
Theorem write_read_round_trip :
  (forall (enc : Encoding) (hd bs ts : Z) (es : list Entry) (fuel : nat)
          (c : MemChunk) (bs' ts' : Z),
      0 <= enc < 256 ->
      Close fuel (fst (appendRun (NewMemChunk enc hd bs ts) es)) = Ok c ->
      Forall wtBlock (blocks c) ->
      len (Bytes c) < 2 ^ 63 ->
      readsBackAs c bs' ts') /\
  (forall (fmt : Z) (enc : Encoding) (hd bs ts : Z) (es : list Entry) (fuel : nat)
          (c : MemChunk) (bs' ts' : Z),
      validFormat fmt -> 0 <= enc < 256 -> (fmt = chunkFormatV1 -> enc = EncGZIP) ->
      Close fuel (fst (appendRun (newMemChunkWithFormat fmt enc hd bs ts) es)) = Ok c ->
      Forall wtBlock (blocks c) ->
      len (Bytes c) < 2 ^ 63 ->
      (chunkFormatV4 <= format c ->
       symFromEnc (encoding c) (symSerialize (encoding c) (c_symbolizer c))
       = Some (c_symbolizer c)) ->
      readsBackAs c bs' ts').
Proof.
  assert (General : forall fmt enc hd bs ts es fuel c bs' ts',
             validFormat fmt -> 0 <= enc < 256 -> (fmt = chunkFormatV1 -> enc = EncGZIP) ->
             Close fuel (fst (appendRun (newMemChunkWithFormat fmt enc hd bs ts) es)) = Ok c ->
             Forall wtBlock (blocks c) ->
             len (Bytes c) < 2 ^ 63 ->
             (chunkFormatV4 <= format c ->
              symFromEnc (encoding c) (symSerialize (encoding c) (c_symbolizer c))
              = Some (c_symbolizer c)) ->
             readsBackAs c bs' ts').
  { intros fmt enc hd bs ts es fuel c bs' ts' Hf He Hg Hclose Hwt Hlen Hsym.
    assert (Hc : closed c).
    { eapply Close_closed; [|exact Hclose].
      apply appendRun_writable. apply newMemChunk_writable; assumption. }
    destruct (read_back c bs' ts' Hc Hwt Hlen Hsym)
      as (c' & Hr & Hfmt & Henc & Hsy & Hbl & Hh).
    destruct Hc as [(Ht & _) Hemp].
    assert (Hemp' : HeadBlock_IsEmpty (head c') = true) by (rewrite Hh; reflexivity).
    rewrite <- Hfmt in Hbl, Hsy.
    exists c'. split; [exact Hr|]. split; [|split; [|split; [|split; [|split; [|split]]]]].
    - intros mint maxt p keep. apply Iterator_congr; assumption.
    - eapply Bounds_congr; [exact Hbl|]. rewrite Hh. rewrite (Ht Hemp). reflexivity.
    - eapply Size_congr; [exact Hbl|]. rewrite Hh.
      destruct (head c) as [hb|u]; cbn in Hemp |- *.
      + unfold headBlock_IsEmpty in Hemp. apply Z.eqb_eq in Hemp.
        unfold headBlock_Entries. lia.
      + unfold unordered_IsEmpty in Hemp. apply Z.eqb_eq in Hemp. lia.
    - unfold BlockCount. eapply sameWire_length. exact Hbl.
    - exact Henc.
    - exact Hfmt.
    - apply Bytes_congr; assumption. }
  split.
  - intros enc hd bs ts es fuel c bs' ts' He Hclose Hwt Hlen.
    unfold NewMemChunk in Hclose.
    apply (General DefaultChunkFormat enc hd bs ts es fuel); try assumption.
    + right; right; left; reflexivity.
    + intros H; discriminate H.
    + intros H4. exfalso.
      destruct (Close_format _ _ _ Hclose) as [E|E]; rewrite E in H4.
      * rewrite appendRun_format in H4. cbn in H4.
        unfold chunkFormatV4, DefaultChunkFormat, chunkFormatV3 in H4. lia.
      * unfold chunkFormatV4, DefaultChunkFormat, chunkFormatV3 in H4. lia.
  - exact General.
Qed.

End RoundTrip.

(** ** Images that fail the read *)

Section Integrity.
Context {P : Pools}.

Lemma newByteChunk_bad_meta fmt enc sec secCrc body mb metaCrc bs ts :
  validFormat fmt -> 0 <= enc < 256 -> 0 <= metaCrc < 2 ^ 32 ->
  len (wire fmt enc sec secCrc body mb metaCrc) < 2 ^ 63 ->
  metaCrc <> Crc32.Checksum mb ->
  newByteChunk (wire fmt enc sec secCrc body mb metaCrc) bs ts false = Err ErrInvalidChecksum.
Proof.
  intros Hf He Hm Hlen Hne. unfold newByteChunk.
  rewrite readHeader_wire by assumption. rewrite readMetas_wire by assumption.
  unfold db_crc32, mkdecbuf. cbn [db_b].
  destruct (Z.eqb_spec metaCrc (Crc32.Checksum mb)); [contradiction|reflexivity].
Qed.

Lemma newByteChunk_bad_magic b0 b1 b2 b3 v rest bs ts :
  let m := Z.lor (Z.lor (Z.lor b3 (Z.shiftl b2 8)) (Z.shiftl b1 16)) (Z.shiftl b0 24) in
  m <> magicNumber ->
  newByteChunk (b0 :: b1 :: b2 :: b3 :: v :: rest) bs ts false = Err (ErrInvalidMagic m).
Proof.
  intros m Hm. unfold newByteChunk, readHeader, db_be32, db_byte, mkdecbuf, db_err.
  cbn [db_e db_b Binary.Uint32 skipn]. fold m.
  destruct (Z.eqb_spec m magicNumber); [contradiction|reflexivity].
Qed.

Lemma newByteChunk_bad_version v rest bs ts :
  ~ validFormat v ->
  newByteChunk (Binary.PutUint32 magicNumber ++ v :: rest) bs ts false
  = Err (ErrInvalidVersion v).
Proof.
  intros Hv. unfold newByteChunk, readHeader, db_be32, db_byte, mkdecbuf, db_err.
  cbn [db_e db_b]. rewrite Uint32_PutUint32. rewrite skipn_app_exact by reflexivity.
  cbn [db_e db_b]. rewrite magic_uint32, Z.eqb_refl. cbn [negb].
  unfold validFormat in Hv.
  destruct (Z.eqb_spec v chunkFormatV1); [tauto|].
  destruct (Z.eqb_spec v chunkFormatV2); [tauto|].
  destruct (Z.eqb_spec v chunkFormatV3); [tauto|].
  destruct (Z.eqb_spec v chunkFormatV4); [tauto|]. reflexivity.
Qed.

(** C4, integrity checks of a read.  The bytes of a chunk are a wire image.
    Of a wire image whose blocks carry any stored CRCs, the read keeps
    exactly the blocks whose stored CRC is the CRC of their payload, in
    order, and drops the others.  A wrong CRC of the meta section, or of the
    symbol-table section of a version 4 image, fails the read with
    [ErrInvalidChecksum]; a wrong magic number and an unknown version fail
    it with their own errors. *)
Theorem read_integrity_checks :
  (* the bytes of a chunk are a wire image: header, symbol table, sealed
     blocks each followed by the CRC of its payload, metas, trailer *)
  (forall c : MemChunk,
      let sec := symSerialize (encoding c) (c_symbolizer c) in
      let l := withOffsets (map sealed (blocks c))
                 (len (wireHeader (format c) (encoding c))
                  + len (wireSymbols (format c) sec (Crc32.Checksum sec))) in
      let mb := wireMetas (format c) (map fst l) in
      Bytes c = wire (format c) (encoding c) sec (Crc32.Checksum sec) (wireBody l) mb
                  (Crc32.Checksum mb)) /\
  (* a block whose stored CRC does not match its payload is left out,
     every other block is loaded *)
  (forall fmt enc sec (l : list (block * Z)) bs ts sy,
      validFormat fmt -> 0 <= enc < 256 ->
      withOffsets l (len (wireHeader fmt enc)
                     + len (wireSymbols fmt sec (Crc32.Checksum sec))) = l ->
      Forall (fun bc => wtBlock (fst bc) /\ 0 <= snd bc < 2 ^ 32) l ->
      let mb := wireMetas fmt (map fst l) in
      let b := wire fmt enc sec (Crc32.Checksum sec) (wireBody l) mb (Crc32.Checksum mb) in
      len b < 2 ^ 63 ->
      (chunkFormatV4 <= fmt -> symFromEnc enc sec = Some sy) ->
      exists c, NewByteChunk b bs ts = Ok c /\
                blocks c = map (fun bc => asRead fmt (fst bc)) (filter crcOk l)) /\
  (* a CRC mismatch on the meta section *)
  (forall fmt enc sec secCrc body mb metaCrc bs ts,
      validFormat fmt -> 0 <= enc < 256 -> 0 <= metaCrc < 2 ^ 32 ->
      len (wire fmt enc sec secCrc body mb metaCrc) < 2 ^ 63 ->
      metaCrc <> Crc32.Checksum mb ->
      NewByteChunk (wire fmt enc sec secCrc body mb metaCrc) bs ts = Err ErrInvalidChecksum) /\
  (* a CRC mismatch on the symbol-table section *)
  (forall enc sec secCrc (l : list (block * Z)) bs ts,
      0 <= enc < 256 -> 0 <= secCrc < 2 ^ 32 ->
      withOffsets l (len (wireHeader chunkFormatV4 enc)
                     + len (wireSymbols chunkFormatV4 sec secCrc)) = l ->
      Forall (fun bc => wtBlock (fst bc) /\ 0 <= snd bc < 2 ^ 32) l ->
      let mb := wireMetas chunkFormatV4 (map fst l) in
      let b := wire chunkFormatV4 enc sec secCrc (wireBody l) mb (Crc32.Checksum mb) in
      len b < 2 ^ 63 ->
      secCrc <> Crc32.Checksum sec ->
      NewByteChunk b bs ts = Err ErrInvalidChecksum) /\
  (* an unknown magic number, an unknown version *)
  (forall b0 b1 b2 b3 v rest bs ts,
      let m := Z.lor (Z.lor (Z.lor b3 (Z.shiftl b2 8)) (Z.shiftl b1 16)) (Z.shiftl b0 24) in
      m <> magicNumber ->
      NewByteChunk (b0 :: b1 :: b2 :: b3 :: v :: rest) bs ts = Err (ErrInvalidMagic m)) /\
  (forall v rest bs ts,
      ~ validFormat v ->
      NewByteChunk (Binary.PutUint32 magicNumber ++ v :: rest) bs ts
      = Err (ErrInvalidVersion v)).
Proof.
  split; [|split; [|split; [|split; [|split]]]].
  - intros c sec l mb. destruct (writeTo_wire c) as (W & _). cbv zeta in W.
    unfold Bytes, WriteTo. rewrite W. unfold l. rewrite wireBody_withOffsets.
    reflexivity.
  - intros fmt enc sec l bs ts sy Hf He Hoff Hwt mb b Hlen Hsym.
    unfold NewByteChunk, b, mb.
    rewrite newByteChunk_wire; try assumption; try apply Checksum_range.
    rewrite !Z.eqb_refl. cbn [negb].
    destruct (Z.leb_spec chunkFormatV4 fmt) as [H4|H4].
    + assert (E : (if fmt =? chunkFormatV1 then EncGZIP else enc) = enc).
      { destruct (Z.eqb_spec fmt chunkFormatV1) as [E|E]; [|reflexivity].
        unfold chunkFormatV4, chunkFormatV1 in *. lia. }
      rewrite E, (Hsym H4). eexists. split; reflexivity.
    + eexists. split; reflexivity.
  - intros. apply newByteChunk_bad_meta; assumption.
  - intros enc sec secCrc l bs ts He Hs Hoff Hwt mb b Hlen Hne.
    unfold NewByteChunk, b, mb.
    rewrite newByteChunk_wire; try assumption; try apply Checksum_range.
    + rewrite Z.eqb_refl. cbn [negb].
      change (chunkFormatV4 <=? chunkFormatV4) with true. cbv iota.
      destruct (Z.eqb_spec secCrc (Crc32.Checksum sec)); [contradiction|reflexivity].
    + right; right; right; reflexivity.
  - intros. apply newByteChunk_bad_magic. assumption.
  - intros. apply newByteChunk_bad_version. assumption.
Qed.

End Integrity.

(** ** The code at concrete inputs *)

(** C3, at a range of one nanosecond.  Two entries, at 1ns and at 2ns, are
    appended and the chunk is closed.  [Rebound] from 1ns to 1ns succeeds,
    and the chunk it returns holds both entries: the entry at 2ns lies past
    the end of the range. *)
Theorem Rebound_keeps_entries_past_end :
  Close (P := PlainPools) 1
    (fst (appendRun (P := PlainPools)
            (NewMemChunk EncNone OrderedHeadBlockFmt 1024 0) twoEntries)) = Ok twoChunk /\
  exists c',
    Rebound (P := PlainPools) 1 twoChunk 1 1 None = Ok c' /\
    Iterator (P := PlainPools) c' 0 1000 FORWARD NoopPipeline true
    = Ok [exE 1 [97]; exE 2 [98]].
Proof.
  split; [vm_compute; reflexivity|].
  eexists. split; [vm_compute; reflexivity|]. vm_compute; reflexivity.
Qed.

(** C9, at a varint that overflows.  On a payload of ten continuation bytes
    and a final byte the decoder of a block takes the run-time panic, in
    every format; a chunk whose block carries this payload is read back
    without error, and its forward iteration panics. *)
Theorem moveNext_panics_on_overlong_varint :
  (forall (fmt : Z) (sy : symbolizer),
      moveNext loopFuel fmt sy {| rd := overlongVarint; readBuf := [] |} = LoopPanic) /\
  exists c,
    NewByteChunk (P := PlainPools) (Bytes (P := PlainPools) malformedChunk) 1024 0 = Ok c /\
    Iterator (P := PlainPools) c 0 1000 FORWARD NoopPipeline false = Panic.
Proof.
  split.
  - intros fmt sy. reflexivity.
  - eexists. split; [vm_compute; reflexivity|]. vm_compute; reflexivity.
Qed.

(** C8 as stated fails: [exClosed] has block size 4 and target size 0, its
    compressed size is positive, and the chunk [Rebound] returns has target
    size 0. *)
Lemma Rebound_target_is_not_compressed_size :
  exists c',
    Rebound (P := PlainPools) 1 exClosed 0 10 None = Ok c' /\
    targetSize c' <> CompressedSize exClosed.
Proof.
  eexists. split; [vm_compute; reflexivity|]. vm_compute. discriminate.
Qed.

(** C7 as stated fails at version 4.  The four entries of [v4Entries] are
    all accepted by a version 4 chunk with the ordered head, which seals
    them into two blocks with the bounds 1 and 101; the head wrote the
    layout of the earlier versions and the iterator reads the layout of
    version 4, so that a forward iteration over the whole range emits the
    timestamps 100 and then 2.  The chunk that [NewByteChunk] makes of a
    version 4 image carries the ordered head and behaves the same. *)
Lemma v4_ordered_chunk_iterates_out_of_order :
  (snd (appendRun (P := PlainPools)
          (newMemChunkWithFormat chunkFormatV4 EncNone OrderedHeadBlockFmt 2 0) v4Entries)
   = v4Entries /\
   headFmt v4Ordered = OrderedHeadBlockFmt /\
   Bounds v4Ordered = (1, 101) /\
   exists l,
     Iterator (P := PlainPools) v4Ordered 1 102 FORWARD NoopPipeline false = Ok l /\
     map Timestamp l = [100; 2] /\
     ~ Sorted Z.le (map Timestamp l)) /\
  (exists c0 l,
     NewByteChunk (P := PlainPools) v4Image 2 0 = Ok c0 /\
     HeadBlock_Format (head c0) = OrderedHeadBlockFmt /\
     snd (appendRun (P := PlainPools) c0 v4Entries) = v4Entries /\
     Iterator (P := PlainPools) (fst (appendRun (P := PlainPools) c0 v4Entries))
       1 102 FORWARD NoopPipeline false = Ok l /\
     map Timestamp l = [100; 2]).
Proof.
  assert (NS : ~ Sorted Z.le [100; 2]).
  { intros HS. apply Sorted_inv in HS. destruct HS as [_ HR].
    apply HdRel_inv in HR. lia. }
  split.
  - split; [vm_compute; reflexivity|]. split; [vm_compute; reflexivity|].
    split; [vm_compute; reflexivity|].
    eexists. split; [vm_compute; reflexivity|]. split; [reflexivity|exact NS].
  - eexists. eexists. split; [vm_compute; reflexivity|].
    split; [reflexivity|]. split; [vm_compute; reflexivity|].
    split; [vm_compute; reflexivity|reflexivity].
Qed.

(** C10 as stated fails for an entry refused against the sealed blocks.  The
    chunk [exOneBlock] has version 3, an empty head and one block that ends
    at 5; [Append] of an entry at 3 that carries a label returns the
    out-of-order error, and the entry comes back with its label. *)
Lemma Append_refused_keeps_labels :
  format exOneBlock < chunkFormatV4 /\
  Append (P := PlainPools) exOneBlock exOlder = (Some ErrOutOfOrder, exOneBlock, exOlder) /\
  NonIndexedLabels exOlder <> [].
Proof.
  split; [reflexivity|]. split; [vm_compute; reflexivity|].
  intros H; discriminate H.
Qed.

(** ** The properties at concrete chunks *)

Lemma plain_decompress_compress (enc : Encoding) (b : bytes) :
  decompress (Pools := PlainPools) enc (compress (Pools := PlainPools) enc b) = Some b.
Proof. reflexivity. Defined.

Lemma write_read_round_trip_witness :
  readsBackAs (P := PlainPools) twoChunk 1024 0 /\
  readsBackAs (P := PlainPools) exClosed 4 0.
Proof.
  destruct (write_read_round_trip (P := PlainPools)) as (H1 & H2).
  split.
  - apply (H1 EncNone OrderedHeadBlockFmt 1024 0 twoEntries 1%nat twoChunk 1024 0).
    + unfold EncNone; lia.
    + vm_compute; reflexivity.
    + list_value; repeat constructor; vm_compute; intros H; discriminate H.
    + vm_compute; reflexivity.
  - apply (H2 chunkFormatV3 EncNone OrderedHeadBlockFmt 4 0 exEntries 1%nat exClosed 4 0).
    + right; right; left; reflexivity.
    + unfold EncNone; lia.
    + intros H; discriminate H.
    + vm_compute; reflexivity.
    + list_value; repeat constructor; vm_compute; intros H; discriminate H.
    + vm_compute; reflexivity.
    + intros H. exfalso. apply H. reflexivity.
Defined.

Lemma Append_out_of_order_rejected_witness :
  fst (Append (P := PlainPools) exChunk (exE 3 [104])) = (Some ErrOutOfOrder, exChunk).
Proof.
  apply (Append_out_of_order_rejected (P := PlainPools) chunkFormatV3 EncNone 4 0 exEntries
           (exE 3 [104]) (exE 5 [103])).
  - vm_compute. right; right; right; left; reflexivity.
  - vm_compute; reflexivity.
Defined.

Lemma read_integrity_checks_witness :
  (exists c,
      NewByteChunk (P := PlainPools)
        (wire chunkFormatV3 EncNone [] (Crc32.Checksum []) (wireBody exCorrupted)
           (wireMetas chunkFormatV3 (map fst exCorrupted))
           (Crc32.Checksum (wireMetas chunkFormatV3 (map fst exCorrupted)))) 4 0 = Ok c /\
      blocks c = map (fun bc => asRead chunkFormatV3 (fst bc)) (filter crcOk exCorrupted)) /\
  filter crcOk exCorrupted = tl exCorrupted /\
  NewByteChunk (P := PlainPools) (wire chunkFormatV3 EncNone [] 0 [] [0] 7) 4 0
  = Err ErrInvalidChecksum /\
  NewByteChunk (P := PlainPools)
    (wire chunkFormatV4 EncNone [1; 2; 3] 0 (wireBody [])
       (wireMetas chunkFormatV4 (map fst (@nil (block * Z))))
       (Crc32.Checksum (wireMetas chunkFormatV4 (map fst (@nil (block * Z)))))) 4 0
  = Err ErrInvalidChecksum /\
  NewByteChunk (P := PlainPools) [1; 2; 3; 4; 3] 4 0 = Err (ErrInvalidMagic 16909060) /\
  NewByteChunk (P := PlainPools) (Binary.PutUint32 magicNumber ++ [9]) 4 0
  = Err (ErrInvalidVersion 9).
Proof.
  destruct (read_integrity_checks (P := PlainPools)) as (_ & H1 & H2 & H3 & H4 & H5).
  split; [|split; [|split; [|split; [|split]]]].
  - apply (H1 chunkFormatV3 EncNone [] exCorrupted 4 0 newSymbolizer).
    + right; right; left; reflexivity.
    + unfold EncNone; lia.
    + vm_compute; reflexivity.
    + list_value; repeat constructor; vm_compute; intros H; discriminate H.
    + vm_compute; reflexivity.
    + intros H. exfalso. apply H. reflexivity.
  - vm_compute; reflexivity.
  - apply (H2 chunkFormatV3 EncNone [] 0 [] [0] 7 4 0).
    + right; right; left; reflexivity.
    + unfold EncNone; lia.
    + lia.
    + vm_compute; reflexivity.
    + vm_compute. intros H; discriminate H.
  - apply (H3 EncNone [1; 2; 3] 0 [] 4 0).
    + unfold EncNone; lia.
    + lia.
    + reflexivity.
    + constructor.
    + vm_compute; reflexivity.
    + vm_compute. intros H; discriminate H.
  - apply (H4 1 2 3 4 3 [] 4 0). vm_compute. intros H; discriminate H.
  - apply (H5 9 [] 4 0). unfold validFormat. vm_compute.
    intros [H | [H | [H | H]]]; discriminate H.
Defined.


Lemma SpaceFor_spec_witness :
  SpaceFor (P := PlainPools)
    (newMemChunkWithFormat chunkFormatV3 EncNone OrderedHeadBlockFmt 4 100) (exE 1 [97])
  = true /\
  SpaceFor (P := PlainPools) exChunk (exE 6 [104]) = true.
Proof.
  split.
  - apply (proj1 (SpaceFor_spec (P := PlainPools)
                    (newMemChunkWithFormat chunkFormatV3 EncNone OrderedHeadBlockFmt 4 100)
                    (exE 1 [97]))).
    + vm_compute; reflexivity.
    + vm_compute; reflexivity.
  - apply (proj2 (SpaceFor_spec (P := PlainPools) exChunk (exE 6 [104]))).
    + vm_compute; reflexivity.
    + vm_compute; reflexivity.
Defined.

Lemma forward_iteration_is_ordered_witness :
  (exists l,
      Iterator (P := PlainPools)
        (fst (appendRun (P := PlainPools) (NewMemChunk EncNone OrderedHeadBlockFmt 4 0)
                exEntries))
        0 10 FORWARD NoopPipeline false = Ok l /\
      Sorted Z.le (map Timestamp l)) /\
  (exists l,
      Iterator (P := PlainPools) exChunk 0 10 FORWARD NoopPipeline false = Ok l /\
      Sorted Z.le (map Timestamp l)).
Proof.
  destruct (forward_iteration_is_ordered (P := PlainPools) plain_decompress_compress)
    as (H1 & H2).
  split.
  - apply (H1 EncNone 4 0 exEntries 0 10 NoopPipeline false).
    list_value; repeat constructor; vm_compute; intros H; discriminate H.
  - apply (H2 chunkFormatV3 EncNone 4 0 exEntries 0 10 NoopPipeline false).
    + vm_compute; reflexivity.
    + list_value; repeat constructor; vm_compute; intros H; discriminate H.
Defined.

Lemma Rebound_inherits_configuration_witness :
  encoding exRebound = encoding exClosed /\
  blockSize exRebound = 4 /\
  targetSize exRebound = 0.
Proof.
  apply (Rebound_inherits_configuration (P := PlainPools) 1 exClosed 0 10 None exRebound).
  vm_compute; reflexivity.
Defined.

Lemma Append_structured_labels_witness :
  Append (P := PlainPools)
    (newMemChunkWithFormat chunkFormatV3 EncNone OrderedHeadBlockFmt 4 0) exLabelled
  = (forwardToHead (P := PlainPools)
       (newMemChunkWithFormat chunkFormatV3 EncNone OrderedHeadBlockFmt 4 0)
       1 [97] [], exE 1 [97]) /\
  Append (P := PlainPools)
    (newMemChunkWithFormat chunkFormatV4 EncNone UnorderedWithNonIndexedLabelsHeadBlockFmt 4 0)
    exLabelled
  = (forwardToHead (P := PlainPools)
       (newMemChunkWithFormat chunkFormatV4 EncNone
          UnorderedWithNonIndexedLabelsHeadBlockFmt 4 0)
       1 [97] [([107], [118])], exLabelled).
Proof.
  split.
  - destruct (Append_structured_labels (P := PlainPools)
                (newMemChunkWithFormat chunkFormatV3 EncNone OrderedHeadBlockFmt 4 0)
                exLabelled) as (_ & H).
    destruct (H eq_refl) as (H3 & _).
    destruct H3 as (HA & _); [vm_compute; reflexivity|]. exact HA.
  - destruct (Append_structured_labels (P := PlainPools)
                (newMemChunkWithFormat chunkFormatV4 EncNone
                   UnorderedWithNonIndexedLabelsHeadBlockFmt 4 0)
                exLabelled) as (_ & H).
    destruct (H eq_refl) as (_ & H4).
    apply H4. vm_compute. intros E; discriminate E.
Defined.

(** ** The entries an ordered chunk holds *)

(** ** What an ordered chunk holds *)

Lemma takeWhile_app_all {A} (f : A -> bool) l1 l2 :
  Forall (fun x => f x = true) l1 -> takeWhile f (l1 ++ l2) = l1 ++ takeWhile f l2.
Proof.
  induction 1 as [|x l1 Hx _ IH]; cbn [app takeWhile]; [reflexivity|].
  rewrite Hx, IH. reflexivity.
Qed.

Lemma takeWhile_none {A} (f : A -> bool) l :
  Forall (fun x => f x = false) l -> takeWhile f l = [].
Proof. destruct 1 as [|x l Hx _]; cbn [takeWhile]; [reflexivity|]. rewrite Hx. reflexivity. Qed.

Lemma filter_all {A} (f : A -> bool) l :
  Forall (fun x => f x = true) l -> filter f l = l.
Proof.
  induction 1 as [|x l Hx _ IH]; cbn [filter]; [reflexivity|]. rewrite Hx, IH. reflexivity.
Qed.

Lemma filter_none {A} (f : A -> bool) l :
  Forall (fun x => f x = false) l -> filter f l = [].
Proof.
  induction 1 as [|x l Hx _ IH]; cbn [filter]; [reflexivity|]. rewrite Hx, IH. reflexivity.
Qed.

Lemma emitted_ts p e : Forall (fun x => Timestamp x = e_t e) (emitted p e).
Proof. unfold emitted. destruct (p _ _ _) as [[? ?]|]; repeat constructor. Qed.

Lemma emitted_rev p e : rev (emitted p e) = emitted p e.
Proof. unfold emitted. destruct (p _ _ _) as [[? ?]|]; reflexivity. Qed.

Lemma flat_map_emitted_ts p l x :
  In x (flat_map (emitted p) l) -> exists e, In e l /\ Timestamp x = e_t e.
Proof.
  intros H. apply in_flat_map in H. destruct H as (e & He & Hx). exists e. split; [exact He|].
  pose proof (emitted_ts p e) as F. rewrite Forall_forall in F. apply F. exact Hx.
Qed.

(** the time-ranged iterator over the output of a sorted list *)
Lemma timeRanged_emitted p mint maxt l :
  StronglySorted Z.le (map e_t l) ->
  NewTimeRangedIterator (flat_map (emitted p) l) mint maxt
  = flat_map (emitted p) (filter (inRange mint maxt) l).
Proof.
  unfold NewTimeRangedIterator.
  induction l as [|e l IH]; intros Hs; [reflexivity|].
  cbn [map] in Hs. inversion Hs as [|? ? Hs' Hle]; subst.
  cbn [flat_map filter]. rewrite filter_app.
  pose proof (emitted_ts p e) as Ft.
  unfold inRange at 1.
  destruct (Z.leb_spec mint (e_t e)) as [Hlo|Hlo]; cbn [andb].
  - rewrite (filter_all (fun x => mint <=? Timestamp x) (emitted p e)).
    2:{ eapply Forall_impl; [|exact Ft]. cbn. intros x ->. apply Z.leb_le. exact Hlo. }
    destruct (Z.ltb_spec (e_t e) maxt) as [Hhi|Hhi].
    + rewrite takeWhile_app_all.
      2:{ eapply Forall_impl; [|exact Ft]. cbn. intros x ->. apply Z.ltb_lt. exact Hhi. }
      cbn [flat_map]. rewrite IH by exact Hs'. reflexivity.
    + rewrite takeWhile_none.
      2:{ apply Forall_app. split.
          - eapply Forall_impl; [|exact Ft]. cbn. intros x ->. apply Z.ltb_ge. exact Hhi.
          - apply Forall_forall. intros x Hx. apply filter_In in Hx. destruct Hx as [Hx _].
            apply flat_map_emitted_ts in Hx. destruct Hx as (e' & He' & ->).
            rewrite Forall_forall in Hle. specialize (Hle (e_t e') (in_map e_t _ _ He')).
            apply Z.ltb_ge. lia. }
      rewrite filter_none; [reflexivity|].
      apply Forall_forall. intros e' He'. unfold inRange.
      rewrite Forall_forall in Hle. specialize (Hle (e_t e') (in_map e_t _ _ He')).
      apply andb_false_iff. right. apply Z.ltb_ge. lia.
  - rewrite (filter_none (fun x => mint <=? Timestamp x) (emitted p e)).
    2:{ eapply Forall_impl; [|exact Ft]. cbn. intros x ->. apply Z.leb_gt. exact Hlo. }
    cbn [app]. apply IH. exact Hs'.
Qed.

Lemma lastT_snoc l e : lastT (l ++ [e]) = e_t e.
Proof. unfold lastT. rewrite rev_app_distr. reflexivity. Qed.

Lemma lastT_app l1 l2 : l2 <> [] -> lastT (l1 ++ l2) = lastT l2.
Proof.
  intros H. unfold lastT. rewrite rev_app_distr.
  destruct (rev l2) as [|x r] eqn:E; [|reflexivity].
  apply (f_equal (@rev _)) in E. rewrite rev_involutive in E. contradiction.
Qed.

Lemma lastT_In l : l <> [] -> exists e, In e l /\ lastT l = e_t e.
Proof.
  destruct l as [|x l] using rev_ind; [contradiction|]. intros _.
  exists x. split; [apply in_or_app; right; left; reflexivity|apply lastT_snoc].
Qed.

Lemma firstT_In l : l <> [] -> exists e, In e l /\ firstT l = e_t e.
Proof. destruct l as [|x l]; [contradiction|]. intros _. exists x. split; [left|]; reflexivity. Qed.

Lemma firstT_app l1 l2 : l1 <> [] -> firstT (l1 ++ l2) = firstT l1.
Proof. destruct l1; [contradiction|reflexivity]. Qed.

Lemma lineBytes_app l1 l2 : lineBytes (l1 ++ l2) = lineBytes l1 + lineBytes l2.
Proof. induction l1 as [|e l1 IH]; cbn [app lineBytes fold_right]; [reflexivity|]. fold (lineBytes (l1 ++ l2)) (lineBytes l1). lia. Qed.

Lemma payloadBytes_app l1 l2 : payloadBytes (l1 ++ l2) = payloadBytes l1 + payloadBytes l2.
Proof. induction l1 as [|e l1 IH]; cbn [app payloadBytes fold_right]; [reflexivity|]. fold (payloadBytes (l1 ++ l2)) (payloadBytes l1). lia. Qed.

Lemma sorted_first_le_last (l : list entry) :
  StronglySorted Z.le (map e_t l) -> forall e, In e l -> firstT l <= e_t e <= lastT l.
Proof.
  intros Hs e He. split.
  - destruct l as [|x l]; [destruct He|]. cbn [firstT]. cbn [map] in Hs.
    inversion Hs as [|? ? _ Hle]; subst. destruct He as [->|He]; [lia|].
    rewrite Forall_forall in Hle. apply Hle. apply in_map. exact He.
  - apply in_split in He. destruct He as (l1 & l2 & ->).
    destruct l2 as [|y l2] using rev_ind.
    + rewrite lastT_snoc. lia.
    + clear IHl2. rewrite app_comm_cons, app_assoc, lastT_snoc.
      rewrite map_app in Hs. apply sorted_app_inv in Hs. destruct Hs as [_ Hs].
      cbn [map] in Hs. inversion Hs as [|? ? _ Hle]; subst.
      rewrite Forall_forall in Hle. apply Hle. rewrite map_app. apply in_or_app. right. left. reflexivity.
Qed.

Section Contents.
Context {P : Pools}.

Lemma sealed_concat_nonempty enc G bs :
  Forall2 (sealedAs enc) G bs -> G <> [] -> concat G <> [].
Proof.
  intros H Hne. destruct H as [|es b G bs Hs _]; [contradiction|].
  cbn [concat]. destruct es; [destruct (sa_nonempty _ _ _ Hs); reflexivity|discriminate].
Qed.

Lemma lastMaxt_cons b bs : bs <> [] -> lastMaxt (b :: bs) = lastMaxt bs.
Proof.
  intros H. unfold lastMaxt. cbn [rev].
  destruct (rev bs) as [|x r] eqn:E; [|reflexivity].
  apply (f_equal (@rev _)) in E. rewrite rev_involutive in E. contradiction.
Qed.

Lemma lastMaxt_sealed enc G bs :
  Forall2 (sealedAs enc) G bs -> lastMaxt bs = lastT (concat G).
Proof.
  induction 1 as [|es b G bs Hs HF IH]; [reflexivity|].
  cbn [concat]. destruct HF as [|es' b' G' bs' Hs' HF'].
  - cbn [concat]. rewrite app_nil_r. unfold lastMaxt. cbn. apply (sa_maxt _ _ _ Hs).
  - rewrite lastMaxt_cons by discriminate. rewrite IH.
    symmetry. apply lastT_app.
    apply (sealed_concat_nonempty enc (es' :: G') (b' :: bs')); [constructor; assumption|discriminate].
Qed.

Lemma map_stored_ts acc : map e_t (map stored acc) = map Timestamp acc.
Proof. rewrite map_map. reflexivity. Qed.

Lemma holds_new fmt enc bs ts :
  fmt < chunkFormatV4 ->
  holds (newMemChunkWithFormat fmt enc OrderedHeadBlockFmt bs ts) [] headBlock_empty [].
Proof.
  intros Hf. constructor; cbn; try reflexivity; try assumption; constructor.
Qed.

(** the test of [Append] against what the chunk holds *)
Lemma holds_test c G hb acc ts :
  holds c G hb acc -> 0 < ts ->
  (if headBlock_IsEmpty hb
   then negb (len (blocks c) =? 0) && (ts <? lastMaxt (blocks c))
   else ts <? hb_maxt hb)
  = (ts <? lastT (map stored acc)).
Proof.
  intros H Hts. rewrite <- (h_all _ _ _ _ H).
  destruct (headBlock_IsEmpty hb) eqn:He.
  - unfold headBlock_IsEmpty in He. apply len_zero_iff in He. rewrite He, app_nil_r.
    rewrite <- (lastMaxt_sealed _ _ _ (h_blocks _ _ _ _ H)).
    destruct (blocks c) as [|b bs].
    + cbn. symmetry. apply Z.ltb_ge. lia.
    + replace (len (b :: bs) =? 0) with false; [reflexivity|].
      symmetry. apply Z.eqb_neq. rewrite len_cons. pose proof (len_nonneg bs). lia.
  - rewrite (h_maxt _ _ _ _ H). rewrite lastT_app; [reflexivity|].
    intros E. unfold headBlock_IsEmpty in He. rewrite E in He. discriminate.
Qed.

Lemma holds_bound c G hb acc :
  holds c G hb acc -> forall a, In a acc -> Timestamp a <= lastT (map stored acc).
Proof.
  intros H a Ha.
  pose proof (h_sorted _ _ _ _ H) as Hs. rewrite <- map_stored_ts in Hs.
  apply (sorted_first_le_last _ Hs (stored a)). apply in_map. exact Ha.
Qed.

Lemma holds_Append c G hb acc e :
  holds c G hb acc -> wt_Entry e -> 0 < Timestamp e ->
  (Timestamp e < lastT (map stored acc) -> fst (Append c e) = (Some ErrOutOfOrder, c)) /\
  (lastT (map stored acc) <= Timestamp e ->
   exists c' G' hb',
     Append c e = (None, c', dropLabels e) /\ holds c' G' hb' (acc ++ [e])).
Proof.
  intros H Hwt Hpos.
  destruct (Append_ordered c hb e (h_head _ _ _ _ H) (h_headFmt _ _ _ _ H)) as [Hrej Hok].
  cbv zeta in Hrej, Hok. rewrite (holds_test c G hb acc _ H Hpos) in Hrej, Hok.
  split.
  - intros Hlt. apply Hrej. apply Z.ltb_lt. exact Hlt.
  - intros Hge. rewrite Hok by (apply Z.ltb_ge; exact Hge). clear Hrej Hok.
    destruct (Z.ltb_spec (format c) chunkFormatV4) as [_|Hbad];
      [|pose proof (h_format _ _ _ _ H); lia].
    set (hb' := {| entries := entries hb ++ [_]; size := _; hb_mint := _; hb_maxt := _ |}).
    set (c' := with_head c (OrderedHead hb') (c_symbolizer c)).
    assert (Hent : entries hb' = entries hb ++ [stored e]) by reflexivity.
    assert (Hall' : concat G ++ entries hb' = map stored (acc ++ [e])).
    { rewrite Hent, app_assoc, (h_all _ _ _ _ H), map_app. reflexivity. }
    assert (Hsorted' : StronglySorted Z.le (map Timestamp (acc ++ [e]))).
    { rewrite map_app. cbn [map]. apply sorted_snoc; [apply (h_sorted _ _ _ _ H)|].
      intros y Hy. apply in_map_iff in Hy. destruct Hy as (a & <- & Ha).
      pose proof (holds_bound c G hb acc H a Ha). lia. }
    assert (Hpos' : Forall (fun e => 0 < Timestamp e) (acc ++ [e])).
    { apply Forall_app. split; [apply (h_pos _ _ _ _ H)|constructor; [exact Hpos|constructor]]. }
    assert (Hwt' : Forall wt_Entry (acc ++ [e])).
    { apply Forall_app. split; [apply (h_wt _ _ _ _ H)|constructor; [exact Hwt|constructor]]. }
    assert (Hin : forall x, In x (entries hb) -> 0 < e_t x <= Timestamp e).
    { intros x Hx.
      assert (Hx' : In x (map stored acc)).
      { rewrite <- (h_all _ _ _ _ H). apply in_or_app. right. exact Hx. }
      apply in_map_iff in Hx'. destruct Hx' as (a & <- & Ha). cbn [stored e_t].
      pose proof (holds_bound c G hb acc H a Ha).
      pose proof (h_pos _ _ _ _ H) as Fp. rewrite Forall_forall in Fp. specialize (Fp a Ha).
      cbn in Fp. lia. }
    assert (Hmint' : hb_mint hb' = firstT (entries hb')).
    { cbn [hb' hb_mint]. rewrite Hent, (h_mint _ _ _ _ H).
      destruct (entries hb) as [|x l] eqn:E.
      - reflexivity.
      - rewrite firstT_app by discriminate. cbn [firstT].
        specialize (Hin x (or_introl eq_refl)).
        destruct (Z.eqb_spec (e_t x) 0); [lia|].
        destruct (Z.ltb_spec (Timestamp e) (e_t x)); [lia|]. reflexivity. }
    assert (Hmaxt' : hb_maxt hb' = lastT (entries hb')).
    { rewrite Hent, lastT_snoc. reflexivity. }
    assert (Hsize' : size hb' = lineBytes (entries hb')).
    { rewrite Hent, lineBytes_app. cbn [hb' size]. rewrite (h_size _ _ _ _ H).
      cbn [lineBytes fold_right stored e_s]. lia. }
    assert (He' : headBlock_IsEmpty hb' = false) by (apply len_snoc_nonzero).
    destruct (blockSize c <=? size hb').
    + destruct (cut_ordered_nonempty c' hb' eq_refl He') as (C1 & C2 & C3 & C4 & C5).
      destruct (cut_nonempty c') as (_ & C6 & _); [exact He'|].
      exists (cut c'), (G ++ [entries hb']), headBlock_empty. split; [reflexivity|].
      constructor; rewrite ?C2, ?C3, ?C4, ?C5; cbn [c' with_head headFmt format encoding blocks];
        try assumption; try reflexivity;
        try apply (h_headFmt _ _ _ _ H); try apply (h_format _ _ _ _ H).
      * apply Forall2_app; [apply (h_blocks _ _ _ _ H)|].
        constructor; [|constructor].
        constructor; cbn [b_b numEntries b_mint b_maxt uncompressedSize];
          try assumption; try reflexivity.
        rewrite Hent. intros E. apply app_eq_nil in E. destruct E as [_ E]. discriminate.
      * rewrite C6. cbn [c' with_head cutBlockSize encoding c_symbolizer head HeadBlock_Serialise].
        rewrite payloadBytes_app, (h_cut _ _ _ _ H). cbn [payloadBytes fold_right b_b]. lia.
      * rewrite concat_app. cbn [concat headBlock_empty entries]. rewrite !app_nil_r.
        exact Hall'.
    + exists c', G, hb'. split; [reflexivity|].
      constructor; cbn [c' with_head head headFmt format encoding blocks cutBlockSize];
        try assumption; try reflexivity;
        try apply (h_headFmt _ _ _ _ H); try apply (h_format _ _ _ _ H);
        try apply (h_blocks _ _ _ _ H); try apply (h_cut _ _ _ _ H).
Qed.

Lemma holds_run es : forall c G hb acc,
  holds c G hb acc -> Forall wt_Entry es -> Forall (fun e => 0 < Timestamp e) es ->
  exists G' hb', holds (fst (appendRun c es)) G' hb' (acc ++ snd (appendRun c es)).
Proof.
  induction es as [|e es IH]; intros c G hb acc H Hwt Hpos.
  - exists G, hb. cbn [appendRun fst snd]. rewrite app_nil_r. exact H.
  - inversion Hwt as [|? ? We Wes]; subst. inversion Hpos as [|? ? Pe Pes]; subst.
    cbn [appendRun].
    destruct (holds_Append c G hb acc e H We Pe) as [Hrej Hok].
    destruct (Z.lt_ge_cases (Timestamp e) (lastT (map stored acc))) as [Hlt|Hge].
    + specialize (Hrej Hlt). destruct (Append c e) as [[err c1] e1]. cbn [fst] in Hrej.
      inversion Hrej; subst. eapply IH; eassumption.
    + destruct (Hok Hge) as (c' & G' & hb' & Ha & H'). rewrite Ha.
      destruct (IH c' G' hb' (acc ++ [e]) H' Wes Pes) as (G2 & hb2 & H2).
      destruct (appendRun c' es) as [c2 acc2]. cbn [fst snd] in *.
      exists G2, hb2. rewrite <- app_assoc in H2. exact H2.
Qed.

(** entries with timestamps in append order are all accepted *)
Lemma holds_appendAll es : forall c G hb acc,
  holds c G hb acc -> Forall wt_Entry es -> Forall (fun e => 0 < Timestamp e) es ->
  StronglySorted Z.le (map Timestamp (acc ++ es)) ->
  exists c' G' hb',
    appendAll None c es = Ok c' /\ appendRun c es = (c', es) /\ holds c' G' hb' (acc ++ es).
Proof.
  induction es as [|e es IH]; intros c G hb acc H Hwt Hpos Hs.
  - exists c, G, hb. cbn [appendAll appendRun]. rewrite app_nil_r. auto.
  - inversion Hwt as [|? ? We Wes]; subst. inversion Hpos as [|? ? Pe Pes]; subst.
    cbn [appendAll appendRun].
    destruct (holds_Append c G hb acc e H We Pe) as [_ Hok].
    assert (Hge : lastT (map stored acc) <= Timestamp e).
    { destruct acc as [|a acc] using rev_ind; [cbn; lia|]. clear IHacc.
      rewrite map_app. cbn [map]. rewrite lastT_snoc. cbn [stored e_t].
      rewrite <- app_assoc, map_app in Hs. apply sorted_app_inv in Hs. destruct Hs as [_ Hs].
      cbn [app map] in Hs. inversion Hs as [|? ? _ Hle]; subst.
      inversion Hle; subst. assumption. }
    destruct (Hok Hge) as (c' & G' & hb' & Ha & H'). rewrite Ha.
    replace (acc ++ e :: es) with ((acc ++ [e]) ++ es) in * by (rewrite <- app_assoc; reflexivity).
    destruct (IH c' G' hb' (acc ++ [e]) H' Wes Pes Hs) as (c2 & G2 & hb2 & A1 & A2 & A3).
    exists c2, G2, hb2. rewrite A1, A2. auto.
Qed.

Lemma appendRun_accepted (Q : Entry -> Prop) es : forall c,
  Forall Q es -> Forall Q (snd (appendRun c es)).
Proof.
  induction es as [|e es IH]; intros c H; cbn [appendRun]; [constructor|].
  inversion H as [|? ? Qe Qes]; subst.
  destruct (Append c e) as [[[err|] c1] e1]; [apply IH; exact Qes|].
  specialize (IH c1 Qes). destruct (appendRun c1 es) as [c2 acc]. cbn [snd] in *.
  constructor; assumption.
Qed.

(** [cut] keeps what the chunk holds and leaves the head empty *)
Lemma holds_cut c G hb acc :
  holds c G hb acc -> exists G', holds (cut c) G' headBlock_empty acc.
Proof.
  intros H. destruct (headBlock_IsEmpty hb) eqn:He.
  - assert (Ec : cut c = c).
    { apply cut_empty. rewrite (h_head _ _ _ _ H). exact He. }
    rewrite Ec. exists G.
    assert (Ehb : hb = headBlock_empty).
    { unfold headBlock_IsEmpty in He. apply len_zero_iff in He.
      pose proof (h_mint _ _ _ _ H) as A. pose proof (h_maxt _ _ _ _ H) as B.
      pose proof (h_size _ _ _ _ H) as C. rewrite He in A, B, C. cbn in A, B, C.
      destruct hb; cbn in *; subst. reflexivity. }
    rewrite <- Ehb. exact H.
  - destruct (cut_ordered_nonempty c hb (h_head _ _ _ _ H) He) as (C1 & C2 & C3 & C4 & C5).
    destruct (cut_nonempty c) as (_ & C6 & _); [rewrite (h_head _ _ _ _ H); exact He|].
    exists (G ++ [entries hb]).
    constructor; rewrite ?C2, ?C3, ?C4, ?C5; try reflexivity;
      try apply (h_headFmt _ _ _ _ H); try apply (h_format _ _ _ _ H);
      try apply (h_sorted _ _ _ _ H); try apply (h_pos _ _ _ _ H); try apply (h_wt _ _ _ _ H).
    + exact C1.
    + apply Forall2_app; [apply (h_blocks _ _ _ _ H)|]. constructor; [|constructor].
      constructor; cbn [b_b numEntries b_mint b_maxt uncompressedSize]; try reflexivity.
      * intros E. unfold headBlock_IsEmpty in He. rewrite E in He. discriminate.
      * apply (h_mint _ _ _ _ H).
      * apply (h_maxt _ _ _ _ H).
      * apply (h_size _ _ _ _ H).
    + rewrite C6, (h_head _ _ _ _ H). cbn [HeadBlock_Serialise].
      rewrite payloadBytes_app, (h_cut _ _ _ _ H). cbn [payloadBytes fold_right b_b]. lia.
    + rewrite concat_app. cbn [concat headBlock_empty entries]. rewrite !app_nil_r.
      apply (h_all _ _ _ _ H).
Qed.

(** sealed blocks of entries in timestamp order pass the check of [reorder] *)
Lemma blocksOrdered_sealed enc G bs :
  Forall2 (sealedAs enc) G bs ->
  StronglySorted Z.le (map e_t (concat G)) ->
  forall lastMax, (forall e, In e (concat G) -> lastMax <= e_t e) ->
  blocksOrdered bs lastMax = true.
Proof.
  induction 1 as [|es b G bs Hb HF IH]; intros Hso lastMax Hlo; [reflexivity|].
  cbn [blocksOrdered]. cbn [concat] in Hso, Hlo.
  apply andb_true_iff. split.
  - apply negb_true_iff. apply Z.ltb_ge. rewrite (sa_mint _ _ _ Hb).
    destruct (firstT_In es (sa_nonempty _ _ _ Hb)) as (x & Hx & ->).
    apply Hlo. apply in_or_app. left. exact Hx.
  - apply IH.
    + rewrite map_app in Hso. apply sorted_app_inv in Hso. apply Hso.
    + intros e He. rewrite (sa_maxt _ _ _ Hb).
      destruct (lastT_In es (sa_nonempty _ _ _ Hb)) as (x & Hx & ->).
      apply in_split in Hx. destruct Hx as (l1 & l2 & ->).
      rewrite map_app in Hso. rewrite map_app in Hso. cbn [map] in Hso.
      rewrite <- app_assoc in Hso. apply sorted_app_inv in Hso. destruct Hso as [_ Hso].
      cbn [app] in Hso. inversion Hso as [|? ? _ Hle]; subst.
      rewrite Forall_forall in Hle. apply Hle. apply in_or_app. right. apply in_map. exact He.
Qed.

Lemma holds_blocksOrdered c G hb acc : holds c G hb acc -> blocksOrdered (blocks c) 0 = true.
Proof.
  intros H.
  assert (Hso : StronglySorted Z.le (map e_t (concat G ++ entries hb))).
  { rewrite (h_all _ _ _ _ H), map_stored_ts. apply (h_sorted _ _ _ _ H). }
  rewrite map_app in Hso. apply sorted_app_inv in Hso.
  apply (blocksOrdered_sealed (encoding c) G); [apply (h_blocks _ _ _ _ H)|apply Hso|].
  intros e He.
  assert (Hin : In e (map stored acc)).
  { rewrite <- (h_all _ _ _ _ H). apply in_or_app. left. exact He. }
  apply in_map_iff in Hin. destruct Hin as (a & <- & Ha).
  pose proof (h_pos _ _ _ _ H) as Fp. rewrite Forall_forall in Fp. specialize (Fp a Ha).
  cbn in *. lia.
Qed.

Lemma holds_Close fuel c G hb acc : holds c G hb acc -> Close fuel c = Ok (cut c).
Proof.
  intros H. destruct (holds_cut c G hb acc H) as (G' & H').
  unfold Close, CloseWith, reorderWith.
  rewrite (holds_blocksOrdered _ _ _ _ H'). reflexivity.
Qed.

Hypothesis decompress_compress :
  forall (enc : Encoding) (b : bytes), decompress enc (compress enc b) = Some b.
Hypothesis compress_nonempty :
  forall (enc : Encoding) (b : bytes), b <> [] -> compress enc b <> [].

Lemma decoded_all es :
  Forall (fun e => len (e_s e) < maxLineLength) es ->
  decoded es = map (fun e => (e_t e, e_s e, [])) es.
Proof.
  induction 1 as [|e es He _ IH]; cbn [decoded map]; [reflexivity|].
  destruct (Z.leb_spec maxLineLength (len (e_s e))); [lia|]. rewrite IH. reflexivity.
Qed.

Lemma pipeEntry_emitted p keep es :
  flat_map (pipeEntry p keep) (map (fun e => (e_t e, e_s e, [])) es)
  = flat_map (emitted p) es.
Proof.
  induction es as [|e es IH]; cbn [map flat_map]; [reflexivity|]. rewrite IH. f_equal.
  unfold pipeEntry, emitted. destruct (p _ _ _) as [[? ?]|]; [|reflexivity].
  destruct keep; reflexivity.
Qed.

(** the iterator of a sealed block emits what the pipeline makes of its
    entries *)
Lemma encBlock_Iterator_exact enc fmt sy b es p keep :
  fmt < chunkFormatV4 ->
  Forall wt_entry es ->
  Forall (fun e => len (e_s e) < maxLineLength) es ->
  sealedAs enc es b ->
  encBlock_Iterator enc fmt sy b p keep = Ok (flat_map (emitted p) es).
Proof.
  intros Hfmt Hwt Hshort Hs. unfold encBlock_Iterator.
  assert (Hne : flat_map encodeEntry es <> []).
  { pose proof (flat_map_encode_length es) as Hl. pose proof (sa_nonempty _ _ _ Hs) as Hes.
    destruct es; [contradiction|]. intros E. rewrite E in Hl. cbn in Hl. lia. }
  destruct (Z.eqb_spec (len (b_b b)) 0) as [E|_].
  - exfalso. apply (compress_nonempty enc _ Hne). rewrite <- (sa_bytes _ _ _ Hs).
    apply len_zero_iff. apply Z.eqb_eq. exact E.
  - unfold blockEntries. rewrite (sa_bytes _ _ _ Hs), decompress_compress.
    assert (H20 : len (@nil byte) <= 20) by (unfold len; simpl; lia).
    assert (Hfu : (length es < drainFuel (flat_map encodeEntry es))%nat).
    { unfold drainFuel. pose proof (flat_map_encode_length es). lia. }
    destruct (drain_encoded fmt sy es (drainFuel (flat_map encodeEntry es))
                {| rd := flat_map encodeEntry es; readBuf := [] |} Hfmt Hwt eq_refl H20 Hfu)
      as [err Hd].
    rewrite Hd, (decoded_all es Hshort), pipeEntry_emitted. reflexivity.
Qed.

Lemma sealed_out_of_range enc es b mint maxt :
  sealedAs enc es b -> StronglySorted Z.le (map e_t es) ->
  (maxt <? b_mint b) || (b_maxt b <? mint) = true ->
  filter (inRange mint maxt) es = [].
Proof.
  intros Hs Hso Hskip. apply filter_none. apply Forall_forall. intros e He.
  pose proof (sorted_first_le_last es Hso e He) as Hb.
  rewrite <- (sa_mint _ _ _ Hs), <- (sa_maxt _ _ _ Hs) in Hb.
  unfold inRange. apply andb_false_iff. apply orb_true_iff in Hskip.
  destruct Hskip as [Hk|Hk]; apply Z.ltb_lt in Hk.
  - right. apply Z.ltb_ge. lia.
  - left. apply Z.leb_gt. lia.
Qed.

(** the block loop of [Iterator] on sealed blocks in timestamp order *)
Lemma selectBlocks_exact enc mint maxt G bs :
  Forall2 (sealedAs enc) G bs ->
  StronglySorted Z.le (map e_t (concat G)) ->
  forall lastMax ordered,
    (forall e, In e (concat G) -> lastMax <= e_t e) ->
    exists Gsel,
      Forall2 (sealedAs enc) Gsel (fst (fst (selectBlocks mint maxt bs lastMax ordered))) /\
      subseq (concat Gsel) (concat G) /\
      subseq Gsel G /\
      filter (inRange mint maxt) (concat Gsel) = filter (inRange mint maxt) (concat G) /\
      snd (selectBlocks mint maxt bs lastMax ordered) = ordered /\
      (forall y, lastMax <= y -> (forall e, In e (concat G) -> e_t e <= y) ->
                 snd (fst (selectBlocks mint maxt bs lastMax ordered)) <= y).
Proof.
  intros H. induction H as [|es b G bs Hb HF IH]; intros Hso lastMax ordered Hlo.
  - exists []. cbn [selectBlocks fst snd concat filter].
    split; [constructor|]. split; [constructor|]. split; [constructor|].
    split; [reflexivity|]. split; [reflexivity|]. intros y Hy _. exact Hy.
  - cbn [concat] in Hso, Hlo. rewrite map_app in Hso.
    pose proof (sorted_app_inv _ _ Hso) as [Hso1 Hso2].
    cbn [selectBlocks].
    destruct ((maxt <? b_mint b) || (b_maxt b <? mint)) eqn:Hskip.
    + destruct (IH Hso2 lastMax ordered) as (Gsel & H1 & H2 & H2' & H3 & H4 & H5).
      { intros e He. apply Hlo. apply in_or_app. right. exact He. }
      exists Gsel. split; [exact H1|]. cbn [concat].
      split; [change (concat Gsel) with ([] ++ concat Gsel);
              apply subseq_app; [apply subseq_nil_l|exact H2]|].
      split; [apply subseq_skip; exact H2'|].
      split; [rewrite filter_app, (sealed_out_of_range enc es b mint maxt Hb Hso1 Hskip);
              exact H3|].
      split; [exact H4|].
      intros y Hy Hall. apply H5; [exact Hy|].
      intros e He. apply Hall. apply in_or_app. right. exact He.
    + assert (Hin : forall e, In e es -> b_mint b <= e_t e <= b_maxt b).
      { intros e He. rewrite (sa_mint _ _ _ Hb), (sa_maxt _ _ _ Hb).
        apply sorted_first_le_last; assumption. }
      assert (Hmint : lastMax <= b_mint b).
      { rewrite (sa_mint _ _ _ Hb). pose proof (sa_nonempty _ _ _ Hb) as Hne.
        destruct es as [|x es]; [contradiction|]. cbn [firstT]. apply Hlo. left. reflexivity. }
      assert (Hmaxt : forall e, In e (concat G) -> b_maxt b <= e_t e).
      { intros e He. rewrite (sa_maxt _ _ _ Hb). pose proof (sa_nonempty _ _ _ Hb) as Hne.
        destruct es as [|x es] using rev_ind; [contradiction|]. clear IHes.
        rewrite lastT_snoc. rewrite map_app in Hso. cbn [map] in Hso.
        rewrite <- app_assoc in Hso. apply sorted_app_inv in Hso. destruct Hso as [_ Hso].
        cbn [app] in Hso. inversion Hso as [|? ? _ Hle]; subst.
        rewrite Forall_forall in Hle. apply Hle. apply in_map. exact He. }
      destruct (IH Hso2 (b_maxt b) (ordered && negb (b_mint b <? lastMax)) Hmaxt)
        as (Gsel & H1 & H2 & H2' & H3 & H4 & H5).
      destruct (selectBlocks mint maxt bs (b_maxt b) _) as [[sel lm] ord]. cbn [fst snd] in *.
      exists (es :: Gsel). split; [constructor; assumption|]. cbn [concat].
      split; [apply subseq_app; [apply subseq_refl|exact H2]|].
      split; [apply subseq_cons; exact H2'|].
      split; [rewrite !filter_app, H3; reflexivity|].
      split.
      * rewrite H4. destruct (Z.ltb_spec (b_mint b) lastMax); [lia|].
        cbn [negb]. apply andb_true_r.
      * intros y Hy Hall. apply H5.
        -- destruct (lastT_In es (sa_nonempty _ _ _ Hb)) as (x & Hx & Ex).
           rewrite (sa_maxt _ _ _ Hb), Ex. apply Hall. apply in_or_app. left. exact Hx.
        -- intros e He. apply Hall. apply in_or_app. right. exact He.
Qed.

Lemma collect_exact enc fmt sy p keep Gsel sel :
  fmt < chunkFormatV4 ->
  Forall2 (sealedAs enc) Gsel sel ->
  Forall wt_entry (concat Gsel) ->
  Forall (fun e => len (e_s e) < maxLineLength) (concat Gsel) ->
  collect (map (fun b => encBlock_Iterator enc fmt sy b p keep) sel)
  = Ok (map (flat_map (emitted p)) Gsel).
Proof.
  intros Hfmt H. induction H as [|es b G bs Hb HF IH]; intros Hwt Hshort; [reflexivity|].
  cbn [concat] in Hwt, Hshort. apply Forall_app in Hwt, Hshort.
  destruct Hwt as [Hwt1 Hwt2]. destruct Hshort as [Hs1 Hs2].
  cbn [map collect].
  rewrite (encBlock_Iterator_exact enc fmt sy b es p keep Hfmt Hwt1 Hs1 Hb).
  rewrite (IH Hwt2 Hs2). reflexivity.
Qed.

Lemma NoopPipeline_singleStream : singleStream NoopPipeline.
Proof.
  exists [123; 125]. intros t line lbls newLine lr' H. unfold NoopPipeline in H.
  inversion H. reflexivity.
Defined.

Lemma bytes_eqb_refl a : bytes_eqb a a = true.
Proof.
  unfold bytes_eqb. rewrite Nat.eqb_refl. cbn [andb].
  induction a as [|x a IH]; cbn [combine forallb fst snd]; [reflexivity|].
  rewrite Z.eqb_refl. exact IH.
Qed.

Lemma addEntry_oneOf lr acc e : addEntry (oneOf lr acc) lr e = oneOf lr (acc ++ [e]).
Proof.
  destruct acc as [|a acc]; cbn [oneOf addEntry app]; [reflexivity|].
  cbn [Labels Entries]. rewrite bytes_eqb_refl. reflexivity.
Qed.

Lemma process_oneOf mint maxt p lr acc e :
  (forall t line lbls newLine lr', p t line lbls = Some (newLine, lr') -> lr' = lr) ->
  e_nonIndexedLabels e = [] ->
  process mint maxt p (oneOf lr acc) e
  = oneOf lr (acc ++ flat_map (emitted p) (filter (inRange mint maxt) [e])).
Proof.
  intros Hp He. unfold process, inRange. cbn [filter].
  destruct (Z.ltb_spec (e_t e) mint), (Z.leb_spec mint (e_t e)); try lia;
    destruct (Z.leb_spec maxt (e_t e)), (Z.ltb_spec (e_t e) maxt); try lia;
    cbn [orb andb flat_map app]; rewrite ?app_nil_r; try reflexivity.
  unfold emitted. rewrite He.
  destruct (p (e_t e) (e_s e) []) as [[newLine lr']|] eqn:E; [|rewrite app_nil_r; reflexivity].
  rewrite (Hp _ _ _ _ _ E). unfold toEntry. rewrite He. apply addEntry_oneOf.
Qed.

Lemma fold_process_oneOf mint maxt p lr l :
  (forall t line lbls newLine lr', p t line lbls = Some (newLine, lr') -> lr' = lr) ->
  Forall (fun e => e_nonIndexedLabels e = []) l ->
  forall acc,
    fold_left (process mint maxt p) l (oneOf lr acc)
    = oneOf lr (acc ++ flat_map (emitted p) (filter (inRange mint maxt) l)).
Proof.
  intros Hp. induction 1 as [|e l He _ IH]; intros acc; cbn [fold_left].
  - cbn [filter flat_map]. rewrite app_nil_r. reflexivity.
  - rewrite (process_oneOf mint maxt p lr acc e Hp He), IH, <- app_assoc, <- flat_map_app.
    f_equal. f_equal. f_equal. change (e :: l) with ([e] ++ l). rewrite filter_app.
    reflexivity.
Qed.

Lemma sortMerge_single before (l : list Entry) : forall fuel,
  (length l <= fuel)%nat -> sortMerge fuel before [l] = l.
Proof.
  induction l as [|e l IH]; intros fuel Hf.
  - destruct fuel; reflexivity.
  - destruct fuel as [|fuel]; [cbn [length] in Hf; lia|].
    cbn [sortMerge popBest]. rewrite IH by (cbn [length] in Hf; lia). reflexivity.
Qed.

(** the streams iterator over one stream emits its entries *)
Lemma streamsIterator_oneOf rank lr acc d : streamsIterator rank (oneOf lr acc) d = acc.
Proof.
  destruct acc as [|a acc]; [reflexivity|].
  unfold streamsIterator, oneOf. change (len [_] =? 0) with false. cbv iota.
  unfold rangeStreams. cbn [fold_left insertByRank].
  unfold NewStreamsIterator, NewSortEntryIterator. cbn [map Entries concat].
  apply sortMerge_single. rewrite app_nil_r. apply le_n.
Qed.

Lemma flat_map_rev {A B} (f : A -> list B) l :
  (forall x, rev (f x) = f x) -> flat_map f (rev l) = rev (flat_map f l).
Proof.
  intros Hf. induction l as [|x l IH]; cbn [rev flat_map]; [reflexivity|].
  rewrite flat_map_app, IH, rev_app_distr. cbn [flat_map]. rewrite app_nil_r, Hf. reflexivity.
Qed.

Lemma filter_rev {A} (f : A -> bool) l : filter f (rev l) = rev (filter f l).
Proof.
  induction l as [|x l IH]; cbn [rev filter]; [reflexivity|].
  rewrite filter_app, IH. cbn [filter]. destruct (f x); cbn [rev]; [reflexivity|].
  rewrite app_nil_r. reflexivity.
Qed.

(** the iterator of the ordered head, in both directions, under a pipeline
    that makes one stream *)
Lemma headBlock_Iterator_exact rank hb mint maxt p :
  singleStream p \/ entries hb = [] ->
  Forall (fun e => e_nonIndexedLabels e = []) (entries hb) ->
  StronglySorted Z.le (map e_t (entries hb)) ->
  hb_mint hb = firstT (entries hb) -> hb_maxt hb = lastT (entries hb) ->
  headBlock_Iterator rank hb FORWARD mint maxt p
  = flat_map (emitted p) (filter (inRange mint maxt) (entries hb)) /\
  headBlock_Iterator rank hb BACKWARD mint maxt p
  = rev (flat_map (emitted p) (filter (inRange mint maxt) (entries hb))).
Proof.
  intros Hp Hl Hs Hmin Hmax. unfold headBlock_Iterator.
  destruct (headBlock_IsEmpty hb) eqn:He; cbn [orb].
  - unfold headBlock_IsEmpty in He. apply len_zero_iff in He. rewrite He. split; reflexivity.
  - destruct ((maxt <? hb_mint hb) || (hb_maxt hb <? mint)) eqn:Hskip.
    + rewrite filter_none; [split; reflexivity|].
      apply Forall_forall. intros e Hin.
      pose proof (sorted_first_le_last _ Hs e Hin) as Hb. rewrite <- Hmin, <- Hmax in Hb.
      unfold inRange. apply andb_false_iff. apply orb_true_iff in Hskip.
      destruct Hskip as [Hk|Hk]; apply Z.ltb_lt in Hk.
      * right. apply Z.ltb_ge. lia.
      * left. apply Z.leb_gt. lia.
    + destruct Hp as [[lr Hlr]|E].
      2:{ unfold headBlock_IsEmpty in He. rewrite E in He. discriminate He. }
      change (@nil Stream) with (oneOf lr []).
      rewrite !fold_process_oneOf; try assumption.
      * rewrite !streamsIterator_oneOf. cbn [app]. split; [reflexivity|].
        rewrite filter_rev. apply flat_map_rev. apply emitted_rev.
      * apply Forall_forall. intros e Hin. rewrite Forall_forall in Hl. apply Hl.
        apply in_rev. exact Hin.
Qed.

Lemma flat_map_concat {A B} (f : A -> list B) (ls : list (list A)) :
  flat_map f (concat ls) = concat (map (flat_map f) ls).
Proof.
  induction ls as [|l ls IH]; cbn [concat map]; [reflexivity|].
  rewrite flat_map_app, IH. reflexivity.
Qed.

Lemma concat_rev_rev {A} (ls : list (list A)) :
  concat (rev (map (@rev A) ls)) = rev (concat ls).
Proof.
  induction ls as [|l ls IH]; cbn [map rev concat]; [reflexivity|].
  rewrite concat_app, IH, rev_app_distr. cbn [concat]. rewrite app_nil_r. reflexivity.
Qed.

Lemma sorted_each (G : list (list entry)) :
  StronglySorted Z.le (map e_t (concat G)) ->
  Forall (fun es => StronglySorted Z.le (map e_t es)) G.
Proof.
  induction G as [|es G IH]; intros H; constructor.
  - cbn [concat] in H. rewrite map_app in H. apply sorted_app_inv in H. apply H.
  - apply IH. cbn [concat] in H. rewrite map_app in H. apply sorted_app_inv in H. apply H.
Qed.

Lemma stored_wt acc : Forall wt_Entry acc -> Forall wt_entry (map stored acc).
Proof. intros H. apply Forall_map. eapply Forall_impl; [|exact H]. intros a Ha. exact Ha. Qed.

Lemma Forall_subseq {A} (Q : A -> Prop) l1 l2 : subseq l1 l2 -> Forall Q l2 -> Forall Q l1.
Proof.
  intros Hs H. rewrite Forall_forall in *. intros x Hx. apply H. eapply subseq_In; eassumption.
Qed.

Lemma concat_timeRanged p mint maxt (G : list (list entry)) :
  Forall (fun es => StronglySorted Z.le (map e_t es)) G ->
  concat (map (fun it => NewTimeRangedIterator it mint maxt) (map (flat_map (emitted p)) G))
  = flat_map (emitted p) (filter (inRange mint maxt) (concat G)).
Proof.
  induction 1 as [|es G Hs _ IH]; cbn [map concat]; [reflexivity|].
  rewrite IH, filter_app, flat_map_app, timeRanged_emitted by exact Hs. reflexivity.
Qed.

(** what an iteration over an ordered chunk emits, in both directions *)
Lemma Iterator_exact c G hb acc mint maxt p keep :
  holds c G hb acc ->
  Forall (fun e => len (Line e) < maxLineLength) acc ->
  singleStream p \/ entries hb = [] ->
  Iterator c mint maxt FORWARD p keep
  = Ok (flat_map (emitted p) (filter (inRange mint maxt) (map stored acc))) /\
  Iterator c mint maxt BACKWARD p keep
  = Ok (rev (flat_map (emitted p) (filter (inRange mint maxt) (map stored acc)))).
Proof.
  intros H Hshort Hp.
  pose proof (h_all _ _ _ _ H) as Hall.
  assert (Hso : StronglySorted Z.le (map e_t (concat G ++ entries hb))).
  { rewrite Hall, map_stored_ts. apply (h_sorted _ _ _ _ H). }
  pose proof Hso as Hso'. rewrite map_app in Hso'. apply sorted_app_inv in Hso'.
  destruct Hso' as [HsoG HsoH].
  assert (Hwt : Forall wt_entry (concat G ++ entries hb)).
  { rewrite Hall. apply stored_wt. apply (h_wt _ _ _ _ H). }
  assert (Hsh : Forall (fun e => len (e_s e) < maxLineLength) (concat G ++ entries hb)).
  { rewrite Hall. apply Forall_map. exact Hshort. }
  assert (Hlab : Forall (fun e => e_nonIndexedLabels e = []) (concat G ++ entries hb)).
  { rewrite Hall. apply Forall_map. apply Forall_forall. reflexivity. }
  assert (Hpos : forall e, In e (concat G ++ entries hb) -> 0 < e_t e).
  { rewrite Hall. intros e He. apply in_map_iff in He. destruct He as (a & <- & Ha).
    pose proof (h_pos _ _ _ _ H) as Fp. rewrite Forall_forall in Fp. apply (Fp a Ha). }
  apply Forall_app in Hwt, Hsh, Hlab.
  destruct Hwt as [HwtG _]. destruct Hsh as [HshG _]. destruct Hlab as [_ HlabH].
  destruct (selectBlocks_exact (encoding c) mint maxt G (blocks c) (h_blocks _ _ _ _ H) HsoG 0 true)
    as (Gsel & S1 & S2 & S2' & S3 & S4 & S5).
  { intros e He. assert (0 < e_t e) by (apply Hpos; apply in_or_app; left; exact He). lia. }
  unfold Iterator.
  destruct (selectBlocks mint maxt (blocks c) 0 true) as [[sel lastMax] ordered].
  cbn [fst snd] in S1, S4, S5. subst ordered.
  rewrite (collect_exact (encoding c) (format c) (c_symbolizer c) p keep Gsel sel
             (h_format _ _ _ _ H) S1 (Forall_subseq _ _ _ S2 HwtG) (Forall_subseq _ _ _ S2 HshG)).
  rewrite (h_head _ _ _ _ H).
  cbn [HeadBlock_IsEmpty HeadBlock_Iterator HeadBlock_Bounds headBlock_Bounds fst].
  destruct (headBlock_Iterator_exact streamRank hb mint maxt p Hp HlabH HsoH
              (h_mint _ _ _ _ H) (h_maxt _ _ _ _ H)) as [HF HB].
  rewrite HF, HB.
  assert (Hord : (if negb (headBlock_IsEmpty hb)
                  then true && negb (hb_mint hb <? lastMax) else true) = true).
  { destruct (headBlock_IsEmpty hb) eqn:He; cbn [negb]; [reflexivity|].
    cbn [andb]. apply negb_true_iff. apply Z.ltb_ge.
    assert (Hne : entries hb <> []).
    { intros E. unfold headBlock_IsEmpty in He. rewrite E in He. discriminate. }
    destruct (firstT_In _ Hne) as (x & Hx & Ex). rewrite (h_mint _ _ _ _ H), Ex.
    apply S5.
    - assert (0 < e_t x) by (apply Hpos; apply in_or_app; right; exact Hx). lia.
    - intros e He'. cbn [map] in Hso. rewrite map_app in Hso.
      apply in_split in Hx. destruct Hx as (l1 & l2 & El). rewrite El in Hso.
      apply in_split in He'. destruct He' as (g1 & g2 & Eg). rewrite Eg in Hso.
      rewrite !map_app in Hso. cbn [map] in Hso. rewrite <- app_assoc in Hso.
      apply sorted_app_inv in Hso. destruct Hso as [_ Hso]. cbn [app] in Hso.
      inversion Hso as [|? ? _ Hle]; subst. rewrite Forall_forall in Hle. apply Hle.
      apply in_or_app. right. apply in_or_app. right. left. reflexivity. }
  rewrite Hord.
  assert (Hres : filter (inRange mint maxt) (map stored acc)
                 = filter (inRange mint maxt) (concat Gsel)
                   ++ filter (inRange mint maxt) (entries hb)).
  { rewrite <- Hall, filter_app, S3. reflexivity. }
  rewrite Hres, flat_map_app.
  assert (Hhead : filter (inRange mint maxt) (entries hb) = []
                  \/ headBlock_IsEmpty hb = false).
  { destruct (headBlock_IsEmpty hb) eqn:He; [left|right; reflexivity].
    unfold headBlock_IsEmpty in He. apply len_zero_iff in He. rewrite He. reflexivity. }
  split.
  - f_equal. unfold NewNonOverlappingIterator.
    assert (Hcat : concat (map (flat_map (emitted p)) Gsel
                           ++ (if negb (headBlock_IsEmpty hb)
                               then [flat_map (emitted p) (filter (inRange mint maxt) (entries hb))]
                               else []))
                   = flat_map (emitted p)
                       (concat Gsel ++ filter (inRange mint maxt) (entries hb))).
    { rewrite concat_app, flat_map_app, flat_map_concat. f_equal.
      destruct Hhead as [E|E].
      - rewrite E. destruct (negb (headBlock_IsEmpty hb)); reflexivity.
      - rewrite E. cbn [negb concat]. apply app_nil_r. }
    rewrite Hcat, timeRanged_emitted.
    + rewrite filter_app, flat_map_app. f_equal. f_equal.
      apply filter_all. apply Forall_forall. intros e He. apply filter_In in He. apply He.
    + rewrite map_app. eapply subseq_sorted; [|exact Hso]. rewrite map_app.
      apply subseq_app; apply subseq_map; [exact S2|apply subseq_filter].
  - f_equal. unfold NewNonOverlappingIterator, NewEntryReversedIter.
    rewrite rev_app_distr, concat_app.
    rewrite <- (map_map (fun it => NewTimeRangedIterator it mint maxt) (@rev Entry)).
    rewrite concat_rev_rev, concat_timeRanged.
    + rewrite rev_app_distr. f_equal.
      destruct Hhead as [E|E].
      * rewrite E. destruct (negb (headBlock_IsEmpty hb)); reflexivity.
      * rewrite E. cbn [negb rev app concat]. apply app_nil_r.
    + apply sorted_each. eapply subseq_sorted; [|exact HsoG]. apply subseq_map. exact S2.
Qed.

(** *** Counters *)

Lemma lineTotal_app l1 l2 : lineTotal (l1 ++ l2) = lineTotal l1 + lineTotal l2.
Proof.
  induction l1 as [|e l1 IH]; cbn [app lineTotal fold_right]; [reflexivity|].
  fold (lineTotal (l1 ++ l2)) (lineTotal l1). lia.
Qed.

Lemma fold_left_add {A} (f : A -> Z) l : forall a,
  fold_left (fun n x => n + f x) l a = a + fold_left (fun n x => n + f x) l 0.
Proof.
  induction l as [|x l IH]; intros a; cbn [fold_left]; [lia|].
  rewrite (IH (a + f x)), (IH (0 + f x)). lia.
Qed.

Lemma Size_cut c : Size (cut c) = Size c.
Proof.
  destruct (HeadBlock_IsEmpty (head c)) eqn:He.
  - rewrite cut_empty by exact He. reflexivity.
  - destruct (cut_nonempty c He) as (Hb & _ & Hh & _).
    destruct (HeadBlock_Reset_empty (head c)) as (_ & _ & Hz & _).
    unfold Size. rewrite Hb, Hh, Hz, fold_left_app. cbn [fold_left sealedFrom numEntries]. lia.
Qed.

Lemma UncompressedSize_cut c : UncompressedSize (cut c) = UncompressedSize c.
Proof.
  destruct (HeadBlock_IsEmpty (head c)) eqn:He.
  - rewrite cut_empty by exact He. reflexivity.
  - destruct (cut_nonempty c He) as (Hb & _ & Hh & Hsy & _ & _ & Hf & _).
    destruct (HeadBlock_Reset_empty (head c)) as (_ & Hz & _).
    unfold UncompressedSize. rewrite Hb, Hh, Hz, Hsy, Hf, fold_left_app.
    cbn [fold_left sealedFrom uncompressedSize].
    rewrite (fold_left_add _ (blocks c) (HeadBlock_UncompressedSize (head c))).
    destruct (chunkFormatV4 <=? format c); lia.
Qed.

(** one append on a chunk with the ordered head: the counters *)
Lemma Append_counts c hb e :
  head c = OrderedHead hb -> headFmt c < UnorderedHeadBlockFmt ->
  match Append c e with
  | (None, c', _) =>
      Size c' = Size c + 1 /\
      UncompressedSize c' = UncompressedSize c + len (Line e) /\
      (exists hb', head c' = OrderedHead hb') /\ headFmt c' = headFmt c
  | (Some _, c', _) => c' = c
  end.
Proof.
  intros Hh Hf.
  destruct (Append_ordered c hb e Hh Hf) as [Hrej Hok]. cbv zeta in Hrej, Hok.
  destruct (if headBlock_IsEmpty hb then _ else _).
  - specialize (Hrej eq_refl). destruct (Append c e) as [[err c1] e1]. cbn [fst] in Hrej.
    inversion Hrej; subst. reflexivity.
  - rewrite (Hok eq_refl). clear Hrej Hok.
    set (hb' := {| entries := entries hb ++ [_]; size := _; hb_mint := _; hb_maxt := _ |}).
    set (c' := with_head c (OrderedHead hb') (c_symbolizer c)).
    assert (S1 : Size c' = Size c + 1).
    { unfold Size. cbn [c' with_head blocks head HeadBlock_Entries]. rewrite Hh.
      cbn [HeadBlock_Entries]. unfold headBlock_Entries. cbn [hb' entries].
      rewrite len_app. unfold len at 2. simpl. lia. }
    assert (S2 : UncompressedSize c' = UncompressedSize c + len (Line e)).
    { unfold UncompressedSize. cbn [c' with_head blocks head format c_symbolizer]. rewrite Hh.
      cbn [HeadBlock_UncompressedSize headBlock_UncompressedSize hb' size].
      rewrite (fold_left_add _ (blocks c) (size hb + len (Line e))).
      rewrite (fold_left_add _ (blocks c) (size hb)).
      destruct (chunkFormatV4 <=? format c); lia. }
    assert (He' : headBlock_IsEmpty hb' = false) by (apply len_snoc_nonzero).
    destruct (blockSize c <=? size hb').
    + rewrite Size_cut, UncompressedSize_cut.
      destruct (cut_ordered_nonempty c' hb' eq_refl He') as (C1 & _ & C3 & _).
      split; [exact S1|]. split; [exact S2|]. split; [eexists; exact C1|]. exact C3.
    + split; [exact S1|]. split; [exact S2|]. split; [eexists; reflexivity|]. reflexivity.
Qed.

Lemma appendRun_counts es : forall c hb,
  head c = OrderedHead hb -> headFmt c < UnorderedHeadBlockFmt ->
  Size (fst (appendRun c es)) = Size c + len (snd (appendRun c es)) /\
  UncompressedSize (fst (appendRun c es))
  = UncompressedSize c + lineTotal (snd (appendRun c es)).
Proof.
  induction es as [|e es IH]; intros c hb Hh Hf; cbn [appendRun].
  - cbn [fst snd lineTotal fold_right]. unfold len. simpl. lia.
  - pose proof (Append_counts c hb e Hh Hf) as H.
    destruct (Append c e) as [[[err|] c1] e1].
    + subst c1. apply (IH c hb); assumption.
    + destruct H as (S1 & S2 & (hb1 & Hh1) & Hf1).
      assert (Hf1' : headFmt c1 < UnorderedHeadBlockFmt) by (rewrite Hf1; exact Hf).
      destruct (IH c1 hb1 Hh1 Hf1') as [I1 I2].
      destruct (appendRun c1 es) as [c2 acc]. cbn [fst snd] in *.
      rewrite I1, I2, S1, S2, len_cons. cbn [lineTotal fold_right]. fold (lineTotal acc). lia.
Qed.

(** *** Bounds *)

Lemma sealed_first_pos enc G bs :
  Forall2 (sealedAs enc) G bs -> G <> [] ->
  (forall e, In e (concat G) -> 0 < e_t e) ->
  StronglySorted Z.le (map e_t (concat G)) ->
  0 < firstT (concat G) /\ forall e, In e (concat G) -> firstT (concat G) <= e_t e <= lastT (concat G).
Proof.
  intros HF Hne Hpos Hso.
  pose proof (sealed_concat_nonempty enc G bs HF Hne) as Hc.
  split.
  - destruct (firstT_In _ Hc) as (x & Hx & ->). apply Hpos. exact Hx.
  - intros e He. apply sorted_first_le_last; assumption.
Qed.

Lemma Bounds_fold enc G bs :
  Forall2 (sealedAs enc) G bs ->
  StronglySorted Z.le (map e_t (concat G)) ->
  (forall e, In e (concat G) -> 0 < e_t e) ->
  forall f t, 0 <= f -> 0 <= t ->
    fold_left
      (fun (ft : Z * Z) b =>
         let (from, to) := ft in
         (if (from =? 0) || (b_mint b <? from) then b_mint b else from,
          if to <? b_maxt b then b_maxt b else to)) bs (f, t)
    = (match G with
       | [] => f
       | _ => if (f =? 0) || (firstT (concat G) <? f) then firstT (concat G) else f
       end,
       Z.max t (lastT (concat G))).
Proof.
  induction 1 as [|es b G bs Hb HF IH]; intros Hso Hpos f t Hf Ht.
  - cbn [fold_left concat lastT rev]. f_equal. lia.
  - cbn [fold_left]. cbn [concat] in Hso, Hpos |- *.
    pose proof Hso as Hso'. rewrite map_app in Hso'. apply sorted_app_inv in Hso'.
    destruct Hso' as [Hso1 Hso2].
    pose proof (sa_nonempty _ _ _ Hb) as Hne.
    destruct (firstT_In es Hne) as (x & Hx & Ex). destruct (lastT_In es Hne) as (y & Hy & Ey).
    assert (Px : 0 < e_t x) by (apply Hpos; apply in_or_app; left; exact Hx).
    assert (Py : 0 < e_t y) by (apply Hpos; apply in_or_app; left; exact Hy).
    rewrite (sa_mint _ _ _ Hb), (sa_maxt _ _ _ Hb), Ex, Ey.
    rewrite firstT_app by exact Hne. rewrite Ex.
    set (f1 := if (f =? 0) || (e_t x <? f) then e_t x else f).
    set (t1 := if t <? e_t y then e_t y else t).
    assert (Hf1 : 0 < f1 /\ f1 <= e_t x).
    { unfold f1. destruct (Z.eqb_spec f 0); cbn [orb]; [lia|].
      destruct (Z.ltb_spec (e_t x) f); lia. }
    assert (Ht1 : t1 = Z.max t (e_t y)).
    { unfold t1. destruct (Z.ltb_spec t (e_t y)); lia. }
    rewrite IH; [|exact Hso2|intros e He; apply Hpos; apply in_or_app; right; exact He|lia|lia].
    destruct G as [|es' G'].
    + cbn [concat]. rewrite app_nil_r, Ey. cbn [lastT rev]. f_equal. lia.
    + assert (HG : es' :: G' <> []) by discriminate.
      assert (Hc : concat (es' :: G') <> []) by (eapply sealed_concat_nonempty; eassumption).
      rewrite (lastT_app es _ Hc).
      destruct (firstT_In _ Hc) as (u & Hu & Eu). destruct (lastT_In _ Hc) as (v & Hv & Ev).
      rewrite Eu, Ev.
      assert (Hxu : e_t x <= e_t u /\ e_t y <= e_t v).
      { apply in_split in Hx. destruct Hx as (a1 & a2 & Ea).
        apply in_split in Hy. destruct Hy as (b1 & b2 & Eb).
        split.
        - rewrite Ea in Hso. rewrite !map_app in Hso. cbn [map] in Hso.
          rewrite <- !app_assoc in Hso. apply sorted_app_inv in Hso. destruct Hso as [_ Hso].
          cbn [app] in Hso. inversion Hso as [|? ? _ Hle]; subst.
          rewrite Forall_forall in Hle. apply Hle. apply in_or_app. right. apply in_map. exact Hu.
        - rewrite Eb in Hso. rewrite !map_app in Hso. cbn [map] in Hso.
          rewrite <- !app_assoc in Hso. apply sorted_app_inv in Hso. destruct Hso as [_ Hso].
          cbn [app] in Hso. inversion Hso as [|? ? _ Hle]; subst.
          rewrite Forall_forall in Hle. apply Hle. apply in_or_app. right. apply in_map. exact Hv. }
      f_equal; [|lia].
      destruct (Z.eqb_spec f1 0); [lia|]. cbn [orb].
      destruct (Z.ltb_spec (e_t u) f1); [lia|]. reflexivity.
Qed.

Lemma holds_Bounds c G hb acc :
  holds c G hb acc -> Bounds c = (firstT (map stored acc), lastT (map stored acc)).
Proof.
  intros H. unfold Bounds. rewrite (h_head _ _ _ _ H).
  cbn [HeadBlock_Bounds headBlock_Bounds].
  pose proof (h_all _ _ _ _ H) as Hall.
  assert (Hso : StronglySorted Z.le (map e_t (concat G ++ entries hb))).
  { rewrite Hall, map_stored_ts. apply (h_sorted _ _ _ _ H). }
  assert (Hpos : forall e, In e (concat G ++ entries hb) -> 0 < e_t e).
  { rewrite Hall. intros e He. apply in_map_iff in He. destruct He as (a & <- & Ha).
    pose proof (h_pos _ _ _ _ H) as Fp. rewrite Forall_forall in Fp. apply (Fp a Ha). }
  pose proof Hso as Hso'. rewrite map_app in Hso'. apply sorted_app_inv in Hso'.
  destruct Hso' as [HsoG HsoH].
  assert (Hhb : 0 <= firstT (entries hb) /\ 0 <= lastT (entries hb)).
  { destruct (entries hb) as [|x l] eqn:E; [cbn; lia|].
    assert (Hne : x :: l <> []) by discriminate.
    destruct (firstT_In _ Hne) as (u & Hu & ->). destruct (lastT_In _ Hne) as (v & Hv & ->).
    assert (0 < e_t u) by (apply Hpos; apply in_or_app; right; exact Hu).
    assert (0 < e_t v) by (apply Hpos; apply in_or_app; right; exact Hv). lia. }
  unfold headBlock_Bounds. rewrite (h_mint _ _ _ _ H), (h_maxt _ _ _ _ H).
  rewrite (Bounds_fold (encoding c) G (blocks c) (h_blocks _ _ _ _ H) HsoG); try lia.
  2:{ intros e He. apply Hpos. apply in_or_app. left. exact He. }
  rewrite <- Hall.
  destruct G as [|es G'].
  - cbn [concat app lastT rev]. f_equal. lia.
  - assert (HG : es :: G' <> []) by discriminate.
    pose proof (sealed_concat_nonempty _ _ _ (h_blocks _ _ _ _ H) HG) as Hc.
    rewrite (firstT_app _ (entries hb) Hc).
    destruct (firstT_In _ Hc) as (u & Hu & Eu). destruct (lastT_In _ Hc) as (v & Hv & Ev).
    assert (Pu : 0 < e_t u) by (apply Hpos; apply in_or_app; left; exact Hu).
    destruct (entries hb) as [|x l] eqn:E.
    + rewrite app_nil_r. change (firstT (@nil entry)) with 0. change (lastT (@nil entry)) with 0.
      rewrite Ev. cbn [Z.eqb orb].
      assert (Pv : 0 < e_t v) by (apply Hpos; apply in_or_app; left; exact Hv).
      f_equal. lia.
    + assert (Hne : x :: l <> []) by discriminate.
      rewrite (lastT_app _ _ Hne).
      destruct (lastT_In _ Hne) as (w & Hw & Ew).
      cbn [firstT]. rewrite Eu, Ev, Ew.
      assert (Hord : e_t u <= e_t x /\ e_t v <= e_t w).
      { apply in_split in Hu. destruct Hu as (a1 & a2 & Ea).
        apply in_split in Hv. destruct Hv as (b1 & b2 & Eb).
        split.
        - rewrite Ea in Hso. rewrite !map_app in Hso. cbn [map] in Hso.
          rewrite <- !app_assoc in Hso. apply sorted_app_inv in Hso. destruct Hso as [_ Hso].
          cbn [app] in Hso. inversion Hso as [|? ? _ Hle]; subst.
          rewrite Forall_forall in Hle. apply Hle. apply in_or_app. right.
          left. reflexivity.
        - rewrite Eb in Hso. rewrite !map_app in Hso. cbn [map] in Hso.
          rewrite <- !app_assoc in Hso. apply sorted_app_inv in Hso. destruct Hso as [_ Hso].
          cbn [app] in Hso. inversion Hso as [|? ? _ Hle]; subst.
          rewrite Forall_forall in Hle. apply Hle. apply in_or_app. right.
          apply (in_map e_t (x :: l)). exact Hw. }
      assert (Px : 0 < e_t x) by (apply Hpos; apply in_or_app; right; left; reflexivity).
      f_equal; [|lia].
      destruct (Z.eqb_spec (e_t x) 0); [lia|]. cbn [orb].
      destruct (Z.ltb_spec (e_t u) (e_t x)); lia.
Qed.

(** *** Rebound *)

Lemma emitted_noop mint maxt acc :
  flat_map (emitted NoopPipeline) (filter (inRange mint maxt) (map stored acc))
  = map dropLabels (filter (fun a => (mint <=? Timestamp a) && (Timestamp a <? maxt)) acc).
Proof.
  induction acc as [|a acc IH]; cbn [map filter flat_map]; [reflexivity|].
  unfold inRange at 1. cbn [stored e_t].
  destruct ((mint <=? Timestamp a) && (Timestamp a <? maxt)); cbn [flat_map map];
    rewrite IH; reflexivity.
Qed.

Lemma appendAll_filter f itr : forall c,
  appendAll (Some f) c itr
  = appendAll None c (filter (fun e => negb (f (Timestamp e) (Line e))) itr).
Proof.
  induction itr as [|e itr IH]; intros c; cbn [appendAll filter]; [reflexivity|].
  destruct (f (Timestamp e) (Line e)); cbn [negb appendAll]; [apply IH|].
  destruct (Append c e) as [[[err|] c1] e1]; [reflexivity|apply IH].
Qed.

Lemma appendAll_reboundKeeps filter' c start end_ acc :
  appendAll filter' c
    (map dropLabels
       (filter (fun a => (start <=? Timestamp a) && (Timestamp a <? end_ + Millisecond)) acc))
  = appendAll None c (reboundKeeps start end_ filter' acc).
Proof.
  unfold reboundKeeps. destruct filter' as [f|].
  - apply appendAll_filter.
  - rewrite (filter_all (fun _ : Entry => negb false)); [reflexivity|].
    apply Forall_forall. reflexivity.
Qed.

Lemma reboundKeeps_sub start end_ filter' acc :
  subseq (map Timestamp (reboundKeeps start end_ filter' acc)) (map Timestamp acc) /\
  forall (Q : Entry -> Prop),
    (forall a, Q a -> Q (dropLabels a)) -> Forall Q acc ->
    Forall Q (reboundKeeps start end_ filter' acc).
Proof.
  unfold reboundKeeps. split.
  - eapply subseq_trans; [apply subseq_map; apply subseq_filter|].
    rewrite map_map. cbn [dropLabels Timestamp].
    apply (subseq_map Timestamp). apply subseq_filter.
  - intros Q HQ HF. eapply Forall_subseq; [apply subseq_filter|].
    apply Forall_map. eapply Forall_subseq; [apply subseq_filter|].
    eapply Forall_impl; [|exact HF]. exact HQ.
Qed.

Lemma holds_Size c G hb acc : holds c G hb acc -> Size c = len acc.
Proof.
  intros H. unfold Size. rewrite (h_head _ _ _ _ H). cbn [HeadBlock_Entries].
  unfold headBlock_Entries.
  assert (E : fold_left (fun ne blk => ne + numEntries blk) (blocks c) 0 = len (concat G)).
  { pose proof (h_blocks _ _ _ _ H) as HF. clear H.
    induction HF as [|es b G bs Hb _ IH]; [reflexivity|].
    cbn [fold_left concat]. rewrite fold_left_add, IH, len_app, (sa_count _ _ _ Hb). lia. }
  rewrite E, <- len_app, (h_all _ _ _ _ H). unfold len. rewrite length_map. reflexivity.
Qed.

(** [Rebound] on a chunk with the ordered head *)
Lemma holds_Rebound fuel c G hb acc start end_ filter' :
  holds c G hb acc ->
  headFmt c = OrderedHeadBlockFmt ->
  Forall (fun e => len (Line e) < maxLineLength) acc ->
  let keeps := reboundKeeps start end_ filter' acc in
  (keeps = [] -> Rebound (S fuel) c start end_ filter' = Err ErrSliceNoDataInRange) /\
  (keeps <> [] ->
   exists c' G',
     Rebound (S fuel) c start end_ filter' = Ok c' /\ holds c' G' headBlock_empty keeps).
Proof.
  intros H Hfmt Hshort keeps.
  destruct (Iterator_exact c G hb acc start (end_ + Millisecond) NoopPipeline true H Hshort
              (or_introl NoopPipeline_singleStream)) as [HF _].
  rewrite emitted_noop in HF.
  cbn [Rebound]. rewrite HF, Hfmt.
  change (OrderedHeadBlockFmt <? OrderedHeadBlockFmt) with false. cbv iota.
  set (nc := if 0 <? blockSize c then _ else _).
  rewrite appendAll_reboundKeeps. fold keeps.
  assert (Hnc : holds nc [] headBlock_empty []).
  { unfold nc, NewMemChunk. destruct (0 <? blockSize c); apply holds_new; reflexivity. }
  destruct (reboundKeeps_sub start end_ filter' acc) as [Hsub HQ]. fold keeps in Hsub, HQ.
  destruct (holds_appendAll keeps nc [] headBlock_empty [] Hnc)
    as (nc' & G1 & hb1 & A1 & A2 & A3).
  { apply HQ; [|apply (h_wt _ _ _ _ H)]. intros a Ha. exact Ha. }
  { apply (HQ (fun e => 0 < Timestamp e)); [|apply (h_pos _ _ _ _ H)]. intros a Ha. exact Ha. }
  { cbn [app]. eapply subseq_sorted; [exact Hsub|apply (h_sorted _ _ _ _ H)]. }
  cbn [app] in A3. rewrite A1. rewrite (holds_Size _ _ _ _ A3).
  split.
  - intros E. rewrite E. reflexivity.
  - intros Hne.
    destruct (Z.eqb_spec (len keeps) 0) as [E|_].
    + exfalso. apply Hne. apply len_zero_iff. apply Z.eqb_eq. exact E.
    + destruct (holds_cut _ _ _ _ A3) as (G' & H').
      exists (cut nc'), G'. split; [|exact H'].
      unfold CloseWith, reorderWith. rewrite (holds_blocksOrdered _ _ _ _ H'). reflexivity.
Qed.

(** *** Pipelines that derive labels *)

Lemma popBest_perm before its : forall e its',
  popBest before its = Some (e, its') -> Permutation (concat its) (e :: concat its').
Proof.
  induction its as [|[|x xs] rest IH]; cbn [popBest]; intros e its' H.
  - discriminate H.
  - destruct (popBest before rest) as [[e1 rest1]|]; [|discriminate H].
    inversion H; subst. cbn [concat app]. apply IH. reflexivity.
  - destruct (popBest before rest) as [[e1 rest1]|].
    + destruct (before (Timestamp e1) (Timestamp x));
        injection H as He Hi; subst e its'; cbn [concat].
      * apply Permutation_trans with ((x :: xs) ++ e1 :: concat rest1).
        -- apply Permutation_app_head. apply IH. reflexivity.
        -- apply Permutation_sym. apply (Permutation_middle (x :: xs) (concat rest1) e1).
      * apply Permutation_refl.
    + inversion H; subst. apply Permutation_refl.
Qed.

Lemma popBest_none before its : popBest before its = None -> concat its = [].
Proof.
  induction its as [|[|x xs] rest IH]; cbn [popBest]; intros H; [reflexivity| |].
  - destruct (popBest before rest) as [[e1 rest1]|]; [discriminate H|].
    cbn [concat app]. apply IH. reflexivity.
  - destruct (popBest before rest) as [[e1 rest1]|]; [|discriminate H].
    destruct (before (Timestamp e1) (Timestamp x)); discriminate H.
Qed.

Lemma sortMerge_perm before fuel : forall its,
  (length (concat its) <= fuel)%nat -> Permutation (sortMerge fuel before its) (concat its).
Proof.
  induction fuel as [|fuel IH]; intros its Hf; cbn [sortMerge].
  - destruct (concat its); [apply perm_nil|cbn [length] in Hf; lia].
  - destruct (popBest before its) as [[e its']|] eqn:E.
    + pose proof (popBest_perm before its e its' E) as Hp.
      apply Permutation_trans with (e :: concat its'); [|apply Permutation_sym; exact Hp].
      apply perm_skip. apply IH.
      apply Permutation_length in Hp. cbn [length] in Hp. lia.
    + rewrite (popBest_none before its E). apply perm_nil.
Qed.

Lemma addEntry_perm streams lr e :
  Permutation (flat_map Entries (addEntry streams lr e)) (flat_map Entries streams ++ [e]).
Proof.
  induction streams as [|s streams IH]; cbn [addEntry flat_map app Entries].
  - apply Permutation_refl.
  - destruct (bytes_eqb (Labels s) lr); cbn [flat_map Entries]; rewrite <- !app_assoc;
      apply Permutation_app_head; [apply Permutation_app_comm|exact IH].
Qed.

Lemma process_perm mint maxt p streams e :
  e_nonIndexedLabels e = [] ->
  Permutation (flat_map Entries (process mint maxt p streams e))
    (flat_map Entries streams ++ flat_map (emitted p) (filter (inRange mint maxt) [e])).
Proof.
  intros He. unfold process, inRange. cbn [filter].
  destruct (Z.ltb_spec (e_t e) mint), (Z.leb_spec mint (e_t e)); try lia;
    destruct (Z.leb_spec maxt (e_t e)), (Z.ltb_spec (e_t e) maxt); try lia;
    cbn [orb andb flat_map app]; rewrite ?app_nil_r; try apply Permutation_refl.
  unfold emitted. rewrite He.
  destruct (p (e_t e) (e_s e) []) as [[newLine lr]|];
    [|rewrite app_nil_r; apply Permutation_refl].
  unfold toEntry. rewrite He. apply addEntry_perm.
Qed.

Lemma fold_process_perm mint maxt p l :
  Forall (fun e => e_nonIndexedLabels e = []) l ->
  forall streams,
    Permutation (flat_map Entries (fold_left (process mint maxt p) l streams))
      (flat_map Entries streams ++ flat_map (emitted p) (filter (inRange mint maxt) l)).
Proof.
  induction 1 as [|e l He _ IH]; intros streams; cbn [fold_left].
  - cbn [filter flat_map]. rewrite app_nil_r. apply Permutation_refl.
  - eapply Permutation_trans; [apply IH|].
    change (e :: l) with ([e] ++ l). rewrite filter_app, flat_map_app, app_assoc.
    apply Permutation_app_tail. apply process_perm. exact He.
Qed.

Lemma insertByRank_perm rank s l : Permutation (insertByRank rank s l) (s :: l).
Proof.
  induction l as [|x l IH]; cbn [insertByRank]; [apply Permutation_refl|].
  destruct (rank (Labels s) <? rank (Labels x)); [apply Permutation_refl|].
  apply Permutation_trans with (x :: s :: l); [apply perm_skip; exact IH|apply perm_swap].
Qed.

Lemma rangeStreams_perm rank streams : Permutation (rangeStreams rank streams) streams.
Proof.
  unfold rangeStreams.
  assert (G : forall acc,
             Permutation (fold_left (fun acc s => insertByRank rank s acc) streams acc)
               (acc ++ streams)).
  { induction streams as [|s streams IH]; intros acc; cbn [fold_left].
    - rewrite app_nil_r. apply Permutation_refl.
    - eapply Permutation_trans; [apply IH|].
      apply Permutation_trans with ((s :: acc) ++ streams).
      + apply Permutation_app_tail. apply insertByRank_perm.
      + apply (Permutation_middle acc streams s). }
  apply (G []).
Qed.

(** the streams iterator emits the entries of the streams, each once *)
Lemma streamsIterator_perm rank streams d :
  Permutation (streamsIterator rank streams d) (flat_map Entries streams).
Proof.
  unfold streamsIterator. destruct (len streams =? 0) eqn:E.
  - apply len_zero_iff in E. rewrite E. apply perm_nil.
  - unfold NewStreamsIterator, NewSortEntryIterator.
    eapply Permutation_trans; [apply sortMerge_perm; apply le_n|].
    rewrite <- flat_map_concat_map. apply Permutation_flat_map. apply rangeStreams_perm.
Qed.

(** the forward iterator of the ordered head, under any pipeline *)
Lemma headBlock_Iterator_perm rank hb mint maxt p :
  Forall (fun e => e_nonIndexedLabels e = []) (entries hb) ->
  StronglySorted Z.le (map e_t (entries hb)) ->
  hb_mint hb = firstT (entries hb) -> hb_maxt hb = lastT (entries hb) ->
  Permutation (headBlock_Iterator rank hb FORWARD mint maxt p)
    (flat_map (emitted p) (filter (inRange mint maxt) (entries hb))).
Proof.
  intros Hl Hs Hmin Hmax. unfold headBlock_Iterator.
  destruct (headBlock_IsEmpty hb) eqn:He; cbn [orb].
  - unfold headBlock_IsEmpty in He. apply len_zero_iff in He. rewrite He. apply perm_nil.
  - destruct ((maxt <? hb_mint hb) || (hb_maxt hb <? mint)) eqn:Hskip.
    + rewrite filter_none; [apply perm_nil|].
      apply Forall_forall. intros e Hin.
      pose proof (sorted_first_le_last _ Hs e Hin) as Hb. rewrite <- Hmin, <- Hmax in Hb.
      unfold inRange. apply andb_false_iff. apply orb_true_iff in Hskip.
      destruct Hskip as [Hk|Hk]; apply Z.ltb_lt in Hk.
      * right. apply Z.ltb_ge. lia.
      * left. apply Z.leb_gt. lia.
    + eapply Permutation_trans; [apply streamsIterator_perm|].
      apply (fold_process_perm mint maxt p (entries hb) Hl []).
Qed.

Lemma takeWhile_all {A} (f : A -> bool) l :
  Forall (fun x => f x = true) l -> takeWhile f l = l.
Proof.
  induction 1 as [|x l Hx _ IH]; cbn [takeWhile]; [reflexivity|]. rewrite Hx, IH. reflexivity.
Qed.

Lemma takeWhile_app_cases {A} (f : A -> bool) l1 l2 :
  takeWhile f (l1 ++ l2)
  = if forallb f l1 then l1 ++ takeWhile f l2 else takeWhile f l1.
Proof.
  induction l1 as [|x l1 IH]; cbn [app takeWhile forallb]; [reflexivity|].
  destruct (f x); cbn [andb]; [|reflexivity]. rewrite IH.
  destruct (forallb f l1); reflexivity.
Qed.

(** the time-ranged iterator over entries followed by entries in the range *)
Lemma timeRanged_tail B H mint maxt :
  Forall (fun x => (mint <=? Timestamp x) = true /\ (Timestamp x <? maxt) = true) H ->
  NewTimeRangedIterator (B ++ H) mint maxt
  = if forallb (fun e => Timestamp e <? maxt) (filter (fun e => mint <=? Timestamp e) B)
    then NewTimeRangedIterator B mint maxt ++ H
    else NewTimeRangedIterator B mint maxt.
Proof.
  intros HH. unfold NewTimeRangedIterator. rewrite filter_app.
  rewrite (filter_all (fun e => mint <=? Timestamp e) H).
  2:{ eapply Forall_impl; [|exact HH]. intros x [Hx _]. exact Hx. }
  rewrite takeWhile_app_cases.
  destruct (forallb _ _) eqn:E; [|reflexivity].
  rewrite (takeWhile_all _ H).
  2:{ eapply Forall_impl; [|exact HH]. intros x [_ Hx]. exact Hx. }
  f_equal. symmetry. apply takeWhile_all. apply Forall_forall.
  intros x Hx. rewrite forallb_forall in E. apply E. exact Hx.
Qed.

Lemma emitted_inRange p mint maxt l :
  Forall (fun x => (mint <=? Timestamp x) = true /\ (Timestamp x <? maxt) = true)
    (flat_map (emitted p) (filter (inRange mint maxt) l)).
Proof.
  apply Forall_forall. intros x Hx. apply flat_map_emitted_ts in Hx.
  destruct Hx as (e & He & ->). apply filter_In in He. destruct He as [_ He].
  unfold inRange in He. apply andb_true_iff in He. exact He.
Qed.

(** a forward iteration over an ordered chunk: the entries of the blocks
    it selects, then what the head iterator emits, time-ranged *)
Lemma Iterator_forward_shape c G hb acc mint maxt p keep :
  holds c G hb acc ->
  Forall (fun e => len (Line e) < maxLineLength) acc ->
  exists B : list entry,
    Iterator c mint maxt FORWARD p keep
    = Ok (NewTimeRangedIterator
            (flat_map (emitted p) B ++ headBlock_Iterator streamRank hb FORWARD mint maxt p)
            mint maxt) /\
    StronglySorted Z.le (map e_t (B ++ filter (inRange mint maxt) (entries hb))) /\
    filter (inRange mint maxt) (map stored acc)
    = filter (inRange mint maxt) B ++ filter (inRange mint maxt) (entries hb).
Proof.
  intros H Hshort.
  pose proof (h_all _ _ _ _ H) as Hall.
  assert (Hso : StronglySorted Z.le (map e_t (concat G ++ entries hb))).
  { rewrite Hall, map_stored_ts. apply (h_sorted _ _ _ _ H). }
  pose proof Hso as Hso'. rewrite map_app in Hso'. apply sorted_app_inv in Hso'.
  destruct Hso' as [HsoG HsoH].
  assert (Hwt : Forall wt_entry (concat G ++ entries hb)).
  { rewrite Hall. apply stored_wt. apply (h_wt _ _ _ _ H). }
  assert (Hsh : Forall (fun e => len (e_s e) < maxLineLength) (concat G ++ entries hb)).
  { rewrite Hall. apply Forall_map. exact Hshort. }
  assert (Hpos : forall e, In e (concat G ++ entries hb) -> 0 < e_t e).
  { rewrite Hall. intros e He. apply in_map_iff in He. destruct He as (a & <- & Ha).
    pose proof (h_pos _ _ _ _ H) as Fp. rewrite Forall_forall in Fp. apply (Fp a Ha). }
  apply Forall_app in Hwt, Hsh.
  destruct Hwt as [HwtG _]. destruct Hsh as [HshG _].
  destruct (selectBlocks_exact (encoding c) mint maxt G (blocks c) (h_blocks _ _ _ _ H) HsoG 0 true)
    as (Gsel & S1 & S2 & S2' & S3 & S4 & S5).
  { intros e He. assert (0 < e_t e) by (apply Hpos; apply in_or_app; left; exact He). lia. }
  exists (concat Gsel). unfold Iterator.
  destruct (selectBlocks mint maxt (blocks c) 0 true) as [[sel lastMax] ordered].
  cbn [fst snd] in S1, S4, S5. subst ordered.
  rewrite (collect_exact (encoding c) (format c) (c_symbolizer c) p keep Gsel sel
             (h_format _ _ _ _ H) S1 (Forall_subseq _ _ _ S2 HwtG) (Forall_subseq _ _ _ S2 HshG)).
  rewrite (h_head _ _ _ _ H).
  cbn [HeadBlock_IsEmpty HeadBlock_Iterator HeadBlock_Bounds headBlock_Bounds fst].
  assert (Hord : (if negb (headBlock_IsEmpty hb)
                  then true && negb (hb_mint hb <? lastMax) else true) = true).
  { destruct (headBlock_IsEmpty hb) eqn:He; cbn [negb]; [reflexivity|].
    cbn [andb]. apply negb_true_iff. apply Z.ltb_ge.
    assert (Hne : entries hb <> []).
    { intros E. unfold headBlock_IsEmpty in He. rewrite E in He. discriminate. }
    destruct (firstT_In _ Hne) as (x & Hx & Ex). rewrite (h_mint _ _ _ _ H), Ex.
    apply S5.
    - assert (0 < e_t x) by (apply Hpos; apply in_or_app; right; exact Hx). lia.
    - intros e He'. cbn [map] in Hso. rewrite map_app in Hso.
      apply in_split in Hx. destruct Hx as (l1 & l2 & El). rewrite El in Hso.
      apply in_split in He'. destruct He' as (g1 & g2 & Eg). rewrite Eg in Hso.
      rewrite !map_app in Hso. cbn [map] in Hso. rewrite <- app_assoc in Hso.
      apply sorted_app_inv in Hso. destruct Hso as [_ Hso]. cbn [app] in Hso.
      inversion Hso as [|? ? _ Hle]; subst. rewrite Forall_forall in Hle. apply Hle.
      apply in_or_app. right. apply in_or_app. right. left. reflexivity. }
  rewrite Hord. split; [|split].
  - f_equal. unfold NewNonOverlappingIterator. f_equal.
    rewrite concat_app, flat_map_concat. f_equal.
    destruct (headBlock_IsEmpty hb) eqn:He; cbn [negb concat]; [|apply app_nil_r].
    unfold headBlock_Iterator. rewrite He. reflexivity.
  - rewrite map_app. eapply subseq_sorted; [|exact Hso]. rewrite map_app.
    apply subseq_app; apply subseq_map; [exact S2|apply subseq_filter].
  - rewrite <- Hall, filter_app, S3. reflexivity.
Qed.

(** what a forward iteration emits under any pipeline: the same entries as
    under a pipeline with one stream, each once *)
Lemma Iterator_perm c G hb acc mint maxt p keep :
  holds c G hb acc ->
  Forall (fun e => len (Line e) < maxLineLength) acc ->
  exists l,
    Iterator c mint maxt FORWARD p keep = Ok l /\
    Permutation l (flat_map (emitted p) (filter (inRange mint maxt) (map stored acc))).
Proof.
  intros H Hshort.
  destruct (Iterator_forward_shape c G hb acc mint maxt p keep H Hshort)
    as (B & HI & Hso & Hres).
  eexists. split; [exact HI|].
  assert (HlabH : Forall (fun e => e_nonIndexedLabels e = []) (entries hb)).
  { assert (Hlab : Forall (fun e => e_nonIndexedLabels e = []) (concat G ++ entries hb)).
    { rewrite (h_all _ _ _ _ H). apply Forall_map. apply Forall_forall. reflexivity. }
    apply Forall_app in Hlab. apply Hlab. }
  assert (HsoH : StronglySorted Z.le (map e_t (entries hb))).
  { pose proof (h_sorted _ _ _ _ H) as Hs. rewrite <- map_stored_ts, <- (h_all _ _ _ _ H) in Hs.
    rewrite map_app in Hs. apply sorted_app_inv in Hs. apply Hs. }
  pose proof (headBlock_Iterator_perm streamRank hb mint maxt p HlabH HsoH
                (h_mint _ _ _ _ H) (h_maxt _ _ _ _ H)) as Hp.
  set (Hd := headBlock_Iterator streamRank hb FORWARD mint maxt p) in *.
  set (Hx := flat_map (emitted p) (filter (inRange mint maxt) (entries hb))) in *.
  assert (HinX : Forall (fun x => (mint <=? Timestamp x) = true /\ (Timestamp x <? maxt) = true) Hx).
  { apply emitted_inRange. }
  assert (HinD : Forall (fun x => (mint <=? Timestamp x) = true /\ (Timestamp x <? maxt) = true) Hd).
  { rewrite Forall_forall in *. intros x Hin. apply HinX.
    eapply Permutation_in; [exact Hp|exact Hin]. }
  assert (Hexact : NewTimeRangedIterator (flat_map (emitted p) B ++ Hx) mint maxt
                   = flat_map (emitted p) (filter (inRange mint maxt) (map stored acc))).
  { unfold Hx. rewrite <- flat_map_app, timeRanged_emitted by exact Hso.
    rewrite Hres, filter_app. f_equal. f_equal.
    apply filter_all. apply Forall_forall. intros e He. apply filter_In in He. apply He. }
  rewrite <- Hexact. rewrite (timeRanged_tail _ Hd mint maxt HinD).
  rewrite (timeRanged_tail _ Hx mint maxt HinX).
  destruct (forallb _ _); [apply Permutation_app_head; exact Hp|apply Permutation_refl].
Qed.

Lemma cut_headFmt c : headFmt (cut c) = headFmt c.
Proof.
  unfold cut. destruct (HeadBlock_IsEmpty (head c)); [reflexivity|].
  destruct (HeadBlock_Bounds (head c)). reflexivity.
Qed.

Lemma Append_headFmt c e : headFmt (snd (fst (Append c e))) = headFmt c.
Proof.
  unfold Append.
  destruct (_ && _ && _ && _); [reflexivity|].
  destruct (HeadBlock_Append _ _ _ _ _) as [[[err|] h'] sy']; [reflexivity|].
  destruct (_ <=? _); cbn [fst snd]; [rewrite cut_headFmt|]; reflexivity.
Qed.

Lemma appendRun_headFmt es : forall c, headFmt (fst (appendRun c es)) = headFmt c.
Proof.
  induction es as [|e es IH]; intros c; cbn [appendRun]; [reflexivity|].
  pose proof (Append_headFmt c e) as Hc.
  destruct (Append c e) as [[[err|] c1] e1]; cbn [fst snd] in Hc.
  - rewrite IH. exact Hc.
  - specialize (IH c1). destruct (appendRun c1 es) as [c2 acc]. cbn [fst] in *. congruence.
Qed.

End Contents.

Section OrderedChunks.
Context {P : Pools}.
Hypothesis decompress_compress :
  forall (enc : Encoding) (b : bytes), decompress enc (compress enc b) = Some b.
Hypothesis compress_nonempty :
  forall (enc : Encoding) (b : bytes), b <> [] -> compress enc b <> [].

(** X1, contents of a forward iteration.  Entries with positive timestamps
    and lines below the line limit are appended to a chunk made by
    [NewMemChunk] with the ordered head.  Under a pipeline that gives every
    entry the same labels, so that the head iterator makes one stream, a
    forward iteration over [mint, maxt) emits, in append order, what the
    pipeline makes of each accepted entry whose timestamp is in the range,
    without its structured labels; and when the timestamps of the input
    never decrease every entry is accepted. *)
Theorem forward_iteration_contents :
  forall (enc : Encoding) (bs ts : Z) (es : list Entry) (mint maxt : Z)
         (p : Pipeline) (keep : bool),
    Forall wt_Entry es ->
    Forall (fun e => 0 < Timestamp e) es ->
    Forall (fun e => len (Line e) < maxLineLength) es ->
    singleStream p ->
    let run := appendRun (NewMemChunk enc OrderedHeadBlockFmt bs ts) es in
    Iterator (fst run) mint maxt FORWARD p keep
    = Ok (flat_map (emitted p) (filter (inRange mint maxt) (map stored (snd run)))) /\
    (StronglySorted Z.le (map Timestamp es) -> snd run = es).
Proof.
  intros enc bs ts es mint maxt p keep Hwt Hpos Hshort Hp run.
  assert (Hnew : holds (NewMemChunk enc OrderedHeadBlockFmt bs ts) [] headBlock_empty []).
  { apply holds_new. reflexivity. }
  split.
  - destruct (holds_run es _ _ _ _ Hnew Hwt Hpos) as (G & hb & H). cbn [app] in H.
    apply (Iterator_exact decompress_compress compress_nonempty _ G hb);
      [exact H| |left; exact Hp].
    apply appendRun_accepted. exact Hshort.
  - intros Hs.
    destruct (holds_appendAll es _ _ _ _ Hnew Hwt Hpos Hs) as (c' & G & hb & _ & A & _).
    unfold run. rewrite A. reflexivity.
Qed.

(** X18, pipelines that derive labels.  On the same chunks, under any
    pipeline, a forward iteration over [mint, maxt) returns; it emits what
    the pipeline makes of each accepted entry whose timestamp is in the
    range, each once, and the timestamps never decrease.  The order among
    entries that share a timestamp is left to the streams of the head
    iterator. *)
Theorem forward_iteration_any_pipeline :
  forall (enc : Encoding) (bs ts : Z) (es : list Entry) (mint maxt : Z)
         (p : Pipeline) (keep : bool),
    Forall wt_Entry es ->
    Forall (fun e => 0 < Timestamp e) es ->
    Forall (fun e => len (Line e) < maxLineLength) es ->
    let run := appendRun (NewMemChunk enc OrderedHeadBlockFmt bs ts) es in
    exists l,
      Iterator (fst run) mint maxt FORWARD p keep = Ok l /\
      Permutation l
        (flat_map (emitted p) (filter (inRange mint maxt) (map stored (snd run)))) /\
      Sorted Z.le (map Timestamp l).
Proof.
  intros enc bs ts es mint maxt p keep Hwt Hpos Hshort run.
  assert (Hnew : holds (NewMemChunk enc OrderedHeadBlockFmt bs ts) [] headBlock_empty []).
  { apply holds_new. reflexivity. }
  destruct (holds_run es _ _ _ _ Hnew Hwt Hpos) as (G & hb & H). cbn [app] in H.
  destruct (Iterator_perm decompress_compress compress_nonempty _ G hb _ mint maxt p keep H)
    as (l & Hl & Hp).
  { apply appendRun_accepted. exact Hshort. }
  exists l. split; [exact Hl|]. split; [exact Hp|].
  destruct (orderedChunk_run es _ _ _
              (orderedChunk_new DefaultChunkFormat enc bs ts eq_refl) Hwt)
    as (G' & hb' & Hinv).
  destruct (Iterator_sorted decompress_compress _ G' hb' mint maxt p keep Hinv)
    as (l' & Hl' & Hs).
  unfold run, NewMemChunk in Hl. rewrite Hl in Hl'. injection Hl' as <-.
  apply StronglySorted_Sorted. exact Hs.
Qed.

(** X2, backward iteration.  On the same chunks, under a pipeline that
    gives every entry the same labels, a backward iteration over a range
    emits the entries of the forward iteration over that range in reverse
    order. *)
Theorem backward_iteration_reverses_forward :
  forall (enc : Encoding) (bs ts : Z) (es : list Entry) (mint maxt : Z)
         (p : Pipeline) (keep : bool),
    Forall wt_Entry es ->
    Forall (fun e => 0 < Timestamp e) es ->
    Forall (fun e => len (Line e) < maxLineLength) es ->
    singleStream p ->
    let c := fst (appendRun (NewMemChunk enc OrderedHeadBlockFmt bs ts) es) in
    exists l,
      Iterator c mint maxt FORWARD p keep = Ok l /\
      Iterator c mint maxt BACKWARD p keep = Ok (rev l).
Proof.
  intros enc bs ts es mint maxt p keep Hwt Hpos Hshort Hp c.
  assert (Hnew : holds (NewMemChunk enc OrderedHeadBlockFmt bs ts) [] headBlock_empty []).
  { apply holds_new. reflexivity. }
  destruct (holds_run es _ _ _ _ Hnew Hwt Hpos) as (G & hb & H). cbn [app] in H.
  destruct (Iterator_exact decompress_compress compress_nonempty c G hb _ mint maxt p keep H)
    as [HF HB].
  { apply appendRun_accepted. exact Hshort. }
  { left. exact Hp. }
  eexists. split; [exact HF|exact HB].
Qed.

(** X5, closing.  On the same chunks [Close] only cuts the head, whatever
    the depth allowed for re-ordering: the chunk it leaves has an empty
    head, the same number of entries, and under every pipeline that gives
    every entry the same labels it emits the same entries as before, in
    both directions. *)
Theorem Close_keeps_entries :
  forall (enc : Encoding) (bs ts : Z) (es : list Entry) (fuel : nat),
    Forall wt_Entry es ->
    Forall (fun e => 0 < Timestamp e) es ->
    Forall (fun e => len (Line e) < maxLineLength) es ->
    let c := fst (appendRun (NewMemChunk enc OrderedHeadBlockFmt bs ts) es) in
    exists c',
      Close fuel c = Ok c' /\
      HeadBlock_IsEmpty (head c') = true /\
      Size c' = Size c /\
      forall mint maxt d p keep,
        singleStream p ->
        Iterator c' mint maxt d p keep = Iterator c mint maxt d p keep.
Proof.
  intros enc bs ts es fuel Hwt Hpos Hshort c.
  assert (Hnew : holds (NewMemChunk enc OrderedHeadBlockFmt bs ts) [] headBlock_empty []).
  { apply holds_new. reflexivity. }
  destruct (holds_run es _ _ _ _ Hnew Hwt Hpos) as (G & hb & H). cbn [app] in H.
  fold c in H. destruct (holds_cut c G hb _ H) as (G' & H').
  exists (cut c). split; [apply (holds_Close fuel c G hb _ H)|].
  split; [rewrite (h_head _ _ _ _ H'); reflexivity|].
  split; [apply Size_cut|].
  intros mint maxt d p keep Hp.
  assert (Hs : Forall (fun e => len (Line e) < maxLineLength)
                 (snd (appendRun (NewMemChunk enc OrderedHeadBlockFmt bs ts) es))).
  { apply appendRun_accepted. exact Hshort. }
  destruct (Iterator_exact decompress_compress compress_nonempty c G hb _ mint maxt p keep H Hs
              (or_introl Hp)) as [HF HB].
  destruct (Iterator_exact decompress_compress compress_nonempty (cut c) G' headBlock_empty _
              mint maxt p keep H' Hs (or_introl Hp)) as [HF' HB'].
  destruct d; congruence.
Qed.

(** X6, what [Rebound] keeps.  On the same chunks [Rebound] from [start] to
    [end_] keeps the accepted entries with [start <= t < end_ + 1ms] that
    the filter does not match.  With none left it fails with
    [ErrSliceNoDataInRange]; otherwise the chunk it returns holds exactly
    these entries, in order. *)
Theorem Rebound_keeps_range :
  forall (enc : Encoding) (bs ts : Z) (es : list Entry) (fuel : nat)
         (start end_ : Z) (filter' : option Filter),
    Forall wt_Entry es ->
    Forall (fun e => 0 < Timestamp e) es ->
    Forall (fun e => len (Line e) < maxLineLength) es ->
    let run := appendRun (NewMemChunk enc OrderedHeadBlockFmt bs ts) es in
    let keeps := reboundKeeps start end_ filter' (snd run) in
    (keeps = [] ->
     Rebound (S fuel) (fst run) start end_ filter' = Err ErrSliceNoDataInRange) /\
    (keeps <> [] ->
     exists c',
       Rebound (S fuel) (fst run) start end_ filter' = Ok c' /\
       Size c' = len keeps /\
       forall mint maxt p keep,
         Iterator c' mint maxt FORWARD p keep
         = Ok (flat_map (emitted p) (filter (inRange mint maxt) (map stored keeps)))).
Proof.
  intros enc bs ts es fuel start end_ filter' Hwt Hpos Hshort run keeps.
  assert (Hnew : holds (NewMemChunk enc OrderedHeadBlockFmt bs ts) [] headBlock_empty []).
  { apply holds_new. reflexivity. }
  destruct (holds_run es _ _ _ _ Hnew Hwt Hpos) as (G & hb & H). cbn [app] in H.
  assert (Hs : Forall (fun e => len (Line e) < maxLineLength) (snd run)).
  { apply appendRun_accepted. exact Hshort. }
  assert (Hfmt : headFmt (fst run) = OrderedHeadBlockFmt).
  { unfold run. rewrite appendRun_headFmt. reflexivity. }
  destruct (holds_Rebound decompress_compress compress_nonempty fuel (fst run) G hb _
              start end_ filter' H Hfmt Hs) as [R1 R2].
  split; [exact R1|].
  intros Hne. destruct (R2 Hne) as (c' & G' & Hr & H').
  exists c'. split; [exact Hr|]. split; [apply (holds_Size _ _ _ _ H')|].
  intros mint maxt p keep.
  apply (Iterator_exact decompress_compress compress_nonempty c' G' headBlock_empty).
  - exact H'.
  - destruct (reboundKeeps_sub start end_ filter' (snd run)) as [_ HQ].
    apply HQ; [|exact Hs]. intros a Ha. exact Ha.
  - right. reflexivity.
Qed.

(** X4, bounds.  On the same chunks [Bounds] is the timestamp of the first
    accepted entry and the timestamp of the last one, and (0, 0) when no
    entry was accepted. *)
Theorem Bounds_of_appended :
  forall (enc : Encoding) (bs ts : Z) (es : list Entry),
    Forall wt_Entry es ->
    Forall (fun e => 0 < Timestamp e) es ->
    let run := appendRun (NewMemChunk enc OrderedHeadBlockFmt bs ts) es in
    Bounds (fst run) = (firstT (map stored (snd run)), lastT (map stored (snd run))).
Proof.
  intros enc bs ts es Hwt Hpos run.
  assert (Hnew : holds (NewMemChunk enc OrderedHeadBlockFmt bs ts) [] headBlock_empty []).
  { apply holds_new. reflexivity. }
  destruct (holds_run es _ _ _ _ Hnew Hwt Hpos) as (G & hb & H). cbn [app] in H.
  apply (holds_Bounds _ G hb). exact H.
Qed.

(** X3, counters.  On a chunk of any version with the ordered head, after
    any run of appends, [Size] is the number of accepted entries and
    [UncompressedSize] the total length of their lines. *)
Theorem counters_of_appended :
  forall (fmt : Z) (enc : Encoding) (bs ts : Z) (es : list Entry),
    let run := appendRun (newMemChunkWithFormat fmt enc OrderedHeadBlockFmt bs ts) es in
    Size (fst run) = len (snd run) /\
    UncompressedSize (fst run) = lineTotal (snd run).
Proof.
  intros fmt enc bs ts es run.
  destruct (appendRun_counts es (newMemChunkWithFormat fmt enc OrderedHeadBlockFmt bs ts)
              headBlock_empty eq_refl) as [S1 S2]; [reflexivity|].
  fold run in S1, S2. rewrite S1, S2. split.
  - reflexivity.
  - unfold UncompressedSize. cbn. destruct (chunkFormatV4 <=? fmt); reflexivity.
Qed.

End OrderedChunks.

(** ** Payloads the decoder stops on *)

(** ** The decoder of a block on well-formed and on damaged payloads *)

Lemma drain_prefix fmt sy tail es : forall st,
  fmt < chunkFormatV4 ->
  Forall wt_entry es ->
  Forall (fun e => len (e_s e) < maxLineLength) es ->
  readBuf st ++ rd st = flat_map encodeEntry es ++ tail ->
  len (readBuf st) <= 20 ->
  exists st',
    readBuf st' ++ rd st' = tail /\ len (readBuf st') <= 20 /\
    forall k, drain (length es + k) fmt sy st
              = match drain k fmt sy st' with
                | Ok (l, err) => Ok (map asDecoded es ++ l, err)
                | r => r
                end.
Proof.
  induction es as [|e es IH]; intros st Hfmt Hwt Hshort Hs Hb.
  - exists st. split; [exact Hs|]. split; [exact Hb|]. intros k. cbn [length Nat.add map app].
    destruct (drain k fmt sy st) as [[l err]| | |]; reflexivity.
  - inversion Hwt as [|? ? [Ht Hl] Hwt']; subst. inversion Hshort as [|? ? Hse Hshort']; subst.
    cbn [flat_map] in Hs. rewrite <- app_assoc in Hs.
    destruct (moveNext_entry fmt sy st e (flat_map encodeEntry es ++ tail) Hfmt Ht Hl Hs Hb)
      as [_ Hok].
    destruct (Hok Hse) as (st1 & Hm & Hs1 & Hb1).
    destruct (IH st1 Hfmt Hwt' Hshort' Hs1 Hb1) as (st' & A & B & C).
    exists st'. split; [exact A|]. split; [exact B|]. intros k.
    cbn [length Nat.add drain]. rewrite Hm, C.
    destruct (drain k fmt sy st') as [[l err]| | |]; reflexivity.
Qed.

(** a block whose stream is well-formed entries followed by [tail], when
    the decoder stops on [tail] *)
Lemma blockEntries_prefix {P : Pools} enc fmt sy b es tail err :
  fmt < chunkFormatV4 ->
  Forall wt_entry es ->
  Forall (fun e => len (e_s e) < maxLineLength) es ->
  decompress enc b = Some (flat_map encodeEntry es ++ tail) ->
  (forall st, readBuf st ++ rd st = tail -> len (readBuf st) <= 20 ->
              moveNext loopFuel fmt sy st = LoopStop err) ->
  blockEntries enc fmt sy b = Ok (map asDecoded es, err).
Proof.
  intros Hfmt Hwt Hshort Hd Htail. unfold blockEntries. rewrite Hd.
  set (stream := flat_map encodeEntry es ++ tail).
  destruct (drain_prefix fmt sy tail es {| rd := stream; readBuf := [] |} Hfmt Hwt Hshort)
    as (st' & A & B & C); [reflexivity|unfold len; simpl; lia|].
  assert (Hlen : (length es <= length stream)%nat).
  { unfold stream. rewrite length_app. pose proof (flat_map_encode_length es). lia. }
  unfold drainFuel.
  replace (S (S (length stream))) with (length es + S (S (length stream - length es)))%nat by lia.
  rewrite C. cbn [drain]. rewrite (Htail st' A B). rewrite app_nil_r. reflexivity.
Qed.

(** the same when the decoder panics on [tail] *)
Lemma blockEntries_prefix_panic {P : Pools} enc fmt sy b es tail :
  fmt < chunkFormatV4 ->
  Forall wt_entry es ->
  Forall (fun e => len (e_s e) < maxLineLength) es ->
  decompress enc b = Some (flat_map encodeEntry es ++ tail) ->
  (forall st, readBuf st ++ rd st = tail -> len (readBuf st) <= 20 ->
              moveNext loopFuel fmt sy st = LoopPanic) ->
  blockEntries enc fmt sy b = Panic.
Proof.
  intros Hfmt Hwt Hshort Hd Htail. unfold blockEntries. rewrite Hd.
  set (stream := flat_map encodeEntry es ++ tail).
  destruct (drain_prefix fmt sy tail es {| rd := stream; readBuf := [] |} Hfmt Hwt Hshort)
    as (st' & A & B & C); [reflexivity|unfold len; simpl; lia|].
  assert (Hlen : (length es <= length stream)%nat).
  { unfold stream. rewrite length_app. pose proof (flat_map_encode_length es). lia. }
  unfold drainFuel.
  replace (S (S (length stream))) with (length es + S (S (length stream - length es)))%nat by lia.
  rewrite C. cbn [drain]. rewrite (Htail st' A B). reflexivity.
Qed.

Lemma moveNext_empty fmt sy st :
  readBuf st ++ rd st = [] -> moveNext loopFuel fmt sy st = LoopStop None.
Proof.
  intros H. apply app_eq_nil_both in H. destruct H as [H1 H2].
  destruct st as [r b]. cbn in H1, H2. subst. apply moveNext_end.
Qed.

Lemma moveNext_too_long fmt sy st ts n rest :
  in_int64 ts -> maxLineLength <= n < 2 ^ 63 ->
  readBuf st ++ rd st = Binary.PutVarint ts ++ Binary.PutUvarint n ++ rest ->
  len (readBuf st) <= 20 ->
  moveNext loopFuel fmt sy st = LoopStop (Some (ErrLineTooLong n)).
Proof.
  intros Ht Hn Hs Hb.
  pose proof (PutVarint_len ts) as Hw1. pose proof (PutUvarint_len n) as Hw2.
  unfold moveNext, loopFuel.
  rewrite (readTwo_ok Binary.Varint (Binary.PutVarint ts) (Binary.PutUvarint n) ts (uint64 n) rest);
    try assumption.
  - assert (Hmax : 0 <= maxLineLength) by (unfold maxLineLength; lia).
    rewrite uint64_small by lia. rewrite int_small by (unfold in_int64; lia).
    cbv zeta. destruct (Z.leb_spec maxLineLength n); [reflexivity|lia].
  - intros x. apply Varint_PutVarint. exact Ht.
  - intros x. apply Uvarint_PutUvarint.
Qed.

Lemma moveNext_negative_length fmt sy st ts n rest :
  in_int64 ts -> 2 ^ 63 <= n < 2 ^ 64 ->
  readBuf st ++ rd st = Binary.PutVarint ts ++ Binary.PutUvarint n ++ rest ->
  len (readBuf st) <= 20 ->
  moveNext loopFuel fmt sy st = LoopPanic.
Proof.
  intros Ht Hn Hs Hb.
  pose proof (PutVarint_len ts) as Hw1. pose proof (PutUvarint_len n) as Hw2.
  unfold moveNext, loopFuel.
  rewrite (readTwo_ok Binary.Varint (Binary.PutVarint ts) (Binary.PutUvarint n) ts (uint64 n) rest);
    try assumption.
  - rewrite uint64_small by lia.
    assert (Hi : int n = n - 2 ^ 64).
    { unfold int, int64. rewrite Z.mod_small by lia. cbv zeta.
      destruct (Z.ltb_spec n (2 ^ 63)); [lia|reflexivity]. }
    rewrite Hi. cbv zeta.
    assert (Hmax : 0 <= maxLineLength) by (unfold maxLineLength; lia).
    destruct (Z.leb_spec maxLineLength (n - 2 ^ 64)); [lia|].
    destruct (Z.ltb_spec (n - 2 ^ 64) 0); [reflexivity|lia].
  - intros x. apply Varint_PutVarint. exact Ht.
  - intros x. apply Uvarint_PutUvarint.
Qed.

Lemma uvarintLoop_incomplete (buf : bytes) : forall i x s,
  Forall (fun b => 128 <= b) buf -> 0 <= i -> i + len buf <= 10 ->
  Binary.uvarintLoop buf i x s = (0, 0).
Proof.
  induction buf as [|b buf IH]; intros i x s HF Hi Hl; [reflexivity|].
  inversion HF as [|? ? Hb HF']; subst. rewrite len_cons in Hl.
  pose proof (len_nonneg buf).
  cbn [Binary.uvarintLoop]. unfold Binary.MaxVarintLen64.
  destruct (Z.eqb_spec i 10); [lia|]. destruct (Z.ltb_spec b 128); [lia|].
  apply IH; [exact HF'|lia|lia].
Qed.

Lemma moveNext_incomplete fmt sy st (tail : bytes) :
  Forall (fun b => 128 <= b) tail -> 1 <= len tail <= 10 ->
  readBuf st ++ rd st = tail ->
  moveNext loopFuel fmt sy st = LoopStop (Some ErrInvalidData).
Proof.
  intros HF Hl Hs.
  assert (Hu : Binary.Uvarint tail = (0, 0)).
  { unfold Binary.Uvarint. apply uvarintLoop_incomplete; [exact HF|lia|lia]. }
  assert (Hv : Binary.Varint tail = (0, 0)).
  { unfold Binary.Varint. rewrite Hu. reflexivity. }
  assert (Hlb : len (readBuf st) + len (rd st) = len tail) by (rewrite <- Hs, len_app; lia).
  pose proof (len_nonneg (readBuf st)). pose proof (len_nonneg (rd st)).
  unfold moveNext, loopFuel. cbn [readTwo]. unfold readBufLen.
  rewrite Read_eq by lia.
  rewrite (firstn_all2 (rd st)) by (unfold len in *; lia).
  rewrite (skipn_all2 (rd st)) by (unfold len in *; lia).
  rewrite Hs.
  destruct (Z.eqb_spec (len tail) 0) as [E0|E0]; [lia|].
  rewrite !andb_false_r. rewrite Hv.
  rewrite slice_tail by lia. cbn [Z.to_nat skipn]. rewrite Hu. cbn [Z.eqb].
  cbn [rd readBuf]. rewrite Read_eq by lia. rewrite firstn_nil, app_nil_r.
  destruct (Z.eqb_spec (20 - len tail) 0) as [E1|E1]; [lia|].
  cbn [negb andb]. rewrite Z.eqb_refl.
  destruct (Z.eqb_spec (len tail) 0) as [E2|E2]; [lia|].
  reflexivity.
Qed.

Lemma readLine_eof fuel (line : bytes) lineSize :
  len line < lineSize ->
  readLine (S fuel) [] line lineSize = LoopStop (Some ErrEOF).
Proof.
  intros H. cbn [readLine]. destruct (Z.ltb_spec (len line) lineSize); [|lia].
  cbn [Read]. destruct (Z.eqb_spec (lineSize - len line) 0); [lia|]. reflexivity.
Qed.

Lemma readLine_short fuel (r line : bytes) lineSize :
  len line + len r < lineSize ->
  readLine (S (S fuel)) r line lineSize = LoopStop (Some ErrEOF).
Proof.
  intros H. pose proof (len_nonneg r). pose proof (len_nonneg line).
  destruct r as [|x r].
  - apply readLine_eof. unfold len in *. simpl in *. lia.
  - rewrite readLine_step by (try discriminate; lia).
    rewrite skipn_all2 by (unfold len in *; lia).
    apply readLine_eof. rewrite len_app.
    pose proof (len_nonneg (firstn (Z.to_nat (lineSize - len line)) (x :: r))).
    assert (len (firstn (Z.to_nat (lineSize - len line)) (x :: r)) <= len (x :: r)).
    { unfold len. rewrite length_firstn. lia. }
    lia.
Qed.

Lemma moveNext_short_line fmt sy st ts n (part : bytes) :
  in_int64 ts -> len part < n < maxLineLength ->
  readBuf st ++ rd st = Binary.PutVarint ts ++ Binary.PutUvarint n ++ part ->
  len (readBuf st) <= 20 ->
  moveNext loopFuel fmt sy st = LoopStop (Some ErrEOF).
Proof.
  intros Ht Hn Hs Hb.
  pose proof (PutVarint_len ts) as Hw1. pose proof (PutUvarint_len n) as Hw2.
  pose proof (len_nonneg part) as Hp0.
  assert (Hmax : maxLineLength < 2 ^ 63) by (unfold maxLineLength; lia).
  set (p1 := Binary.PutVarint ts) in *. set (p2 := Binary.PutUvarint n) in *.
  unfold moveNext, loopFuel.
  rewrite (readTwo_ok Binary.Varint p1 p2 ts (uint64 n) part); try assumption.
  2:{ intros x. apply Varint_PutVarint. exact Ht. }
  2:{ intros x. apply Uvarint_PutUvarint. }
  rewrite uint64_small by lia. rewrite int_small by (unfold in_int64; lia).
  cbv zeta. destruct (Z.leb_spec maxLineLength n); [lia|].
  destruct (Z.ltb_spec n 0); [lia|].
  cbn [readBuf rd]. rewrite Hs.
  set (buf := firstn 20 (p1 ++ p2 ++ part)).
  set (k := (20 - length p1 - length p2)%nat).
  assert (Eb : buf = p1 ++ p2 ++ firstn k part).
  { unfold buf, k. rewrite firstn_app_le by (unfold len in *; lia). f_equal.
    rewrite firstn_app_le by (unfold len in *; lia). reflexivity. }
  assert (Hrd : skipn (Z.to_nat (20 - len (readBuf st))) (rd st) = skipn k part).
  { assert (E : skipn 20 (readBuf st ++ rd st) = skipn 20 (p1 ++ p2 ++ part))
      by (rewrite Hs; reflexivity).
    rewrite skipn_app_le in E by (unfold len in *; lia).
    rewrite skipn_app_le in E by (unfold len in *; lia).
    rewrite skipn_app_le in E by (unfold len in *; lia).
    replace (Z.to_nat (20 - len (readBuf st))) with (20 - length (readBuf st))%nat
      by (unfold len in *; lia).
    rewrite E. f_equal. }
  rewrite Hrd.
  assert (Hlb : len buf = len p1 + len p2 + len (firstn k part)).
  { rewrite Eb. rewrite !len_app. lia. }
  pose proof (len_nonneg (firstn k part)).
  rewrite slice_tail by lia.
  replace (skipn (Z.to_nat (len p1 + len p2)) buf) with (firstn k part).
  2:{ rewrite Eb. rewrite app_assoc. rewrite skipn_app_exact; [reflexivity|].
      rewrite length_app. unfold len. lia. }
  rewrite readLine_short; [reflexivity|].
  assert (len (firstn (Z.to_nat n) (firstn k part)) <= len (firstn k part)).
  { unfold len. rewrite !length_firstn. lia. }
  assert (len (firstn k part) + len (skipn k part) = len part).
  { rewrite <- len_app, firstn_skipn. reflexivity. }
  lia.
Qed.

Section Decoder.
Context {P : Pools}.

(** X7, a block read back.  The payload the ordered head serialises, of
    entries with lines below the line limit, is decoded by the block
    iterator into the same timestamps and lines in the same order, and the
    iterator ends without an error. *)
Theorem block_decode_round_trip :
  forall (enc : Encoding) (fmt : Z) (sy : symbolizer) (hb : headBlock),
    (forall b, decompress enc (compress enc b) = Some b) ->
    fmt < chunkFormatV4 ->
    Forall wt_entry (entries hb) ->
    Forall (fun e => len (e_s e) < maxLineLength) (entries hb) ->
    blockEntries enc fmt sy (headBlock_Serialise enc hb)
    = Ok (map asDecoded (entries hb), None).
Proof.
  intros enc fmt sy hb Hdc Hfmt Hwt Hshort.
  apply (blockEntries_prefix enc fmt sy _ (entries hb) []); try assumption.
  - unfold headBlock_Serialise. rewrite Hdc, app_nil_r. reflexivity.
  - intros st Hs _. apply moveNext_empty. exact Hs.
Qed.

(** X8, a line over the limit.  The stream of a block holds well-formed
    entries and then an entry whose length prefix, a [uint64], is
    [maxLineLength] or more, whatever follows.  When the prefix is below
    2^63 the iterator emits the entries before it and stops with the
    line-too-long error.  When the prefix is 2^63 or more it becomes a
    negative [int], passes the test against [maxLineLength], and the slice
    expression that sizes the line buffer panics. *)
Theorem block_decode_line_too_long :
  forall (enc : Encoding) (fmt : Z) (sy : symbolizer) (b : bytes) (es : list entry)
         (ts n : Z) (rest : bytes),
    fmt < chunkFormatV4 ->
    Forall wt_entry es ->
    Forall (fun e => len (e_s e) < maxLineLength) es ->
    in_int64 ts -> maxLineLength <= n < 2 ^ 64 ->
    decompress enc b
    = Some (flat_map encodeEntry es
            ++ Binary.PutVarint ts ++ Binary.PutUvarint n ++ rest) ->
    blockEntries enc fmt sy b
    = if n <? 2 ^ 63 then Ok (map asDecoded es, Some (ErrLineTooLong n)) else Panic.
Proof.
  intros enc fmt sy b es ts n rest Hfmt Hwt Hshort Ht Hn Hd.
  destruct (Z.ltb_spec n (2 ^ 63)) as [Hlt|Hge].
  - apply (blockEntries_prefix enc fmt sy b es _ _ Hfmt Hwt Hshort Hd).
    intros st Hs Hb. eapply moveNext_too_long; try eassumption. lia.
  - apply (blockEntries_prefix_panic enc fmt sy b es _ Hfmt Hwt Hshort Hd).
    intros st Hs Hb. eapply moveNext_negative_length; try eassumption. lia.
Qed.

(** X9, a truncated block.  When the stream of a block holds well-formed
    entries and then ends inside the two varints of an entry (one to ten
    bytes, all with the continuation bit), the iterator emits the entries
    before and stops with the invalid-data error; when it ends inside a line
    the iterator stops with the end-of-file error of the reader. *)
Theorem block_decode_truncated :
  forall (enc : Encoding) (fmt : Z) (sy : symbolizer) (b : bytes) (es : list entry),
    fmt < chunkFormatV4 ->
    Forall wt_entry es ->
    Forall (fun e => len (e_s e) < maxLineLength) es ->
    (forall tail : bytes,
        Forall (fun x => 128 <= x) tail -> 1 <= len tail <= 10 ->
        decompress enc b = Some (flat_map encodeEntry es ++ tail) ->
        blockEntries enc fmt sy b = Ok (map asDecoded es, Some ErrInvalidData)) /\
    (forall (ts n : Z) (part : bytes),
        in_int64 ts -> len part < n < maxLineLength ->
        decompress enc b
        = Some (flat_map encodeEntry es
                ++ Binary.PutVarint ts ++ Binary.PutUvarint n ++ part) ->
        blockEntries enc fmt sy b = Ok (map asDecoded es, Some ErrEOF)).
Proof.
  intros enc fmt sy b es Hfmt Hwt Hshort. split.
  - intros tail HF Hl Hd.
    apply (blockEntries_prefix enc fmt sy b es _ _ Hfmt Hwt Hshort Hd).
    intros st Hs _. eapply moveNext_incomplete; eassumption.
  - intros ts n part Ht Hn Hd.
    apply (blockEntries_prefix enc fmt sy b es _ _ Hfmt Hwt Hshort Hd).
    intros st Hs Hb. eapply moveNext_short_line; eassumption.
Qed.

End Decoder.

(** ** Checkpoints of the head *)

(** ** The checkpoint of the ordered head *)

Lemma fold_checkpoint es : forall w,
  fold_left
    (fun w e => (w ++ putUvarint (putVarint64 [] (e_t e)) (len (e_s e))) ++ e_s e) es w
  = w ++ flat_map checkpointEntry es.
Proof.
  induction es as [|e es IH]; intros w; cbn [fold_left flat_map].
  - rewrite app_nil_r. reflexivity.
  - rewrite IH. unfold checkpointEntry, putUvarint, putVarint64. cbn [app].
    rewrite <- !app_assoc. reflexivity.
Qed.

Lemma CheckpointBytes_eq hb :
  headBlock_CheckpointBytes hb
  = [to_byte OrderedHeadBlockFmt]
    ++ Binary.PutUvarint (uint64 (len (entries hb)))
    ++ Binary.PutUvarint (uint64 (size hb))
    ++ Binary.PutVarint (hb_mint hb) ++ Binary.PutVarint (hb_maxt hb)
    ++ flat_map checkpointEntry (entries hb).
Proof.
  unfold headBlock_CheckpointBytes. cbv zeta. rewrite fold_checkpoint.
  unfold putByte, putUvarint, putVarint64. cbn [app]. rewrite <- !app_assoc. reflexivity.
Qed.

Lemma db_err_mk b : db_err (mkdecbuf b) = None.
Proof. reflexivity. Qed.

Lemma db_bytes_take (s rest : bytes) :
  db_bytes (mkdecbuf (s ++ rest)) (len s) = Some (s, mkdecbuf rest).
Proof.
  unfold db_bytes, mkdecbuf. cbn [db_e db_b].
  pose proof (len_nonneg s). pose proof (len_nonneg rest).
  destruct (Z.ltb_spec (len (s ++ rest)) (len s)) as [H1|H1]; [rewrite len_app in H1; lia|].
  rewrite slice_ok by lia. cbn [Z.to_nat skipn]. rewrite Z.sub_0_r.
  rewrite firstn_app_exact by (unfold len; lia).
  rewrite skipn_app_exact by (unfold len; lia). reflexivity.
Qed.

Lemma loadEntries_checkpoint es : forall rest,
  Forall wt_entry es ->
  loadEntries (length es) (mkdecbuf (flat_map checkpointEntry es ++ rest))
  = Ok (map reloaded es, mkdecbuf rest).
Proof.
  induction es as [|e es IH]; intros rest Hwt; [reflexivity|].
  inversion Hwt as [|? ? [Ht Hl] Hwt']; subst.
  pose proof (len_nonneg (e_s e)).
  cbn [length loadEntries flat_map].
  change (checkpointEntry e)
    with (Binary.PutVarint (e_t e) ++ Binary.PutUvarint (uint64 (len (e_s e))) ++ e_s e).
  rewrite <- !app_assoc.
  rewrite db_err_mk.
  rewrite db_varint64_put by exact Ht.
  rewrite db_uvarint_put by (unfold in_int64; lia).
  rewrite db_bytes_take. rewrite IH by exact Hwt'. reflexivity.
Qed.

(** X10, the head checkpoint read back.  [LoadBytes] on the bytes that
    [CheckpointBytes] writes for an ordered head restores its size, bounds
    and entries (timestamps and lines, in order) without an error, whatever
    the head held before. *)
Theorem headBlock_checkpoint_round_trip :
  forall (hb hb0 : headBlock),
    len (entries hb) < 2 ^ 63 ->
    in_int64 (size hb) -> in_int64 (hb_mint hb) -> in_int64 (hb_maxt hb) ->
    Forall wt_entry (entries hb) ->
    headBlock_LoadBytes hb0 (headBlock_CheckpointBytes hb)
    = Ok (None, {| entries := map reloaded (entries hb); size := size hb;
                   hb_mint := hb_mint hb; hb_maxt := hb_maxt hb |}).
Proof.
  intros hb hb0 Hn Hs Hmin Hmax Hwt.
  rewrite CheckpointBytes_eq. unfold headBlock_LoadBytes.
  pose proof (len_nonneg (entries hb)) as Hn0.
  set (tailb := Binary.PutUvarint (uint64 (len (entries hb))) ++ _).
  destruct (Z.ltb_spec (len ([to_byte OrderedHeadBlockFmt] ++ tailb)) 1) as [H1|_].
  { cbn [app] in H1. rewrite len_cons in H1. pose proof (len_nonneg tailb). lia. }
  cbn [app]. unfold db_byte at 1. cbn [mkdecbuf db_e db_b].
  change {| db_b := tailb; db_e := None |} with (mkdecbuf tailb).
  change (to_byte OrderedHeadBlockFmt) with 3.
  rewrite db_err_mk. change (3 =? chunkFormatV3) with true.
  rewrite !orb_true_r. cbn [orb]. unfold tailb.
  rewrite db_uvarint_put by (unfold in_int64; lia).
  rewrite db_uvarint_put by exact Hs.
  rewrite db_varint64_put by exact Hmin.
  rewrite db_varint64_put by exact Hmax.
  rewrite db_err_mk.
  destruct (Z.ltb_spec (len (entries hb)) 0); [lia|].
  replace (Z.to_nat (len (entries hb))) with (length (entries hb)) by (unfold len; lia).
  rewrite <- (app_nil_r (flat_map checkpointEntry (entries hb))).
  rewrite loadEntries_checkpoint by exact Hwt. rewrite db_err_mk. reflexivity.
Qed.

Lemma putUvarintLoop_len_le n : forall k x,
  1 <= k -> 0 <= x < 2 ^ (7 * k) -> len (Binary.putUvarintLoop n x) <= k.
Proof.
  induction n as [|n IH]; intros k x Hk Hx; cbn [Binary.putUvarintLoop].
  - unfold len. simpl. lia.
  - destruct (Z.leb_spec 128 x) as [Hge|Hlt]; [|unfold len; simpl; lia].
    rewrite len_cons.
    assert (Hk2 : 2 <= k).
    { destruct (Z.eq_dec k 1) as [->|]; [|lia]. change (2 ^ (7 * 1)) with 128 in Hx. lia. }
    assert (Hs : 0 <= Z.shiftr x 7 < 2 ^ (7 * (k - 1))).
    { rewrite Z.shiftr_div_pow2 by lia. split; [apply Z.div_pos; lia|].
      apply Z.div_lt_upper_bound; [lia|].
      rewrite <- Z.pow_add_r by lia. replace (7 + 7 * (k - 1)) with (7 * k) by lia. lia. }
    specialize (IH (k - 1) (Z.shiftr x 7) ltac:(lia) Hs). lia.
Qed.

Lemma PutUvarint_len32 x : 0 <= x < 2 ^ 35 -> len (Binary.PutUvarint (uint64 x)) <= 5.
Proof.
  intros Hx. unfold Binary.PutUvarint. rewrite uint64_idem, uint64_small by lia.
  apply putUvarintLoop_len_le; [lia|]. change (7 * 5) with 35. exact Hx.
Qed.

Lemma checkpointEntry_len e :
  len (e_s e) < 2 ^ 35 -> len (checkpointEntry e) <= 15 + len (e_s e).
Proof.
  intros He. unfold checkpointEntry. rewrite !len_app.
  pose proof (PutVarint_len (e_t e)). pose proof (len_nonneg (e_s e)).
  pose proof (PutUvarint_len32 (len (e_s e)) ltac:(lia)). lia.
Qed.

Lemma checkpointEntries_len es :
  Forall (fun e => len (e_s e) < 2 ^ 35) es ->
  len (flat_map checkpointEntry es) <= 15 * len es + lineBytes es.
Proof.
  induction 1 as [|e es He _ IH]; [unfold len; simpl; lia|].
  cbn beta in He. cbn [flat_map lineBytes fold_right]. fold (lineBytes es).
  rewrite len_app, len_cons. pose proof (checkpointEntry_len e He). lia.
Qed.

Lemma CheckpointSize_eq hb :
  headBlock_CheckpointSize hb = 31 + 15 * len (entries hb) + lineBytes (entries hb).
Proof.
  unfold headBlock_CheckpointSize, MaxVarintLen32, Binary.MaxVarintLen64. cbv zeta.
  rewrite fold_left_add.
  assert (E : forall es, fold_left (fun n e => n + len (e_s e)) es 0 = lineBytes es).
  { induction es as [|e es IH]; [reflexivity|]. cbn [fold_left lineBytes fold_right].
    fold (lineBytes es). rewrite fold_left_add, IH. lia. }
  rewrite E. lia.
Qed.

(** X11, the size of a head checkpoint.  [CheckpointSize] is an upper bound
    on the number of bytes [CheckpointBytes] writes, as long as the number
    of entries, the size of the head and the length of every line are below
    2^35, which is what five bytes of a varint hold. *)
Theorem headBlock_CheckpointSize_bounds_checkpoint :
  forall hb : headBlock,
    len (entries hb) < 2 ^ 35 ->
    0 <= size hb < 2 ^ 35 ->
    Forall (fun e => len (e_s e) < 2 ^ 35) (entries hb) ->
    len (headBlock_CheckpointBytes hb) <= headBlock_CheckpointSize hb.
Proof.
  intros hb Hn Hs Hl.
  rewrite CheckpointBytes_eq, CheckpointSize_eq.
  cbn [app]. rewrite len_cons, !len_app.
  pose proof (len_nonneg (entries hb)).
  pose proof (PutUvarint_len32 (len (entries hb)) ltac:(lia)).
  pose proof (PutUvarint_len32 (size hb) Hs).
  pose proof (PutVarint_len (hb_mint hb)). pose proof (PutVarint_len (hb_maxt hb)).
  pose proof (checkpointEntries_len (entries hb) Hl). lia.
Qed.

(** ** Where the blocks lie in the serialised bytes *)

(** ** The layout that WriteTo records *)

Lemma withOffsets_placed l : forall off pre post,
  len pre = off ->
  Forall (fun bc => snd bc = Crc32.Checksum (b_b (fst bc))) l ->
  Forall (fun bc => placedIn (pre ++ wireBody l ++ post) (fst bc)) (withOffsets l off).
Proof.
  induction l as [|[b crc] l IH]; intros off pre post Hpre Hcrc; cbn [withOffsets];
    constructor.
  - inversion Hcrc as [|? ? Hc _]; subst. cbn [fst snd] in Hc. subst crc.
    unfold placedIn, wireBody. cbn [flat_map fst snd set_offset offset b_b].
    split.
    + apply (slice_segment _ pre (b_b b)
               (Binary.PutUint32 (Crc32.Checksum (b_b b)) ++ wireBody l ++ post)).
      * unfold wireBody. rewrite <- !app_assoc. reflexivity.
      * reflexivity.
      * reflexivity.
    + apply (slice_segment _ (pre ++ b_b b) (Binary.PutUint32 (Crc32.Checksum (b_b b)))
               (wireBody l ++ post)).
      * unfold wireBody. rewrite <- !app_assoc. reflexivity.
      * rewrite len_app. reflexivity.
      * rewrite PutUint32_len. reflexivity.
  - inversion Hcrc as [|? ? Hc Hcrc']; subst.
    replace (pre ++ wireBody ((b, crc) :: l) ++ post)
      with ((pre ++ b_b b ++ Binary.PutUint32 crc) ++ wireBody l ++ post).
    + apply IH; [|exact Hcrc']. rewrite !len_app, PutUint32_len. lia.
    + unfold wireBody. cbn [flat_map fst snd]. rewrite <- !app_assoc. reflexivity.
Qed.

Lemma withOffsets_reset bs : forall off,
  map (fun b => set_offset b 0) (map fst (withOffsets (map sealed bs) off))
  = map (fun b => set_offset b 0) bs.
Proof.
  induction bs as [|b bs IH]; intros off; [reflexivity|].
  cbn [map sealed withOffsets fst]. rewrite IH. destruct b; reflexivity.
Qed.

Lemma slice_Some_le {A} (b x : list A) lo hi :
  slice b lo hi = Some x -> 0 <= lo /\ lo <= hi /\ hi <= len b.
Proof.
  unfold slice. destruct (Z.leb_spec 0 lo), (Z.leb_spec lo hi), (Z.leb_spec hi (len b));
    cbn [andb]; intros Hs; try discriminate. auto.
Qed.

Lemma BytesSize_eq f c :
  format c < chunkFormatV4 ->
  BytesSize f c
  = 5 + (if chunkFormatV1 <? format c then 1 else 0)
    + fold_right (fun b n => blockCost (format c) b + n) 0 (blocks c) + 17.
Proof.
  intros Hfmt. unfold BytesSize, MaxVarintLen32, Binary.MaxVarintLen64. cbv zeta.
  destruct (Z.leb_spec chunkFormatV4 (format c)); [lia|].
  assert (E : forall bs s,
             fold_left
               (fun size b =>
                  (if chunkFormatV3 <=? format c
                   then size + (len (b_b b) + 4) + 5 + 10 + 10 + 5 + 5
                   else size + (len (b_b b) + 4) + 5 + 10 + 10 + 5) + 5) bs s
             = s + fold_right (fun b n => blockCost (format c) b + n) 0 bs).
  { induction bs as [|b bs IH]; intros s; cbn [fold_left fold_right]; [lia|].
    rewrite IH. unfold blockCost. destruct (chunkFormatV3 <=? format c); lia. }
  rewrite E. destruct (chunkFormatV1 <? format c); lia.
Qed.

Lemma blockCost_withOffsets fmt bs : forall off,
  fold_right (fun b n => blockCost fmt b + n) 0 (map fst (withOffsets (map sealed bs) off))
  = fold_right (fun b n => blockCost fmt b + n) 0 bs.
Proof.
  induction bs as [|b bs IH]; intros off; [reflexivity|].
  cbn [map sealed withOffsets fst fold_right]. rewrite IH. reflexivity.
Qed.

Lemma withOffsets_keeps (Q : block -> Prop) bs : forall off,
  (forall b o, Q b -> Q (set_offset b o)) -> Forall Q bs ->
  Forall Q (map fst (withOffsets (map sealed bs) off)).
Proof.
  induction bs as [|b bs IH]; intros off HQ H; [constructor|].
  inversion H; subst. cbn [map sealed withOffsets fst]. constructor; [apply HQ; assumption|].
  apply IH; assumption.
Qed.

Lemma metaBytes_le fmt b :
  metaFits fmt b -> len (metaBytes fmt b) <= 35 + (if chunkFormatV3 <=? fmt then 5 else 0).
Proof.
  intros (H1 & H2 & H3 & H4). unfold metaBytes. rewrite !len_app.
  pose proof (PutUvarint_len32 (numEntries b) H1).
  pose proof (PutVarint_len (b_mint b)). pose proof (PutVarint_len (b_maxt b)).
  pose proof (PutUvarint_len32 (offset b) H2).
  pose proof (PutUvarint_len32 (uncompressedSize b) H3).
  pose proof (len_nonneg (b_b b)).
  pose proof (PutUvarint_len32 (len (b_b b)) ltac:(lia)).
  destruct (chunkFormatV3 <=? fmt); change (len (@nil byte)) with 0; lia.
Qed.

Lemma metas_le fmt (l : list (block * Z)) :
  Forall (fun b => metaFits fmt b) (map fst l) ->
  len (wireBody l) + len (flat_map (metaBytes fmt) (map fst l))
  <= fold_right (fun b n => blockCost fmt b + n) 0 (map fst l).
Proof.
  induction l as [|[b crc] l IH]; intros H; [unfold len; simpl; lia|].
  cbn [map fst] in H. inversion H as [|? ? Hb Hl]; subst.
  unfold wireBody in *. cbn [flat_map map fst snd fold_right].
  rewrite !len_app, PutUint32_len. specialize (IH Hl).
  pose proof (metaBytes_le fmt b Hb). unfold blockCost in *. lia.
Qed.

Section Layout.
Context {P : Pools}.

Lemma writeTo_layout (c : MemChunk) :
  compressedSize (snd (WriteTo c)) = len (fst (WriteTo c)) /\
  map (fun b => set_offset b 0) (blocks (snd (WriteTo c)))
  = map (fun b => set_offset b 0) (blocks c) /\
  Forall (placedIn (fst (WriteTo c))) (blocks (snd (WriteTo c))).
Proof.
  revert c.
  assert (H : forall c : MemChunk,
    let out := fst (WriteTo c) in
    let c' := snd (WriteTo c) in
    compressedSize c' = len out /\
    map (fun b => set_offset b 0) (blocks c') = map (fun b => set_offset b 0) (blocks c) /\
    Forall (placedIn out) (blocks c')); [|exact H].
  intros c out c'. unfold out, c', WriteTo.
  destruct (writeTo_wire c) as (W & B & S). cbv zeta in W, B.
  split; [exact S|]. rewrite B, W. unfold wire.
  set (sec := symSerialize (encoding c) (c_symbolizer c)).
  set (h := wireHeader (format c) (encoding c)).
  set (sy := wireSymbols (format c) sec (Crc32.Checksum sec)).
  split.
  - apply withOffsets_reset.
  - rewrite <- (wireBody_withOffsets (map sealed (blocks c)) (len h + len sy)).
    rewrite Forall_map.
    rewrite (app_assoc h sy).
    rewrite wireBody_withOffsets.
    apply withOffsets_placed; [apply len_app|].
    apply Forall_map. apply Forall_forall. reflexivity.
Qed.

(** X12, the layout WriteTo records.  After [WriteTo] the compressed size of
    the chunk is the number of bytes written, the blocks keep their payloads
    and metadata, and the offset recorded for each block is where its
    payload lies in the output, followed by the CRC of that payload. *)
Theorem WriteTo_records_layout :
  forall c : MemChunk,
    let out := fst (WriteTo c) in
    let c' := snd (WriteTo c) in
    compressedSize c' = len out /\
    map (fun b => set_offset b 0) (blocks c') = map (fun b => set_offset b 0) (blocks c) /\
    Forall (placedIn out) (blocks c').
Proof.
  intros c out c'. exact (writeTo_layout c).
Qed.

(** X13, the size estimate of a chunk.  For a chunk below version 4 whose
    serialised form is shorter than 2^35 bytes and whose blocks hold fewer
    than 2^35 entries and uncompressed bytes each, [BytesSize] is an upper
    bound on the length of [Bytes]. *)
Theorem BytesSize_bounds_Bytes :
  forall (symCheckpointSize : symbolizer -> Z) (c : MemChunk),
    format c < chunkFormatV4 ->
    len (Bytes c) < 2 ^ 35 ->
    Forall (fun b => 0 <= numEntries b < 2 ^ 35 /\ 0 <= uncompressedSize b < 2 ^ 35)
      (blocks c) ->
    len (Bytes c) <= BytesSize symCheckpointSize c.
Proof.
  intros f c Hfmt Hlen Hmeta.
  destruct (writeTo_layout c) as (_ & _ & Hplaced).
  destruct (writeTo_wire c) as (W & B & _). cbv zeta in W, B.
  unfold Bytes, WriteTo in *. rewrite B in Hplaced.
  set (out := fst (writeTo c false)) in *.
  set (sec := symSerialize (encoding c) (c_symbolizer c)) in *.
  set (off0 := len (wireHeader (format c) (encoding c))
               + len (wireSymbols (format c) sec (Crc32.Checksum sec))) in *.
  set (l := withOffsets (map sealed (blocks c)) off0) in *.
  assert (Hl : Forall (fun b => metaFits (format c) b) (map fst l)).
  { assert (Hm : Forall (fun b => 0 <= numEntries b < 2 ^ 35 /\ 0 <= uncompressedSize b < 2 ^ 35)
                   (map fst l)).
    { unfold l. apply withOffsets_keeps; [|exact Hmeta]. intros b o Hb. exact Hb. }
    rewrite Forall_forall in *. intros b Hb.
    destruct (Hplaced b Hb) as [S1 _]. apply slice_Some_le in S1.
    specialize (Hm b Hb). pose proof (len_nonneg (b_b b)).
    unfold metaFits. repeat split; lia. }
  rewrite (BytesSize_eq f c Hfmt).
  rewrite <- (blockCost_withOffsets (format c) (blocks c) off0). fold l.
  pose proof (metas_le (format c) l Hl) as Hcost.
  assert (Hcount : len (map fst l) < 2 ^ 35).
  { pose proof (flat_map_metaBytes_len (format c) (map fst l)) as H1.
    assert (H2 : len (flat_map (metaBytes (format c)) (map fst l)) <= len out).
    { rewrite W. unfold wire, wireMetas. rewrite !len_app.
      repeat match goal with |- context [len ?x] =>
               lazymatch goal with
               | _ : 0 <= len x |- _ => fail
               | _ => pose proof (len_nonneg x)
               end
             end. lia. }
    lia. }
  pose proof (len_nonneg (map fst l)) as Hc0.
  pose proof (PutUvarint_len32 (len (map fst l)) ltac:(lia)) as Hn.
  rewrite W. unfold wire, wireMetas, wireHeader, wireSymbols, wireTrailer.
  destruct (Z.leb_spec chunkFormatV4 (format c)) as [Hbad|_]; [lia|].
  cbn [app]. rewrite !len_app, PutUint32_len, PutUint64_len.
  assert (Hbody : wireBody l = wireBody (map sealed (blocks c))).
  { unfold l. apply wireBody_withOffsets. }
  rewrite Hbody in Hcost.
  destruct (chunkFormatV1 <? format c); cbn [app];
    rewrite ?len_cons, ?PutUint32_len; change (@len byte nil) with 0; lia.
Qed.

End Layout.

(** ** Input that ends early *)

Lemma slice_negative {A} (b : list A) lo hi : lo < 0 -> slice b lo hi = None.
Proof.
  intros H. unfold slice. destruct (Z.leb_spec 0 lo); [lia|reflexivity].
Qed.

Section ShortInput.
Context {P : Pools}.

(** X14, input too short for the header.  A read of fewer than five bytes
    fails with [ErrInvalidSize] wrapped as the header error, whatever the
    bytes are; a read of exactly the magic number and a version from 2 to 4
    fails with [ErrInvalidSize] wrapped as the encoding error. *)
Theorem NewByteChunk_short_header :
  (forall (b : bytes) bs ts,
      len b < 5 -> NewByteChunk b bs ts = Err (ErrWrap 0 ErrInvalidSize)) /\
  (forall v bs ts,
      v = chunkFormatV2 \/ v = chunkFormatV3 \/ v = chunkFormatV4 ->
      NewByteChunk (Binary.PutUint32 magicNumber ++ [v]) bs ts
      = Err (ErrWrap 1 ErrInvalidSize)).
Proof.
  split.
  - intros b bs ts Hlen.
    destruct b as [|b0 [|b1 [|b2 [|b3 [|b4 r]]]]]; try reflexivity.
    exfalso. rewrite !len_cons in Hlen. pose proof (len_nonneg r). lia.
  - intros v bs ts [H|[H|H]]; subst v; reflexivity.
Qed.

(** X15, input cut off after the header.  When the header of the input
    reads as a version and an encoding, but the input is shorter than the
    trailer of that version (8 bytes below version 4, 16 bytes from
    version 4), the read does not return an error: the slice expression
    that takes the trailer is out of range and the read panics. *)
Theorem NewByteChunk_truncated_panics :
  forall (b : bytes) v enc bs ts,
    readHeader b = Ok (v, enc) ->
    len b < (if chunkFormatV4 <=? v then 16 else 8) ->
    NewByteChunk b bs ts = Panic.
Proof.
  intros b v enc bs ts Hh Hlen. unfold NewByteChunk, newByteChunk. rewrite Hh.
  unfold readMetas, readSectionLenAndOffset, slice_from, chunkMetasSectionIdx.
  destruct (chunkFormatV4 <=? v).
  - rewrite slice_negative by lia. reflexivity.
  - rewrite slice_negative by lia. reflexivity.
Qed.

End ShortInput.

(** ** Varints of the generated message code *)

Lemma sovFrontend_log2 v : 0 <= v -> sovFrontend v = (Z.log2 v + 7) / 7.
Proof.
  intros Hv. unfold sovFrontend, Len64.
  destruct (Z.eqb_spec (Z.lor v 1) 0) as [E|_].
  - apply Z.lor_eq_0_iff in E. lia.
  - rewrite Z.log2_lor by lia. change (Z.log2 1) with 0.
    pose proof (Z.log2_nonneg v). rewrite Z.max_l by lia. f_equal. lia.
Qed.

Lemma sovFrontend_small v : 0 <= v < 128 -> sovFrontend v = 1.
Proof.
  intros Hv. rewrite sovFrontend_log2 by lia.
  assert (H : 0 <= Z.log2 v < 7).
  { split; [apply Z.log2_nonneg|].
    destruct (Z.eq_dec v 0) as [->|Hne]; [reflexivity|].
    apply Z.log2_lt_pow2; lia. }
  replace (Z.log2 v + 7) with (Z.log2 v + 1 * 7) by lia.
  rewrite Z.div_add by lia. rewrite Z.div_small by lia. reflexivity.
Qed.

Lemma sovFrontend_step v : 128 <= v -> sovFrontend v = 1 + sovFrontend (Z.shiftr v 7).
Proof.
  intros Hv. rewrite sovFrontend_log2 by lia.
  assert (H7 : 7 <= Z.log2 v) by (apply Z.log2_le_pow2; lia).
  rewrite sovFrontend_log2 by (apply Z.shiftr_nonneg; lia).
  rewrite Z.log2_shiftr by lia. rewrite Z.max_r by lia.
  replace (Z.log2 v + 7) with (Z.log2 v - 7 + 7 + 1 * 7) by lia.
  rewrite Z.div_add by lia. lia.
Qed.

Lemma shiftr7_bound n v :
  0 <= v < 2 ^ (7 * (Z.of_nat (S n) + 1)) -> 0 <= Z.shiftr v 7 < 2 ^ (7 * (Z.of_nat n + 1)).
Proof.
  intros Hv. rewrite Z.shiftr_div_pow2 by lia. split; [apply Z.div_pos; lia|].
  apply Z.div_lt_upper_bound; [lia|].
  rewrite <- Z.pow_add_r by lia.
  replace (7 + 7 * (Z.of_nat n + 1)) with (7 * (Z.of_nat (S n) + 1)) by lia. lia.
Qed.

Lemma putUvarintLoop_sov n : forall v,
  0 <= v < 2 ^ (7 * (Z.of_nat n + 1)) ->
  len (Binary.putUvarintLoop n v) = sovFrontend v.
Proof.
  induction n as [|n IH]; intros v Hv.
  - change (2 ^ (7 * (Z.of_nat 0 + 1))) with 128 in Hv.
    rewrite sovFrontend_small by lia. reflexivity.
  - cbn [Binary.putUvarintLoop]. destruct (Z.leb_spec 128 v) as [H|H].
    + rewrite len_cons, sovFrontend_step by lia. f_equal.
      apply IH. apply shiftr7_bound. exact Hv.
    + rewrite sovFrontend_small by lia. reflexivity.
Qed.

Lemma continuation_byte v : to_byte (Z.lor (Z.land v 127) 128) = Z.lor (to_byte v) 128.
Proof.
  unfold to_byte. change 256 with (2 ^ 8). apply Z.bits_inj'. intros n Hn.
  rewrite Z.lor_spec. destruct (Z.ltb_spec n 8) as [H|H].
  - rewrite !Z.mod_pow2_bits_low by lia. rewrite Z.lor_spec, Z.land_spec.
    assert (E : n = 0 \/ n = 1 \/ n = 2 \/ n = 3 \/ n = 4 \/ n = 5 \/ n = 6 \/ n = 7) by lia.
    destruct E as [E|[E|[E|[E|[E|[E|[E|E]]]]]]]; subst n;
      simpl (Z.testbit 127 _); simpl (Z.testbit 128 _);
      rewrite ?andb_true_r, ?orb_false_r, ?orb_true_r; reflexivity.
  - rewrite !Z.mod_pow2_bits_high by lia.
    rewrite (testbit_small 128 8 n) by lia. reflexivity.
Qed.

Lemma store_Some (d : bytes) i x :
  0 <= i < len d ->
  store d i x = Some (firstn (Z.to_nat i) d ++ x :: skipn (S (Z.to_nat i)) d).
Proof.
  intros H. unfold store.
  destruct (Z.leb_spec 0 i); [|lia]. destruct (Z.ltb_spec i (len d)); [|lia]. reflexivity.
Qed.

Lemma stored_len (d : bytes) i x :
  0 <= i < len d -> len (firstn (Z.to_nat i) d ++ x :: skipn (S (Z.to_nat i)) d) = len d.
Proof.
  intros H. unfold len in *. rewrite length_app, length_firstn. cbn [length].
  rewrite length_skipn. lia.
Qed.

Lemma stored_firstn (d : bytes) i x :
  0 <= i < len d ->
  firstn (Z.to_nat (i + 1)) (firstn (Z.to_nat i) d ++ x :: skipn (S (Z.to_nat i)) d)
  = firstn (Z.to_nat i) d ++ [x].
Proof.
  intros H. unfold len in H.
  rewrite firstn_app. rewrite length_firstn.
  replace (Init.Nat.min (Z.to_nat i) (length d)) with (Z.to_nat i) by lia.
  replace (Z.to_nat (i + 1) - Z.to_nat i)%nat with 1%nat by lia.
  rewrite firstn_firstn.
  replace (Init.Nat.min (Z.to_nat (i + 1)) (Z.to_nat i)) with (Z.to_nat i) by lia.
  reflexivity.
Qed.

Lemma stored_skipn (d : bytes) i x k :
  0 <= i < len d -> i < k ->
  skipn (Z.to_nat k) (firstn (Z.to_nat i) d ++ x :: skipn (S (Z.to_nat i)) d)
  = skipn (Z.to_nat k) d.
Proof.
  intros H Hk. unfold len in H.
  rewrite skipn_app. rewrite length_firstn.
  replace (Init.Nat.min (Z.to_nat i) (length d)) with (Z.to_nat i) by lia.
  rewrite skipn_all2 by (rewrite length_firstn; lia).
  replace (Z.to_nat k - Z.to_nat i)%nat with (S (Z.to_nat k - Z.to_nat i - 1)) by lia.
  cbn [app]. rewrite skipn_cons, skipn_skipn. f_equal. lia.
Qed.

Lemma encodeVarintLoop_writes n : forall (d : bytes) off v,
  0 <= v < 2 ^ (7 * (Z.of_nat n + 1)) ->
  0 <= off -> off + len (Binary.putUvarintLoop n v) <= len d ->
  encodeVarintLoop (S n) d off v
  = Ok (firstn (Z.to_nat off) d ++ Binary.putUvarintLoop n v
        ++ skipn (Z.to_nat (off + len (Binary.putUvarintLoop n v))) d).
Proof.
  induction n as [|n IH]; intros d off v Hv Hoff Hfit.
  - change (2 ^ (7 * (Z.of_nat 0 + 1))) with 128 in Hv.
    cbn [encodeVarintLoop Binary.putUvarintLoop] in *. change (2 ^ 7) with 128.
    destruct (Z.leb_spec 128 v); [lia|].
    change (len [to_byte v]) with 1 in *.
    rewrite store_Some by lia. cbn [of_slice app].
    replace (Z.to_nat (off + 1)) with (S (Z.to_nat off)) by lia. reflexivity.
  - cbn [Binary.putUvarintLoop] in *.
    change (encodeVarintLoop (S (S n)) d off v)
      with (if 2 ^ 7 <=? v then
              match store d off (to_byte (Z.lor (Z.land v 127) 128)) with
              | None => Panic
              | Some d' => encodeVarintLoop (S n) d' (off + 1) (Z.shiftr v 7)
              end
            else of_slice (store d off (to_byte v))).
    change (2 ^ 7) with 128.
    destruct (Z.leb_spec 128 v) as [H|H].
    + rewrite len_cons in *.
      pose proof (putUvarintLoop_len n (Z.shiftr v 7)) as Hl.
      rewrite store_Some by lia.
      rewrite IH; [|apply shiftr7_bound; exact Hv|lia|rewrite stored_len by lia; lia].
      rewrite stored_firstn by lia. rewrite stored_skipn by lia.
      rewrite continuation_byte. rewrite <- app_assoc. cbn [app].
      repeat (lia || f_equal).
    + change (len [to_byte v]) with 1 in *.
      rewrite store_Some by lia. cbn [of_slice app].
      replace (Z.to_nat (off + 1)) with (S (Z.to_nat off)) by lia. reflexivity.
Qed.

Lemma encodeVarintLoop_below (fuel : nat) (d : bytes) off v :
  off < 0 -> encodeVarintLoop (S fuel) d off v = Panic.
Proof.
  intros H. cbn [encodeVarintLoop]. unfold store.
  destruct (Z.leb_spec 0 off); [lia|]. cbn [andb of_slice].
  destruct (2 ^ 7 <=? v); reflexivity.
Qed.

(** X16, the varint writer of the generated message code.  For a [uint64]
    value [v], [sovFrontend v] is the length of the varint encoding of [v];
    [encodeVarintFrontend] called with an offset that leaves room for the
    encoding writes exactly that encoding into the bytes just before the
    offset, leaves the other bytes as they are and returns the position of
    its first byte.  Called with an offset smaller than the length of the
    encoding it panics. *)
Theorem encodeVarintFrontend_writes_uvarint :
  forall (dAtA : bytes) offset v,
    0 <= v < 2 ^ 64 ->
    offset <= len dAtA ->
    sovFrontend v = len (Binary.PutUvarint v) /\
    (sovFrontend v <= offset ->
     encodeVarintFrontend dAtA offset v
     = Ok (firstn (Z.to_nat (offset - sovFrontend v)) dAtA ++ Binary.PutUvarint v
           ++ skipn (Z.to_nat offset) dAtA,
           offset - sovFrontend v)) /\
    (offset < sovFrontend v -> encodeVarintFrontend dAtA offset v = Panic).
Proof.
  intros d offset v Hv Hoff.
  assert (Hp : Binary.PutUvarint v = Binary.putUvarintLoop 9 v).
  { unfold Binary.PutUvarint. rewrite uint64_small by lia. reflexivity. }
  assert (Hs : len (Binary.putUvarintLoop 9 v) = sovFrontend v).
  { apply putUvarintLoop_sov. change (2 ^ (7 * (Z.of_nat 9 + 1))) with (2 ^ 70). lia. }
  rewrite Hp. split; [symmetry; exact Hs|]. split.
  - intros Hroom. unfold encodeVarintFrontend. cbv zeta.
    rewrite encodeVarintLoop_writes;
      [|change (2 ^ (7 * (Z.of_nat 9 + 1))) with (2 ^ 70); lia|lia|lia].
    rewrite Hs.
    replace (offset - sovFrontend v + sovFrontend v) with offset by lia. reflexivity.
  - intros Hshort. unfold encodeVarintFrontend. cbv zeta.
    rewrite encodeVarintLoop_below by lia. reflexivity.
Qed.

(** ** Checkpoints of the chunk *)

Section Checkpoint.
Context {P : Pools}.

Lemma writeTo_checkpoint_wire c :
  let sec := symCheckpoint (c_symbolizer c) in
  let off0 := len (wireHeader (format c) (encoding c))
              + len (wireSymbols (format c) sec (Crc32.Checksum sec)) in
  let blocks' := map fst (withOffsets (map sealed (blocks c)) off0) in
  let mb := wireMetas (format c) blocks' in
  fst (writeTo c true)
  = wire (format c) (encoding c) sec (Crc32.Checksum sec)
      (wireBody (map sealed (blocks c))) mb (Crc32.Checksum mb).
Proof.
  cbv zeta. unfold writeTo, wire, wireHeader, wireSymbols, wireTrailer, wireMetas.
  unfold putBE32, putByte, putBE64int, putHash, putUvarint.
  assert (L4 : forall v, len (Binary.PutUint32 v) = 4) by reflexivity.
  assert (L8 : forall v, len (Binary.PutUint64 v) = 8) by reflexivity.
  assert (L1 : forall x : byte, len [x] = 1) by reflexivity.
  assert (L0 : len (@nil byte) = 0) by reflexivity.
  destruct (chunkFormatV4 <=? format c) eqn:E4; destruct (chunkFormatV1 <? format c) eqn:E1;
    rewrite writeBlocks_eq; rewrite fold_putBlockMeta;
    cbn [fst snd blocks compressedSize app];
    rewrite <- ?app_assoc; cbn [app]; rewrite ?len_app; cbn [app];
    rewrite ?L4, ?L8, ?L1, ?L0, ?Z.add_0_r, ?Z.add_assoc; try reflexivity; try lia.
Qed.

Lemma newByteChunk_checkpoint_wire fmt enc sec secCrc l metaCrc bs ts :
  validFormat fmt -> 0 <= enc < 256 ->
  0 <= secCrc < 2 ^ 32 -> 0 <= metaCrc < 2 ^ 32 ->
  withOffsets l (len (wireHeader fmt enc) + len (wireSymbols fmt sec secCrc)) = l ->
  Forall (fun bc => wtBlock (fst bc) /\ 0 <= snd bc < 2 ^ 32) l ->
  let mb := wireMetas fmt (map fst l) in
  let b := wire fmt enc sec secCrc (wireBody l) mb metaCrc in
  let enc' := if fmt =? chunkFormatV1 then EncGZIP else enc in
  len b < 2 ^ 63 ->
  newByteChunk b bs ts true
  = if negb (metaCrc =? Crc32.Checksum mb) then Err ErrInvalidChecksum
    else if chunkFormatV4 <=? fmt then
      if negb (secCrc =? Crc32.Checksum sec) then Err ErrInvalidChecksum
      else Ok (byteChunk bs ts (symFromCheckpoint sec) (loaded fmt l) (loadedSize l)
                 fmt enc' (len b))
    else Ok (byteChunk bs ts newSymbolizer (loaded fmt l) (loadedSize l) fmt enc' (len b)).
Proof.
  intros Hf He Hsc Hmc Hoff Hwt mb b enc' Hlen.
  unfold newByteChunk. fold b.
  unfold b at 1. rewrite readHeader_wire by assumption. fold enc'.
  unfold b at 1. rewrite readMetas_wire by assumption.
  unfold db_crc32, mkdecbuf at 1. cbn [db_b].
  destruct (metaCrc =? Crc32.Checksum mb); cbn [negb]; [|reflexivity].
  unfold mb at 1. unfold wireMetas.
  assert (Hnl : in_int64 (len (map fst l))).
  { unfold in_int64. pose proof (len_nonneg (map fst l)).
    assert (len (map fst l) <= len b); [|lia].
    unfold b, wire. rewrite !len_app. unfold mb, wireMetas. rewrite len_app.
    pose proof (len_nonneg (wireHeader fmt enc)).
    pose proof (len_nonneg (wireSymbols fmt sec secCrc)).
    pose proof (len_nonneg (wireBody l)).
    pose proof (PutUvarint_len (uint64 (len (map fst l)))).
    pose proof (len_nonneg (Binary.PutUint32 metaCrc)).
    pose proof (len_nonneg (wireTrailer fmt (if chunkFormatV4 <=? fmt then len sec else 0)
       (len (wireHeader fmt enc)) (len (Binary.PutUvarint (uint64 (len (map fst l)))) +
        len (flat_map (metaBytes fmt) (map fst l)))
       (len (wireHeader fmt enc) + len (wireSymbols fmt sec secCrc) + len (wireBody l)))).
    assert (len (map fst l) <= len (flat_map (metaBytes fmt) (map fst l))); [|lia].
    apply flat_map_metaBytes_len. }
  rewrite db_uvarint_put by exact Hnl.
  pose proof (len_nonneg (map fst l)).
  destruct (Z.ltb_spec (len (map fst l)) 0); [lia|].
  replace (Z.to_nat (len (map fst l))) with (length l)
    by (unfold len; rewrite length_map; lia).
  rewrite <- (app_nil_r (flat_map (metaBytes fmt) (map fst l))).
  rewrite (readBlocks_wire fmt b l (wireHeader fmt enc ++ wireSymbols fmt sec secCrc)
             (mb ++ Binary.PutUint32 metaCrc
              ++ wireTrailer fmt (if chunkFormatV4 <=? fmt then len sec else 0)
                   (len (wireHeader fmt enc)) (len mb)
                   (len (wireHeader fmt enc) + len (wireSymbols fmt sec secCrc) + len (wireBody l)))
             [] [] 0).
  - cbn [app]. rewrite Z.add_0_l.
    destruct (Z.leb_spec chunkFormatV4 fmt) as [H4|H4]; [|reflexivity].
    unfold b at 1. rewrite readSymbolsSection_wire by assumption.
    destruct (secCrc =? Crc32.Checksum sec); reflexivity.
  - unfold b, wire. rewrite <- !app_assoc. reflexivity.
  - rewrite len_app. exact Hoff.
  - exact Hwt.
  - exact Hlen.
Qed.

(** X17, the chunk half of a checkpoint.  The bytes that
    [SerializeForCheckpointTo] writes for the chunk ([writeTo] for a
    checkpoint) are read back by [MemchunkFromCheckpoint] ([newByteChunk]
    from a checkpoint) without error, whether or not the head is empty: the
    chunk it builds has the version, the encoding and, block by block, the
    payloads and metadata of the blocks of the chunk written, an empty
    ordered head until the head is loaded, the length of the bytes as
    compressed size, and from version 4 the symbol table that
    [symbolizerFromCheckpoint] makes of the checkpointed one. *)
Theorem checkpoint_chunk_round_trip :
  forall (c : MemChunk) (bs ts : Z),
    validFormat (format c) ->
    0 <= encoding c < 256 ->
    (format c = chunkFormatV1 -> encoding c = EncGZIP) ->
    Forall wtBlock (blocks c) ->
    len (fst (writeTo c true)) < 2 ^ 63 ->
    exists c',
      newByteChunk (fst (writeTo c true)) bs ts true = Ok c' /\
      format c' = format c /\ encoding c' = encoding c /\
      blockSize c' = bs /\ targetSize c' = ts /\
      Forall2 (sameWire (format c)) (blocks c') (blocks c) /\
      head c' = OrderedHead headBlock_empty /\
      compressedSize c' = len (fst (writeTo c true)) /\
      c_symbolizer c'
      = (if chunkFormatV4 <=? format c
         then symFromCheckpoint (symCheckpoint (c_symbolizer c))
         else newSymbolizer).
Proof.
  intros c bs ts Hf He Hg Hwt Hlen.
  pose proof (writeTo_checkpoint_wire c) as W. cbv zeta in W. rewrite W in *.
  set (sec := symCheckpoint (c_symbolizer c)) in *.
  set (off0 := len (wireHeader (format c) (encoding c))
               + len (wireSymbols (format c) sec (Crc32.Checksum sec))) in *.
  set (l := withOffsets (map sealed (blocks c)) off0) in *.
  rewrite <- (wireBody_withOffsets (map sealed (blocks c)) off0) in *. fold l in Hlen |- *.
  rewrite newByteChunk_checkpoint_wire; try assumption.
  - rewrite Z.eqb_refl. cbn [negb]. rewrite Z.eqb_refl. cbn [negb].
    assert (Eenc : (if format c =? chunkFormatV1 then EncGZIP else encoding c) = encoding c).
    { destruct (Z.eqb_spec (format c) chunkFormatV1) as [E|E]; [symmetry; auto|reflexivity]. }
    rewrite Eenc.
    assert (Hl : Forall2 (sameWire (format c)) (loaded (format c) l) (blocks c)).
    { unfold loaded, l. rewrite filter_crcOk_sealed.
      apply Forall2_sameWire_sym. apply sameWire_read. }
    destruct (chunkFormatV4 <=? format c); eexists; (split; [reflexivity|]);
      cbn [byteChunk format encoding c_symbolizer blocks head blockSize targetSize
           compressedSize];
      repeat split; try reflexivity; exact Hl.
  - apply Checksum_range.
  - apply Checksum_range.
  - apply withOffsets_idem.
  - unfold l. clear - Hwt. generalize off0.
    induction Hwt as [|b bs Hb _ IH]; intros off; cbn [map sealed withOffsets]; constructor.
    + cbn [fst snd]. split; [|apply Checksum_range].
      unfold wtBlock, set_offset in *. cbn. exact Hb.
    + apply IH.
Qed.

End Checkpoint.

(** ** Further properties at concrete inputs *)

Lemma plain_compress_nonempty (enc : Encoding) (b : bytes) :
  b <> [] -> compress (Pools := PlainPools) enc b <> [].
Proof. intros H. exact H. Defined.

Lemma forward_iteration_contents_witness :
  Iterator (P := PlainPools) (fst exRun) 2 10 FORWARD NoopPipeline false
  = Ok [exE 2 [99]; exE 2 [100; 101; 102]; exE 5 [103]] /\
  snd exRun = exEntries.
Proof.
  pose proof (forward_iteration_contents (P := PlainPools) plain_decompress_compress
                plain_compress_nonempty EncNone 4 0 exEntries 2 10 NoopPipeline false) as H.
  cbv zeta in H.
  destruct H as [H1 H2];
    [each_value|each_value|each_value|exact NoopPipeline_singleStream|].
  split.
  - unfold exRun. rewrite H1. vm_compute; reflexivity.
  - apply H2. vm_compute. repeat constructor; numerals.
Defined.

Lemma forward_iteration_any_pipeline_witness :
  exists l,
    Iterator (P := PlainPools) (fst exTiesRun) 0 10 FORWARD byLine false = Ok l /\
    Permutation l
      (flat_map (emitted byLine) (filter (inRange 0 10) (map stored (snd exTiesRun)))) /\
    Sorted Z.le (map Timestamp l).
Proof.
  apply (forward_iteration_any_pipeline (P := PlainPools) plain_decompress_compress
           plain_compress_nonempty EncNone 1024 0 exTies 0 10 byLine false);
    each_value.
Defined.

(** Under [byLine] the head groups the two entries with line 120 into one
    stream, so the entry appended last is emitted before the one appended
    second. *)
Lemma head_streams_regroup_ties :
  snd exTiesRun = exTies /\
  Iterator (P := PlainPools) (fst exTiesRun) 0 10 FORWARD byLine false
  = Ok [exE 1 [120]; exE 2 [120]; exE 2 [121]].
Proof. split; vm_compute; reflexivity. Qed.

Lemma backward_iteration_reverses_forward_witness :
  exists l,
    Iterator (P := PlainPools) (fst exRun) 0 10 FORWARD NoopPipeline false = Ok l /\
    Iterator (P := PlainPools) (fst exRun) 0 10 BACKWARD NoopPipeline false = Ok (rev l).
Proof.
  apply (backward_iteration_reverses_forward (P := PlainPools) plain_decompress_compress
           plain_compress_nonempty EncNone 4 0 exEntries 0 10 NoopPipeline false);
    first [each_value | exact NoopPipeline_singleStream].
Defined.

Lemma Bounds_of_appended_witness :
  Bounds (fst exRun) = (1, 5).
Proof.
  pose proof (Bounds_of_appended (P := PlainPools) EncNone 4 0 exEntries) as H.
  cbv zeta in H. unfold exRun. rewrite H; [vm_compute; reflexivity|each_value|each_value].
Defined.

Lemma Close_keeps_entries_witness :
  exists c',
    Close (P := PlainPools) 0 (fst exRun) = Ok c' /\
    HeadBlock_IsEmpty (head c') = true /\
    Size c' = Size (fst exRun) /\
    forall mint maxt d p keep,
      singleStream p ->
      Iterator (P := PlainPools) c' mint maxt d p keep
      = Iterator (P := PlainPools) (fst exRun) mint maxt d p keep.
Proof.
  apply (Close_keeps_entries (P := PlainPools) plain_decompress_compress
           plain_compress_nonempty EncNone 4 0 exEntries 0%nat);
    each_value.
Defined.

Lemma Rebound_keeps_range_witness :
  Rebound (P := PlainPools) 1 (fst exRun) 100000000 200000000 None
  = Err ErrSliceNoDataInRange /\
  exists c',
    Rebound (P := PlainPools) 1 (fst exRun) 2 3 None = Ok c' /\
    Size c' = 3 /\
    forall mint maxt p keep,
      Iterator (P := PlainPools) c' mint maxt FORWARD p keep
      = Ok (flat_map (emitted p)
              (filter (inRange mint maxt)
                 (map stored (reboundKeeps 2 3 None (snd exRun))))).
Proof.
  split.
  - pose proof (Rebound_keeps_range (P := PlainPools) plain_decompress_compress
                  plain_compress_nonempty EncNone 4 0 exEntries 0%nat
                  100000000 200000000 None) as H.
    cbv zeta in H. destruct H as [H _]; [each_value|each_value|each_value|].
    apply H. vm_compute; reflexivity.
  - pose proof (Rebound_keeps_range (P := PlainPools) plain_decompress_compress
                  plain_compress_nonempty EncNone 4 0 exEntries 0%nat 2 3 None) as H.
    cbv zeta in H. destruct H as [_ H]; [each_value|each_value|each_value|].
    destruct H as (c' & R & S & I); [vm_compute; intros E; discriminate E|].
    exists c'. split; [exact R|]. split; [rewrite S; vm_compute; reflexivity|exact I].
Defined.

Lemma block_decode_round_trip_witness :
  blockEntries (P := PlainPools) EncNone chunkFormatV3 newSymbolizer
    (headBlock_Serialise (P := PlainPools) EncNone exHead)
  = Ok ([(1, [97; 98], []); (2, [], []); (7, [99], [])], None).
Proof.
  apply (block_decode_round_trip (P := PlainPools) EncNone chunkFormatV3 newSymbolizer exHead).
  - apply plain_decompress_compress.
  - reflexivity.
  - each_value.
  - each_value.
Defined.

Lemma block_decode_line_too_long_witness :
  blockEntries (P := PlainPools) EncNone chunkFormatV3 newSymbolizer
    ([2; 1; 97] ++ Binary.PutVarint 3 ++ Binary.PutUvarint maxLineLength ++ [98; 99])
  = Ok ([(1, [97], [])], Some (ErrLineTooLong maxLineLength)) /\
  blockEntries (P := PlainPools) EncNone chunkFormatV3 newSymbolizer
    ([2; 1; 97] ++ Binary.PutVarint 3 ++ Binary.PutUvarint (2 ^ 63) ++ [98; 99])
  = Panic.
Proof.
  split.
  - rewrite (block_decode_line_too_long (P := PlainPools) EncNone chunkFormatV3 newSymbolizer
               ([2; 1; 97] ++ Binary.PutVarint 3 ++ Binary.PutUvarint maxLineLength ++ [98; 99])
               [{| e_t := 1; e_s := [97]; e_nonIndexedLabels := [] |}] 3 maxLineLength
               [98; 99]).
    + reflexivity.
    + reflexivity.
    + repeat constructor; numerals.
    + repeat constructor; numerals.
    + split; numerals.
    + split; numerals.
    + vm_compute; reflexivity.
  - rewrite (block_decode_line_too_long (P := PlainPools) EncNone chunkFormatV3 newSymbolizer
               ([2; 1; 97] ++ Binary.PutVarint 3 ++ Binary.PutUvarint (2 ^ 63) ++ [98; 99])
               [{| e_t := 1; e_s := [97]; e_nonIndexedLabels := [] |}] 3 (2 ^ 63)
               [98; 99]).
    + reflexivity.
    + reflexivity.
    + repeat constructor; numerals.
    + repeat constructor; numerals.
    + split; numerals.
    + split; numerals.
    + vm_compute; reflexivity.
Defined.

Lemma block_decode_truncated_witness :
  blockEntries (P := PlainPools) EncNone chunkFormatV3 newSymbolizer [2; 1; 97; 128]
  = Ok ([(1, [97], [])], Some ErrInvalidData) /\
  blockEntries (P := PlainPools) EncNone chunkFormatV3 newSymbolizer [2; 1; 97; 6; 5; 98]
  = Ok ([(1, [97], [])], Some ErrEOF).
Proof.
  split.
  - destruct (block_decode_truncated (P := PlainPools) EncNone chunkFormatV3 newSymbolizer
                [2; 1; 97; 128] [{| e_t := 1; e_s := [97]; e_nonIndexedLabels := [] |}])
      as [H _].
    + reflexivity.
    + repeat constructor; numerals.
    + repeat constructor; numerals.
    + apply (H [128]).
      * repeat constructor; numerals.
      * split; numerals.
      * vm_compute; reflexivity.
  - destruct (block_decode_truncated (P := PlainPools) EncNone chunkFormatV3 newSymbolizer
                [2; 1; 97; 6; 5; 98] [{| e_t := 1; e_s := [97]; e_nonIndexedLabels := [] |}])
      as [_ H].
    + reflexivity.
    + repeat constructor; numerals.
    + repeat constructor; numerals.
    + apply (H 3 5 [98]).
      * split; numerals.
      * split; numerals.
      * vm_compute; reflexivity.
Defined.

Lemma headBlock_checkpoint_round_trip_witness :
  headBlock_LoadBytes headBlock_empty (headBlock_CheckpointBytes exHead) = Ok (None, exHead).
Proof.
  apply (headBlock_checkpoint_round_trip exHead headBlock_empty).
  - numerals.
  - split; numerals.
  - split; numerals.
  - split; numerals.
  - each_value.
Defined.

Lemma headBlock_CheckpointSize_bounds_checkpoint_witness :
  len (headBlock_CheckpointBytes exHead) <= headBlock_CheckpointSize exHead.
Proof.
  apply (headBlock_CheckpointSize_bounds_checkpoint exHead).
  - numerals.
  - split; numerals.
  - each_value.
Defined.

Lemma BytesSize_bounds_Bytes_witness :
  len (Bytes (P := PlainPools) exClosed) <= BytesSize (fun _ => 0) exClosed.
Proof.
  apply (BytesSize_bounds_Bytes (P := PlainPools) (fun _ => 0) exClosed).
  - reflexivity.
  - numerals.
  - each_value.
Defined.

Lemma NewByteChunk_truncated_panics_witness :
  NewByteChunk (P := PlainPools) (Binary.PutUint32 magicNumber ++ [3; 0; 7]) 4 0 = Panic.
Proof.
  apply (NewByteChunk_truncated_panics (P := PlainPools)
           (Binary.PutUint32 magicNumber ++ [3; 0; 7]) 3 0 4 0).
  - vm_compute; reflexivity.
  - numerals.
Defined.

Lemma encodeVarintFrontend_writes_uvarint_witness :
  sovFrontend 300 = 2 /\
  encodeVarintFrontend [9; 9; 9; 9; 9] 4 300 = Ok ([9; 9; 172; 2; 9], 2) /\
  encodeVarintFrontend [9; 9; 9; 9; 9] 1 300 = Panic.
Proof.
  destruct (encodeVarintFrontend_writes_uvarint [9; 9; 9; 9; 9] 4 300) as (H1 & H2 & _).
  - split; numerals.
  - numerals.
  - destruct (encodeVarintFrontend_writes_uvarint [9; 9; 9; 9; 9] 1 300) as (_ & _ & H3).
    + split; numerals.
    + numerals.
    + split; [rewrite H1; vm_compute; reflexivity|].
      split; [rewrite H2; [vm_compute; reflexivity|numerals]|].
      apply H3. numerals.
Defined.

Lemma checkpoint_chunk_round_trip_witness :
  (length (blocks exV4) = 1%nat /\
   HeadBlock_IsEmpty (head exV4) = false) /\
  exists c',
    newByteChunk (P := PlainPools) (fst (writeTo (P := PlainPools) exV4 true)) 4 0 true
    = Ok c' /\
    format c' = format exV4 /\ encoding c' = encoding exV4 /\
    blockSize c' = 4 /\ targetSize c' = 0 /\
    Forall2 (sameWire (format exV4)) (blocks c') (blocks exV4) /\
    head c' = OrderedHead headBlock_empty /\
    compressedSize c' = len (fst (writeTo (P := PlainPools) exV4 true)) /\
    c_symbolizer c'
    = (if chunkFormatV4 <=? format exV4
       then symFromCheckpoint (Pools := PlainPools)
              (symCheckpoint (Pools := PlainPools) (c_symbolizer exV4))
       else newSymbolizer).
Proof.
  split; [split; vm_compute; reflexivity|].
  apply (checkpoint_chunk_round_trip (P := PlainPools) exV4 4 0).
  - right; right; right; reflexivity.
  - split; numerals.
  - intros E; discriminate E.
  - each_value.
  - numerals.
Defined.
